(** * Sanity blog importer: a shallow embedding of [scripts/import-posts.mjs]

  The development follows the layout of the script:
  - [Str]      string primitives of the JavaScript runtime used by the script;
  - [Js]       JavaScript values (objects keep their property order);
  - [Keys]     the state-and-exception monad in which [generateKey] runs;
  - [Splitter] token replacement inside Portable Text;
  - [Extract]  the inline image extractor and its regular expression;
  - [Validate] frontmatter validation;
  - [Retry]    the retry wrapper;
  - [Importer] per-file import against an abstract backend;
  - [Uploader] the asset cache and the in-flight upload map as a
               transition system over the event loop;
  - [Main]     the run over all the files found.

  Strings are sequences of code units; the development covers code units
  below 256 (one [ascii] each). *)

From Stdlib Require Import String Ascii ZArith Lia Bool Finite.
From stdpp Require Import base option list strings pretty gmap.

Set Warnings "-register-all".

Local Open Scope string_scope.
Local Open Scope list_scope.

(* ------------------------------------------------------------------ *)
(** ** String primitives *)
(* ------------------------------------------------------------------ *)
Module Str.

(** [WhiteSpace] and [LineTerminator] code units below 256: what
    [String.prototype.trim] strips and what [\s] matches. *)
Definition is_ws (c : ascii) : bool :=
  let n := nat_of_ascii c in
  Nat.eqb n 9 || Nat.eqb n 10 || Nat.eqb n 11 || Nat.eqb n 12
  || Nat.eqb n 13 || Nat.eqb n 32 || Nat.eqb n 160.

Definition len (s : string) : nat := String.length s.

Definition nonempty (s : string) : bool :=
  match s with EmptyString => false | String _ _ => true end.

(** [s.slice(0, n)] *)
Fixpoint take (n : nat) (s : string) : string :=
  match n, s with
  | S n', String c s' => String c (take n' s')
  | _, _ => EmptyString
  end.

(** [s.slice(n)] *)
Fixpoint drop (n : nat) (s : string) : string :=
  match n, s with
  | S n', String _ s' => drop n' s'
  | _, _ => s
  end.

(** [s.startsWith(t)] *)
Definition startsWith (s t : string) : bool := String.prefix t s.

(** [s.indexOf(t)]; [None] stands for [-1]. *)
Fixpoint indexOf (s t : string) : option nat :=
  if String.prefix t s then Some 0
  else match s with
       | EmptyString => None
       | String _ s' => S <$> indexOf s' t
       end.

(** [s.includes(t)] *)
Definition includes (s t : string) : bool :=
  match indexOf s t with Some _ => true | None => false end.

Fixpoint trimStart (s : string) : string :=
  match s with
  | String c s' => if is_ws c then trimStart s' else s
  | EmptyString => EmptyString
  end.

Fixpoint trimEnd (s : string) : string :=
  match s with
  | String c s' =>
      match trimEnd s' with
      | EmptyString => if is_ws c then EmptyString else String c EmptyString
      | r => String c r
      end
  | EmptyString => EmptyString
  end.

(** [s.trim()] *)
Definition trim (s : string) : string := trimEnd (trimStart s).

(** [xs.join(sep)] on an array of strings *)
Fixpoint join (sep : string) (xs : list string) : string :=
  match xs with
  | [] => ""
  | [x] => x
  | x :: r => x +:+ sep +:+ join sep r
  end.

(** [xs.join("")] *)
Definition concat (xs : list string) : string := fold_right String.append "" xs.

(** A string occurs in another one at some offset. *)
Definition occurs_at (t s : string) (i : nat) : Prop :=
  String.prefix t (drop i s) = true ∧ i + len t <= len s.

End Str.

(* ------------------------------------------------------------------ *)
(** ** JavaScript values *)
(* ------------------------------------------------------------------ *)
Module Js.

(** Data as the script sees it: what JSON and YAML give.  An object is the
    list of its own enumerable properties in creation order.

    A number is given by the string [String] makes of it ([42], [1.5],
    [1e+21], [NaN], [Infinity]): that string names the number, up to the
    sign of zero, which the script never looks at.

    [VDate] is a [Date], which the YAML parser makes of a timestamp such as
    [publishedAt: 2025-01-01]; it is given by the string [String] makes of
    it. It has no own enumerable property, and the script does nothing else
    with it than test it, turn it into a string or pass it on. *)
Inductive value :=
| VUndef
| VNull
| VBool (b : bool)
| VNum (shown : string)
| VStr (s : string)
| VArr (xs : list value)
| VObj (fs : list (string * value))
| VDate (shown : string).

Definition fields := list (string * value).

(** [ToBoolean] *)
Definition truthy (v : value) : bool :=
  match v with
  | VUndef | VNull => false
  | VBool b => b
  | VNum n => negb (String.eqb n "0" || String.eqb n "NaN")
  | VStr s => Str.nonempty s
  | VArr _ | VObj _ | VDate _ => true
  end.

(** [v === "s"] *)
Definition str_eq (v : value) (s : string) : bool :=
  match v with VStr x => String.eqb x s | _ => false end.

(** [typeof v === "string"] *)
Definition is_string (v : value) : bool :=
  match v with VStr _ => true | _ => false end.

(** [Array.isArray(v)] *)
Definition isArray (v : value) : bool :=
  match v with VArr _ => true | _ => false end.

Fixpoint lookup_field (k : string) (fs : fields) : value :=
  match fs with
  | [] => VUndef
  | (k', v) :: r => if String.eqb k' k then v else lookup_field k r
  end.

(** [v?.k]: reading a property never throws. *)
Definition prop_opt (v : value) (k : string) : value :=
  match v with VObj fs => lookup_field k fs | _ => VUndef end.

(** [o.k = v] on the property list: an existing property keeps its place,
    a new one goes last. *)
Fixpoint set_field (k : string) (v : value) (fs : fields) : fields :=
  match fs with
  | [] => [(k, v)]
  | (k', v') :: r =>
      if String.eqb k' k then (k', v) :: r else (k', v') :: set_field k v r
  end.

Fixpoint index_from {A} (i : nat) (xs : list A) : list (string * A) :=
  match xs with
  | [] => []
  | x :: r => (pretty i, x) :: index_from (S i) r
  end.

Fixpoint chars (s : string) : list value :=
  match s with
  | EmptyString => []
  | String c r => VStr (String c EmptyString) :: chars r
  end.

(** The own enumerable properties copied by [{...v}]. *)
Definition spread (v : value) : fields :=
  match v with
  | VObj fs => fs
  | VArr xs => index_from 0 xs
  | VStr s => index_from 0 (chars s)
  | _ => []
  end.

(** [{...v, k: x}] *)
Definition with_field (v : value) (k : string) (x : value) : value :=
  VObj (set_field k x (spread v)).

Definition elems (v : value) : list value :=
  match v with VArr xs => xs | _ => [] end.

(** [String(v)], as in a template literal. *)
Fixpoint to_string (v : value) : string :=
  match v with
  | VUndef => "undefined"
  | VNull => "null"
  | VBool true => "true"
  | VBool false => "false"
  | VNum n => n
  | VStr s => s
  | VArr xs =>
      Str.join ","
        (map (fun x => match x with
                       | VUndef | VNull => ""
                       | _ => to_string x
                       end) xs)
  | VObj _ => "[object Object]"
  | VDate d => d
  end.

(** [a || b] *)
Definition or_else (a b : value) : value := if truthy a then a else b.

End Js.
Export Js.

(* ------------------------------------------------------------------ *)
(** ** Exceptions, and the monad of [generateKey] *)
(* ------------------------------------------------------------------ *)

(** What a [throw] carries: the runtime's [TypeError] on a property read of
  [null] or [undefined], an [Error] built by the script with its message,
  or an error object of the client library. [Fuel] marks a loop of the
  model cut short; no run reaches it (see [splitSpan_total]). *)
Record neterr := NetErr {
  statusCode : option Z;
  code : option string;
  message : option string;
}.

Inductive exn :=
| TypeError
| Error (msg : string)
| ClientError (e : neterr)
| Fuel.

Inductive result (A : Type) :=
| Ok (a : A)
| Throw (e : exn).
Arguments Ok {A} a.
Arguments Throw {A} e.

(** [v.k]: throws on [null] and [undefined]. *)
Definition prop (v : value) (k : string) : result value :=
  match v with
  | VUndef | VNull => Throw TypeError
  | _ => Ok (prop_opt v k)
  end.

(** State and exceptions. In [K] the state is the number of keys drawn so
    far. *)
Definition ST (S A : Type) : Type := S → result A * S.
Abbreviation K := (ST nat).

Definition kret {S A} (a : A) : ST S A := fun n => (Ok a, n).
Definition kthrow {S A} (e : exn) : ST S A := fun n => (Throw e, n).
Definition kbind {S A B} (f : A → ST S B) (m : ST S A) : ST S B :=
  fun n => match m n with
           | (Ok a, n') => f a n'
           | (Throw e, n') => (Throw e, n')
           end.
Definition klift {S A} (r : result A) : ST S A := fun n => (r, n).

#[global] Instance ST_ret {S} : MRet (ST S) := @kret S.
#[global] Instance ST_bind {S} : MBind (ST S) := @kbind S.

Fixpoint kmapM {S A B} (f : A → ST S B) (xs : list A) : ST S (list B) :=
  match xs with
  | [] => mret []
  | x :: r => y ← f x; ys ← kmapM f r; mret (y :: ys)
  end.

Fixpoint kfoldM {S A T} (f : T → A → ST S T) (xs : list A) (s : T) : ST S T :=
  match xs with
  | [] => mret s
  | x :: r => s' ← f s x; kfoldM f r s'
  end.

(* ------------------------------------------------------------------ *)
(** ** Inline image tokens inside Portable Text *)
(* ------------------------------------------------------------------ *)
Module Splitter.

(** [Object.keys(o)]: array indices first, in ascending order, then the
    other string keys in creation order. *)
Fixpoint digits_to_N (s : string) (acc : N) : option N :=
  match s with
  | EmptyString => Some acc
  | String c r =>
      match Ascii.is_nat c with
      | Some d => digits_to_N r (acc * 10 + N.of_nat d)%N
      | None => None
      end
  end.

Definition array_index (s : string) : option N :=
  if Str.nonempty s then
    match digits_to_N s 0 with
    | Some n => if String.eqb (pretty n) s && (n <? 4294967295)%N then Some n else None
    | None => None
    end
  else None.

Fixpoint insert_index (x : N * string) (l : list (N * string)) : list (N * string) :=
  match l with
  | [] => [x]
  | y :: r => if (fst x <? fst y)%N then x :: y :: r else y :: insert_index x r
  end.

Definition index_keys (ks : list string) : list (N * string) :=
  fold_left (fun acc k => match array_index k with
                          | Some n => insert_index (n, k) acc
                          | None => acc
                          end) ks [].

Definition object_keys (o : fields) : list string :=
  let ks := map fst o in
  map snd (index_keys ks)
  ++ List.filter (fun k => match array_index k with Some _ => false | None => true end) ks.

Section WithRandom.

(** [randomHex n] is what the [n]-th call of
    [crypto.randomBytes(6).toString("hex")] of the run returns. *)
Variable randomHex : nat → string.

Definition generateKey : K string := fun n => (Ok (randomHex n), S n).

(** [c && c._type === "span"] *)
Definition is_span (c : value) : bool :=
  truthy c && str_eq (prop_opt c "_type") "span".

(** [c && c._type === "span" && typeof c.text === "string"] *)
Definition is_text_span (c : value) : bool :=
  truthy c && str_eq (prop_opt c "_type") "span" && is_string (prop_opt c "text").

(** [typeof c.text === "string" ? c.text : ""] *)
Definition text_or_empty (c : value) : string :=
  match prop_opt c "text" with VStr s => s | _ => "" end.

Definition isTokenOnlyBlock (block : value) (token : string) : bool :=
  if negb (str_eq (prop_opt block "_type") "block")
     || negb (isArray (prop_opt block "children"))
  then false
  else
    let text := Str.concat (map text_or_empty
                  (List.filter is_span (elems (prop_opt block "children")))) in
    String.eqb (Str.trim text) token.

Definition blockContainsAnyToken (block : value) (tokens : list string) : bool :=
  if negb (str_eq (prop_opt block "_type") "block")
     || negb (isArray (prop_opt block "children"))
  then false
  else
    let full := Str.concat (map text_or_empty
                  (List.filter is_text_span (elems (prop_opt block "children")))) in
    existsb (fun t => Str.includes full t) tokens.

Definition meaningful_child (c : value) : bool :=
  if negb (truthy c) then false
  else if negb (str_eq (prop_opt c "_type") "span") then true
  else match prop_opt c "text" with
       | VStr s => Nat.ltb 0 (Str.len (Str.trim s))
       | _ => false
       end.

Definition hasMeaningfulChildren (block : value) : bool :=
  if negb (truthy block) || negb (isArray (prop_opt block "children")) then false
  else existsb meaningful_child (elems (prop_opt block "children")).

(** The paragraph under construction: its key and the children pushed so
    far.  [block_of] is the object the script holds in [current]. *)
Record current := Current { cur_key : string; cur_children : list value }.

Definition block_of (block : value) (c : current) : value :=
  VObj [("_key", VStr (cur_key c));
        ("_type", VStr "block");
        ("style", if truthy (prop_opt block "style")
                  then prop_opt block "style" else VStr "normal");
        ("markDefs", if isArray (prop_opt block "markDefs")
                     then prop_opt block "markDefs" else VArr []);
        ("children", VArr (cur_children c))].

Definition split_state : Type := list value * current.

Definition push_child (c : value) (st : split_state) : split_state :=
  (fst st, Current (cur_key (snd st)) (cur_children (snd st) ++ [c])).

Definition push_out (b : value) (st : split_state) : split_state :=
  (fst st ++ [b], snd st).

Definition newCurrent (block : value) : K current :=
  key ← generateKey;
  _ ← klift (prop block "style");
  mret (Current key []).

Definition flushCurrent (block : value) (st : split_state) : K split_state :=
  let out := if hasMeaningfulChildren (block_of block (snd st))
             then fst st ++ [block_of block (snd st)] else fst st in
  cur ← newCurrent block;
  mret (out, cur).

(** [{ ...child, _key: generateKey(), text }] *)
Definition fragment (child : value) (key text : string) : value :=
  VObj (set_field "text" (VStr text) (set_field "_key" (VStr key) (spread child))).

Definition pushFragment (child : value) (text : string) (st : split_state)
  : K split_state :=
  if Nat.ltb 0 (Str.len text)
  then key ← generateKey; mret (push_child (fragment child key text) st)
  else mret st.

(** The inner [for (const t of tokens)] loop: the token whose first
    occurrence is leftmost, the earlier token winning a tie. *)
Definition nearestStep (text : string) (acc : option (nat * string)) (t : string)
  : option (nat * string) :=
  match Str.indexOf text t with
  | Some idx =>
      match acc with
      | None => Some (idx, t)
      | Some (nearestIdx, _) => if Nat.ltb idx nearestIdx then Some (idx, t) else acc
      end
  | None => acc
  end.

Definition findNearest (tokens : list string) (text : string) : option (nat * string) :=
  fold_left (nearestStep text) tokens None.

(** [if (!nearestToken)]: no token found, or the empty string. *)
Definition nearestToken (tokens : list string) (text : string) : option (nat * string) :=
  match findNearest tokens text with
  | Some (idx, t) => if Str.nonempty t then Some (idx, t) else None
  | None => None
  end.

(** [{ ...tokenToImageBlock[t], _key: generateKey() }] *)
Definition imageBlock (tokenToImageBlock : fields) (t key : string) : value :=
  with_field (lookup_field t tokenToImageBlock) "_key" (VStr key).

(** The [while (true)] loop over one span. *)
Fixpoint splitSpan (fuel : nat) (block : value) (tokens : list string)
  (tokenToImageBlock : fields) (child : value) (text : string)
  (st : split_state) : K split_state :=
  match fuel with
  | 0 => kthrow Fuel
  | S fuel' =>
      match nearestToken tokens text with
      | None => pushFragment child text st
      | Some (nearestIdx, t) =>
          let before := Str.take nearestIdx text in
          let after := Str.drop (nearestIdx + Str.len t) text in
          st1 ← pushFragment child before st;
          st2 ← flushCurrent block st1;
          key ← generateKey;
          splitSpan fuel' block tokens tokenToImageBlock child after
            (push_out (imageBlock tokenToImageBlock t key) st2)
      end
  end.

(** [child._key ? child : { ...child, _key: generateKey() }] *)
Definition ensureKey (v : value) : K value :=
  k ← klift (prop v "_key");
  if truthy k then mret v
  else key ← generateKey; mret (with_field v "_key" (VStr key)).

Definition splitChild (block : value) (tokens : list string)
  (tokenToImageBlock : fields) (st : split_state) (child : value) : K split_state :=
  if negb (truthy child)
     || negb (str_eq (prop_opt child "_type") "span")
     || negb (is_string (prop_opt child "text"))
  then c ← ensureKey child; mret (push_child c st)
  else splitSpan (S (Str.len (text_or_empty child))) block tokens tokenToImageBlock
         child (text_or_empty child) st.

(** What [for (const child of block.children)] iterates over. *)
Definition iterate (v : value) : result (list value) :=
  match v with
  | VArr xs => Ok xs
  | VStr s => Ok (chars s)
  | _ => Throw TypeError
  end.

Definition splitBlockByTokensPreserveMarks (block : value) (tokens : list string)
  (tokenToImageBlock : fields) : K (list value) :=
  cur ← newCurrent block;
  children ← klift (iterate (prop_opt block "children"));
  st ← kfoldM (splitChild block tokens tokenToImageBlock) children ([], cur);
  st' ← flushCurrent block st;
  mret (fst st').

Definition replaceBlock (tokens : list string) (tokenToImageBlock : fields)
  (block : value) : K (list value) :=
  if negb (str_eq (prop_opt block "_type") "block") then
    b ← ensureKey block; mret [b]
  else
    match find (fun t => isTokenOnlyBlock block t) tokens with
    | Some t =>
        if Str.nonempty t then
          key ← generateKey; mret [imageBlock tokenToImageBlock t key]
        else if blockContainsAnyToken block tokens then
          splitBlockByTokensPreserveMarks block tokens tokenToImageBlock
        else mret [block]
    | None =>
        if blockContainsAnyToken block tokens then
          splitBlockByTokensPreserveMarks block tokens tokenToImageBlock
        else mret [block]
    end.

Definition replaceTokensWithImageBlocksPreserveMarks (ptBlocks : list value)
  (tokenToImageBlock : fields) : K (list value) :=
  let tokens := object_keys tokenToImageBlock in
  kfoldM (fun out block =>
            r ← replaceBlock tokens tokenToImageBlock block; mret (out ++ r))
         ptBlocks [].

(** [o.k = v] *)
Definition assign (o : value) (k : string) (v : value) : value :=
  match o with VObj fs => VObj (set_field k v fs) | _ => o end.

Definition ensureKeys (ptBlocks : list value) : K (list value) :=
  kmapM (fun block =>
           b ← ensureKey block;
           if isArray (prop_opt b "children") then
             ch ← kmapM ensureKey (elems (prop_opt b "children"));
             mret (assign b "children" (VArr ch))
           else mret b) ptBlocks.

Definition UNSUPPORTED_BLOCK_TYPES : list string := ["horizontal-rule"].

Definition filterUnsupportedBlocks (ptBlocks : list value) : list value :=
  List.filter (fun block =>
                 negb (existsb (str_eq (prop_opt block "_type")) UNSUPPORTED_BLOCK_TYPES))
              ptBlocks.

End WithRandom.
End Splitter.

(* ------------------------------------------------------------------ *)
(** ** What splitting a block is expected to keep *)
(* ------------------------------------------------------------------ *)
Module SplitterSpec.
Import Splitter.

Definition substring_of (x s : string) : Prop := ∃ a b, s = a +:+ x +:+ b.

(** No token occurs in the string. *)
Definition token_free (tokens : list string) (s : string) : Prop :=
  ∀ t, In t tokens → Str.includes s t = false.

Definition nonempty_tokens (tokens : list string) : Prop :=
  ∀ t, In t tokens → Str.nonempty t = true.

(** A child of a rebuilt paragraph and the child of the original block it
    comes from: a child that is no text span is kept (with a key when it had
    none); a text span gives fragments [{...child, _key, text}] whose text is
    a piece of the span's text in which no token is left. *)
Inductive copy_of (tokens : list string) (c : value) : value → Prop :=
| copy_kept :
    is_text_span c = false → copy_of tokens c c
| copy_keyed (k : string) :
    is_text_span c = false → copy_of tokens c (with_field c "_key" (VStr k))
| copy_fragment (k txt : string) :
    is_text_span c = true →
    substring_of txt (text_or_empty c) →
    (nonempty_tokens tokens → token_free tokens txt) →
    copy_of tokens c (fragment c k txt).

(** Two objects agree on every property but [_key] and [text]. *)
Definition same_but_key_text (c c' : value) : Prop :=
  ∀ f, f ≠ "_key" → f ≠ "text" → prop_opt c' f = prop_opt c f.

(** [block.style || "normal"] and
    [Array.isArray(block.markDefs) ? block.markDefs : []] *)
Definition style_of (block : value) : value :=
  if truthy (prop_opt block "style") then prop_opt block "style" else VStr "normal".

Definition markDefs_of (block : value) : value :=
  if isArray (prop_opt block "markDefs") then prop_opt block "markDefs" else VArr [].

(** The text spans of a block hold no token. *)
Definition clean_block (tokens : list string) (b : value) : Prop :=
  ∀ c, In c (elems (prop_opt b "children")) →
       is_text_span c = true → token_free tokens (text_or_empty c).

(** The children the splitter walks over. *)
Definition children_of (block : value) : list value :=
  match iterate (prop_opt block "children") with
  | Ok xs => xs
  | Throw _ => []
  end.

(** What the splitter may do to a child of the block it splits. *)
Definition child_preserved (c c' : value) : Prop :=
  (is_text_span c = false ∧ (c' = c ∨ ∃ k, c' = with_field c "_key" (VStr k)))
  ∨ (is_text_span c = true
     ∧ same_but_key_text c c'
     ∧ prop_opt c' "marks" = prop_opt c "marks"
     ∧ ∃ txt, prop_opt c' "text" = VStr txt ∧ substring_of txt (text_or_empty c)).

End SplitterSpec.

(* ------------------------------------------------------------------ *)
(** ** Sample data *)
(* ------------------------------------------------------------------ *)
Module Samples.

Definition sampleHex (n : nat) : string := "k" +:+ pretty n.

Definition span (key text : string) (marks : list string) : value :=
  VObj [("_type", VStr "span"); ("_key", VStr key); ("text", VStr text);
        ("marks", VArr (map VStr marks))].

Definition paragraph (key : string) (markDefs children : list value) : value :=
  VObj [("_type", VStr "block"); ("_key", VStr key); ("style", VStr "normal");
        ("markDefs", VArr markDefs); ("children", VArr children)].

Definition token0 : string := "[[[SANITY_IMAGE_0]]]".

Definition linkDef : value :=
  VObj [("_type", VStr "link"); ("_key", VStr "def1"); ("href", VStr "https://example.org")].

(** A bold link with an image token in the middle:
    the paragraph [See **[this TOKEN now](https://example.org)**]. *)
Definition boldLink : value :=
  span "s1" ("this " +:+ token0 +:+ " now") ["strong"; "def1"].

Definition mixedBlock : value :=
  paragraph "b0" [linkDef] [span "s0" "See " []; boldLink].

Definition catImage : value :=
  VObj [("_type", VStr "image");
        ("asset", VObj [("_type", VStr "reference"); ("_ref", VStr "image-abc")]);
        ("alt", VStr "cat"); ("caption", VStr "A cat")].

Definition oneImage : fields := [(token0, catImage)].

(** Frontmatter with neither cover image nor its alternative text. *)
Definition noCover : value :=
  VObj [("title", VStr "Hello"); ("author", VStr "Doc Spinard")].

(** A date parser that knows one date. *)
Definition oneDate (s : string) : option Z :=
  if String.eqb s "2025-01-01" then Some 1735689600000%Z else None.

(** An operation that fails twice with a reset connection, then answers. *)
Definition flaky : ST (list Z) value :=
  fun slept =>
    if Nat.ltb (length slept) 2
    then (Throw (ClientError (NetErr None (Some "ECONNRESET") None)), slept)
    else (Ok (VStr "done"), slept).

(** A text that already holds what will be the first token. *)
Definition collidingMarkdown : string := "[[[SANITY_IMAGE_0]]] ![a](x.png)".

(** The blocks the splitter makes of [mixedBlock]. *)
Definition mixedOut : list value :=
  Eval vm_compute in
    match Splitter.splitBlockByTokensPreserveMarks sampleHex mixedBlock [token0] oneImage 0 with
    | (Ok out, _) => out
    | _ => []
    end.

End Samples.

(* ------------------------------------------------------------------ *)
(** ** Inline image extraction *)
(* ------------------------------------------------------------------ *)
Module Extract.

(** The fragment of regular expressions [IMG_RE] is written in, matched by
    backtracking as the runtime does: greedy repetition of a character
    class, alternation in order, greedy option, and capture groups. *)
Inductive re :=
| Lit (c : ascii)
| Cls (p : ascii → bool)
| Star (p : ascii → bool)
| Seq (r1 r2 : re)
| Alt (r1 r2 : re)
| Opt (r : re)
| Group (i : nat) (r : re).

Definition Plus (p : ascii → bool) : re := Seq (Cls p) (Star p).

Definition captures := list (nat * string).

Section Match.
Context {R : Type}.

(** [p*], the longest run first. *)
Fixpoint star (p : ascii → bool) (s : string) (caps : captures)
  (k : string → captures → option R) : option R :=
  match s with
  | String c s' =>
      if p c then
        match star p s' caps k with
        | Some r => Some r
        | None => k s caps
        end
      else k s caps
  | EmptyString => k s caps
  end.

Fixpoint match_re (r : re) (s : string) (caps : captures)
  (k : string → captures → option R) : option R :=
  match r with
  | Lit c =>
      match s with
      | String c' s' => if Ascii.eqb c c' then k s' caps else None
      | EmptyString => None
      end
  | Cls p =>
      match s with
      | String c' s' => if p c' then k s' caps else None
      | EmptyString => None
      end
  | Star p => star p s caps k
  | Seq r1 r2 => match_re r1 s caps (fun s' caps' => match_re r2 s' caps' k)
  | Alt r1 r2 =>
      match match_re r1 s caps k with
      | Some x => Some x
      | None => match_re r2 s caps k
      end
  | Opt r1 =>
      match match_re r1 s caps k with
      | Some x => Some x
      | None => k s caps
      end
  | Group i r1 =>
      match_re r1 s caps
        (fun s' caps' => k s' ((i, Str.take (Str.len s - Str.len s') s) :: caps'))
  end.

End Match.

Fixpoint seq_of (rs : list re) : re :=
  match rs with
  | [] => Opt (Lit "000")
  | [r] => r
  | r :: rest => Seq r (seq_of rest)
  end.

Definition dquote : ascii := "034".

(** The image pattern of the script, piece by piece: an exclamation mark and
    an opening bracket; group 1, any run without a closing bracket; a
    closing bracket and an opening parenthesis; blanks; either group 2
    between angle brackets (a run of one or more characters other than the
    closing one) or group 3 (one or more characters that are no blank and
    no closing parenthesis); blanks; optionally group 4 between double
    quotes (one or more characters other than the quote); blanks; a closing
    parenthesis. *)
Definition IMG_RE : re :=
  seq_of
    [ Lit "!"; Lit "[";
      Group 1 (Star (fun c => negb (Ascii.eqb c "]")));
      Lit "]"; Lit "(";
      Star Str.is_ws;
      Alt (seq_of [Lit "<"; Group 2 (Plus (fun c => negb (Ascii.eqb c ">"))); Lit ">"])
          (Group 3 (Plus (fun c => negb (Str.is_ws c) && negb (Ascii.eqb c ")"))));
      Star Str.is_ws;
      Opt (seq_of [Lit dquote; Group 4 (Plus (fun c => negb (Ascii.eqb c dquote))); Lit dquote]);
      Star Str.is_ws;
      Lit ")" ].

(** A match of [IMG_RE] at the start of [s]: what follows the match, and
    the groups. *)
Definition match_img (s : string) : option (string * captures) :=
  match_re IMG_RE s [] (fun s' caps => Some (s', caps)).

(** A group that took no part in the match is [undefined]. *)
Fixpoint group (i : nat) (caps : captures) : option string :=
  match caps with
  | [] => None
  | (j, x) :: r => if Nat.eqb i j then Some x else group i r
  end.

(** [(g || "")] *)
Definition or_empty (g : option string) : string :=
  match g with Some x => x | None => "" end.

(** [(g1 || g2 || "")] *)
Definition first_of (g1 g2 : option string) : string :=
  match g1 with
  | Some x => if Str.nonempty x then x else or_empty g2
  | None => or_empty g2
  end.

Record image := Image {
  token : string;
  alt : string;
  src : string;
  caption : string;
}.

(** [`[[[SANITY_IMAGE_${n}]]]`] *)
Definition token_of (n : nat) : string := "[[[SANITY_IMAGE_" +:+ pretty n +:+ "]]]".

Definition newline : string := String "010" EmptyString.

(** The replacer callback: the record it pushes and the text it returns. *)
Definition record_of (images : list image) (caps : captures) : image :=
  Image (token_of (length images))
        (Str.trim (or_empty (group 1 caps)))
        (Str.trim (first_of (group 2 caps) (group 3 caps)))
        (Str.trim (or_empty (group 4 caps))).

Definition replacement (tok : string) : string :=
  newline +:+ newline +:+ tok +:+ newline +:+ newline.

(** [markdown.replace(IMG_RE, callback)] with the [g] flag: the matches are
    looked for from left to right and do not overlap; after an empty match
    the search moves on by one character. [skip] counts the characters of
    the current match still to pass over. *)
Fixpoint replace_go (s : string) (skip : nat) (images : list image)
  : string * list image :=
  match s with
  | EmptyString =>
      match skip, match_img EmptyString with
      | 0, Some (_, caps) =>
          let img := record_of images caps in
          (replacement (token img), images ++ [img])
      | _, _ => (EmptyString, images)
      end
  | String c s' =>
      match skip with
      | S n => replace_go s' n images
      | 0 =>
          match match_img s with
          | Some (rest, caps) =>
              let img := record_of images caps in
              match Str.len s - Str.len rest with
              | S m =>
                  let '(out, imgs) := replace_go s' m (images ++ [img]) in
                  (replacement (token img) +:+ out, imgs)
              | 0 =>
                  let '(out, imgs) := replace_go s' 0 (images ++ [img]) in
                  (replacement (token img) +:+ String c out, imgs)
              end
          | None =>
              let '(out, imgs) := replace_go s' 0 images in
              (String c out, imgs)
          end
      end
  end.

Record extraction := mkExtraction {
  rewrittenMarkdown : string;
  images : list image;
}.

Definition extractInlineImages (markdown : string) : extraction :=
  let '(out, imgs) := replace_go markdown 0 [] in
  mkExtraction out imgs.

(** The pieces of text between the matches, woven with what stands at the
    matches: [weave [p0; p1; p2] [x1; x2] = p0 x1 p1 x2 p2]. *)
Fixpoint weave (pieces : list string) (xs : list string) : string :=
  match pieces, xs with
  | p :: ps, x :: r => p +:+ x +:+ weave ps r
  | p :: _, [] => p
  | [], _ => ""
  end.

(** [o] is an inline image reference and [img] the record made of it:
    the pattern matches exactly [o], whatever follows, and the fields are
    the trimmed groups. *)
Definition is_image_ref (o : string) (img : image) : Prop :=
  ∃ rest caps,
    match_img (o +:+ rest) = Some (rest, caps)
    ∧ alt img = Str.trim (or_empty (group 1 caps))
    ∧ src img = Str.trim (first_of (group 2 caps) (group 3 caps))
    ∧ caption img = Str.trim (or_empty (group 4 caps)).

(** The references are all there are, taken from left to right: inside a
    piece of the other text no match of the pattern starts, whatever the
    match would run into. *)
Fixpoint leftmost (pieces origs : list string) : Prop :=
  match pieces with
  | [] => True
  | p :: ps =>
      (∀ k, k < Str.len p → match_img (Str.drop k (weave pieces origs)) = None)
      ∧ match origs with
        | [] => True
        | _ :: os => leftmost ps os
        end
  end.

End Extract.

(* ------------------------------------------------------------------ *)
(** ** Frontmatter validation *)
(* ------------------------------------------------------------------ *)
Module Validate.
Section WithDate.

(** [Date.parse] on the string its argument converts to; [None] is [NaN]. *)
Variable Date_parse : string → option Z.

Definition check (cond : bool) (msg : string) (errors : list string) : list string :=
  if cond then errors ++ [msg] else errors.

(** The [errors] array at the end of [validateFrontmatter]. *)
Definition frontmatterErrors (fm : value) : list string :=
  let errors := [] in
  let errors := check (negb (truthy (prop_opt fm "title"))) "missing 'title'" errors in
  let errors := check (negb (truthy (prop_opt fm "author"))
                       && negb (truthy (prop_opt fm "authorId")))
                      "missing 'author' or 'authorId'" errors in
  let errors := check (negb (truthy (prop_opt fm "mainImage"))) "missing 'mainImage'" errors in
  let errors := check (negb (truthy (prop_opt fm "mainImageAlt")))
                      "missing 'mainImageAlt'" errors in
  if truthy (prop_opt fm "publishedAt") then
    match Date_parse (to_string (prop_opt fm "publishedAt")) with
    | None => errors ++ ["invalid 'publishedAt' date: "
                         +:+ to_string (prop_opt fm "publishedAt")]
    | Some _ => errors
    end
  else errors.

Definition validation_message (file : string) (errors : list string) : string :=
  "Frontmatter validation failed in " +:+ file +:+ ": " +:+ Str.join ", " errors.

Definition validateFrontmatter (fm : value) (file : string) : result unit :=
  match fm with
  | VUndef | VNull => Throw TypeError
  | _ =>
      let errors := frontmatterErrors fm in
      if Nat.ltb 0 (length errors)
      then Throw (Error (validation_message file errors))
      else Ok tt
  end.

(** The violations the specification lists. A field is missing when it is
    absent or falsy (what [!fm.field] tests), and [publishedAt] is present
    when it is truthy. *)
Definition missing (fm : value) (field : string) : Prop :=
  truthy (prop_opt fm field) = false.

Inductive violation (fm : value) : string → Prop :=
| missing_title :
    missing fm "title" → violation fm "missing 'title'"
| missing_author :
    missing fm "author" → missing fm "authorId" →
    violation fm "missing 'author' or 'authorId'"
| missing_mainImage :
    missing fm "mainImage" → violation fm "missing 'mainImage'"
| missing_mainImageAlt :
    missing fm "mainImageAlt" → violation fm "missing 'mainImageAlt'"
| invalid_publishedAt :
    truthy (prop_opt fm "publishedAt") = true →
    Date_parse (to_string (prop_opt fm "publishedAt")) = None →
    violation fm ("invalid 'publishedAt' date: "
                  +:+ to_string (prop_opt fm "publishedAt")).

End WithDate.
End Validate.

(* ------------------------------------------------------------------ *)
(** ** The retry wrapper *)
(* ------------------------------------------------------------------ *)
Module Retry.

(** [err.statusCode], [err.code] and [err.message] of what was thrown. *)
Definition err_statusCode (e : exn) : option Z :=
  match e with ClientError x => statusCode x | _ => None end.

Definition err_code (e : exn) : option string :=
  match e with ClientError x => code x | _ => None end.

Definition err_message (e : exn) : option string :=
  match e with
  | ClientError x => message x
  | Error msg => Some msg
  | TypeError => Some "TypeError"
  | Fuel => None
  end.

Definition code_is (e : exn) (c : string) : bool :=
  match err_code e with Some x => String.eqb x c | None => false end.

Definition isRetryable (err : exn) : bool :=
  match err_statusCode err with Some n => Z.leb 500 n | None => false end
  || code_is err "ECONNRESET"
  || code_is err "ETIMEDOUT"
  || code_is err "ENOTFOUND"
  || code_is err "ECONNREFUSED"
  || match err_message err with
     | Some m => Str.includes m "socket hang up"
     | None => false
     end.

(** The transient conditions, as the specification names them. *)
Inductive transient (e : exn) : Prop :=
| server_error (n : Z) : err_statusCode e = Some n → (500 <= n)%Z → transient e
| connection_reset : err_code e = Some "ECONNRESET" → transient e
| timed_out : err_code e = Some "ETIMEDOUT" → transient e
| host_not_found : err_code e = Some "ENOTFOUND" → transient e
| connection_refused : err_code e = Some "ECONNREFUSED" → transient e
| socket_hang_up (m a b : string) :
    err_message e = Some m → m = a +:+ "socket hang up" +:+ b → transient e.

Section WithState.
Context {S : Type}.

(** [console.log] and the awaited [setTimeout] act on the state. *)
Variable log : string → S → S.
Variable sleep : Z → S → S.

(** [baseDelay * Math.pow(2, attempt - 1)] *)
Definition delay_of (baseDelay : Z) (attempt : nat) : Z :=
  (baseDelay * 2 ^ Z.of_nat (attempt - 1))%Z.

Definition retry_line (context : string) (attempt maxRetries : nat) (delay : Z) : string :=
  "  [retry] " +:+ context +:+ ": attempt " +:+ pretty (attempt + 1) +:+ "/"
  +:+ pretty maxRetries +:+ " in " +:+ pretty delay +:+ "ms...".

(** The [for] loop from [attempt] on, [remaining] iterations before
    [attempt <= maxRetries] fails. Falling off the loop returns
    [undefined]. *)
Fixpoint attempts (fn : ST S value) (maxRetries : nat) (baseDelay : Z)
  (context : string) (remaining attempt : nat) : ST S value :=
  match remaining with
  | 0 => mret VUndef
  | Datatypes.S remaining' =>
      fun w =>
        match fn w with
        | (Ok a, w') => (Ok a, w')
        | (Throw err, w') =>
            if Nat.eqb attempt maxRetries || negb (isRetryable err)
            then (Throw err, w')
            else
              let delay := delay_of baseDelay attempt in
              attempts fn maxRetries baseDelay context remaining' (Datatypes.S attempt)
                (sleep delay (log (retry_line context attempt maxRetries delay) w'))
        end
  end.

Definition withRetry (fn : ST S value) (maxRetries : nat) (baseDelay : Z)
  (context : string) : ST S value :=
  attempts fn maxRetries baseDelay context maxRetries 1.

(** The wait the specification asks for before the attempt that follows
    attempt [attempt]: the base delay, doubled with every attempt made. *)
Fixpoint backoff (baseDelay : Z) (attempt : nat) : Z :=
  match attempt with
  | Datatypes.S (Datatypes.S _ as earlier) => (2 * backoff baseDelay earlier)%Z
  | _ => baseDelay
  end.

(** The waits of a run that made [n] retries: [baseDelay], twice that, four
    times that, and so on. *)
Definition doubling_waits (baseDelay : Z) (n : nat) : list Z :=
  map (fun k => (baseDelay * 2 ^ Z.of_nat k)%Z) (seq 0 n).

(** An operation that answers by the number of waits made so far, on a
    state that records the waits. *)
Definition answering (op : nat → result value) : ST (list Z) value :=
  fun slept => (op (length slept), slept).

(** The same, told as the specification tells it: an attempt that succeeds
    ends the run; a failed attempt ends it with its error when the error is
    not transient or no attempt is left; otherwise the wrapper waits
    [backoff baseDelay attempt] and goes on with the next attempt. *)
Inductive retry_run (fn : ST S value) (maxRetries : nat) (baseDelay : Z)
  (context : string) : nat → S → result value * S → Prop :=
| run_success attempt w a w' :
    fn w = (Ok a, w') →
    retry_run fn maxRetries baseDelay context attempt w (Ok a, w')
| run_fatal attempt w e w' :
    fn w = (Throw e, w') → ¬ transient e →
    retry_run fn maxRetries baseDelay context attempt w (Throw e, w')
| run_exhausted w e w' :
    fn w = (Throw e, w') →
    retry_run fn maxRetries baseDelay context maxRetries w (Throw e, w')
| run_retry attempt w e w' r :
    fn w = (Throw e, w') → transient e → attempt < maxRetries →
    retry_run fn maxRetries baseDelay context (Datatypes.S attempt)
      (sleep (backoff baseDelay attempt)
         (log (retry_line context attempt maxRetries (backoff baseDelay attempt)) w'))
      r →
    retry_run fn maxRetries baseDelay context attempt w r.

End WithState.
End Retry.

(* ------------------------------------------------------------------ *)
(** ** Importing one file *)
(* ------------------------------------------------------------------ *)
Module Importer.
Import Splitter Extract.

(** What the script asks of the file system, the clock and the content
    backend, and what it writes to the console. *)
Inductive request :=
| ReadFile (path : string) (encoding : option string)
| ExistsSync (path : string)
| Now
| Fetch (query : string) (params : fields)
| CreateIfNotExists (doc : value)
| Upload (filename contentType : string) (buf : value)
| CreateOrReplace (doc : value).

Inductive event :=
| Log (line : string)
| Warn (line : string)
| Sleep (ms : Z)
| Call (r : request) (answer : result value).

(** The requests that go over the network, and those of them that write. *)
Definition is_network (r : request) : bool :=
  match r with
  | Fetch _ _ | CreateIfNotExists _ | Upload _ _ _ | CreateOrReplace _ => true
  | _ => false
  end.

Definition is_write (r : request) : bool :=
  match r with
  | CreateIfNotExists _ | Upload _ _ _ | CreateOrReplace _ => true
  | _ => false
  end.

Definition network_calls (t : list event) : list request :=
  omap (fun e => match e with
                 | Call r _ => if is_network r then Some r else None
                 | _ => None
                 end) t.

Definition network_writes (t : list event) : list request :=
  omap (fun e => match e with
                 | Call r _ => if is_write r then Some r else None
                 | _ => None
                 end) t.

(** The state of a run: keys drawn so far, the module-level maps
    [assetCache] and [slugToFile], and everything that happened. *)
Record world := World {
  rng : nat;
  assetCache : gmap string value;
  slugToFile : list (value * string);
  trace : list event;
}.

Definition set_rng (n : nat) (w : world) : world :=
  World n (assetCache w) (slugToFile w) (trace w).
Definition set_assetCache (c : gmap string value) (w : world) : world :=
  World (rng w) c (slugToFile w) (trace w).
Definition set_slugToFile (m : list (value * string)) (w : world) : world :=
  World (rng w) (assetCache w) m (trace w).
Definition add_event (e : event) (w : world) : world :=
  World (rng w) (assetCache w) (slugToFile w) (trace w ++ [e]).

(** The collaborators that are no part of the script: the random source,
    the outside world (answering a request given all that happened before),
    and the libraries [gray-matter], [mime], [path] and
    [@portabletext/markdown]. *)
Record externals := Externals {
  randomHex : nat → string;
  backend : list event → request → result value;
  matter : string → result (value * string);
  Date_parse : string → option Z;
  mime_getType : string → option string;
  path_isAbsolute : string → bool;
  path_resolve : string → string → string;
  path_dirname : string → string;
  path_basename : string → string;
  markdownToPortableText : string → list value;
}.

(** The command line: [--write], [--draft], [--only <slug>]. *)
Record config := Config {
  WRITE : bool;
  DRAFT : bool;
  ONLY : option string;
}.

Abbreviation M := (ST world).

Definition q : string := String "034" EmptyString.

(** *** Utilities *)

Definition lower_char (c : ascii) : ascii :=
  let n := nat_of_ascii c in
  if (Nat.leb 65 n && Nat.leb n 90)
     || (Nat.leb 192 n && Nat.leb n 222 && negb (Nat.eqb n 215))
  then ascii_of_nat (n + 32) else c.

Fixpoint toLowerCase (s : string) : string :=
  match s with
  | EmptyString => EmptyString
  | String c r => String (lower_char c) (toLowerCase r)
  end.

(** [[a-z0-9]] *)
Definition is_slug_char (c : ascii) : bool :=
  let n := nat_of_ascii c in
  (Nat.leb 97 n && Nat.leb n 122) || (Nat.leb 48 n && Nat.leb n 57).

(** [.replace(/[^a-z0-9]+/g, "-")]; [in_run] tells that the run of other
    characters met so far has its dash already. *)
Fixpoint collapse (s : string) (in_run : bool) : string :=
  match s with
  | EmptyString => EmptyString
  | String c r =>
      if is_slug_char c then String c (collapse r false)
      else if in_run then collapse r true
      else String "-" (collapse r true)
  end.

Fixpoint strip_trailing_dash (s : string) : string :=
  match s with
  | EmptyString => EmptyString
  | String c EmptyString => if Ascii.eqb c "-" then EmptyString else s
  | String c r => String c (strip_trailing_dash r)
  end.

(** [.replace(/(^-|-$)/g, "")] *)
Definition strip_dashes (s : string) : string :=
  match s with
  | String c r => if Ascii.eqb c "-" then strip_trailing_dash r else strip_trailing_dash s
  | EmptyString => EmptyString
  end.

Definition slugify (input : value) : result string :=
  let slug :=
    strip_dashes (collapse (toLowerCase (Str.trim (to_string (or_else input (VStr ""))))) false) in
  if Str.nonempty slug then Ok slug
  else Throw (Error ("Cannot generate valid slug from input: " +:+ q +:+ to_string input +:+ q)).

Definition VALID_IMAGE_TYPES : list string :=
  ["image/jpeg"; "image/png"; "image/gif"; "image/webp"; "image/svg+xml"; "image/avif"].

Section WithExternals.
Variable X : externals.
Variable cfg : config.

Definition log (line : string) : M unit := fun w => (Ok tt, add_event (Log line) w).
Definition warn (line : string) : M unit := fun w => (Ok tt, add_event (Warn line) w).

(** Ask the outside world, and record question and answer. *)
Definition perform (r : request) : M value :=
  fun w => let a := backend X (trace w) r in (a, add_event (Call r a) w).

(** Run a key-drawing computation on the run's key counter. *)
Definition liftK {A} (m : K A) : M A :=
  fun w => let '(r, n) := m (rng w) in (r, set_rng n w).

Definition resolvePath (mdFilePath : string) (maybeRelativePath : value) : result value :=
  if negb (truthy maybeRelativePath) then Ok VNull
  else match maybeRelativePath with
       | VStr p =>
           if path_isAbsolute X p then Ok maybeRelativePath
           else Ok (VStr (path_resolve X (path_dirname X mdFilePath) p))
       | _ => Throw TypeError
       end.

Definition validateImageType (absPath : string) : result string :=
  let contentType :=
    match mime_getType X absPath with
    | Some t => if Str.nonempty t then t else "application/octet-stream"
    | None => "application/octet-stream"
    end in
  if existsb (String.eqb contentType) VALID_IMAGE_TYPES then Ok contentType
  else Throw (Error ("Invalid image type " +:+ q +:+ contentType +:+ q
                     +:+ " for file: " +:+ absPath +:+ ". Allowed types: "
                     +:+ Str.join ", " VALID_IMAGE_TYPES)).

Definition makeDocumentId (type : string) (slug : value) : string :=
  let baseId := type +:+ "-" +:+ to_string slug in
  if DRAFT cfg then "drafts." +:+ baseId else baseId.

(** [withRetry(fn, { context })], with the default three attempts one
    second apart at first. *)
Definition withRetry (fn : M value) (context : string) : M value :=
  Retry.withRetry (fun line => add_event (Log line)) (fun ms => add_event (Sleep ms))
    fn 3 1000 context.

Definition read_error_details (e : exn) : string :=
  let code := match Retry.err_code e with
              | Some c => if Str.nonempty c then c else "UNKNOWN"
              | None => "UNKNOWN"
              end in
  let details :=
    if String.eqb code "ENOENT" then "file not found"
    else if String.eqb code "EACCES" then "permission denied"
    else if String.eqb code "EMFILE" then "too many open files"
    else if String.eqb code "EISDIR" then "path is a directory"
    else match Retry.err_message e with Some m => m | None => "undefined" end in
  code +:+ ": " +:+ details.

Definition readFileWithContext (filePath context : string) (encoding : option string)
  : M value :=
  fun w =>
    match perform (ReadFile filePath encoding) w with
    | (Ok v, w') => (Ok v, w')
    | (Throw err, w') =>
        (Throw (Error ("Failed to read " +:+ context +:+ ": " +:+ filePath
                       +:+ " (" +:+ read_error_details err +:+ ")")), w')
    end.

(** *** Image asset upload

    A call of [uploadImageAsset] runs without a break up to the point
    where it waits for the answer to its upload request; in a dry run it
    never waits. [started] is what a call has come to at that point. *)
Definition cache_set (absPath : string) (id : value) : M unit :=
  fun w => (Ok tt, set_assetCache (<[absPath := id]> (assetCache w)) w).

Inductive started :=
| Ended (r : result value)
| Waiting (filename contentType : string) (buf : value).

(** What has become of a computation: its result as a value, as the
    promise of an [async] function holds it. *)
Definition settle {A} (m : M A) : M (result A) :=
  fun w => let '(r, w') := m w in (Ok r, w').

(** The dry branch of the upload (lines 260-266). *)
Definition dryUpload (absPath filename : string) : M value :=
  s ← klift (slugify (VStr filename));
  let fakeId := "dry.asset." +:+ s in
  _ ← cache_set absPath (VStr fakeId);
  _ ← log ("  [dry] would upload image asset: " +:+ path_basename X absPath);
  mret (VObj [("_id", VStr fakeId)]).

(** The upload from its request on (lines 268-274). *)
Definition awaitUpload (absPath filename contentType : string) (buf : value) : M value :=
  asset ← withRetry (perform (Upload filename contentType buf)) ("upload " +:+ filename);
  id ← klift (prop asset "_id");
  _ ← cache_set absPath id;
  _ ← log ("  [upload] " +:+ path_basename X absPath +:+ " -> " +:+ to_string id);
  mret asset.

(** The upload up to its request (lines 253-266): the type is checked and
    the file read; a dry run ends here. *)
Definition startUpload (absPath : string) : M started :=
  r ← settle (contentType ← klift (validateImageType absPath);
              buf ← readFileWithContext absPath "image asset" None;
              mret (contentType, buf));
  match r with
  | Throw e => mret (Ended (Throw e))
  | Ok (contentType, buf) =>
      let filename := path_basename X absPath in
      if negb (WRITE cfg) then
        r ← settle (dryUpload absPath filename);
        mret (Ended r)
      else mret (Waiting filename contentType buf)
  end.

Definition uploadBody (absPath : string) : M value :=
  s ← startUpload absPath;
  match s with
  | Ended r => klift r
  | Waiting filename contentType buf => awaitUpload absPath filename contentType buf
  end.

(** A call that is awaited before anything else is done: the call for the
    cover image in [importFile]. The in-flight map [uploadPromises] holds
    the calls under way, and a call takes its entry out when it ends; with
    no call under way the map is empty and the check of line 248 finds
    nothing. *)
Definition uploadImageAsset (absPath : string) : M value :=
  fun w =>
    match assetCache w !! absPath with
    | Some id => (Ok (VObj [("_id", id)]), w)
    | None => uploadBody absPath w
    end.

(** *** The calls of one [Promise.all]

    [imageData.map(async img => ... await uploadImageAsset(img.absPath))]
    starts the calls one after the other, each running up to the point
    where it waits, before any of them is answered. A call hands back
    either a promise of its own or the promise that an earlier call of the
    batch has put into [uploadPromises]: the entries are taken out only
    when a call resumes, which is after the last call has started.

    In a dry run no call waits, and what follows is what the program
    does. In a write run the program takes the answers as they come, and
    once a call has failed goes on while the others are still under way;
    here the answers are taken in the order of the calls, each upload with
    its retries before the next, and all of them before the batch ends. *)
Inductive pending :=
| Own (s : started)
| Share (k : nat).

Fixpoint inflight_get (absPath : string) (uploadPromises : list (string * nat))
  : option nat :=
  match uploadPromises with
  | [] => None
  | (p, k) :: r => if String.eqb p absPath then Some k else inflight_get absPath r
  end.

(** Lines 243-250 and 276 for the [k]-th call of the batch. *)
Definition startCall (uploadPromises : list (string * nat)) (k : nat) (absPath : string)
  : M (pending * list (string * nat)) :=
  fun w =>
    match assetCache w !! absPath with
    | Some id => (Ok (Own (Ended (Ok (VObj [("_id", id)]))), uploadPromises), w)
    | None =>
        match inflight_get absPath uploadPromises with
        | Some j => (Ok (Share j, uploadPromises), w)
        | None => (s ← startUpload absPath;
                   mret (Own s, (absPath, k) :: uploadPromises)) w
        end
    end.

Fixpoint startAll (paths : list string) (k : nat) (uploadPromises : list (string * nat))
  : M (list pending) :=
  match paths with
  | [] => mret []
  | absPath :: rest =>
      r ← startCall uploadPromises k absPath;
      ps ← startAll rest (S k) (snd r);
      mret (fst r :: ps)
  end.

(** How the promise of a call ends, [done] being how the earlier ones did. *)
Definition settleCall (absPath : string) (p : pending) (done : list (result value))
  : M (result value) :=
  match p with
  | Own (Ended r) => mret r
  | Own (Waiting filename contentType buf) =>
      settle (awaitUpload absPath filename contentType buf)
  | Share j => mret (nth j done (Throw TypeError))
  end.

Fixpoint settleAll (paths : list string) (ps : list pending) (done : list (result value))
  : M (list (result value)) :=
  match paths, ps with
  | absPath :: paths', p :: ps' =>
      r ← settleCall absPath p done;
      settleAll paths' ps' (done ++ [r])
  | _, _ => mret done
  end.

(** The promise that is rejected first: one that had failed before any
    call waited, else the first of those that failed waiting. *)
Definition failed_at_once (p : pending) : option exn :=
  match p with
  | Own (Ended (Throw e)) => Some e
  | _ => None
  end.

Definition failure {A} (r : result A) : option exn :=
  match r with
  | Throw e => Some e
  | Ok _ => None
  end.

Definition first_rejection (ps : list pending) (rs : list (result value)) : option exn :=
  match omap failed_at_once ps with
  | e :: _ => Some e
  | [] => match omap failure rs with
          | e :: _ => Some e
          | [] => None
          end
  end.

Definition fulfilled (r : result value) : value :=
  match r with
  | Ok v => v
  | Throw _ => VUndef
  end.

(** [await Promise.all(imageData.map(async (img) => ...))] *)
Definition uploadAll {A} (imageData : list (A * string)) : M (list (A * value)) :=
  ps ← startAll (map snd imageData) 0 [];
  rs ← settleAll (map snd imageData) ps [];
  match first_rejection ps rs with
  | Some e => kthrow e
  | None => mret (combine (map fst imageData) (map fulfilled rs))
  end.

(** *** Author *)

Definition author_by_id : string := "*[_id==$id][0]{_id}".
Definition author_by_name : string :=
  "*[_type==" +:+ q +:+ "author" +:+ q +:+ " && name==$name][0]{_id}".

Definition ensureAuthor (authorId author : value) : M value :=
  if truthy authorId then
    exists_ ← withRetry (perform (Fetch author_by_id [("id", authorId)]))
                ("fetch author " +:+ to_string authorId);
    if negb (truthy (prop_opt exists_ "_id"))
    then kthrow (Error ("authorId not found: " +:+ to_string authorId))
    else mret authorId
  else if negb (truthy author) then
    kthrow (Error "Frontmatter must include 'author' (name) or 'authorId'.")
  else
    existing ← withRetry (perform (Fetch author_by_name [("name", author)]))
                 ("fetch author by name " +:+ q +:+ to_string author +:+ q);
    if truthy (prop_opt existing "_id") then mret (prop_opt existing "_id")
    else
      s ← klift (slugify author);
      let id := makeDocumentId "author" (VStr s) in
      if negb (WRITE cfg) then
        _ ← log ("  [dry] would create author: " +:+ to_string author +:+ " -> " +:+ id);
        mret (VStr id)
      else
        _ ← withRetry
              (perform (CreateIfNotExists
                 (VObj [("_id", VStr id); ("_type", VStr "author"); ("name", author);
                        ("slug", VObj [("_type", VStr "slug"); ("current", VStr s)])])))
              ("create author " +:+ q +:+ to_string author +:+ q);
        _ ← log ("  [create] author: " +:+ to_string author +:+ " -> " +:+ id);
        mret (VStr id).

(** *** Slug collisions *)

(** The keys of the [slugToFile] map are compared as [Map] does; two
    objects parsed from two files are never the same object. *)
Definition same_key (a b : value) : bool :=
  match a, b with
  | VUndef, VUndef | VNull, VNull => true
  | VBool x, VBool y => Bool.eqb x y
  | VNum x, VNum y => String.eqb x y
  | VStr x, VStr y => String.eqb x y
  | _, _ => false
  end.

Fixpoint map_get (k : value) (m : list (value * string)) : option string :=
  match m with
  | [] => None
  | (k', v) :: r => if same_key k' k then Some v else map_get k r
  end.

Fixpoint map_set (k : value) (v : string) (m : list (value * string))
  : list (value * string) :=
  match m with
  | [] => [(k, v)]
  | (k', v') :: r => if same_key k' k then (k', v) :: r else (k', v') :: map_set k v r
  end.

Definition newline : string := String "010" EmptyString.

Definition checkSlugCollision (slug : value) (currentFile : string) : M bool :=
  fun w =>
    match map_get slug (slugToFile w) with
    | Some existingFile =>
        if negb (String.eqb existingFile currentFile) then
          (Ok true,
           add_event (Warn ("  [warn] Slug collision: " +:+ q +:+ to_string slug +:+ q
                            +:+ " used by both:" +:+ newline
                            +:+ "         - " +:+ existingFile +:+ newline
                            +:+ "         - " +:+ currentFile +:+ newline
                            +:+ "         The second file will overwrite the first!")) w)
        else (Ok false, set_slugToFile (map_set slug currentFile (slugToFile w)) w)
    | None => (Ok false, set_slugToFile (map_set slug currentFile (slugToFile w)) w)
    end.

(** *** Body *)

(** [!absPath || !fs.existsSync(absPath)] *)
Definition missing_file (absPath : value) : M bool :=
  if negb (truthy absPath) then mret true
  else
    e ← perform (ExistsSync (to_string absPath));
    mret (negb (truthy e)).

Definition locateImage (mdFilePath : string) (img : image) : M (image * string) :=
  absPath ← klift (resolvePath mdFilePath (VStr (src img)));
  gone ← missing_file absPath;
  if (gone : bool) then
    kthrow (Error ("Inline image not found: " +:+ src img
                   +:+ " (resolved: " +:+ to_string absPath +:+ ")"))
  else mret (img, to_string absPath).

(** [{ _type: "image", asset: { _type: "reference", _ref }, alt, caption }] *)
Definition imageValue (ref : value) (alt caption : string) : value :=
  VObj [("_type", VStr "image");
        ("asset", VObj [("_type", VStr "reference"); ("_ref", ref)]);
        ("alt", VStr (if Str.nonempty alt then alt else "Image"));
        ("caption", VStr caption)].

Definition addImageBlock (tokenToImageBlock : fields) (r : image * value)
  : result fields :=
  match prop (snd r) "_id" with
  | Ok id =>
      Ok (set_field (token (fst r)) (imageValue id (alt (fst r)) (caption (fst r)))
            tokenToImageBlock)
  | Throw e => Throw e
  end.

Fixpoint buildTokenMap (results : list (image * value)) (acc : fields) : result fields :=
  match results with
  | [] => Ok acc
  | r :: rest =>
      match addImageBlock acc r with
      | Ok acc' => buildTokenMap rest acc'
      | Throw e => Throw e
      end
  end.

Definition markdownToPortableTextWithInlineImages (mdFilePath markdown : string)
  : M (list value) :=
  let e := extractInlineImages markdown in
  let pt := markdownToPortableText X (rewrittenMarkdown e) in
  pt ← liftK (ensureKeys (randomHex X) pt);
  let pt := filterUnsupportedBlocks pt in
  if Nat.eqb (length (images e)) 0 then mret pt
  else
    imageData ← kmapM (locateImage mdFilePath) (images e);
    uploadResults ← uploadAll imageData;
    tokenToImageBlock ← klift (buildTokenMap uploadResults []);
    result ← liftK (replaceTokensWithImageBlocksPreserveMarks (randomHex X) pt
                      tokenToImageBlock);
    keyed ← liftK (ensureKeys (randomHex X) result);
    mret (filterUnsupportedBlocks keyed).

(** *** One file *)

Inductive outcome :=
| Skipped
| DryRun (slug : value)
| Upserted (slug : value).

Record prepared := Prepared {
  p_slug : value;
  p_docId : string;
  p_doc : value;
}.

(** [importFile] up to the document it builds; [None] when [--only]
    skips the file. *)
Definition prepareDocument (mdFilePath : string) (index total : nat)
  : M (option prepared) :=
  let filename := path_basename X mdFilePath in
  _ ← log (newline +:+ "[" +:+ pretty (index + 1) +:+ "/" +:+ pretty total +:+ "] "
           +:+ filename);
  raw ← readFileWithContext mdFilePath "markdown post" (Some "utf8");
  parsed ← klift (matter X (to_string raw));
  let fm := fst parsed in
  let content := snd parsed in
  _ ← klift (Validate.validateFrontmatter (Date_parse X) fm mdFilePath);
  let title := prop_opt fm "title" in
  slug ← (if truthy (prop_opt fm "slug") then mret (prop_opt fm "slug")
          else s ← klift (slugify title); mret (VStr s));
  _ ← checkSlugCollision slug mdFilePath;
  publishedAt ← (if truthy (prop_opt fm "publishedAt") then mret (prop_opt fm "publishedAt")
                 else perform Now);
  let excerpt := or_else (prop_opt fm "excerpt") VNull in
  let categories :=
    if isArray (prop_opt fm "categories")
    then VArr (map (fun c => VStr (to_string c)) (elems (prop_opt fm "categories")))
    else VArr [] in
  proceed ← match ONLY cfg with
            | Some only =>
                if Str.nonempty only && negb (str_eq slug only) then
                  _ ← log ("  [skip] slug " +:+ q +:+ to_string slug +:+ q
                           +:+ " does not match --only " +:+ q +:+ only +:+ q);
                  (mret false : M bool)
                else mret true
            | None => mret true
            end;
  if negb (proceed : bool) then mret None
  else
      authorRef ← ensureAuthor (prop_opt fm "authorId") (prop_opt fm "author");
      absCover ← klift (resolvePath mdFilePath (prop_opt fm "mainImage"));
      gone ← missing_file absCover;
      if (gone : bool) then
        kthrow (Error ("mainImage file not found: " +:+ to_string (prop_opt fm "mainImage")
                       +:+ " (resolved: " +:+ to_string absCover +:+ ")"))
      else
        coverAsset ← uploadImageAsset (to_string absCover);
        coverId ← klift (prop coverAsset "_id");
        let mainImage :=
          VObj [("_type", VStr "image");
                ("asset", VObj [("_type", VStr "reference"); ("_ref", coverId)]);
                ("alt", VStr (to_string (prop_opt fm "mainImageAlt")))] in
        body ← markdownToPortableTextWithInlineImages mdFilePath content;
        let docId := makeDocumentId "post" slug in
        let doc :=
          VObj [("_id", VStr docId);
                ("_type", VStr "post");
                ("title", title);
                ("slug", VObj [("_type", VStr "slug"); ("current", slug)]);
                ("author", VObj [("_type", VStr "reference"); ("_ref", authorRef)]);
                ("mainImage", mainImage);
                ("publishedAt", publishedAt);
                ("excerpt", excerpt);
                ("body", VArr body);
                ("categories", categories)] in
        mret (Some (Prepared slug docId doc)).

Definition importFile (mdFilePath : string) (index total : nat) : M outcome :=
  p ← prepareDocument mdFilePath index total;
  match p with
  | None => mret Skipped
  | Some d =>
      if negb (WRITE cfg) then
        _ ← log ("  [dry] would upsert: " +:+ p_docId d);
        mret (DryRun (p_slug d))
      else
        _ ← withRetry (perform (CreateOrReplace (p_doc d)))
              ("upsert post " +:+ q +:+ to_string (p_slug d) +:+ q);
        _ ← log ("  [ok] upserted: " +:+ p_docId d);
        mret (Upserted (p_slug d))
  end.

End WithExternals.
End Importer.

(* ------------------------------------------------------------------ *)
(** ** A sample post and a sample outside world *)
(* ------------------------------------------------------------------ *)
Module ImportSamples.
Import Importer.

(** A stand-in for the Markdown converter: one paragraph per run of
    non-blank lines, one span per paragraph, nothing else parsed. *)
Fixpoint lines_go (s : string) (cur : string) : list string :=
  match s with
  | EmptyString => [cur]
  | String c r =>
      if Ascii.eqb c "010" then cur :: lines_go r ""
      else lines_go r (cur +:+ String c "")
  end.

Fixpoint paragraphs_go (ls : list string) (cur : list string) : list string :=
  match ls with
  | [] => match cur with [] => [] | _ => [Str.join " " cur] end
  | l :: r =>
      if Str.nonempty (Str.trim l) then paragraphs_go r (cur ++ [l])
      else match cur with
           | [] => paragraphs_go r []
           | _ => Str.join " " cur :: paragraphs_go r []
           end
  end.

Fixpoint number_from {A} (i : nat) (xs : list A) : list (nat * A) :=
  match xs with
  | [] => []
  | x :: r => (i, x) :: number_from (S i) r
  end.

Definition paragraphConverter (markdown : string) : list value :=
  map (fun p =>
         VObj [("_type", VStr "block"); ("_key", VStr ("p" +:+ pretty (fst p)));
               ("style", VStr "normal"); ("markDefs", VArr []);
               ("children",
                VArr [VObj [("_type", VStr "span"); ("_key", VStr ("s" +:+ pretty (fst p)));
                            ("text", VStr (snd p)); ("marks", VArr [])]])])
      (number_from 0 (paragraphs_go (lines_go markdown "") [])).

Fixpoint basename_go (s : string) (cur : string) : string :=
  match s with
  | EmptyString => cur
  | String c r => if Ascii.eqb c "/" then basename_go r "" else basename_go r (cur +:+ String c "")
  end.

Definition helloFrontmatter : value :=
  VObj [("title", VStr "Hello World"); ("author", VStr "Doc Spinard");
        ("mainImage", VStr "/img/cover.png"); ("mainImageAlt", VStr "Cover")].

Definition helloBody : string := "Intro" +:+ newline +:+ newline +:+ "![cat](/img/cat.png)".

(** A backend with no author yet, where every file exists, and that
    names an uploaded asset after its file. [clock] is the time it tells. *)
Definition sampleBackend (clock : string) (_ : list event) (r : request) : result value :=
  match r with
  | ReadFile _ _ => Ok (VStr "file contents")
  | ExistsSync _ => Ok (VBool true)
  | Now => Ok (VStr clock)
  | Fetch _ _ => Ok VNull
  | CreateIfNotExists doc => Ok doc
  | Upload filename _ _ => Ok (VObj [("_id", VStr ("image-" +:+ filename))])
  | CreateOrReplace doc => Ok doc
  end.

Definition sampleWorld (hex : nat → string) (clock : string) : externals :=
  Externals hex (sampleBackend clock)
    (fun _ => Ok (helloFrontmatter, helloBody))
    Samples.oneDate
    (fun _ => Some "image/png")
    (fun p => Str.startsWith p "/")
    (fun dir p => dir +:+ "/" +:+ p)
    (fun _ => "/posts")
    (fun p => basename_go p "")
    paragraphConverter.

Definition dryRun : config := Config false false None.
Definition realRun : config := Config true false None.

Definition start : world := World 0 ∅ [] [].

Definition sampleX : externals := sampleWorld Samples.sampleHex "2026-01-01T00:00:00.000Z".

Definition catPath : string := "/img/cat.png".
Definition catFile : result value := Ok (VStr "file contents").
Definition catAsset : value := VObj [("_id", VStr "image-cat.png")].

(** A request the backend refuses for good. *)
Definition badRequest : exn := ClientError (NetErr (Some 400%Z) None (Some "Bad Request")).

End ImportSamples.

(* ------------------------------------------------------------------ *)
(** ** The asset uploader on the event loop *)
(* ------------------------------------------------------------------ *)
Module Uploader.
Import Importer.

(** [uploadImageAsset] runs in pieces that the event loop never interrupts:
    - a call, up to its first [await]: the cache and in-flight checks, and
      for a new upload the body of the inner function up to the request it
      sends ([call]);
    - the arrival of the answer to an upload request, up to the next
      [await] or the end of the inner function ([answer]);
    - the resumption of the first caller after [await uploadPromise], which
      runs the [finally] ([resume]).
    Between two pieces any other piece may run. *)

Inductive pstatus :=
| Pending (attempt : nat)
| Fulfilled (asset : value)
| Rejected (e : exn).

(** An [uploadPromise]: the path it is for, its state, and whether its
    first caller has run its [finally]. *)
Record promise := Promise {
  p_path : string;
  p_status : pstatus;
  p_resumed : bool;
}.

(** What a call hands to its caller: an object made from the cache, or the
    promise (its own or the in-flight one), whose result the caller gets. *)
Inductive source :=
| FromCache (id : value)
| FromPromise (pid : nat).

(** The input and output of the uploader: reading the file, and sending
    the upload request ([attempt] counts the requests of one run of the
    retry wrapper). Each is tagged with the promise it is done for. *)
Inductive io :=
| IoRead (pid : nat) (path : string)
| IoUpload (pid : nat) (path : string) (attempt : nat).

Record ustate := UState {
  cache : gmap string value;
  inflight : gmap string nat;
  promises : list promise;
  calls : list (string * source);
  iolog : list io;
}.

Definition init : ustate := UState ∅ ∅ [] [] [].

Definition add_io (e : io) (s : ustate) : ustate :=
  UState (cache s) (inflight s) (promises s) (calls s) (iolog s ++ [e]).

Definition add_call (c : string * source) (s : ustate) : ustate :=
  UState (cache s) (inflight s) (promises s) (calls s ++ [c]) (iolog s).

Definition set_cache (absPath : string) (id : value) (s : ustate) : ustate :=
  UState (<[absPath := id]> (cache s)) (inflight s) (promises s) (calls s) (iolog s).

Definition set_promise (pid : nat) (p : promise) (s : ustate) : ustate :=
  UState (cache s) (inflight s) (<[pid := p]> (promises s)) (calls s) (iolog s).

Section WithExternals.
Variable X : externals.
Variable cfg : config.

(** The inner function up to its first [await]; [file] is what reading the
    file gives. *)
Definition start (pid : nat) (absPath : string) (file : result value) (s : ustate)
  : pstatus * ustate :=
  match validateImageType X absPath with
  | Throw e => (Rejected e, s)
  | Ok contentType =>
      let s1 := add_io (IoRead pid absPath) s in
      match file with
      | Throw err =>
          (Rejected (Error ("Failed to read image asset: " +:+ absPath
                            +:+ " (" +:+ read_error_details err +:+ ")")), s1)
      | Ok buf =>
          if negb (WRITE cfg) then
            match slugify (VStr (path_basename X absPath)) with
            | Throw e => (Rejected e, s1)
            | Ok sl =>
                (Fulfilled (VObj [("_id", VStr ("dry.asset." +:+ sl))]),
                 set_cache absPath (VStr ("dry.asset." +:+ sl)) s1)
            end
          else (Pending 1, add_io (IoUpload pid absPath 1) s1)
      end
  end.

(** A call of [uploadImageAsset(absPath)]. *)
Definition call (absPath : string) (file : result value) (s : ustate) : ustate :=
  match cache s !! absPath with
  | Some id => add_call (absPath, FromCache id) s
  | None =>
      match inflight s !! absPath with
      | Some pid => add_call (absPath, FromPromise pid) s
      | None =>
          let pid := length (promises s) in
          let '(status, s1) := start pid absPath file s in
          UState (cache s1) (<[absPath := pid]> (inflight s1))
                 (promises s1 ++ [Promise absPath status false])
                 (calls s1 ++ [(absPath, FromPromise pid)]) (iolog s1)
      end
  end.

(** The answer to the upload request of a pending promise arrives: the
    retry wrapper returns or throws, or sends the request again. *)
Definition answer (pid : nat) (ans : result value) (s : ustate) : ustate :=
  match promises s !! pid with
  | Some (Promise absPath (Pending attempt) resumed) =>
      match ans with
      | Ok asset =>
          match prop asset "_id" with
          | Ok id =>
              set_promise pid (Promise absPath (Fulfilled asset) resumed)
                (set_cache absPath id s)
          | Throw e => set_promise pid (Promise absPath (Rejected e) resumed) s
          end
      | Throw err =>
          if Nat.eqb attempt 3 || negb (Retry.isRetryable err)
          then set_promise pid (Promise absPath (Rejected err) resumed) s
          else
            set_promise pid (Promise absPath (Pending (S attempt)) resumed)
              (add_io (IoUpload pid absPath (S attempt)) s)
      end
  | _ => s
  end.

Definition settled (st : pstatus) : bool :=
  match st with Pending _ => false | _ => true end.

(** The first caller goes on after [await uploadPromise]: the [finally]
    deletes the entry of the path. *)
Definition resume (pid : nat) (s : ustate) : ustate :=
  match promises s !! pid with
  | Some (Promise absPath status false) =>
      if settled status then
        set_promise pid (Promise absPath status true)
          (UState (cache s) (delete absPath (inflight s)) (promises s)
                  (calls s) (iolog s))
      else s
  | _ => s
  end.

Inductive step : ustate → ustate → Prop :=
| step_call absPath file s : step s (call absPath file s)
| step_answer pid ans s : step s (answer pid ans s)
| step_resume pid s : step s (resume pid s).

Inductive reachable : ustate → Prop :=
| reach_init : reachable init
| reach_step s s' : reachable s → step s s' → reachable s'.

Definition failed (p : promise) : bool :=
  match p_status p with Rejected _ => true | _ => false end.

(** Every call for the path so far has failed and is over. *)
Definition all_failed (absPath : string) (s : ustate) : Prop :=
  ∀ pid pr, promises s !! pid = Some pr → p_path pr = absPath →
            failed pr = true ∧ p_resumed pr = true.

(** No upload for the path has failed. *)
Definition none_failed (absPath : string) (s : ustate) : Prop :=
  ∀ pid pr, promises s !! pid = Some pr → p_path pr = absPath → failed pr = false.

End WithExternals.
End Uploader.

(* ------------------------------------------------------------------ *)
(** ** Reading a body for what is left of the tokens *)
(* ------------------------------------------------------------------ *)
Module PipelineSpec.

(** The string [t] occurs in some string held by the value, at any depth. *)
Fixpoint mentions (t : string) (v : value) : bool :=
  match v with
  | VStr s => Str.includes s t
  | VArr xs => existsb (mentions t) xs
  | VObj fs => existsb (fun kv => mentions t (snd kv)) fs
  | _ => false
  end.

(** An item of the body that is a text block. *)
Definition is_block (b : value) : bool := str_eq (prop_opt b "_type") "block".

End PipelineSpec.

(* ------------------------------------------------------------------ *)
(** ** A post with an image reference inside a code fence *)
(* ------------------------------------------------------------------ *)
Module PipelineSamples.
Import Importer ImportSamples.

Definition fence : string := "```".

Definition flush_paragraph (para : list string) : list (bool * string) :=
  match para with [] => [] | _ => [(false, Str.join " " para)] end.

(** The lines of a text cut into paragraphs and fenced code; [code] holds
    the lines of the fence that is open. *)
Fixpoint pieces_go (ls : list string) (para : list string) (code : option (list string))
  : list (bool * string) :=
  match ls with
  | [] =>
      match code with
      | Some acc => [(true, Str.join newline acc)]
      | None => flush_paragraph para
      end
  | l :: r =>
      match code with
      | Some acc =>
          if Str.startsWith l fence then (true, Str.join newline acc) :: pieces_go r [] None
          else pieces_go r [] (Some (acc ++ [l]))
      | None =>
          if Str.startsWith l fence then flush_paragraph para ++ pieces_go r [] (Some [])
          else if Str.nonempty (Str.trim l) then pieces_go r (para ++ [l]) None
          else flush_paragraph para ++ pieces_go r [] None
      end
  end.

(** A stand-in for a converter that knows fenced code: a paragraph becomes a
    text block of one span, a fence one [code] item holding its lines. *)
Definition fencedConverter (markdown : string) : list value :=
  map (fun p : nat * (bool * string) =>
         if fst (snd p) then
           VObj [("_type", VStr "code"); ("_key", VStr ("c" +:+ pretty (fst p)));
                 ("code", VStr (snd (snd p)))]
         else
           VObj [("_type", VStr "block"); ("_key", VStr ("p" +:+ pretty (fst p)));
                 ("style", VStr "normal"); ("markDefs", VArr []);
                 ("children",
                  VArr [VObj [("_type", VStr "span"); ("_key", VStr ("s" +:+ pretty (fst p)));
                              ("text", VStr (snd (snd p))); ("marks", VArr [])]])])
      (number_from 0 (pieces_go (lines_go markdown "") [] None)).

(** How to write an image in Markdown, shown in a fence. *)
Definition fencedBody : string :=
  "Write an image like this:" +:+ newline +:+ newline
  +:+ fence +:+ newline +:+ "![cat](/img/cat.png)" +:+ newline +:+ fence.

Definition fencedX : externals :=
  Externals Samples.sampleHex (sampleBackend "2026-01-01T00:00:00.000Z")
    (fun _ => Ok (helloFrontmatter, fencedBody))
    Samples.oneDate
    (fun _ => Some "image/png")
    (fun p => Str.startsWith p "/")
    (fun dir p => dir +:+ "/" +:+ p)
    (fun _ => "/posts")
    (fun p => basename_go p "")
    fencedConverter.

(** The body the importer makes of [fencedBody]. *)
Definition fencedOut : list value :=
  Eval vm_compute in
    match markdownToPortableTextWithInlineImages fencedX realRun "/posts/code.md"
            fencedBody start with
    | (Ok body, _) => body
    | _ => []
    end.


(** The body the importer makes of the sample post. *)
Definition helloOut : list value :=
  Eval vm_compute in
    match markdownToPortableTextWithInlineImages sampleX realRun "/posts/hello.md"
            helloBody start with
    | (Ok body, _) => body
    | _ => []
    end.


(** What the paragraph converter makes of the rewritten [collidingMarkdown],
    and the token map of its one image reference. *)
Definition collidingBlocks : list value :=
  paragraphConverter
    (Extract.rewrittenMarkdown (Extract.extractInlineImages Samples.collidingMarkdown)).

Definition collidingMap : fields :=
  match buildTokenMap
          (map (fun i => (i, catAsset))
               (Extract.images (Extract.extractInlineImages Samples.collidingMarkdown))) [] with
  | Ok m => m
  | Throw _ => []
  end.

(** A block sequence with a token inside a bold link, a token alone in its
    paragraph, and an item that is no text block. *)
Definition mixedBlocks : list value :=
  [ Samples.paragraph "b1" [] [Samples.span "s2" "Intro" []];
    Samples.mixedBlock;
    Samples.paragraph "b2" [] [Samples.span "s3" (" " +:+ Samples.token0) []];
    VObj [("_type", VStr "code"); ("code", VStr "x = 1")] ].

(** A token map with an empty token before the token of the sample. *)
Definition emptyTokenMap : fields := [("", Samples.catImage); (Samples.token0, Samples.catImage)].

End PipelineSamples.

(* ------------------------------------------------------------------ *)
(** ** Reading a block sequence from left to right *)
(* ------------------------------------------------------------------ *)
Module Reading.
Import Splitter.

(** What a reader meets: the text of a span, a child of a text block that is
    no text span, or an item that is no text block (an image block, say).
    Keys are left aside. *)
Inductive atom :=
| AText (text : string)
| AChild (props : fields)
| AItem (props : fields).

(** The properties of a value other than its key. *)
Definition props_but_key (v : value) : fields :=
  List.filter (fun kv => negb (String.eqb (fst kv) "_key")) (spread v).

(** A text block: what the reader enters to read the children. *)
Definition is_text_block (b : value) : bool :=
  str_eq (prop_opt b "_type") "block" && isArray (prop_opt b "children").

(** The text of a span with each token in it replaced by its image, taking
    the leftmost token again and again ([nearestToken], see
    [nearestToken_some]). [fuel] bounds the number of tokens found. *)
Fixpoint scan (fuel : nat) (tokens : list string) (tokenToImageBlock : fields)
  (text : string) : list atom :=
  match fuel with
  | 0 => []
  | S fuel' =>
      match nearestToken tokens text with
      | None => [AText text]
      | Some (i, t) =>
          AText (Str.take i text)
          :: AItem (props_but_key (lookup_field t tokenToImageBlock))
          :: scan fuel' tokens tokenToImageBlock (Str.drop (i + Str.len t) text)
      end
  end.

Definition read_child (tokens : list string) (tokenToImageBlock : fields) (c : value)
  : list atom :=
  if is_text_span c
  then scan (S (Str.len (text_or_empty c))) tokens tokenToImageBlock (text_or_empty c)
  else [AChild (props_but_key c)].

Definition read (tokens : list string) (tokenToImageBlock : fields) (b : value)
  : list atom :=
  if is_text_block b
  then flat_map (read_child tokens tokenToImageBlock) (elems (prop_opt b "children"))
  else [AItem (props_but_key b)].

(** A block sequence read with the tokens standing for their images. *)
Definition read_all (tokens : list string) (tokenToImageBlock : fields)
  (blocks : list value) : list atom :=
  flat_map (read tokens tokenToImageBlock) blocks.

(** A block sequence read as it stands. *)
Definition read_plain (blocks : list value) : list atom := read_all [] [] blocks.

(** Text that is not blank, children that are no spans, and items count;
    blank text and spans without text do not. *)
Definition significant (a : atom) : bool :=
  match a with
  | AText s => Nat.ltb 0 (Str.len (Str.trim s))
  | AChild fs => negb (str_eq (lookup_field "_type" fs) "span")
  | AItem _ => true
  end.

Definition content (atoms : list atom) : list atom := List.filter significant atoms.

(** The token the splitter takes a block to be, if any. *)
Definition token_only (tokens : list string) (b : value) : option string :=
  match find (fun t => isTokenOnlyBlock b t) tokens with
  | Some t => if Str.nonempty t then Some t else None
  | None => None
  end.

(** *** What the result is expected to read as

    The readings above follow the search of the splitter, and serve in the
    proofs. The expectation is told again here without it: the text of a
    span is gone through from left to right, one character after the
    other. *)

(** The image a token stands for. *)
Definition image_of (tokenToImageBlock : fields) (t : string) : atom :=
  AItem (props_but_key (lookup_field t tokenToImageBlock)).

(** The token that stands at the very start of the text; the first of the
    list, if several do. *)
Definition token_here (tokens : list string) (text : string) : option string :=
  find (fun t => Str.nonempty t && String.prefix t text) tokens.

(** The text of a span with every token in it replaced by its image.
    [before] is the text gone through since the last token, [skip] the
    number of characters of the token at hand still to pass over. *)
Fixpoint cut (tokens : list string) (tokenToImageBlock : fields) (text : string)
  (skip : nat) (before : string) : list atom :=
  match text with
  | EmptyString => [AText before]
  | String c rest =>
      match skip with
      | S k => cut tokens tokenToImageBlock rest k before
      | 0 =>
          match token_here tokens text with
          | Some t =>
              AText before :: image_of tokenToImageBlock t
              :: cut tokens tokenToImageBlock rest (Str.len t - 1) EmptyString
          | None =>
              cut tokens tokenToImageBlock rest 0 (before +:+ String c EmptyString)
          end
      end
  end.

(** The tokens met on the way, from left to right. *)
Fixpoint met (tokens : list string) (text : string) (skip : nat) : list string :=
  match text with
  | EmptyString => []
  | String c rest =>
      match skip with
      | S k => met tokens rest k
      | 0 =>
          match token_here tokens text with
          | Some t => t :: met tokens rest (Str.len t - 1)
          | None => met tokens rest 0
          end
      end
  end.

(** The text of a block: the texts of its spans put together. *)
Definition span_text (b : value) : string :=
  Str.concat (map text_or_empty (List.filter is_span (elems (prop_opt b "children")))).

(** The token a text block is, when its text is a token with nothing but
    blanks around it. *)
Definition alone (tokens : list string) (b : value) : option string :=
  let t := Str.trim (span_text b) in
  if Str.nonempty t && existsb (String.eqb t) tokens then Some t else None.

Definition expect_child (tokens : list string) (tokenToImageBlock : fields) (c : value)
  : list atom :=
  if is_text_span c
  then cut tokens tokenToImageBlock (text_or_empty c) 0 EmptyString
  else [AChild (props_but_key c)].

(** A text block that is a token alone gives the image of the token, and
    nothing else of what it held; any other text block is read child by
    child; an item that is no text block is read as it is. *)
Definition expect (tokens : list string) (tokenToImageBlock : fields) (b : value)
  : list atom :=
  if is_text_block b then
    match alone tokens b with
    | Some t => [image_of tokenToImageBlock t]
    | None => flat_map (expect_child tokens tokenToImageBlock) (elems (prop_opt b "children"))
    end
  else [AItem (props_but_key b)].

Definition expect_all (tokens : list string) (tokenToImageBlock : fields)
  (blocks : list value) : list atom :=
  flat_map (expect tokens tokenToImageBlock) blocks.

(** The tokens met in a block sequence, in the order of reading. *)
Definition met_child (tokens : list string) (c : value) : list string :=
  if is_text_span c then met tokens (text_or_empty c) 0 else [].

Definition met_block (tokens : list string) (b : value) : list string :=
  if is_text_block b then
    match alone tokens b with
    | Some t => [t]
    | None => flat_map (met_child tokens) (elems (prop_opt b "children"))
    end
  else [].

Definition met_all (tokens : list string) (blocks : list value) : list string :=
  flat_map (met_block tokens) blocks.

(** A block sequence read as it stands. *)
Definition stand_child (c : value) : list atom :=
  if is_text_span c then [AText (text_or_empty c)] else [AChild (props_but_key c)].

Definition stand (b : value) : list atom :=
  if is_text_block b
  then flat_map stand_child (elems (prop_opt b "children"))
  else [AItem (props_but_key b)].

Definition as_it_stands (blocks : list value) : list atom := flat_map stand blocks.

(** Every image of the map is an image block. *)
Definition images_typed (tokenToImageBlock : fields) : bool :=
  forallb (fun t => str_eq (prop_opt (lookup_field t tokenToImageBlock) "_type") "image")
          (object_keys tokenToImageBlock).

(** No image of the map is itself a text block. *)
Definition images_no_text_blocks (tokenToImageBlock : fields) : bool :=
  forallb (fun t => negb (is_text_block (lookup_field t tokenToImageBlock)))
          (object_keys tokenToImageBlock).

(** Neither [null] nor [undefined]. *)
Definition defined (v : value) : bool :=
  match v with VUndef | VNull => false | _ => true end.

(** An item the splitter can handle: it and its children are defined. *)
Definition sound (b : value) : bool :=
  defined b && forallb defined (elems (prop_opt b "children")).

(** The items of a block sequence that are image blocks. *)
Definition image_blocks (blocks : list value) : list value :=
  List.filter (fun b => str_eq (prop_opt b "_type") "image") blocks.


(** The image items met in a reading. *)
Definition images_read (atoms : list atom) : list fields :=
  flat_map (fun a => match a with
                     | AItem fs => if str_eq (lookup_field "_type" fs) "image" then [fs] else []
                     | _ => []
                     end) atoms.

End Reading.

(* ------------------------------------------------------------------ *)
(** ** Two runs over the same files *)
(* ------------------------------------------------------------------ *)
Module TwoRuns.
Import Importer.

(** A value with every [_key] property taken out, at any depth. *)
Fixpoint unkeyed (v : value) : value :=
  match v with
  | VArr xs => VArr (map unkeyed xs)
  | VObj fs =>
      VObj (List.filter (fun kv => negb (String.eqb (fst kv) "_key"))
              (map (fun kv => (fst kv, unkeyed (snd kv))) fs))
  | _ => v
  end.

(** Equal up to keys. *)
Definition alike (v1 v2 : value) : Prop := unkeyed v1 = unkeyed v2.

(** The same libraries on both runs. *)
Definition same_libraries (X1 X2 : externals) : Prop :=
  matter X1 = matter X2
  ∧ Date_parse X1 = Date_parse X2
  ∧ mime_getType X1 = mime_getType X2
  ∧ path_isAbsolute X1 = path_isAbsolute X2
  ∧ path_resolve X1 = path_resolve X2
  ∧ path_dirname X1 = path_dirname X2
  ∧ path_basename X1 = path_basename X2
  ∧ markdownToPortableText X1 = markdownToPortableText X2.

(** The requests whose answer the file set and the asset store fix. *)
Definition stable (r : request) : bool :=
  match r with
  | ReadFile _ _ | ExistsSync _ | Upload _ _ _ => true
  | _ => false
  end.

(** Files read the same, and an uploaded file gets the same asset, on both
    runs and whatever happened before. *)
Definition same_answers (X1 X2 : externals) : Prop :=
  ∀ t1 t2 r, stable r = true → backend X1 t1 r = backend X2 t2 r.

(** The author a lookup by name resolves to: the one found, or the one
    the importer creates. *)
Definition resolved_author (cfg : config) (name found : value) : result value :=
  if truthy (prop_opt found "_id") then Ok (prop_opt found "_id")
  else match slugify name with
       | Ok s => Ok (VStr (makeDocumentId cfg "author" (VStr s)))
       | Throw e => Throw e
       end.

(** An author looked up by name is, on both runs, absent or the same one,
    and when found on one run only it is the one the importer creates. *)
Definition same_authors (cfg : config) (X1 X2 : externals) : Prop :=
  ∀ t1 t2 name v1 v2,
    backend X1 t1 (Fetch author_by_name [("name", name)]) = Ok v1 →
    backend X2 t2 (Fetch author_by_name [("name", name)]) = Ok v2 →
    resolved_author cfg name v1 = resolved_author cfg name v2.

(** The time the clock of a run told at some moment. *)
Definition told_by_clock (X : externals) (v : value) : Prop :=
  ∃ t, backend X t Now = Ok v.

(** Two documents with the same identifier and, up to the keys of the
    body, the same content; the publication date is the same, or on both
    runs the time of the run. *)
Definition same_document (X1 X2 : externals) (d1 d2 : value) : Prop :=
  prop_opt d1 "_id" = prop_opt d2 "_id"
  ∧ (∀ f, f ≠ "publishedAt" → f ≠ "body" → prop_opt d1 f = prop_opt d2 f)
  ∧ alike (prop_opt d1 "body") (prop_opt d2 "body")
  ∧ (prop_opt d1 "publishedAt" = prop_opt d2 "publishedAt"
     ∨ (told_by_clock X1 (prop_opt d1 "publishedAt")
        ∧ told_by_clock X2 (prop_opt d2 "publishedAt"))).

(** The documents a run sent to [createOrReplace] with success. *)
Definition upserted (t : list event) : list value :=
  omap (fun e => match e with
                 | Call (CreateOrReplace doc) (Ok _) => Some doc
                 | _ => None
                 end) t.

End TwoRuns.

(* ------------------------------------------------------------------ *)
(** ** The sample post imported a second time *)
(* ------------------------------------------------------------------ *)
Module TwoRunsSamples.
Import Importer ImportSamples.

(** Another random source. *)
Definition otherHex (n : nat) : string := "r" +:+ pretty (n + 100).

(** The backend after the first run: the author of the sample post is
    there, under the identifier the importer gave it. *)
Definition laterBackend (clock : string) (t : list event) (r : request) : result value :=
  match r with
  | Fetch _ [(k, VStr n)] =>
      if String.eqb k "name" && String.eqb n "Doc Spinard"
      then Ok (VObj [("_id", VStr "author-doc-spinard")])
      else Ok VNull
  | _ => sampleBackend clock t r
  end.

Definition laterX : externals :=
  Externals otherHex (laterBackend "2026-02-02T00:00:00.000Z")
    (fun _ => Ok (helloFrontmatter, helloBody))
    Samples.oneDate
    (fun _ => Some "image/png")
    (fun p => Str.startsWith p "/")
    (fun dir p => dir +:+ "/" +:+ p)
    (fun _ => "/posts")
    (fun p => basename_go p "")
    paragraphConverter.

(** The same backend, which also finds that author by identifier. *)
Definition knowingBackend (clock : string) (t : list event) (r : request) : result value :=
  match r with
  | Fetch _ [(k, VStr n)] =>
      if String.eqb k "id" && String.eqb n "author-doc-spinard"
      then Ok (VObj [("_id", VStr "author-doc-spinard")])
      else laterBackend clock t r
  | _ => laterBackend clock t r
  end.

Definition knowingX : externals :=
  Externals otherHex (knowingBackend "2026-02-02T00:00:00.000Z")
    (fun _ => Ok (helloFrontmatter, helloBody))
    Samples.oneDate
    (fun _ => Some "image/png")
    (fun p => Str.startsWith p "/")
    (fun dir p => dir +:+ "/" +:+ p)
    (fun _ => "/posts")
    (fun p => basename_go p "")
    paragraphConverter.

Definition noDocument : prepared := Prepared VUndef "" VUndef.

(** What the two runs prepare for the sample post. *)
Definition firstDocument : prepared :=
  Eval vm_compute in
    match prepareDocument sampleX realRun "/posts/hello.md" 0 1 start with
    | (Ok (Some d), _) => d
    | _ => noDocument
    end.

Definition secondDocument : prepared :=
  Eval vm_compute in
    match prepareDocument laterX realRun "/posts/hello.md" 0 1 start with
    | (Ok (Some d), _) => d
    | _ => noDocument
    end.

End TwoRunsSamples.

(* ------------------------------------------------------------------ *)
(** ** The trace of an operation under the retry wrapper *)
(* ------------------------------------------------------------------ *)
Module RetrySpec.
Import Importer.

(** The events of a request tried again and again, given what each attempt
    answered: after every attempt but the last, the retry line and the wait. *)
Fixpoint retry_events (r : request) (context : string) (maxRetries : nat)
  (baseDelay : Z) (attempt : nat) (answers : list (result value)) : list event :=
  match answers with
  | [] => []
  | a :: rest =>
      Call r a
      :: match rest with
         | [] => []
         | _ =>
             Log (Retry.retry_line context attempt maxRetries
                    (Retry.delay_of baseDelay attempt))
             :: Sleep (Retry.delay_of baseDelay attempt)
             :: retry_events r context maxRetries baseDelay (S attempt) rest
         end
  end.

(** The waits of a trace, in milliseconds. *)
Definition sleeps (t : list event) : list Z :=
  omap (fun e => match e with Sleep ms => Some ms | _ => None end) t.

(** An attempt that failed on a transient condition. *)
Definition transient_failure (a : result value) : Prop :=
  ∃ e, a = Throw e ∧ Retry.isRetryable e = true.

End RetrySpec.

(* ------------------------------------------------------------------ *)
(** ** Keys of a body *)
(* ------------------------------------------------------------------ *)
Module KeysSpec.

(** [v._key] is there: what Sanity asks of every item of an array. *)
Definition keyed (v : value) : bool := truthy (prop_opt v "_key").

(** A block with its key, and with the keys of its children. *)
Definition well_keyed (b : value) : Prop :=
  keyed b = true ∧ ∀ c, In c (elems (prop_opt b "children")) → keyed c = true.

(** Every key drawn is a string that is not empty, as twelve hexadecimal
    digits are. *)
Definition keys_nonempty (randomHex : nat → string) : Prop :=
  ∀ n, Str.nonempty (randomHex n) = true.

End KeysSpec.

(* ------------------------------------------------------------------ *)
(** ** What a slug looks like *)
(* ------------------------------------------------------------------ *)
Module SlugSpec.
Import Importer.

Definition is_dash (c : ascii) : bool := Ascii.eqb c "-".

(** Lower-case letters, digits and dashes, no two dashes in a row. *)
Fixpoint tidy (s : string) : bool :=
  match s with
  | EmptyString => true
  | String c r =>
      if is_slug_char c then tidy r
      else is_dash c
           && match r with
              | EmptyString => true
              | String c' _ => is_slug_char c'
              end
           && tidy r
  end.

Definition starts_with_dash (s : string) : bool :=
  match s with
  | String c _ => is_dash c
  | EmptyString => false
  end.

Fixpoint ends_with_dash (s : string) : bool :=
  match s with
  | EmptyString => false
  | String c EmptyString => is_dash c
  | String _ r => ends_with_dash r
  end.

(** A slug: words of lower-case letters and digits joined by single dashes. *)
Definition is_slug (s : string) : bool :=
  Str.nonempty s && tidy s && negb (starts_with_dash s) && negb (ends_with_dash s).

(** A run of slug checks, one after the other. *)
Definition checks (cs : list (value * string)) (w : world) : world :=
  fold_left (fun w c => snd (checkSlugCollision (fst c) (snd c) w)) cs w.

End SlugSpec.

(* ------------------------------------------------------------------ *)
(** ** Inline images whose file is not there *)
(* ------------------------------------------------------------------ *)
Module BodySpec.
Import Extract Importer.

(** Where [resolvePath] takes an inline image, as the script prints it. *)
Definition resolved (X : externals) (mdFilePath : string) (img : image) : string :=
  match resolvePath X mdFilePath (VStr (src img)) with
  | Ok v => to_string v
  | Throw _ => ""
  end.

(** No file at this path, whenever it is asked. *)
Definition absent (X : externals) (path : string) : Prop :=
  ∀ t, backend X t (ExistsSync path) = Ok (VBool false).

(** The sample world without the picture of the cat. *)
Definition lostCatBackend (clock : string) (t : list event) (r : request) : result value :=
  match r with
  | ExistsSync p => Ok (VBool (negb (String.eqb p ImportSamples.catPath)))
  | _ => ImportSamples.sampleBackend clock t r
  end.

Definition lostCatX : externals :=
  Externals Samples.sampleHex (lostCatBackend "2026-01-01T00:00:00.000Z")
    (fun _ => Ok (ImportSamples.helloFrontmatter, ImportSamples.helloBody))
    Samples.oneDate
    (fun _ => Some "image/png")
    (fun p => Str.startsWith p "/")
    (fun dir p => dir +:+ "/" +:+ p)
    (fun _ => "/posts")
    (fun p => ImportSamples.basename_go p "")
    ImportSamples.paragraphConverter.

Definition catImage : image :=
  Eval vm_compute in
    match images (extractInlineImages ImportSamples.helloBody) with
    | img :: _ => img
    | [] => Image "" "" "" ""
    end.

End BodySpec.

(* ------------------------------------------------------------------ *)
(** ** The run over all files *)
(* ------------------------------------------------------------------ *)
Module Main.
Import Importer.

(** The counters of [main], and what it printed with [console.error]: the
    exceptions whose messages were reported, oldest first. *)
Record tally := Tally {
  ok : nat;
  fail : nat;
  skipped : nat;
  reported : list exn;
}.

Section WithExternals.
Variable X : externals.
Variable cfg : config.
(** [--check], and the two settings of the environment that [main] prints. *)
Variable CHECK : bool.
Variable POSTS_DIR SANITY_DATASET : string.

Definition mode : string :=
  (if WRITE cfg then "WRITE" else "DRY-RUN") +:+ (if DRAFT cfg then " (drafts)" else "").

(** The line [importFile] prints first. *)
Definition file_line (f : string) (i total : nat) : string :=
  newline +:+ "[" +:+ pretty (i + 1) +:+ "/" +:+ pretty total +:+ "] "
  +:+ path_basename X f.

(** One turn of the loop, [try { ... } catch (e) { ... }]. *)
Definition turn (total : nat) (f : string) (i : nat) (t : tally) : M tally :=
  fun w =>
    match importFile X cfg f i total w with
    | (Ok Skipped, w') => (Ok (Tally (ok t) (fail t) (skipped t + 1) (reported t)), w')
    | (Ok _, w') => (Ok (Tally (ok t + 1) (fail t) (skipped t) (reported t)), w')
    | (Throw e, w') =>
        (Ok (Tally (ok t) (fail t + 1) (skipped t) (reported t ++ [e])), w')
    end.

(** [for (let i = 0; i < files.length; i++)], from [i] on. *)
Fixpoint loop (total : nat) (files : list string) (i : nat) (t : tally) : M tally :=
  match files with
  | [] => mret t
  | f :: rest => t' ← turn total f i t; loop total rest (i + 1) t'
  end.

(** [main], given the files that [globSync] found. It returns the status
    it leaves with through [process.exit], if it does, and its counters. *)
Definition main (files : list string) : M (option nat * tally) :=
  _ ← log "Helixbytes Blog Importer";
  _ ← log "========================";
  _ ← log ("Mode: " +:+ mode);
  _ ← log ("Posts directory: " +:+ POSTS_DIR);
  _ ← log ("Dataset: " +:+ SANITY_DATASET);
  _ ← match ONLY cfg with
      | Some only =>
          if Str.nonempty only then log ("Filter: --only " +:+ only) else (mret tt : M unit)
      | None => mret tt
      end;
  if Nat.eqb (length files) 0 then
    _ ← log (newline +:+ "No markdown files found in " +:+ POSTS_DIR);
    mret (None, Tally 0 0 0 [])
  else
    _ ← log ("Found " +:+ pretty (length files) +:+ " markdown file(s)");
    t ← loop (length files) files 0 (Tally 0 0 0 []);
    _ ← log (newline +:+ "------------------------");
    _ ← log "Summary:";
    _ ← log ("  Success: " +:+ pretty (ok t));
    _ ← log ("  Skipped: " +:+ pretty (skipped t));
    _ ← log ("  Failed:  " +:+ pretty (fail t));
    _ ← log ("  Mode:    " +:+ mode);
    mret (if CHECK && Nat.ltb 0 (fail t) then Some 2 else None, t).

End WithExternals.
End Main.

(* ================================================================== *)
(** * Part II: properties *)
(* ================================================================== *)

(* ------------------------------------------------------------------ *)
(** ** Facts about the string primitives *)
(* ------------------------------------------------------------------ *)
Module StrFacts.
Import Str.

Lemma sapp_cons (x : ascii) (a b : string) : String x a +:+ b = String x (a +:+ b).
Proof. reflexivity. Qed.

Lemma sapp_empty_l (a : string) : "" +:+ a = a.
Proof. reflexivity. Qed.

Ltac str_simpl := cbn; rewrite ?sapp_cons, ?sapp_empty_l; cbn.
Tactic Notation "str_simpl" "in" hyp(H) :=
  cbn in H; rewrite ?sapp_cons, ?sapp_empty_l in H; cbn in H.

Lemma sapp_assoc (a b c : string) : (a +:+ b) +:+ c = a +:+ (b +:+ c).
Proof. induction a as [|x a IH]; str_simpl; [reflexivity | now f_equal]. Qed.

Lemma sapp_empty_r (a : string) : a +:+ "" = a.
Proof. induction a as [|x a IH]; str_simpl; [reflexivity | now f_equal]. Qed.

Lemma len_app (a b : string) : len (a +:+ b) = len a + len b.
Proof. unfold len. induction a as [|x a IH]; str_simpl; [reflexivity | now f_equal]. Qed.

Lemma nonempty_len (s : string) : nonempty s = true ↔ 0 < len s.
Proof. destruct s; unfold len; simpl; split; intros; try lia; try easy. Qed.

Lemma take_drop (n : nat) (s : string) : take n s +:+ drop n s = s.
Proof.
  revert s; induction n as [|n IH]; intros [|c s]; str_simpl; try reflexivity.
  now rewrite IH.
Qed.

Lemma drop_app_len (a b : string) : drop (len a) (a +:+ b) = b.
Proof. unfold len; induction a as [|x a IH]; str_simpl; [now destruct b | exact IH]. Qed.

Lemma take_app_len (a b : string) : take (len a) (a +:+ b) = a.
Proof. unfold len; induction a as [|x a IH]; str_simpl; [now destruct b | now rewrite IH]. Qed.

Lemma len_take (n : nat) (s : string) : n <= len s → len (take n s) = n.
Proof.
  unfold len. revert s; induction n as [|n IH]; intros [|c s]; simpl; intros H;
    try reflexivity; try lia.
  rewrite IH; [reflexivity | lia].
Qed.

Lemma len_drop (n : nat) (s : string) : len (drop n s) = len s - n.
Proof.
  unfold len. revert s; induction n as [|n IH]; intros [|c s]; simpl;
    try reflexivity; try lia. apply IH.
Qed.

Lemma drop_drop (n m : nat) (s : string) : drop n (drop m s) = drop (m + n) s.
Proof.
  revert s; induction m as [|m IH]; intros s; simpl; [reflexivity|].
  destruct s as [|c s]; simpl; [now destruct n | apply IH].
Qed.

Lemma prefix_iff (t s : string) :
  String.prefix t s = true ↔ ∃ r, s = t +:+ r.
Proof.
  revert s; induction t as [|x t IH]; intros s.
  - destruct s; simpl; split; eauto.
  - destruct s as [|y s]; simpl.
    + split; [discriminate | intros [r Hr]; discriminate].
    + destruct (ascii_dec x y) as [->|Hne].
      * rewrite IH. split; intros [r Hr]; exists r; rewrite sapp_cons in *; congruence.
      * split; [discriminate | intros [r Hr]; rewrite sapp_cons in Hr; congruence].
Qed.

Lemma indexOf_eq (s t : string) :
  indexOf s t =
  if String.prefix t s then Some 0
  else match s with
       | EmptyString => None
       | String _ s' => S <$> indexOf s' t
       end.
Proof. destruct s; reflexivity. Qed.

(** [indexOf] returns the offset of an occurrence... *)
Lemma indexOf_split (s t : string) (i : nat) :
  indexOf s t = Some i →
  s = take i s +:+ t +:+ drop (i + len t) s ∧ i + len t <= len s.
Proof.
  revert i; induction s as [|c s IH]; intros i; rewrite indexOf_eq;
    destruct (String.prefix t _) eqn:Hp.
  - intros [= <-]. apply prefix_iff in Hp as [r Hr].
    destruct t; [|discriminate]. split; [reflexivity | unfold len; simpl; lia].
  - discriminate.
  - intros [= <-]. apply prefix_iff in Hp as [r Hr]. cbn [take Nat.add].
    rewrite Hr at 2 3. rewrite drop_app_len, Hr, len_app. split; [reflexivity | lia].
  - destruct (indexOf s t) as [j|] eqn:Hj; cbn; [|discriminate].
    intros [= <-]. destruct (IH j eq_refl) as [H1 H2]. cbn [take Nat.add drop].
    rewrite sapp_cons. split; [now rewrite <- H1 | unfold len in *; simpl; lia].
Qed.

(** ... and of the leftmost one. *)
Lemma indexOf_least (s t : string) (i : nat) (a b : string) :
  indexOf s t = Some i → s = a +:+ t +:+ b → i <= len a.
Proof.
  revert i a; induction s as [|c s IH]; intros i a; rewrite indexOf_eq;
    destruct (String.prefix t _) eqn:Hp; try (intros [= <-]; lia); try discriminate.
  destruct (indexOf s t) as [j|] eqn:Hj; cbn; [|discriminate].
  intros [= <-] Hs. destruct a as [|x a]; str_simpl in Hs.
  - assert (String.prefix t (String c s) = true) by (apply prefix_iff; eauto).
    congruence.
  - injection Hs as -> ->. specialize (IH j a eq_refl eq_refl).
    unfold len in *; simpl; lia.
Qed.

Lemma indexOf_none (s t a b : string) :
  indexOf s t = None → s ≠ a +:+ t +:+ b.
Proof.
  revert a; induction s as [|c s IH]; intros a; rewrite indexOf_eq;
    destruct (String.prefix t _) eqn:Hp; try discriminate; intros Hn Hs.
  - destruct a; str_simpl in Hs; [|discriminate].
    assert (String.prefix t "" = true) by (apply prefix_iff; eauto). congruence.
  - destruct (indexOf s t) eqn:Hj; cbn in Hn; [discriminate|].
    destruct a as [|x a]; str_simpl in Hs.
    + assert (String.prefix t (String c s) = true) by (apply prefix_iff; eauto).
      congruence.
    + injection Hs as -> ->. now apply (IH a).
Qed.

Lemma includes_iff (s t : string) :
  includes s t = true ↔ ∃ a b, s = a +:+ t +:+ b.
Proof.
  unfold includes. destruct (indexOf s t) as [i|] eqn:Hi.
  - split; [intros _ | reflexivity].
    apply indexOf_split in Hi as [Hi _]. eauto.
  - split; [discriminate | intros (a & b & Hs)].
    now apply (indexOf_none _ _ a b) in Hi.
Qed.

Lemma includes_false_sub (s t a b : string) :
  includes (a +:+ s +:+ b) t = false → includes s t = false.
Proof.
  intros H. destruct (includes s t) eqn:Hs; [|reflexivity].
  apply includes_iff in Hs as (x & y & ->).
  assert (includes (a +:+ (x +:+ t +:+ y) +:+ b) t = true) as Hc; [|congruence].
  apply includes_iff. exists (a +:+ x), (y +:+ b).
  now rewrite !sapp_assoc.
Qed.

End StrFacts.

(* ------------------------------------------------------------------ *)
(** ** Reasoning in the key monad *)
(* ------------------------------------------------------------------ *)
Module KFacts.

Lemma kbind_ok {S A B} (m : ST S A) (f : A → ST S B) (n : S) (r : B) (n' : S) :
  (m ≫= f) n = (Ok r, n') →
  ∃ a n1, m n = (Ok a, n1) ∧ f a n1 = (Ok r, n').
Proof.
  unfold mbind, ST_bind, kbind. destruct (m n) as [[a|e] n1]; [eauto | discriminate].
Qed.

Lemma kret_ok {S A} (a r : A) (n n' : S) :
  (mret a : ST S A) n = (Ok r, n') → r = a ∧ n' = n.
Proof. unfold mret, ST_ret, kret. now intros [= -> ->]. Qed.

Lemma klift_ok {S A} (x : result A) (r : A) (n n' : S) :
  klift x n = (Ok r, n') → x = Ok r ∧ n' = n.
Proof. unfold klift. now intros [= -> ->]. Qed.

(** Break a successful run of a sequence of binds into its steps. *)
Ltac kinv H :=
  repeat match type of H with
    | (_ ≫= _) _ = (Ok _, _) =>
        let a := fresh "a" in let n := fresh "n" in let Ha := fresh "Hstep" in
        apply kbind_ok in H as (a & n & Ha & H)
    | mret _ _ = (Ok _, _) => apply kret_ok in H as [? ?]; subst
    | klift _ _ = (Ok _, _) => apply klift_ok in H as [H ?]; subst
    end.

Lemma kfoldM_inv {S A T} (P : T → Prop) (f : T → A → ST S T) (xs : list A) :
  (∀ s x n s' n', In x xs → P s → f s x n = (Ok s', n') → P s') →
  ∀ s n s' n', P s → kfoldM f xs s n = (Ok s', n') → P s'.
Proof.
  induction xs as [|x xs IH]; intros Hf s n s' n' Hs H; simpl in H.
  - kinv H. assumption.
  - kinv H. eapply IH; [ | | exact H].
    + intros; eapply Hf; eauto. now right.
    + eapply Hf; eauto. now left.
Qed.

Lemma kmapM_inv {S A B} (R : A → B → Prop) (f : A → ST S B) (xs : list A) :
  (∀ x n y n', In x xs → f x n = (Ok y, n') → R x y) →
  ∀ n ys n', kmapM f xs n = (Ok ys, n') → Forall2 R xs ys.
Proof.
  induction xs as [|x xs IH]; intros Hf n ys n' H; simpl in H.
  - kinv H. constructor.
  - kinv H. constructor.
    + eapply Hf; eauto. now left.
    + eapply IH; eauto. intros; eapply Hf; eauto. now right.
Qed.

End KFacts.

(* ------------------------------------------------------------------ *)
(** ** Objects and their properties *)
(* ------------------------------------------------------------------ *)
Module JsFacts.

Lemma lookup_set_same (k : string) (v : value) (fs : fields) :
  lookup_field k (set_field k v fs) = v.
Proof.
  induction fs as [|[k' v'] fs IH]; simpl.
  - now rewrite String.eqb_refl.
  - destruct (String.eqb k' k) eqn:E; simpl; rewrite E; [reflexivity | exact IH].
Qed.

Lemma lookup_set_other (k k' : string) (v : value) (fs : fields) :
  k' ≠ k → lookup_field k' (set_field k v fs) = lookup_field k' fs.
Proof.
  intros Hne. induction fs as [|[k0 v0] fs IH]; simpl.
  - apply String.eqb_neq in Hne. rewrite String.eqb_sym in Hne. now rewrite Hne.
  - destruct (String.eqb k0 k) eqn:E; simpl.
    + apply String.eqb_eq in E as ->.
      apply String.eqb_neq in Hne. rewrite String.eqb_sym in Hne. now rewrite Hne.
    + destruct (String.eqb k0 k'); [reflexivity | exact IH].
Qed.

(** Decimal numerals start with a digit. *)
Lemma pretty_N_go_head (x : N) (s : string) :
  (0 < x)%N → ∃ d r, pretty_N_go x s = String (pretty_N_char d) r.
Proof.
  revert s. induction (N.lt_wf_0 x) as [x _ IH]. intros s Hx.
  rewrite pretty_N_go_step by lia.
  destruct (decide (x `div` 10 = 0)%N) as [E|E].
  - rewrite E, pretty_N_go_0. eauto.
  - apply IH; [apply N.div_lt; lia |].
    destruct (x `div` 10)%N; [congruence | lia].
Qed.

Lemma pretty_nat_head (i : nat) : ∃ d r, pretty i = String (pretty_N_char d) r.
Proof.
  unfold pretty, pretty_nat, pretty, pretty_N.
  destruct (decide (N.of_nat i = 0)%N) as [E|E].
  - exists 0%N, "". reflexivity.
  - apply pretty_N_go_head. lia.
Qed.

Lemma pretty_N_char_digit (d : N) (c : ascii) :
  pretty_N_char d = c → Ascii.is_nat c ≠ None.
Proof.
  intros <-. unfold pretty_N_char.
  repeat match goal with
         | |- context [match ?p with _ => _ end] => destruct p
         end; discriminate.
Qed.

(** A property name that does not start with a digit is no array index. *)
Lemma lookup_index_from (k : string) (i : nat) (xs : list value) (c : ascii) (r : string) :
  k = String c r → Ascii.is_nat c = None →
  lookup_field k (index_from i xs) = VUndef.
Proof.
  intros -> Hc. revert i; induction xs as [|x xs IH]; intros i; simpl; [reflexivity|].
  destruct (pretty_nat_head i) as (d & r' & E). rewrite E.
  destruct (String.eqb (String (pretty_N_char d) r') (String c r)) eqn:Q; [|apply IH].
  apply String.eqb_eq in Q. injection Q as Q _.
  now apply pretty_N_char_digit in Q.
Qed.

(** Adding a key to a value leaves the other named properties as they
    were (names that start with no digit). *)
Lemma prop_with_key (v : value) (key : value) (f : string) (c : ascii) (r : string) :
  f = String c r → Ascii.is_nat c = None → f ≠ "_key" →
  prop_opt (with_field v "_key" key) f = prop_opt v f.
Proof.
  intros Hf Hc Hne. unfold with_field, prop_opt. rewrite lookup_set_other by assumption.
  destruct v; simpl; try reflexivity.
  - eapply lookup_index_from; eauto.
  - eapply lookup_index_from; eauto.
Qed.

End JsFacts.

(* ------------------------------------------------------------------ *)
(** ** The block splitter *)
(* ------------------------------------------------------------------ *)
Module SplitterFacts.
Import Str StrFacts JsFacts KFacts Splitter SplitterSpec.

(** *** The leftmost token *)

Definition nearest_ok (text : string) (seen : list string)
  (acc : option (nat * string)) : Prop :=
  match acc with
  | None => ∀ t, In t seen → indexOf text t = None
  | Some (i, t) =>
      In t seen ∧ indexOf text t = Some i
      ∧ ∀ t' j, In t' seen → indexOf text t' = Some j → i <= j
  end.

Lemma nearestStep_ok (text : string) (seen : list string) acc (t : string) :
  nearest_ok text seen acc →
  nearest_ok text (seen ++ [t]) (nearestStep text acc t).
Proof.
  unfold nearestStep. intros Hacc.
  destruct (indexOf text t) as [idx|] eqn:Ht.
  - destruct acc as [[i t0]|]; simpl in *.
    + destruct Hacc as (Hin & Hi & Hmin).
      destruct (Nat.ltb_spec idx i) as [Hlt|Hge]; simpl.
      * split; [apply in_app_iff; right; now left|]. split; [assumption|].
        intros t' j [Hin'|[<-|[]]]%in_app_iff Hj.
        -- specialize (Hmin _ _ Hin' Hj). lia.
        -- assert (j = idx) by congruence. lia.
      * split; [apply in_app_iff; now left|]. split; [assumption|].
        intros t' j [Hin'|[<-|[]]]%in_app_iff Hj.
        -- eauto.
        -- assert (j = idx) by congruence. lia.
    + split; [apply in_app_iff; right; now left|]. split; [assumption|].
      intros t' j [Hin'|[<-|[]]]%in_app_iff Hj.
      * rewrite (Hacc _ Hin') in Hj. discriminate.
      * assert (j = idx) by congruence. lia.
  - destruct acc as [[i t0]|]; simpl in *.
    + destruct Hacc as (Hin & Hi & Hmin).
      split; [apply in_app_iff; now left|]. split; [assumption|].
      intros t' j [Hin'|[<-|[]]]%in_app_iff Hj; [eauto | congruence].
    + intros t' [Hin'|[<-|[]]]%in_app_iff; eauto.
Qed.

Lemma fold_nearest_ok (text : string) (tokens seen : list string) acc :
  nearest_ok text seen acc →
  nearest_ok text (seen ++ tokens) (fold_left (nearestStep text) tokens acc).
Proof.
  revert seen acc; induction tokens as [|t tokens IH]; intros seen acc Hacc; simpl.
  - now rewrite app_nil_r.
  - replace (seen ++ t :: tokens) with ((seen ++ [t]) ++ tokens)
      by (now rewrite <- List.app_assoc).
    apply IH. now apply nearestStep_ok.
Qed.

Lemma findNearest_ok (tokens : list string) (text : string) :
  nearest_ok text tokens (findNearest tokens text).
Proof. apply (fold_nearest_ok text tokens [] None). intros t []. Qed.

Lemma nearestToken_none (tokens : list string) (text : string) :
  nonempty_tokens tokens →
  nearestToken tokens text = None → token_free tokens text.
Proof.
  intros Hne H t Ht. unfold nearestToken in H.
  pose proof (findNearest_ok tokens text) as Hok.
  destruct (findNearest tokens text) as [[i t0]|]; simpl in Hok.
  - destruct Hok as (Hin & _ & _). rewrite (Hne _ Hin) in H. discriminate.
  - unfold includes. now rewrite (Hok _ Ht).
Qed.

Lemma nearestToken_some (tokens : list string) (text : string) (i : nat) (t : string) :
  nearestToken tokens text = Some (i, t) →
  In t tokens ∧ nonempty t = true ∧ indexOf text t = Some i
  ∧ ∀ t' j, In t' tokens → indexOf text t' = Some j → i <= j.
Proof.
  intros H. unfold nearestToken in H.
  pose proof (findNearest_ok tokens text) as Hok.
  destruct (findNearest tokens text) as [[i0 t0]|]; [|discriminate].
  destruct (nonempty t0) eqn:Hne; [|discriminate].
  injection H as <- <-. simpl in Hok. tauto.
Qed.

Lemma len_take_le (n : nat) (s : string) : len (take n s) <= n.
Proof.
  unfold len. revert s; induction n as [|n IH]; intros [|c s]; simpl; try lia.
  specialize (IH s). lia.
Qed.

(** What precedes the leftmost token holds no token. *)
Lemma take_token_free (tokens : list string) (text : string) (i : nat) :
  nonempty_tokens tokens →
  (∀ t' j, In t' tokens → indexOf text t' = Some j → i <= j) →
  token_free tokens (take i text).
Proof.
  intros Hne Hmin t Ht.
  destruct (includes (take i text) t) eqn:Hinc; [exfalso | reflexivity].
  apply includes_iff in Hinc as (a & b & Hab).
  assert (text = a +:+ t +:+ (b +:+ drop i text)) as Htext.
  { rewrite <- (take_drop i text) at 1. rewrite Hab. now rewrite !sapp_assoc. }
  destruct (indexOf text t) as [j|] eqn:Hj.
  - pose proof (indexOf_least _ _ _ _ _ Hj Htext) as Hle.
    specialize (Hmin _ _ Ht Hj).
    pose proof (len_take_le i text) as Hlen. rewrite Hab, !len_app in Hlen.
    apply Hne, nonempty_len in Ht. lia.
  - now apply (indexOf_none _ _ a (b +:+ drop i text)) in Hj.
Qed.

Lemma substring_refl (s : string) : substring_of s s.
Proof. exists "", "". now rewrite sapp_empty_r. Qed.

Lemma substring_trans (x y z : string) :
  substring_of x y → substring_of y z → substring_of x z.
Proof.
  intros (a & b & ->) (c & d & ->). exists (c +:+ a), (b +:+ d).
  now rewrite !sapp_assoc.
Qed.

Lemma substring_take (n : nat) (s : string) : substring_of (take n s) s.
Proof. exists "", (drop n s). now rewrite sapp_empty_l, take_drop. Qed.

Lemma substring_drop (n : nat) (s : string) : substring_of (drop n s) s.
Proof. exists (take n s), "". now rewrite sapp_empty_r, take_drop. Qed.

Lemma token_free_sub (tokens : list string) (x s : string) :
  substring_of x s → token_free tokens s → token_free tokens x.
Proof.
  intros (a & b & ->) H t Ht. eapply includes_false_sub, H, Ht.
Qed.

(** *** What a split block is made of *)

Section Split.
Variable randomHex : nat → string.
Variables (block : value) (tokens : list string) (tokenToImageBlock : fields).
Variable children : list value.

Definition cur_ok (cur : current) : Prop :=
  Forall (fun c' => ∃ c, In c children ∧ copy_of tokens c c') (cur_children cur).

Definition block_ok (b : value) : Prop :=
  (∃ t key, In t tokens ∧ b = imageBlock tokenToImageBlock t key)
  ∨ (∃ cur, b = block_of block cur ∧ cur_ok cur).

Definition state_ok (st : split_state) : Prop :=
  Forall block_ok (fst st) ∧ cur_ok (snd st).

Lemma generateKey_ok (n : nat) (k : string) (n' : nat) :
  generateKey randomHex n = (Ok k, n') → k = randomHex n ∧ n' = S n.
Proof. unfold generateKey. now intros [= <- <-]. Qed.

Lemma newCurrent_ok (n : nat) (cur : current) (n' : nat) :
  newCurrent randomHex block n = (Ok cur, n') → cur_children cur = [].
Proof. unfold newCurrent. intros H. kinv H. reflexivity. Qed.

Lemma flushCurrent_ok (st : split_state) (n : nat) (st' : split_state) (n' : nat) :
  state_ok st → flushCurrent randomHex block st n = (Ok st', n') → state_ok st'.
Proof.
  intros [Hout Hcur] H. unfold flushCurrent in H. kinv H.
  apply newCurrent_ok in Hstep. split; simpl.
  - destruct (hasMeaningfulChildren _); [|assumption].
    apply Forall_app; split; [assumption|]. constructor; [|constructor].
    right. eauto.
  - unfold cur_ok. rewrite Hstep. constructor.
Qed.

Lemma push_child_ok (st : split_state) (c c' : value) :
  In c children → copy_of tokens c c' → state_ok st → state_ok (push_child c' st).
Proof.
  intros Hin Hc [Hout Hcur]. split; simpl; [assumption|].
  apply Forall_app; split; [assumption|]. constructor; [eauto | constructor].
Qed.

Lemma pushFragment_ok (child : value) (text : string) (st : split_state)
  (n : nat) (st' : split_state) (n' : nat) :
  In child children → is_text_span child = true →
  substring_of text (text_or_empty child) →
  (nonempty_tokens tokens → token_free tokens text) →
  state_ok st →
  pushFragment randomHex child text st n = (Ok st', n') → state_ok st'.
Proof.
  intros Hin Hspan Hsub Hfree Hst H. unfold pushFragment in H.
  destruct (Nat.ltb 0 (len text)).
  - kinv H. eapply push_child_ok; eauto. now constructor.
  - kinv H. assumption.
Qed.

Lemma splitSpan_ok (child : value) (fuel : nat) :
  In child children → is_text_span child = true →
  ∀ (text : string) (st : split_state) (n : nat) (st' : split_state) (n' : nat),
    substring_of text (text_or_empty child) →
    state_ok st →
    splitSpan randomHex fuel block tokens tokenToImageBlock child text st n
    = (Ok st', n') →
    state_ok st'.
Proof.
  intros Hin Hspan. induction fuel as [|fuel IH]; intros text st n st' n' Hsub Hst H;
    simpl in H; [discriminate|].
  destruct (nearestToken tokens text) as [[i t]|] eqn:Hnear.
  - apply nearestToken_some in Hnear as (Ht & Hne & Hi & Hmin).
    kinv H. eapply IH; [ | | exact H].
    + eapply substring_trans; [apply substring_drop | exact Hsub].
    + eapply pushFragment_ok in Hstep; eauto.
      * eapply flushCurrent_ok in Hstep0; eauto.
        destruct Hstep0 as [Hout Hcur]. split; simpl; [|assumption].
        apply Forall_app; split; [assumption|]. constructor; [|constructor].
        left. eauto.
      * eapply substring_trans; [apply substring_take | exact Hsub].
      * intros Hall. now apply take_token_free.
  - eapply pushFragment_ok in H; eauto.
    intros Hall. now apply nearestToken_none.
Qed.

Lemma ensureKey_ok (v : value) (n : nat) (v' : value) (n' : nat) :
  ensureKey randomHex v n = (Ok v', n') →
  v' = v ∨ ∃ k, v' = with_field v "_key" (VStr k).
Proof.
  unfold ensureKey. intros H. kinv H.
  destruct (truthy a); kinv H; eauto.
Qed.

Lemma splitChild_ok (st : split_state) (child : value)
  (n : nat) (st' : split_state) (n' : nat) :
  In child children → state_ok st →
  splitChild randomHex block tokens tokenToImageBlock st child n = (Ok st', n') →
  state_ok st'.
Proof.
  intros Hin Hst H. unfold splitChild in H.
  destruct (is_text_span child) eqn:Hspan.
  - unfold is_text_span in Hspan.
    apply andb_true_iff in Hspan as [[Ht Hs]%andb_true_iff Hx].
    rewrite Ht, Hs, Hx in H. cbn [negb orb] in H.
    eapply splitSpan_ok; eauto using substring_refl.
    unfold is_text_span. now rewrite Ht, Hs, Hx.
  - assert (negb (truthy child) || negb (str_eq (prop_opt child "_type") "span")
            || negb (is_string (prop_opt child "text")) = true) as E.
    { unfold is_text_span in Hspan.
      destruct (truthy child), (str_eq _ _), (is_string _); simpl in *; congruence. }
    rewrite E in H. kinv H. apply ensureKey_ok in Hstep as [->|[k ->]].
    + eapply push_child_ok; eauto. now constructor.
    + eapply push_child_ok; eauto. now constructor.
Qed.

Lemma splitBlock_ok (n : nat) (out : list value) (n' : nat) :
  iterate (prop_opt block "children") = Ok children →
  splitBlockByTokensPreserveMarks randomHex block tokens tokenToImageBlock n
  = (Ok out, n') →
  Forall block_ok out.
Proof.
  intros Hch H. unfold splitBlockByTokensPreserveMarks in H. kinv H.
  rewrite Hch in Hstep0. injection Hstep0 as <-.
  apply newCurrent_ok in Hstep.
  assert (state_ok a1) as Hst.
  { eapply (kfoldM_inv state_ok); [ | | exact Hstep1].
    - intros; eapply splitChild_ok; eauto.
    - split; simpl; [constructor|]. unfold cur_ok. rewrite Hstep. constructor. }
  eapply flushCurrent_ok in Hstep2; eauto. apply Hstep2.
Qed.

End Split.

Lemma text_span_object (c : value) :
  is_text_span c = true → ∃ fs, c = VObj fs.
Proof.
  unfold is_text_span. intros [[_ H]%andb_true_iff _]%andb_true_iff.
  destruct c; simpl in H; try discriminate. eauto.
Qed.

Lemma copy_preserved (tokens : list string) (c c' : value) :
  copy_of tokens c c' → child_preserved c c'.
Proof.
  intros [Hs | k Hs | k txt Hs Hsub _].
  - left. eauto.
  - left. eauto.
  - right. destruct (text_span_object _ Hs) as [fs ->].
    split; [assumption|]. unfold fragment; simpl.
    assert (same_but_key_text (VObj fs)
              (VObj (set_field "text" (VStr txt) (set_field "_key" (VStr k) fs)))) as Hsame.
    { intros f Hk Ht. simpl. now rewrite !lookup_set_other. }
    split; [exact Hsame|]. split; [apply Hsame; discriminate|].
    exists txt. split; [apply lookup_set_same | assumption].
Qed.

Lemma splitBlock_children (randomHex : nat → string) (block : value)
  (tokens : list string) (tokenToImageBlock : fields) (n : nat)
  (out : list value) (n' : nat) :
  splitBlockByTokensPreserveMarks randomHex block tokens tokenToImageBlock n
  = (Ok out, n') →
  iterate (prop_opt block "children") = Ok (children_of block).
Proof.
  intros H. unfold splitBlockByTokensPreserveMarks in H. kinv H.
  apply klift_ok in Hstep0 as [Hstep0 _].
  unfold children_of. now rewrite Hstep0.
Qed.



End SplitterFacts.

(* ------------------------------------------------------------------ *)
(** ** The token extractor *)
(* ------------------------------------------------------------------ *)
Module ExtractFacts.
Import Str StrFacts Extract.

Definition suffix_of (s' s : string) : Prop := ∃ a, s = a +:+ s'.

Lemma suffix_refl (s : string) : suffix_of s s.
Proof. now exists "". Qed.

Lemma suffix_trans (a b c : string) : suffix_of a b → suffix_of b c → suffix_of a c.
Proof. intros [x ->] [y ->]. exists (y +:+ x). now rewrite sapp_assoc. Qed.

Lemma suffix_tail (c : ascii) (s : string) : suffix_of s (String c s).
Proof. now exists (String c ""). Qed.

(** The matcher hands its continuation a suffix of the input. *)
Lemma star_suffix {R} (p : ascii → bool) (s : string) (caps : captures)
  (k : string → captures → option R) (x : R) :
  star p s caps k = Some x → ∃ s', suffix_of s' s ∧ k s' caps = Some x.
Proof.
  induction s as [|c s IH]; simpl; intros H.
  - eauto using suffix_refl.
  - destruct (p c); [|eauto using suffix_refl].
    destruct (star p s caps k) as [y|] eqn:E; [|eauto using suffix_refl].
    injection H as ->. destruct (IH eq_refl) as (s' & Hs & Hk).
    eauto using suffix_trans, suffix_tail.
Qed.

Lemma match_re_suffix {R} (r : re) :
  ∀ (s : string) (caps : captures) (k : string → captures → option R) (x : R),
    match_re r s caps k = Some x →
    ∃ s' caps', suffix_of s' s ∧ k s' caps' = Some x.
Proof.
  induction r as [c|p|p|r1 IH1 r2 IH2|r1 IH1 r2 IH2|r1 IH1|i r1 IH1];
    intros s caps k x H; simpl in H.
  - destruct s as [|c' s]; [discriminate|].
    destruct (Ascii.eqb c c'); [|discriminate]. eauto using suffix_tail.
  - destruct s as [|c' s]; [discriminate|].
    destruct (p c'); [|discriminate]. eauto using suffix_tail.
  - apply star_suffix in H as (s' & Hs & Hk). eauto.
  - apply IH1 in H as (s1 & caps1 & Hs1 & H).
    apply IH2 in H as (s2 & caps2 & Hs2 & H). eauto using suffix_trans.
  - destruct (match_re r1 s caps k) as [y|] eqn:E.
    + injection H as ->. now apply IH1 in E.
    + now apply IH2 in H.
  - destruct (match_re r1 s caps k) as [y|] eqn:E.
    + injection H as ->. now apply IH1 in E.
    + eauto using suffix_refl.
  - apply IH1 in H as (s1 & caps1 & Hs1 & H). eauto.
Qed.

Lemma match_img_suffix (s rest : string) (caps : captures) :
  match_img s = Some (rest, caps) → ∃ a, s = a +:+ rest ∧ len s - len rest = len a.
Proof.
  intros H. unfold match_img in H.
  destruct (match_re_suffix IMG_RE _ _ _ _ H) as (s' & caps' & [a ->] & E).
  injection E as -> ->. exists a. split; [reflexivity|]. rewrite len_app. lia.
Qed.

Lemma weave_cons (c : ascii) (p : string) (ps xs : list string) :
  weave (String c p :: ps) xs = String c (weave (p :: ps) xs).
Proof. destruct xs; reflexivity. Qed.

Lemma weave_step (x : string) (ps xs : list string) :
  weave ("" :: ps) (x :: xs) = x +:+ weave ps xs.
Proof. reflexivity. Qed.

Lemma len_zero (a : string) : len a = 0 → a = "".
Proof. now destruct a. Qed.

#[local] Arguments weave : simpl never.

(** A match of the pattern is never empty: it starts with [![]. *)
Lemma match_img_nonempty (s rest : string) (caps : captures) :
  match_img s = Some (rest, caps) → len s - len rest ≠ 0.
Proof.
  unfold match_img.
  assert (∃ r, IMG_RE = Seq (Lit "!") (Seq (Lit "[") r)) as [r ->]
    by (eexists; reflexivity).
  cbn [match_re]. destruct s as [|c1 [|c2 s2]]; try discriminate.
  - destruct (Ascii.eqb "!" c1); discriminate.
  - destruct (Ascii.eqb "!" c1); [|discriminate].
    destruct (Ascii.eqb "[" c2); [|discriminate]. intros H.
    apply match_re_suffix in H as (s' & caps' & [a ->] & E).
    injection E as -> _. pose proof (len_app a rest) as Hl.
    unfold len in *. cbn [String.length]. lia.
Qed.

(** The replacer numbers the matches from left to right and puts each
    token where its match stood. *)
Lemma replace_go_spec (s : string) :
  ∀ (skip : nat) (imgs0 : list image) (out : string) (imgs : list image),
    replace_go s skip imgs0 = (out, imgs) →
    ∃ (pieces origs : list string) (new : list image),
      imgs = imgs0 ++ new
      ∧ map token new = map token_of (seq (length imgs0) (length new))
      ∧ length pieces = S (length new)
      ∧ Forall2 is_image_ref origs new
      ∧ drop skip s = weave pieces origs
      ∧ out = weave pieces (map (fun i => replacement (token i)) new)
      ∧ leftmost pieces origs.
Proof.
  induction s as [|c s IH]; intros skip imgs0 out imgs H.
  - assert (replace_go "" skip imgs0 = ("", imgs0)) as E
      by (destruct skip; reflexivity).
    rewrite E in H. injection H as <- <-.
    exists [""], [], []. simpl. rewrite app_nil_r. repeat split; try constructor.
    + now destruct skip.
    + intros k Hk. cbn in Hk. lia.
  - cbn [replace_go] in H. destruct skip as [|n].
    + destruct (match_img (String c s)) as [[rest caps]|] eqn:E.
      * destruct (match_img_suffix _ _ _ E) as (a & Ha & Hlen).
        pose proof (match_img_nonempty _ _ _ E) as Hne. rewrite Hlen in H, Hne.
        set (img := record_of imgs0 caps) in *.
        destruct (len a) as [|m] eqn:Hm; [now contradiction Hne|].
        destruct (replace_go s m (imgs0 ++ [img])) as [out' imgs'] eqn:Hgo.
        injection H as <- <-.
        destruct (IH _ _ _ _ Hgo)
          as (pieces & origs & new & -> & Htok & Hlenp & Href & Hmd & -> & Hleft).
        exists ("" :: pieces), (a :: origs), (img :: new).
        rewrite <- List.app_assoc. rewrite length_app, Nat.add_1_r in Htok.
        split; [reflexivity|]. split; [cbn; now rewrite Htok|].
        split; [cbn in *; lia|].
        split; [constructor; [|assumption]; exists rest, caps; rewrite <- Ha; auto|].
        split; [|split].
        -- cbn [drop]. rewrite weave_step, <- Hmd.
           assert (drop (S m) (String c s) = rest) as Hd
             by (rewrite <- Hm, Ha; apply drop_app_len).
           cbn [drop] in Hd. now rewrite Hd.
        -- cbn [map]. now rewrite weave_step.
        -- split; [|exact Hleft]. intros k Hk. cbn in Hk. lia.
      * destruct (replace_go s 0 imgs0) as [out' imgs'] eqn:Hgo.
        injection H as <- <-.
        destruct (IH _ _ _ _ Hgo)
          as (pieces & origs & new & -> & Htok & Hlenp & Href & Hmd & -> & Hleft).
        destruct pieces as [|p0 ps]; [discriminate|].
        exists (String c p0 :: ps), origs, new.
        cbn [drop] in *.
        repeat split; try assumption.
        -- now rewrite weave_cons, <- Hmd.
        -- now rewrite weave_cons.
        -- intros k Hk. rewrite weave_cons, <- Hmd. destruct k as [|k]; [exact E|].
           cbn [drop]. rewrite Hmd. apply (proj1 Hleft). cbn in Hk. unfold len in *. lia.
        -- apply (proj2 Hleft).
    + cbn [drop]. eauto.
Qed.

Lemma token_of_inj (n m : nat) : token_of n = token_of m → n = m.
Proof.
  unfold token_of. intros H. apply String.app_inj in H.
  assert (∀ a b : string, a +:+ "]]]" = b +:+ "]]]" → a = b) as Hr.
  { induction a as [|x a IHa]; intros [|y b] E; str_simpl in E; try reflexivity.
    - destruct b as [|? [|? [|? ?]]]; discriminate.
    - destruct a as [|? [|? [|? ?]]]; discriminate.
    - injection E as -> E. f_equal. now apply IHa. }
  apply Hr in H. now apply pretty_nat_inj in H.
Qed.

Lemma tokens_nodup (n : nat) : List.NoDup (map token_of (seq 0 n)).
Proof.
  apply Finite.Injective_map_NoDup; [|apply seq_NoDup].
  intros a b. apply token_of_inj.
Qed.

(** C8, as the extractor has it. The n-th image reference of the text, from
    the left, gets the token [[[[SANITY_IMAGE_n]]]], counting from 0; the
    tokens of a document are pairwise distinct; the rewritten text is the
    source text with each reference replaced by its token between blank
    lines. No reference is passed over: the source text is the references
    with pieces of other text in between, and inside a piece no match of the
    pattern starts. Nothing compares the tokens with the source text. *)
Theorem extract_tokens_numbered (markdown : string) :
  let e := extractInlineImages markdown in
  map token (images e) = map token_of (seq 0 (length (images e)))
  ∧ List.NoDup (map token (images e))
  ∧ ∃ pieces origs,
      length pieces = S (length (images e))
      ∧ Forall2 is_image_ref origs (images e)
      ∧ markdown = weave pieces origs
      ∧ rewrittenMarkdown e
        = weave pieces (map (fun i => replacement (token i)) (images e))
      ∧ leftmost pieces origs.
Proof.
  unfold extractInlineImages.
  destruct (replace_go markdown 0 []) as [out imgs] eqn:H. cbn.
  destruct (replace_go_spec _ _ _ _ _ H)
    as (pieces & origs & new & -> & Htok & Hlen & Href & Hmd & -> & Hleft).
  cbn in *. split; [assumption|]. split.
  - rewrite Htok. apply tokens_nodup.
  - exists pieces, origs. auto 6.
Qed.

(** C8 as stated fails: the first token of [collidingMarkdown] occurs in
    the source text itself. *)
Lemma extract_token_collides :
  ∃ img, In img (images (extractInlineImages Samples.collidingMarkdown))
         ∧ token img = "[[[SANITY_IMAGE_0]]]"
         ∧ includes Samples.collidingMarkdown (token img) = true.
Proof.
  exists (Image "[[[SANITY_IMAGE_0]]]" "a" "x.png" "").
  vm_compute. auto.
Qed.

End ExtractFacts.

(* ------------------------------------------------------------------ *)
(** ** Frontmatter validation *)
(* ------------------------------------------------------------------ *)
Module ValidateFacts.
Import Validate.

Section WithDate.
Variable Date_parse : string → option Z.

Lemma errors_iff (fm : value) (v : string) :
  In v (frontmatterErrors Date_parse fm) ↔ violation Date_parse fm v.
Proof.
  unfold frontmatterErrors, check. split.
  - intros H.
    destruct (truthy (prop_opt fm "title")) eqn:E1,
             (truthy (prop_opt fm "author")) eqn:E2,
             (truthy (prop_opt fm "authorId")) eqn:E3,
             (truthy (prop_opt fm "mainImage")) eqn:E4,
             (truthy (prop_opt fm "mainImageAlt")) eqn:E5,
             (truthy (prop_opt fm "publishedAt")) eqn:E6;
      try destruct (Date_parse _) eqn:E7; cbn in H;
      repeat (destruct H as [<-|H]; [now constructor|]); destruct H.
  - intros H.
    destruct H as [H|H1 H2|H|H|H1 H2]; unfold missing in *;
      repeat match goal with
             | H : truthy _ = _ |- _ => rewrite H
             | H : Date_parse _ = _ |- _ => rewrite H
             end; cbn;
      destruct (truthy (prop_opt fm "title")),
               (truthy (prop_opt fm "author")),
               (truthy (prop_opt fm "authorId")),
               (truthy (prop_opt fm "mainImage")),
               (truthy (prop_opt fm "mainImageAlt")),
               (truthy (prop_opt fm "publishedAt"));
      try destruct (Date_parse _); cbn; try discriminate; tauto.
Qed.

Lemma errors_nodup (fm : value) : List.NoDup (frontmatterErrors Date_parse fm).
Proof.
  unfold frontmatterErrors, check.
  destruct (truthy (prop_opt fm "title")),
           (truthy (prop_opt fm "author")),
           (truthy (prop_opt fm "authorId")),
           (truthy (prop_opt fm "mainImage")),
           (truthy (prop_opt fm "mainImageAlt")),
           (truthy (prop_opt fm "publishedAt"));
    try destruct (Date_parse _); cbn;
    repeat (constructor;
            [cbn; rewrite ?StrFacts.sapp_cons; intros H; intuition discriminate|]);
    constructor.
Qed.

Lemma join_holds (sep v : string) (xs : list string) :
  In v xs → ∃ a b, Str.join sep xs = a +:+ v +:+ b.
Proof.
  induction xs as [|x xs IH]; [intros []|]. intros [->|Hin].
  - destruct xs as [|y xs]; cbn [Str.join].
    + exists "", "". now rewrite StrFacts.sapp_empty_r.
    + exists "", (sep +:+ Str.join sep (y :: xs)). reflexivity.
  - destruct (IH Hin) as (a & b & E). destruct xs as [|y xs]; [destruct Hin|].
    change (Str.join sep (x :: y :: xs)) with (x +:+ sep +:+ Str.join sep (y :: xs)).
    rewrite E. exists (x +:+ sep +:+ a), b.
    now rewrite !StrFacts.sapp_assoc.
Qed.

(** C7. Validation of a frontmatter object fails exactly when one of the
    five violations is present (a field counting as missing when it is
    absent or falsy, [publishedAt] as present when truthy), and the one
    error it throws lists every violation that is present: its message is
    [Frontmatter validation failed in <file>: ] followed by the violations,
    each of them once, with a comma and a blank in between, so that the text
    of every violation present stands in the message. *)
Theorem validate_reports_all (fs : fields) (file : string) :
  ((∃ e, validateFrontmatter Date_parse (VObj fs) file = Throw e)
   ↔ ∃ v, violation Date_parse (VObj fs) v)
  ∧ ∀ e, validateFrontmatter Date_parse (VObj fs) file = Throw e →
         ∃ errors,
           e = Error ("Frontmatter validation failed in " +:+ file +:+ ": "
                      +:+ Str.join ", " errors)
           ∧ (∀ v, In v errors ↔ violation Date_parse (VObj fs) v)
           ∧ List.NoDup errors
           ∧ ∀ v, violation Date_parse (VObj fs) v →
                  ∃ msg, e = Error msg ∧ Str.includes msg v = true.
Proof.
  unfold validateFrontmatter.
  pose proof (errors_iff (VObj fs)) as Hiff.
  pose proof (errors_nodup (VObj fs)) as Hnd.
  destruct (frontmatterErrors Date_parse (VObj fs)) as [|v0 errs] eqn:E; cbn.
  - split.
    + split; [intros [e He]; discriminate | intros [v Hv]].
      now apply Hiff in Hv.
    + intros e He. discriminate.
  - split.
    + split; [intros _ | eauto]. exists v0. apply Hiff. now left.
    + intros e [= <-]. exists (v0 :: errs). split; [reflexivity|].
      split; [exact Hiff|]. split; [exact Hnd|].
      intros v Hv. apply Hiff, (join_holds ", ") in Hv as (a & b & Hj).
      exists ("Frontmatter validation failed in " +:+ file +:+ ": "
              +:+ Str.join ", " (v0 :: errs)).
      split; [reflexivity|]. rewrite Hj.
      apply StrFacts.includes_iff.
      exists ("Frontmatter validation failed in " +:+ file +:+ ": " +:+ a), b.
      now rewrite !StrFacts.sapp_assoc.
Qed.

End WithDate.

(** Frontmatter without [mainImage] and [mainImageAlt]: one failure that
    names both. *)
Example validate_missing_both :
  validateFrontmatter Samples.oneDate Samples.noCover "post.md"
  = Throw (Error ("Frontmatter validation failed in post.md: "
                  +:+ "missing 'mainImage', missing 'mainImageAlt'")).
Proof. reflexivity. Qed.

(** A [publishedAt] that the YAML parser read as a date, and that is no
    date: the failure shows it as [String] does. *)
Example validate_invalid_date :
  validateFrontmatter Samples.oneDate
    (VObj [("title", VStr "Hello"); ("author", VStr "Doc Spinard");
           ("mainImage", VStr "cover.png"); ("mainImageAlt", VStr "Cover");
           ("publishedAt", VDate "Invalid Date")]) "post.md"
  = Throw (Error ("Frontmatter validation failed in post.md: "
                  +:+ "invalid 'publishedAt' date: Invalid Date")).
Proof. reflexivity. Qed.

End ValidateFacts.

(* ------------------------------------------------------------------ *)
(** ** The retry wrapper *)
(* ------------------------------------------------------------------ *)
Module RetryFacts.
Import Str StrFacts Retry.

Lemma code_is_iff (e : exn) (c : string) : code_is e c = true ↔ err_code e = Some c.
Proof.
  unfold code_is. destruct (err_code e) as [x|]; [|split; discriminate].
  rewrite String.eqb_eq. split; congruence.
Qed.

Lemma isRetryable_iff (e : exn) : isRetryable e = true ↔ transient e.
Proof.
  unfold isRetryable. rewrite !orb_true_iff, !code_is_iff. split.
  - intros [[[[[H|H]|H]|H]|H]|H].
    + destruct (err_statusCode e) as [n|] eqn:E; [|discriminate].
      apply (server_error e n); [assumption | now apply Z.leb_le].
    + now apply connection_reset.
    + now apply timed_out.
    + now apply host_not_found.
    + now apply connection_refused.
    + destruct (err_message e) as [m|] eqn:E; [|discriminate].
      apply includes_iff in H as (a & b & Hm). now apply (socket_hang_up e m a b).
  - intros [n Hn Hle|H|H|H|H|m a b Hm ->]; auto 10.
    + rewrite Hn. left; left; left; left; left. now apply Z.leb_le.
    + rewrite Hm. right. apply includes_iff. eauto.
Qed.

Section WithState.
Context {S : Type}.
Variable log : string → S → S.
Variable sleep : Z → S → S.
Variables (fn : ST S value) (maxRetries : nat) (baseDelay : Z) (context : string).

Lemma delay_backoff (attempt : nat) : delay_of baseDelay attempt = backoff baseDelay attempt.
Proof.
  unfold delay_of. destruct attempt as [|n]; [cbn; lia|].
  induction n as [|n IH]; [cbn; lia|].
  change (backoff baseDelay (Datatypes.S (Datatypes.S n)))
    with (2 * backoff baseDelay (Datatypes.S n))%Z.
  rewrite <- IH. cbn [Nat.sub]. rewrite !Nat.sub_0_r, Nat2Z.inj_succ, Z.pow_succ_r by lia.
  lia.
Qed.

Lemma attempts_run (remaining : nat) :
  ∀ attempt w,
    0 < remaining → attempt + remaining = Datatypes.S maxRetries →
    retry_run log sleep fn maxRetries baseDelay context attempt w
      (attempts log sleep fn maxRetries baseDelay context remaining attempt w).
Proof.
  induction remaining as [|remaining IH]; intros attempt w Hpos Hsum; [lia|].
  cbn [attempts]. destruct (fn w) as [[a|e] w'] eqn:Hfn.
  - now apply run_success.
  - destruct (Nat.eqb_spec attempt maxRetries) as [->|Hne]; cbn [orb].
    + now apply run_exhausted.
    + destruct (isRetryable e) eqn:Hr; cbn [negb].
      * eapply run_retry; eauto; [now apply isRetryable_iff | lia |].
        rewrite <- delay_backoff. apply IH; lia.
      * apply run_fatal; [assumption|]. rewrite <- isRetryable_iff. congruence.
Qed.

Lemma run_attempts (attempt : nat) (w : S) (r : result value * S) :
  retry_run log sleep fn maxRetries baseDelay context attempt w r →
  ∀ remaining,
    0 < remaining → attempt + remaining = Datatypes.S maxRetries →
    attempts log sleep fn maxRetries baseDelay context remaining attempt w = r.
Proof.
  induction 1 as [attempt w a w' Hfn | attempt w e w' Hfn Hnt | w e w' Hfn
                 | attempt w e w' r Hfn Ht Hlt Hrun IH];
    intros [|remaining] Hpos Hsum; try lia; cbn [attempts]; rewrite Hfn.
  - reflexivity.
  - destruct (isRetryable e) eqn:Hr; [now apply isRetryable_iff in Hr|].
    now rewrite orb_true_r.
  - now rewrite Nat.eqb_refl.
  - apply isRetryable_iff in Ht. rewrite Ht.
    destruct (Nat.eqb_spec attempt maxRetries) as [->|Hne]; [lia|]. cbn [orb negb].
    rewrite delay_backoff. apply IH; lia.
Qed.

(** The waits recorded by the loop from attempt [attempt] on. *)
Lemma attempts_waits (op : nat → result value) (remaining : nat) :
  ∀ attempt,
    1 <= attempt → 0 < remaining → attempt + remaining = Datatypes.S maxRetries →
    ∃ n, attempt - 1 <= n ∧ n < attempt + remaining - 1
         ∧ snd (attempts (fun _ w => w) (fun ms w => w ++ [ms]) (answering op)
                  maxRetries baseDelay context remaining attempt
                  (doubling_waits baseDelay (attempt - 1)))
           = doubling_waits baseDelay n.
Proof.
  induction remaining as [|remaining IH]; intros attempt Hpos Hrem Hsum; [lia|].
  - cbn [attempts]. unfold answering at 1.
    destruct (op _) as [a|e].
    + exists (attempt - 1). cbn. split; [lia|]. split; [lia | reflexivity].
    + destruct (Nat.eqb attempt maxRetries || negb (isRetryable e)) eqn:Hstop.
      * exists (attempt - 1). cbn. split; [lia|]. split; [lia | reflexivity].
      * apply orb_false_iff in Hstop as [Hne%Nat.eqb_neq _].
        destruct (IH (Datatypes.S attempt)) as (n & H1 & H2 & H3); [lia | lia | lia |].
        exists n. split; [lia|]. split; [lia|]. rewrite <- H3. f_equal.
        unfold doubling_waits, delay_of.
        replace (Datatypes.S attempt - 1) with (Datatypes.S (attempt - 1)) by lia.
        now rewrite seq_S, map_app.
Qed.

(** C9. An error is retried exactly when it is transient (status 500 or
    above, [ECONNRESET], [ETIMEDOUT], [ENOTFOUND], [ECONNREFUSED], or a
    message with [socket hang up]) and an attempt is left; any other error,
    and the error of the last attempt, goes to the caller as it is. The
    wait grows exponentially: the wrapper waits the base delay after the
    first attempt and twice the wait before after every other one, so that
    the waits of a run, whatever the operation answers, are [baseDelay],
    [2 * baseDelay], [4 * baseDelay], ..., fewer than [maxRetries] of
    them. *)
Theorem withRetry_retries_transient :
  0 < maxRetries →
  (∀ e, isRetryable e = true ↔ transient e)
  ∧ (∀ w r,
       withRetry log sleep fn maxRetries baseDelay context w = r
       ↔ retry_run log sleep fn maxRetries baseDelay context 1 w r)
  ∧ (∀ op : nat → result value,
       ∃ n, n < maxRetries
            ∧ snd (withRetry (fun _ w => w) (fun ms w => w ++ [ms]) (answering op)
                     maxRetries baseDelay context [])
              = map (fun k => (baseDelay * 2 ^ Z.of_nat k)%Z) (seq 0 n)).
Proof.
  intros Hpos. split; [apply isRetryable_iff|]. split.
  - intros w r. unfold withRetry. split.
    + intros <-. apply attempts_run; lia.
    + intros H. eapply run_attempts; eauto; lia.
  - intros op. unfold withRetry.
    destruct (attempts_waits op maxRetries 1) as (n & _ & Hn & H); [lia | lia | lia |].
    exists n. split; [lia | exact H].
Qed.

End WithState.

(** Three attempts at [flaky], one second and then two seconds apart. *)
Lemma withRetry_retries_transient_witness :
  (∀ e, isRetryable e = true ↔ transient e)
  ∧ (∀ w r,
       withRetry (fun _ w => w) (fun ms w => w ++ [ms]) Samples.flaky 3 1000 "upload" w = r
       ↔ retry_run (fun _ w => w) (fun ms w => w ++ [ms]) Samples.flaky 3 1000 "upload" 1 w r)
  ∧ (∀ op : nat → result value,
       ∃ n, n < 3
            ∧ snd (withRetry (fun _ w => w) (fun ms w => w ++ [ms]) (answering op)
                     3 1000 "upload" [])
              = map (fun k => (1000 * 2 ^ Z.of_nat k)%Z) (seq 0 n)).
Proof.
  apply (withRetry_retries_transient (fun _ w => w) (fun ms w => w ++ [ms])
           Samples.flaky 3 1000 "upload").
  lia.
Defined.

Example withRetry_flaky :
  withRetry (fun _ w => w) (fun ms w => w ++ [ms]) Samples.flaky 3 1000 "upload" []
  = (Ok (VStr "done"), [1000; 2000]%Z).
Proof. reflexivity. Qed.

End RetryFacts.

(* ------------------------------------------------------------------ *)
(** ** What a run leaves in the trace *)
(* ------------------------------------------------------------------ *)
Module TraceFacts.
Import KFacts Importer RetrySpec.

(** Whatever the state it starts from, the computation only adds events,
    and every event it adds satisfies [P]. *)
Definition adds {A} (P : event → Prop) (m : M A) : Prop :=
  ∀ w, ∃ new, trace (snd (m w)) = trace w ++ new ∧ Forall P new.

Lemma adds_ret {A} (P : event → Prop) (a : A) : adds P (mret a).
Proof. intros w. exists []. now rewrite app_nil_r. Qed.

Lemma adds_throw {A} (P : event → Prop) (e : exn) : adds P (kthrow e : M A).
Proof. intros w. exists []. now rewrite app_nil_r. Qed.

Lemma adds_klift {A} (P : event → Prop) (r : result A) : adds P (klift r : M A).
Proof. intros w. exists []. now rewrite app_nil_r. Qed.

Lemma adds_bind {A B} (P : event → Prop) (m : M A) (f : A → M B) :
  adds P m → (∀ a, adds P (f a)) → adds P (m ≫= f).
Proof.
  intros Hm Hf w. unfold mbind, ST_bind, kbind.
  destruct (Hm w) as (new1 & E1 & H1). destruct (m w) as [[a|e] w1]; cbn in *.
  - destruct (Hf a w1) as (new2 & E2 & H2). exists (new1 ++ new2).
    rewrite E2, E1, <- List.app_assoc. split; [reflexivity | now apply Forall_app].
  - eauto.
Qed.

Lemma adds_event (P : event → Prop) (e : event) (w : world) :
  P e → ∃ new, trace (add_event e w) = trace w ++ new ∧ Forall P new.
Proof. intros He. exists [e]. split; [reflexivity | now repeat constructor]. Qed.

Lemma adds_log (P : event → Prop) (line : string) :
  P (Log line) → adds P (log line).
Proof. intros H w. now apply adds_event. Qed.

Lemma adds_perform (X : externals) (P : event → Prop) (r : request) :
  (∀ a, P (Call r a)) → adds P (perform X r).
Proof. intros H w. unfold perform. cbn. now apply adds_event. Qed.

Lemma adds_liftK {A} (P : event → Prop) (m : K A) : adds P (liftK m).
Proof.
  intros w. unfold liftK. destruct (m (rng w)) as [r n]. exists []. cbn.
  now rewrite app_nil_r.
Qed.

Lemma adds_cache_set (P : event → Prop) (path : string) (id : value) :
  adds P (cache_set path id).
Proof. intros w. exists []. cbn. now rewrite app_nil_r. Qed.

Lemma adds_kmapM {A B} (P : event → Prop) (f : A → M B) (xs : list A) :
  (∀ x, adds P (f x)) → adds P (kmapM f xs).
Proof.
  intros Hf. induction xs as [|x xs IH]; cbn [kmapM].
  - apply adds_ret.
  - apply adds_bind; [apply Hf | intros y].
    apply adds_bind; [apply IH | intros ys]. apply adds_ret.
Qed.

Lemma adds_attempts (P : event → Prop) (fn : M value) (maxRetries : nat)
  (baseDelay : Z) (context : string) (remaining : nat) :
  adds P fn → (∀ line, P (Log line)) → (∀ ms, P (Sleep ms)) →
  ∀ attempt,
    adds P (Retry.attempts (fun line => add_event (Log line))
              (fun ms => add_event (Sleep ms))
              fn maxRetries baseDelay context remaining attempt).
Proof.
  intros Hfn Hlog Hsleep. induction remaining as [|remaining IH]; intros attempt w.
  - exists []. cbn. now rewrite app_nil_r.
  - cbn [Retry.attempts]. destruct (Hfn w) as (new1 & E1 & H1).
    destruct (fn w) as [[a|e] w1]; cbn in *; [eauto|].
    destruct (_ || _); [eauto|].
    match goal with |- context [Retry.attempts _ _ _ _ _ _ _ ?k ?w2] =>
      destruct (IH k w2) as (new2 & E2 & H2) end.
    exists (new1 ++ [Log (Retry.retry_line context attempt maxRetries
                            (Retry.delay_of baseDelay attempt));
                     Sleep (Retry.delay_of baseDelay attempt)] ++ new2).
    rewrite E2. cbn. rewrite E1, <- !List.app_assoc. split; [reflexivity|].
    apply Forall_app; split; [assumption|].
    constructor; [apply Hlog|]. constructor; [apply Hsleep | assumption].
Qed.

Lemma adds_withRetry (P : event → Prop) (fn : M value) (context : string) :
  adds P fn → (∀ line, P (Log line)) → (∀ ms, P (Sleep ms)) →
  adds P (withRetry fn context).
Proof. intros. unfold withRetry, Retry.withRetry. now apply adds_attempts. Qed.

Lemma adds_ext {A} (P : event → Prop) (m m' : M A) :
  (∀ w, m w = m' w) → adds P m' → adds P m.
Proof. intros E H w. rewrite E. apply H. Qed.

(** What follows a step need only be looked at for the results the step
    can give. *)
Lemma adds_bind_with {A B} (P : event → Prop) (Q : A → Prop) (m : M A) (f : A → M B) :
  adds P m → (∀ w a w', m w = (Ok a, w') → Q a) → (∀ a, Q a → adds P (f a)) →
  adds P (m ≫= f).
Proof.
  intros Hm HQ Hf w. unfold mbind, ST_bind, kbind.
  destruct (Hm w) as (new1 & E1 & H1). destruct (m w) as [[a|e] w1] eqn:Em; cbn in *.
  - destruct (Hf a (HQ _ _ _ Em) w1) as (new2 & E2 & H2). exists (new1 ++ new2).
    rewrite E2, E1, <- List.app_assoc. split; [reflexivity | now apply Forall_app].
  - eauto.
Qed.

Lemma adds_settle {A} (P : event → Prop) (m : M A) : adds P m → adds P (settle m).
Proof.
  intros H w. unfold settle. destruct (H w) as (new & E & Hnew).
  destruct (m w) as [r w']. eauto.
Qed.

(** *** The upload in one piece *)

Lemma uploadBody_eq (X : externals) (cfg : config) (absPath : string) (w : world) :
  uploadBody X cfg absPath w
  = (contentType ← klift (validateImageType X absPath);
     buf ← readFileWithContext X absPath "image asset" None;
     if negb (WRITE cfg) then dryUpload X absPath (path_basename X absPath)
     else awaitUpload X absPath (path_basename X absPath) contentType buf) w.
Proof.
  unfold uploadBody, startUpload, settle, mbind, ST_bind, kbind, klift.
  destruct (validateImageType X absPath) as [contentType|e]; [|reflexivity].
  destruct (readFileWithContext X absPath "image asset" None w) as [[buf|e] w1];
    [|reflexivity].
  cbn. destruct (negb (WRITE cfg)); [|reflexivity]. cbn.
  now destruct (dryUpload X absPath (path_basename X absPath) w1) as [[a|e] w2].
Qed.

(** *** The events of a batch *)

(** Only a write run waits, and then for the upload of a file of a valid
    type. *)
Lemma startUpload_waiting (X : externals) (cfg : config) (p : string) (w : world)
  (f c : string) (b : value) (w' : world) :
  startUpload X cfg p w = (Ok (Waiting f c b), w') →
  WRITE cfg = true ∧ validateImageType X p = Ok c ∧ f = path_basename X p.
Proof.
  unfold startUpload. intros H. apply kbind_ok in H as (r & w1 & Hr & H).
  destruct r as [[contentType buf]|e].
  - destruct (WRITE cfg) eqn:Hw; cbn [negb] in H.
    + kinv H. injection H as -> -> ->. repeat split.
      unfold settle, mbind, ST_bind, kbind, klift in Hr.
      destruct (validateImageType X p) as [ct|e]; [|discriminate].
      destruct (readFileWithContext X p "image asset" None w) as [[buf'|e] w2];
        [|discriminate].
      cbn in Hr. congruence.
    + kinv H. discriminate.
  - kinv H. discriminate.
Qed.

Section Uploads.
Variables (X : externals) (cfg : config) (P : event → Prop).
Variable Q : string → string → value → Prop.
Hypothesis start_adds : ∀ p, adds P (startUpload X cfg p).
Hypothesis start_waits :
  ∀ p w f c b w', startUpload X cfg p w = (Ok (Waiting f c b), w') → Q f c b.
Hypothesis await_adds : ∀ p f c b, Q f c b → adds P (awaitUpload X p f c b).

Definition may_wait (p : pending) : Prop :=
  match p with
  | Own (Waiting f c b) => Q f c b
  | _ => True
  end.

Lemma startUpload_wait (p : string) (w : world) (s : started) (w' : world) :
  startUpload X cfg p w = (Ok s, w') → may_wait (Own s).
Proof. destruct s as [r|f c b]; [intros _; exact I | apply start_waits]. Qed.

Lemma startCall_wait (uploadPromises : list (string * nat)) (k : nat) (p : string)
  (w : world) (r : pending * list (string * nat)) (w' : world) :
  startCall X cfg uploadPromises k p w = (Ok r, w') → may_wait (fst r).
Proof.
  unfold startCall. destruct (assetCache w !! p).
  - intros [= <- _]. exact I.
  - destruct (inflight_get p uploadPromises).
    + intros [= <- _]. exact I.
    + intros H. kinv H. eapply startUpload_wait; eauto.
Qed.

Lemma adds_startCall (uploadPromises : list (string * nat)) (k : nat) (p : string) :
  adds P (startCall X cfg uploadPromises k p).
Proof.
  intros w. unfold startCall. destruct (assetCache w !! p).
  - exists []. cbn. now rewrite app_nil_r.
  - destruct (inflight_get p uploadPromises).
    + exists []. cbn. now rewrite app_nil_r.
    + apply adds_bind; [apply start_adds | intros; apply adds_ret].
Qed.

Lemma startAll_wait (paths : list string) :
  ∀ k uploadPromises w ps w',
    startAll X cfg paths k uploadPromises w = (Ok ps, w') → Forall may_wait ps.
Proof.
  induction paths as [|p paths IH]; intros k uploadPromises w ps w' H; cbn [startAll] in H.
  - kinv H. constructor.
  - kinv H. constructor; [eapply startCall_wait; eauto | eapply IH; eauto].
Qed.

Lemma adds_startAll (paths : list string) :
  ∀ k uploadPromises, adds P (startAll X cfg paths k uploadPromises).
Proof.
  induction paths as [|p paths IH]; intros k uploadPromises; cbn [startAll].
  - apply adds_ret.
  - apply adds_bind; [apply adds_startCall | intros r].
    apply adds_bind; [apply IH | intros; apply adds_ret].
Qed.

Lemma adds_settleCall (p : string) (pd : pending) (done : list (result value)) :
  may_wait pd → adds P (settleCall X p pd done).
Proof.
  intros H. destruct pd as [[r|f c b]|j]; cbn [settleCall]; try apply adds_ret.
  apply adds_settle. now apply await_adds.
Qed.

Lemma adds_settleAll (paths : list string) :
  ∀ ps done, Forall may_wait ps → adds P (settleAll X paths ps done).
Proof.
  induction paths as [|p paths IH]; intros ps done H; cbn [settleAll]; [apply adds_ret|].
  destruct ps as [|pd ps]; [apply adds_ret|]. apply Forall_cons in H as [H1 H2].
  apply adds_bind; [now apply adds_settleCall | intros r]. now apply IH.
Qed.

Lemma adds_uploadAll {A} (imageData : list (A * string)) :
  adds P (uploadAll X cfg imageData).
Proof.
  unfold uploadAll.
  apply (adds_bind_with P (Forall may_wait)); [apply adds_startAll | | intros ps Hps].
  { intros w ps w' H. eapply startAll_wait; eauto. }
  apply adds_bind; [now apply adds_settleAll | intros rs].
  destruct (first_rejection ps rs); [apply adds_throw | apply adds_ret].
Qed.

Lemma adds_uploadBody (p : string) : adds P (uploadBody X cfg p).
Proof.
  unfold uploadBody.
  apply (adds_bind_with P (fun s => may_wait (Own s))); [apply start_adds | | intros s Hs].
  { intros w s w' H. eapply startUpload_wait; eauto. }
  destruct s as [r|f c b]; [apply adds_klift | now apply await_adds].
Qed.

Lemma adds_uploadImageAsset (p : string) : adds P (uploadImageAsset X cfg p).
Proof.
  intros w. unfold uploadImageAsset. destruct (assetCache w !! p).
  - exists []. cbn. now rewrite app_nil_r.
  - apply adds_uploadBody.
Qed.

End Uploads.

(** *** The results of a batch *)

Section Batch.
Variables (X : externals) (cfg : config).

Lemma settle_total {A} (m : M A) (w : world) :
  ∃ r w', settle m w = (Ok r, w').
Proof. unfold settle. destruct (m w) as [r w']. eauto. Qed.

Lemma startUpload_total (p : string) (w : world) :
  ∃ s w', startUpload X cfg p w = (Ok s, w').
Proof.
  unfold startUpload, mbind, ST_bind, kbind.
  match goal with |- context [settle ?m w] =>
    destruct (settle_total m w) as (r & w1 & ->) end.
  destruct r as [[contentType buf]|e]; [|cbn; eauto].
  destruct (negb (WRITE cfg)); [|cbn; eauto].
  match goal with |- context [settle ?m w1] =>
    destruct (settle_total m w1) as (r & w2 & ->) end.
  cbn. eauto.
Qed.

Lemma startCall_total (uploadPromises : list (string * nat)) (k : nat) (p : string)
  (w : world) :
  ∃ r w', startCall X cfg uploadPromises k p w = (Ok r, w').
Proof.
  unfold startCall. destruct (assetCache w !! p); [eauto|].
  destruct (inflight_get p uploadPromises); [eauto|].
  unfold mbind, ST_bind, kbind. destruct (startUpload_total p w) as (s & w' & ->).
  cbn. eauto.
Qed.

Lemma startAll_total (paths : list string) :
  ∀ k uploadPromises w,
    ∃ ps w', startAll X cfg paths k uploadPromises w = (Ok ps, w')
             ∧ length ps = length paths.
Proof.
  induction paths as [|p paths IH]; intros k uploadPromises w; cbn [startAll].
  - exists [], w. now split.
  - unfold mbind, ST_bind, kbind.
    destruct (startCall_total uploadPromises k p w) as (r & w1 & ->).
    destruct (IH (S k) (snd r) w1) as (ps & w2 & -> & Hlen).
    exists (fst r :: ps), w2. cbn. split; [reflexivity | now rewrite Hlen].
Qed.

Lemma settleCall_total (p : string) (pd : pending) (done : list (result value))
  (w : world) :
  ∃ r w', settleCall X p pd done w = (Ok r, w').
Proof. destruct pd as [[r|f c b]|j]; cbn [settleCall]; eauto using settle_total. Qed.

Lemma settleAll_total (paths : list string) :
  ∀ ps done w,
    length ps = length paths →
    ∃ rs w', settleAll X paths ps done w = (Ok (done ++ rs), w')
             ∧ length rs = length paths.
Proof.
  induction paths as [|p paths IH]; intros ps done w Hlen; cbn [settleAll].
  - exists [], w. now rewrite app_nil_r.
  - destruct ps as [|pd ps]; [discriminate|]. injection Hlen as Hlen.
    unfold mbind, ST_bind, kbind.
    destruct (settleCall_total p pd done w) as (r & w1 & ->).
    destruct (IH ps (done ++ [r]) w1 Hlen) as (rs & w2 & -> & Hrs).
    exists (r :: rs), w2. rewrite <- List.app_assoc. cbn. now rewrite Hrs.
Qed.

(** A batch runs in three steps, of which only the last can fail. *)
Lemma uploadAll_steps {A} (imageData : list (A * string)) (w : world) :
  ∃ ps w1 rs w2,
    startAll X cfg (map snd imageData) 0 [] w = (Ok ps, w1)
    ∧ settleAll X (map snd imageData) ps [] w1 = (Ok rs, w2)
    ∧ length ps = length imageData
    ∧ length rs = length imageData
    ∧ uploadAll X cfg imageData w
      = (match first_rejection ps rs with
         | Some e => Throw e
         | None => Ok (combine (map fst imageData) (map fulfilled rs))
         end, w2).
Proof.
  destruct (startAll_total (map snd imageData) 0 [] w) as (ps & w1 & E1 & L1).
  destruct (settleAll_total (map snd imageData) ps [] w1 L1) as (rs & w2 & E2 & L2).
  rewrite length_map in L1, L2. cbn [app] in E2.
  exists ps, w1, rs, w2. repeat split; try assumption.
  unfold uploadAll, mbind, ST_bind, kbind. rewrite E1, E2.
  now destruct (first_rejection ps rs).
Qed.

(** What a batch returns is one asset for each image, in their order. *)
Lemma uploadAll_fst {A} (imageData : list (A * string)) (w : world)
  (out : list (A * value)) (w' : world) :
  uploadAll X cfg imageData w = (Ok out, w') → map fst out = map fst imageData.
Proof.
  destruct (uploadAll_steps imageData w) as (ps & w1 & rs & w2 & _ & _ & _ & L & ->).
  destruct (first_rejection ps rs); [discriminate|]. intros [= <- _].
  clear - L. revert rs L.
  induction imageData as [|d ds IH]; intros [|r rs] L; try discriminate; [reflexivity|].
  cbn. f_equal. apply IH. now injection L.
Qed.

End Batch.

(** *** The events of a request under the retry wrapper *)

Lemma attempts_shape (X : externals) (r : request) (maxRetries : nat) (baseDelay : Z)
  (context : string) :
  ∀ (remaining attempt : nat) (w : world),
    remaining + attempt = S maxRetries → attempt <= maxRetries →
    ∃ answers,
      1 <= length answers <= remaining
      ∧ trace (snd (Retry.attempts (fun line => add_event (Log line))
                      (fun ms => add_event (Sleep ms)) (perform X r)
                      maxRetries baseDelay context remaining attempt w))
        = trace w ++ retry_events r context maxRetries baseDelay attempt answers
      ∧ fst (Retry.attempts (fun line => add_event (Log line))
               (fun ms => add_event (Sleep ms)) (perform X r)
               maxRetries baseDelay context remaining attempt w)
        = List.last answers (Ok VUndef)
      ∧ Forall transient_failure (removelast answers).
Proof.
  induction remaining as [|remaining IH]; intros attempt w Hsum Hle; [lia|].
  cbn [Retry.attempts]. unfold perform at 1 3.
  destruct (backend X (trace w) r) as [v|e] eqn:Hans.
  - exists [Ok v]. cbn. repeat split; try lia. constructor.
  - destruct (Nat.eqb attempt maxRetries || negb (Retry.isRetryable e)) eqn:Hstop.
    + exists [Throw e]. cbn. repeat split; try lia. constructor.
    + apply orb_false_iff in Hstop as [Hlast Hre].
      apply Nat.eqb_neq in Hlast. apply negb_false_iff in Hre.
      match goal with |- context [Retry.attempts _ _ _ _ _ _ _ _ ?w2] =>
        destruct (IH (S attempt) w2) as (answers & Hlen & Htr & Hres & Hfail);
          [lia | lia |] end.
      exists (Throw e :: answers).
      destruct answers as [|a answers]; [cbn in Hlen; lia|].
      split; [cbn [length] in *; lia|]. split; [|split].
      * rewrite Htr. cbn [retry_events add_event trace]. now rewrite <- !List.app_assoc.
      * rewrite Hres. reflexivity.
      * cbn [removelast]. constructor; [now exists e | exact Hfail].
Qed.

End TraceFacts.

(* ------------------------------------------------------------------ *)
(** ** Simulate mode *)
(* ------------------------------------------------------------------ *)
Module DryRunFacts.
Import KFacts Importer TraceFacts RetrySpec.

(** An event that writes nothing to the backend, and one that does not
    touch the network at all. *)
Definition dry_event (e : event) : Prop :=
  match e with Call r _ => is_write r = false | _ => True end.

Definition quiet_event (e : event) : Prop :=
  match e with Call r _ => is_network r = false | _ => True end.

Lemma dry_no_writes (new : list event) :
  Forall dry_event new → network_writes new = [].
Proof.
  induction 1 as [|e new He _ IH]; [reflexivity|].
  unfold network_writes in *. cbn. destruct e as [| | |r a]; cbn in *; try exact IH.
  now rewrite He.
Qed.

Lemma quiet_no_calls (new : list event) :
  Forall quiet_event new → network_calls new = [].
Proof.
  induction 1 as [|e new He _ IH]; [reflexivity|].
  unfold network_calls in *. cbn. destruct e as [| | |r a]; cbn in *; try exact IH.
  now rewrite He.
Qed.

Lemma dry_calls_fetch (new : list event) (r : request) :
  Forall dry_event new → In r (network_calls new) →
  ∃ query params, r = Fetch query params.
Proof.
  induction 1 as [|e new He _ IH]; [intros []|].
  unfold network_calls in *. cbn. destruct e as [| | |r' a]; cbn in *; try exact IH.
  destruct (is_network r') eqn:Hn; [|exact IH].
  intros [<-|Hin]; [|now apply IH].
  destruct r'; try discriminate. eauto.
Qed.

Lemma quiet_dry (e : event) : quiet_event e → dry_event e.
Proof. destruct e as [| | |r a]; cbn; auto. now destruct r. Qed.

Section WithExternals.
Variable X : externals.
Variable cfg : config.
Hypothesis dry : WRITE cfg = false.

Ltac adds_step :=
  first
    [ apply adds_ret | apply adds_throw | apply adds_klift | apply adds_liftK
    | apply adds_cache_set
    | apply adds_log; exact I
    | apply adds_perform; intros; first [exact I | reflexivity]
    | apply adds_withRetry;
        [apply adds_perform; intros; reflexivity | intros; exact I | intros; exact I]
    | apply adds_bind; [|intros]
    | match goal with
      | |- adds _ (if ?b then _ else _) => destruct b
      | |- adds _ (match ?x with _ => _ end) => destruct x
      end ].

Lemma readFile_quiet (path context : string) (enc : option string) :
  adds quiet_event (readFileWithContext X path context enc).
Proof.
  intros w. unfold readFileWithContext.
  destruct (adds_perform X quiet_event (ReadFile path enc) (fun _ => eq_refl) w)
    as (new & E & H).
  destruct (perform X (ReadFile path enc) w) as [[v|e] w']; cbn in *; eauto.
Qed.

Lemma startUpload_quiet (path : string) : adds quiet_event (startUpload X cfg path).
Proof.
  unfold startUpload. rewrite dry. cbn [negb].
  apply adds_bind.
  { apply adds_settle. apply adds_bind; [adds_step | intros].
    apply adds_bind; [apply readFile_quiet | intros]. adds_step. }
  intros [[contentType buf]|e]; [|adds_step].
  apply adds_bind; [|intros; adds_step].
  apply adds_settle. unfold dryUpload. repeat adds_step.
Qed.

(** A dry run waits for no upload. *)
Lemma no_upload_dry (p : string) (w : world) (f c : string) (b : value) (w' : world) :
  startUpload X cfg p w = (Ok (Waiting f c b), w') → False.
Proof. intros H. apply startUpload_waiting in H as [H _]. congruence. Qed.

Lemma uploadBody_quiet (path : string) : adds quiet_event (uploadBody X cfg path).
Proof.
  apply (adds_uploadBody X cfg quiet_event (fun _ _ _ => False));
    [apply startUpload_quiet | apply no_upload_dry | intros ? ? ? ? []].
Qed.

Lemma uploadImageAsset_quiet (path : string) :
  adds quiet_event (uploadImageAsset X cfg path).
Proof.
  apply (adds_uploadImageAsset X cfg quiet_event (fun _ _ _ => False));
    [apply startUpload_quiet | apply no_upload_dry | intros ? ? ? ? []].
Qed.

Lemma uploadAll_quiet {A} (imageData : list (A * string)) :
  adds quiet_event (uploadAll X cfg imageData).
Proof.
  apply (adds_uploadAll X cfg quiet_event (fun _ _ _ => False));
    [apply startUpload_quiet | apply no_upload_dry | intros ? ? ? ? []].
Qed.

Lemma adds_weaken {A} (P Q : event → Prop) (m : M A) :
  (∀ e, P e → Q e) → adds P m → adds Q m.
Proof.
  intros HPQ Hm w. destruct (Hm w) as (new & E & H). exists new. split; [assumption|].
  eapply Forall_impl; eauto.
Qed.

Lemma missing_file_quiet (p : value) : adds quiet_event (missing_file X p).
Proof. unfold missing_file. repeat adds_step. Qed.

Lemma ensureAuthor_dry (authorId author : value) :
  adds dry_event (ensureAuthor X cfg authorId author).
Proof. unfold ensureAuthor. rewrite dry. cbn [negb]. repeat adds_step. Qed.

Lemma checkSlugCollision_dry (slug : value) (file : string) :
  adds dry_event (checkSlugCollision slug file).
Proof.
  intros w. unfold checkSlugCollision.
  destruct (map_get slug (slugToFile w)) as [f|]; [destruct (negb _)|]; cbn.
  - now apply adds_event.
  - exists []. now rewrite app_nil_r.
  - exists []. now rewrite app_nil_r.
Qed.

Lemma body_dry (file markdown : string) :
  adds dry_event (markdownToPortableTextWithInlineImages X cfg file markdown).
Proof.
  unfold markdownToPortableTextWithInlineImages.
  apply adds_bind; [adds_step | intros pt].
  destruct (Nat.eqb _ 0); [adds_step|].
  apply adds_bind.
  { apply adds_kmapM. intros img. unfold locateImage.
    apply adds_bind; [adds_step | intros].
    apply adds_bind; [eapply adds_weaken; [apply quiet_dry | apply missing_file_quiet] | intros].
    repeat adds_step. }
  intros imageData. apply adds_bind.
  { eapply adds_weaken; [apply quiet_dry | apply uploadAll_quiet]. }
  intros. repeat adds_step.
Qed.

Lemma prepareDocument_dry (file : string) (index total : nat) :
  adds dry_event (prepareDocument X cfg file index total).
Proof.
  unfold prepareDocument.
  apply adds_bind; [adds_step | intros].
  apply adds_bind;
    [eapply adds_weaken; [apply quiet_dry | apply readFile_quiet] | intros raw].
  apply adds_bind; [adds_step | intros parsed].
  apply adds_bind; [adds_step | intros].
  apply adds_bind; [repeat adds_step | intros slug].
  apply adds_bind; [apply checkSlugCollision_dry | intros].
  apply adds_bind; [repeat adds_step | intros publishedAt].
  apply adds_bind; [repeat adds_step | intros proceed].
  destruct (negb proceed); [adds_step|].
  apply adds_bind; [apply ensureAuthor_dry | intros authorRef].
  apply adds_bind; [adds_step | intros absCover].
  apply adds_bind;
    [eapply adds_weaken; [apply quiet_dry | apply missing_file_quiet] | intros gone].
  destruct gone; [adds_step|].
  apply adds_bind;
    [eapply adds_weaken; [apply quiet_dry | apply uploadImageAsset_quiet] | intros].
  apply adds_bind; [adds_step | intros].
  apply adds_bind; [apply body_dry | intros]. adds_step.
Qed.

Lemma importFile_dry (file : string) (index total : nat) :
  adds dry_event (importFile X cfg file index total).
Proof.
  unfold importFile. apply adds_bind; [apply prepareDocument_dry | intros [d|]].
  - rewrite dry. cbn [negb]. repeat adds_step.
  - adds_step.
Qed.

Lemma importFile_dry_line (file : string) (index total : nat) (w : world) (slug : value) :
  fst (importFile X cfg file index total w) = Ok (DryRun slug) →
  ∃ w1 docId,
    trace (snd (importFile X cfg file index total w))
    = trace w1 ++ [Log ("  [dry] would upsert: " +:+ docId)]
    ∧ w1 = snd (prepareDocument X cfg file index total w).
Proof.
  unfold importFile, mbind, ST_bind, kbind.
  destruct (prepareDocument X cfg file index total w) as [[[d|]|e] w1]; cbn.
  - rewrite dry. cbn. intros _. eauto.
  - discriminate.
  - discriminate.
Qed.

Lemma uploadBody_dry_line (path : string) (w : world) (a : value) (w' : world) :
  uploadBody X cfg path w = (Ok a, w') →
  ∃ w1, trace w'
        = trace w1 ++ [Log ("  [dry] would upload image asset: " +:+ path_basename X path)]
        ∧ ∃ new, trace w1 = trace w ++ new.
Proof.
  rewrite uploadBody_eq. unfold dryUpload. rewrite dry. cbn [negb]. intros H. kinv H.
  apply klift_ok in Hstep as [_ ->]. apply klift_ok in Hstep1 as [_ ->].
  unfold cache_set in Hstep2. injection Hstep2 as _ <-.
  unfold log in Hstep3. injection Hstep3 as _ <-.
  eexists. split; [reflexivity|]. cbn.
  destruct (readFile_quiet path "image asset" None w) as (new & E & _).
  rewrite Hstep0 in E. cbn in E. eauto.
Qed.

Lemma importFile_dry_id (file : string) (index total : nat) (w : world) (d : prepared)
  (w1 : world) :
  prepareDocument X cfg file index total w = (Ok (Some d), w1) →
  p_docId d = makeDocumentId cfg "post" (p_slug d).
Proof.
  intros Hprep. unfold prepareDocument in Hprep. kinv Hprep.
  destruct (negb a6); [now kinv Hprep|]. kinv Hprep.
  destruct a9; [discriminate|]. kinv Hprep. injection H as ->. reflexivity.
Qed.

Lemma importFile_dry_upsert (file : string) (index total : nat) (w : world) (slug : value) :
  fst (importFile X cfg file index total w) = Ok (DryRun slug) →
  trace (snd (importFile X cfg file index total w))
  = trace (snd (prepareDocument X cfg file index total w))
    ++ [Log ("  [dry] would upsert: " +:+ makeDocumentId cfg "post" slug)].
Proof.
  unfold importFile, mbind, ST_bind, kbind.
  destruct (prepareDocument X cfg file index total w) as [[[d|]|e] w1] eqn:Hprep; cbn;
    [|discriminate|discriminate].
  rewrite dry. cbn. intros [= <-]. now rewrite (importFile_dry_id _ _ _ _ _ _ Hprep).
Qed.

(** The dry upload of a file that is not cached, when it returns. *)
Lemma uploadBody_dry_run (path : string) (w : world) (a : value) (w' : world) :
  uploadBody X cfg path w = (Ok a, w') →
  ∃ buf s,
    slugify (VStr (path_basename X path)) = Ok s
    ∧ a = VObj [("_id", VStr ("dry.asset." +:+ s))]
    ∧ trace w'
      = trace w ++ [Call (ReadFile path None) (Ok buf);
                    Log ("  [dry] would upload image asset: " +:+ path_basename X path)]
    ∧ assetCache w' = <[path := VStr ("dry.asset." +:+ s)]> (assetCache w).
Proof.
  rewrite uploadBody_eq. unfold dryUpload. rewrite dry. cbn [negb]. intros H. kinv H.
  apply klift_ok in Hstep as [_ ->]. apply klift_ok in Hstep1 as [Hs ->].
  unfold cache_set in Hstep2. injection Hstep2 as _ <-.
  unfold log in Hstep3. injection Hstep3 as _ <-.
  unfold readFileWithContext, perform in Hstep0.
  destruct (backend X (trace w) (ReadFile path None)) as [buf|e] eqn:Hread;
    [|discriminate].
  injection Hstep0 as <- <-. exists buf, a2. cbn.
  rewrite <- List.app_assoc. auto.
Qed.

(** The author given by name, in a dry run: the lookup is made (and tried
    again as any request is); nothing else is asked of the backend. *)
Definition author_lookup (author : value) (answers : list (result value)) : list event :=
  retry_events (Fetch author_by_name [("name", author)])
    ("fetch author by name " +:+ q +:+ to_string author +:+ q) 3 1000 1 answers.

Lemma ensureAuthor_dry_name (authorId author : value) (w : world) :
  truthy authorId = false → truthy author = true →
  ∃ answers,
    1 <= length answers <= 3
    ∧ Forall transient_failure (removelast answers)
    ∧ match List.last answers (Ok VUndef) with
      | Throw e =>
          fst (ensureAuthor X cfg authorId author w) = Throw e
          ∧ trace (snd (ensureAuthor X cfg authorId author w))
            = trace w ++ author_lookup author answers
      | Ok existing =>
          if truthy (prop_opt existing "_id") then
            fst (ensureAuthor X cfg authorId author w) = Ok (prop_opt existing "_id")
            ∧ trace (snd (ensureAuthor X cfg authorId author w))
              = trace w ++ author_lookup author answers
          else
            match slugify author with
            | Ok s =>
                fst (ensureAuthor X cfg authorId author w)
                = Ok (VStr (makeDocumentId cfg "author" (VStr s)))
                ∧ trace (snd (ensureAuthor X cfg authorId author w))
                  = trace w ++ author_lookup author answers
                    ++ [Log ("  [dry] would create author: " +:+ to_string author
                             +:+ " -> " +:+ makeDocumentId cfg "author" (VStr s))]
            | Throw e =>
                fst (ensureAuthor X cfg authorId author w) = Throw e
                ∧ trace (snd (ensureAuthor X cfg authorId author w))
                  = trace w ++ author_lookup author answers
            end
      end.
Proof.
  intros Hid Hname. unfold ensureAuthor. rewrite Hid, Hname, dry. cbn [negb].
  unfold mbind, ST_bind, kbind, withRetry, Retry.withRetry.
  destruct (attempts_shape X (Fetch author_by_name [("name", author)]) 3 1000
              ("fetch author by name " +:+ q +:+ to_string author +:+ q) 3 1 w)
    as (answers & Hlen & Htr & Hres & Hf); [lia | lia |].
  exists answers. split; [exact Hlen|]. split; [exact Hf|].
  destruct (Retry.attempts _ _ _ _ _ _ _ _ w) as [r w1]. cbn [fst snd] in Htr, Hres.
  rewrite <- Hres. unfold author_lookup. destruct r as [existing|e]; [|now split].
  destruct (truthy (prop_opt existing "_id")); [now split|].
  unfold klift. destruct (slugify author) as [s|e]; [|now split].
  cbn. rewrite Htr, <- List.app_assoc. now split.
Qed.


End WithExternals.



End DryRunFacts.

(* ------------------------------------------------------------------ *)
(** ** The asset uploader: one upload at a time for a path *)
(* ------------------------------------------------------------------ *)
Module UploaderFacts.
Import Importer Uploader.

Section WithExternals.
Variable X : externals.
Variable cfg : config.

Definition live (st : pstatus) : Prop := ∀ e, st ≠ Rejected e.

(** What holds in every state the uploader can reach. *)
Record inv (s : ustate) : Prop := Inv {
  inv_inflight : ∀ p pid,
    inflight s !! p = Some pid → ∃ st, promises s !! pid = Some (Promise p st false);
  inv_unresumed : ∀ pid p st,
    promises s !! pid = Some (Promise p st false) → inflight s !! p = Some pid;
  inv_pending : ∀ pid p a r,
    promises s !! pid = Some (Promise p (Pending a) r) → r = false;
  inv_cache : ∀ p id,
    cache s !! p = Some id →
    ∃ pid asset r, promises s !! pid = Some (Promise p (Fulfilled asset) r)
                   ∧ prop_opt asset "_id" = id;
  inv_fulfilled : ∀ pid p asset r,
    promises s !! pid = Some (Promise p (Fulfilled asset) r) →
    cache s !! p = Some (prop_opt asset "_id");
  inv_own : ∀ pid p st id,
    promises s !! pid = Some (Promise p st false) → cache s !! p = Some id →
    ∃ asset, st = Fulfilled asset;
  inv_unique : ∀ pid1 pid2 p st1 r1 st2 r2,
    promises s !! pid1 = Some (Promise p st1 r1) →
    promises s !! pid2 = Some (Promise p st2 r2) →
    live st1 → live st2 → pid1 = pid2;
  inv_calls : ∀ p src,
    In (p, src) (calls s) →
    match src with
    | FromPromise pid => ∃ st r, promises s !! pid = Some (Promise p st r)
    | FromCache id =>
        ∃ pid asset r, promises s !! pid = Some (Promise p (Fulfilled asset) r)
                       ∧ prop_opt asset "_id" = id
    end;
  inv_nodup : List.NoDup (iolog s);
  inv_upload : ∀ pid p a,
    In (IoUpload pid p a) (iolog s) →
    WRITE cfg = true ∧ 1 <= a
    ∧ ∃ st r, promises s !! pid = Some (Promise p st r)
              ∧ ∀ a', st = Pending a' → a <= a';
  inv_read : ∀ pid p,
    In (IoRead pid p) (iolog s) → ∃ st r, promises s !! pid = Some (Promise p st r);
  inv_alive : ∀ pid p st r,
    promises s !! pid = Some (Promise p st r) → live st →
    In (IoRead pid p) (iolog s)
    ∧ (WRITE cfg = true → In (IoUpload pid p 1) (iolog s));
  inv_write : ∀ pid p a r,
    promises s !! pid = Some (Promise p (Pending a) r) → WRITE cfg = true ∧ 1 <= a;
}.

Lemma inv_init : inv init.
Proof.
  constructor; cbn; intros; try discriminate; try contradiction;
    try (rewrite lookup_empty in *; discriminate).
  constructor.
Qed.

(** Reading the promise list after one entry was replaced. *)
Lemma lookup_set (l : list promise) (pid pid' : nat) (old new : promise) :
  l !! pid = Some old →
  <[pid := new]> l !! pid' = if decide (pid' = pid) then Some new else l !! pid'.
Proof.
  intros Hold. destruct (decide (pid' = pid)) as [->|Hne].
  - apply list_lookup_insert_eq. eapply lookup_lt_Some; eauto.
  - now apply list_lookup_insert_ne.
Qed.

(** Reading the promise list after one entry was added. *)
Lemma lookup_snoc (l : list promise) (pid : nat) (new : promise) :
  (l ++ [new]) !! pid
  = if decide (pid = length l) then Some new else l !! pid.
Proof.
  destruct (decide (pid = length l)) as [->|Hne].
  - rewrite lookup_app_r by lia. now rewrite Nat.sub_diag.
  - destruct (decide (pid < length l)).
    + now rewrite lookup_app_l.
    + rewrite lookup_app_r by lia. rewrite (lookup_ge_None_2 l) by lia.
      destruct (pid - length l) as [|k] eqn:E; [lia | reflexivity].
Qed.

Lemma lookup_valid (l : list promise) (pid : nat) (pr : promise) :
  l !! pid = Some pr → pid ≠ length l.
Proof. intros H%lookup_lt_Some. lia. Qed.

Lemma lookup_set_cases (l : list promise) (pid pid' : nat) (old new x : promise) :
  l !! pid = Some old → <[pid := new]> l !! pid' = Some x →
  (pid' = pid ∧ x = new) ∨ (pid' ≠ pid ∧ l !! pid' = Some x).
Proof.
  intros Hold H. rewrite (lookup_set _ _ _ _ _ Hold) in H.
  destruct (decide (pid' = pid)); [left | right]; split; congruence.
Qed.

Lemma set_same (l : list promise) (pid : nat) (old new : promise) :
  l !! pid = Some old → <[pid := new]> l !! pid = Some new.
Proof. intros H. apply list_lookup_insert_eq. eapply lookup_lt_Some; eauto. Qed.

Lemma set_other (l : list promise) (pid pid' : nat) (new x : promise) :
  pid' ≠ pid → l !! pid' = Some x → <[pid := new]> l !! pid' = Some x.
Proof. intros Hne H. now rewrite list_lookup_insert_ne. Qed.

(** Case analysis on a promise read after an update: the updated one (its
    fields are then known) or another one. *)
Ltac look H Hold :=
  let Hne := fresh "Hne" in
  apply (lookup_set_cases _ _ _ _ _ _ Hold) in H as [[-> H]|[Hne H]];
  [ try discriminate H; injection H; clear H; intros; subst | ].

Ltac relook Hold pid0 :=
  rewrite (lookup_set _ _ _ _ _ Hold);
  destruct (decide (pid0 = _)) as [->|];
  [ rewrite ?decide_True by reflexivity | rewrite ?decide_False by assumption ].

Lemma resume_inv (pid : nat) (s : ustate) : inv s → inv (resume pid s).
Proof.
  intros I. unfold resume.
  destruct (promises s !! pid) as [[p st [|]]|] eqn:Hold; try assumption.
  destruct (settled st) eqn:Hst; [|assumption].
  pose proof (inv_unresumed _ I _ _ _ Hold) as Hfl.
  constructor; cbn.
  - intros p' pid' H. destruct (decide (p' = p)) as [->|Hne].
    + rewrite lookup_delete_eq in H. discriminate.
    + rewrite lookup_delete_ne in H by congruence.
      destruct (inv_inflight _ I _ _ H) as [st' Hp]. exists st'.
      rewrite (lookup_set _ _ _ _ _ Hold).
      destruct (decide (pid' = pid)) as [->|]; [congruence | assumption].
  - intros pid' p' st' H. look H Hold; try discriminate.
    pose proof (inv_unresumed _ I _ _ _ H) as Hfl'.
    destruct (decide (p' = p)) as [->|Hne']; [congruence|].
    now rewrite lookup_delete_ne by congruence.
  - intros pid' p' a r H. look H Hold; try discriminate. eapply inv_pending; eauto.
  - intros p' id H. destruct (inv_cache _ I _ _ H) as (pid0 & asset & r & Hp & Hid).
    destruct (decide (pid0 = pid)) as [->|].
    + rewrite Hold in Hp. injection Hp as ? ? ?; subst. exists pid, asset, true.
      split; [eapply set_same; eauto | auto].
    + exists pid0, asset, r. split; [eapply set_other; eauto | assumption].
  - intros pid' p' asset r H. look H Hold; eapply inv_fulfilled; eauto.
  - intros pid' p' st' id H Hc. look H Hold; try discriminate. eapply inv_own; eauto.
  - intros pid1 pid2 p' st1 r1 st2 r2 H1 H2 L1 L2.
    look H1 Hold; look H2 Hold; try reflexivity; eapply inv_unique; eauto.
  - intros p' src H. pose proof (inv_calls _ I _ _ H) as Hc. destruct src as [id|pid'].
    + destruct Hc as (pid0 & asset & r & Hp & Hid).
      destruct (decide (pid0 = pid)) as [->|].
      * rewrite Hold in Hp. injection Hp as ? ? ?; subst. exists pid, asset, true.
        split; [eapply set_same; eauto | auto].
      * exists pid0, asset, r. split; [eapply set_other; eauto | assumption].
    + destruct Hc as (st' & r & Hp).
      destruct (decide (pid' = pid)) as [->|].
      * rewrite Hold in Hp. injection Hp as ? ? ?; subst.
        do 2 eexists. eapply set_same; eauto.
      * do 2 eexists. eapply set_other; eauto.
  - apply (inv_nodup _ I).
  - intros pid' p' a H. destruct (inv_upload _ I _ _ _ H) as (Hw & Ha & st' & r & Hp & Hle).
    split; [assumption|]. split; [assumption|].
    destruct (decide (pid' = pid)) as [->|].
    + rewrite Hold in Hp. injection Hp as ? ? ?; subst.
      do 2 eexists. split; [eapply set_same; eauto | auto].
    + do 2 eexists. split; [eapply set_other; eauto | assumption].
  - intros pid' p' H. destruct (inv_read _ I _ _ H) as (st' & r & Hp).
    destruct (decide (pid' = pid)) as [->|].
    + rewrite Hold in Hp. injection Hp as ? ? ?; subst.
      do 2 eexists. eapply set_same; eauto.
    + do 2 eexists. eapply set_other; eauto.
  - intros pid' p' st' r H L. look H Hold; eapply inv_alive; eauto.
  - intros pid' p' a r H. look H Hold; try discriminate. eapply inv_write; eauto.
Qed.

Lemma nodup_snoc {A} (l : list A) (x : A) :
  List.NoDup l → ¬ In x l → List.NoDup (l ++ [x]).
Proof.
  induction 1 as [|y l Hy Hl IH]; intros Hx; cbn.
  - constructor; [intros [] | constructor].
  - constructor.
    + rewrite in_app_iff. intros [H|[->|[]]]; [contradiction | apply Hx; now left].
    + apply IH. intros H. apply Hx. now right.
Qed.

Lemma live_pending (a : nat) : live (Pending a).
Proof. intros e. discriminate. Qed.

Lemma live_fulfilled (asset : value) : live (Fulfilled asset).
Proof. intros e. discriminate. Qed.

#[local] Hint Resolve live_pending live_fulfilled : core.

(** Re-finding a promise after another status was written at [pid]. *)
Ltac refind Hold Hp :=
  match type of Hp with
  | promises _ !! ?pid0 = Some _ =>
      match type of Hold with
      | promises _ !! ?pid = Some _ =>
          destruct (decide (pid0 = pid)) as [->|];
          [ rewrite Hold in Hp; injection Hp; clear Hp; intros; subst;
            try congruence; do 2 eexists;
            first [ split; [eapply set_same; eauto | eauto; try congruence]
                  | eapply set_same; eauto ]
          | do 2 eexists;
            first [ split; [eapply set_other; eauto | eauto]
                  | eapply set_other; eauto ] ]
      end
  end.

Lemma fulfill_inv (pid : nat) (p : string) (a : nat) (r : bool) (asset : value) (s : ustate) :
  inv s → promises s !! pid = Some (Promise p (Pending a) r) →
  inv (set_promise pid (Promise p (Fulfilled asset) r)
         (set_cache p (prop_opt asset "_id") s)).
Proof.
  intros I Hold. pose proof (inv_pending _ I _ _ _ _ Hold) as ->.
  pose proof (inv_unresumed _ I _ _ _ Hold) as Hfl.
  constructor; cbn.
  - intros p' pid' H. destruct (inv_inflight _ I _ _ H) as [st' Hp].
    destruct (decide (pid' = pid)) as [->|].
    + rewrite Hold in Hp. injection Hp as ? ?; subst. eexists. eapply set_same; eauto.
    + eexists. eapply set_other; eauto.
  - intros pid' p' st' H. look H Hold; eapply inv_unresumed; eauto.
  - intros pid' p' a' r H. look H Hold; try congruence. eapply inv_pending; eauto.
  - intros p' id H. destruct (decide (p' = p)) as [->|Hp'].
    + rewrite lookup_insert_eq in H. injection H as <-.
      exists pid, asset, false. split; [eapply set_same; eauto | reflexivity].
    + rewrite lookup_insert_ne in H by congruence.
      destruct (inv_cache _ I _ _ H) as (pid0 & asset0 & r0 & Hp & Hid).
      exists pid0, asset0, r0. split; [|assumption].
      eapply set_other; eauto. intros ->. congruence.
  - intros pid' p' asset' r H. look H Hold.
    + apply lookup_insert_eq.
    + destruct (decide (p' = p)) as [->|Hp'].
      * exfalso. apply Hne. eapply (inv_unique _ I); eauto.
      * rewrite lookup_insert_ne by congruence. eapply inv_fulfilled; eauto.
  - intros pid' p' st' id H Hc. look H Hold; [eauto|].
    destruct (decide (p' = p)) as [->|Hp'].
    + pose proof (inv_unresumed _ I _ _ _ H). congruence.
    + rewrite lookup_insert_ne in Hc by congruence. eapply inv_own; eauto.
  - intros pid1 pid2 p' st1 r1 st2 r2 H1 H2 L1 L2.
    look H1 Hold; look H2 Hold; try reflexivity.
    + eapply (inv_unique _ I); eauto.
    + eapply (inv_unique _ I); eauto.
    + eapply (inv_unique _ I); eauto.
  - intros p' src H. pose proof (inv_calls _ I _ _ H) as Hc. destruct src as [id|pid'].
    + destruct Hc as (pid0 & asset0 & r0 & Hp & Hid).
      exists pid0, asset0, r0. split; [|assumption].
      eapply set_other; eauto. intros ->. congruence.
    + destruct Hc as (st' & r & Hp). refind Hold Hp.
  - apply (inv_nodup _ I).
  - intros pid' p' a' H. destruct (inv_upload _ I _ _ _ H) as (Hw & Ha & st' & r & Hp & Hle).
    split; [assumption|]. split; [assumption|]. refind Hold Hp.
  - intros pid' p' H. destruct (inv_read _ I _ _ H) as (st' & r & Hp). refind Hold Hp.
  - intros pid' p' st' r H L. look H Hold; eapply inv_alive; eauto.
  - intros pid' p' a' r H. look H Hold; try congruence. eapply inv_write; eauto.
Qed.

Lemma reject_inv (pid : nat) (p : string) (a : nat) (r : bool) (e : exn) (s : ustate) :
  inv s → promises s !! pid = Some (Promise p (Pending a) r) →
  inv (set_promise pid (Promise p (Rejected e) r) s).
Proof.
  intros I Hold. pose proof (inv_pending _ I _ _ _ _ Hold) as ->.
  pose proof (inv_unresumed _ I _ _ _ Hold) as Hfl.
  constructor; cbn.
  - intros p' pid' H. destruct (inv_inflight _ I _ _ H) as [st' Hp].
    destruct (decide (pid' = pid)) as [->|].
    + rewrite Hold in Hp. injection Hp as ? ?; subst. eexists. eapply set_same; eauto.
    + eexists. eapply set_other; eauto.
  - intros pid' p' st' H. look H Hold; eapply inv_unresumed; eauto.
  - intros pid' p' a' r H. look H Hold; try congruence. eapply inv_pending; eauto.
  - intros p' id H.
    destruct (inv_cache _ I _ _ H) as (pid0 & asset0 & r0 & Hp & Hid).
    exists pid0, asset0, r0. split; [|assumption].
    eapply set_other; eauto. intros ->. congruence.
  - intros pid' p' asset' r H. look H Hold; try congruence. eapply inv_fulfilled; eauto.
  - intros pid' p' st' id H Hc. look H Hold; [|eapply inv_own; eauto].
    destruct (inv_own _ I _ _ _ _ Hold Hc) as [asset Hx]. discriminate.
  - intros pid1 pid2 p' st1 r1 st2 r2 H1 H2 L1 L2.
    look H1 Hold; look H2 Hold; try reflexivity;
      try (exfalso; eapply L1; reflexivity); try (exfalso; eapply L2; reflexivity).
    eapply (inv_unique _ I); eauto.
  - intros p' src H. pose proof (inv_calls _ I _ _ H) as Hc. destruct src as [id|pid'].
    + destruct Hc as (pid0 & asset0 & r0 & Hp & Hid).
      exists pid0, asset0, r0. split; [|assumption].
      eapply set_other; eauto. intros ->. congruence.
    + destruct Hc as (st' & r & Hp). refind Hold Hp.
  - apply (inv_nodup _ I).
  - intros pid' p' a' H. destruct (inv_upload _ I _ _ _ H) as (Hw & Ha & st' & r & Hp & Hle).
    split; [assumption|]. split; [assumption|]. refind Hold Hp.
  - intros pid' p' H. destruct (inv_read _ I _ _ H) as (st' & r & Hp). refind Hold Hp.
  - intros pid' p' st' r H L. look H Hold; [|eapply inv_alive; eauto].
    exfalso. eapply L. reflexivity.
  - intros pid' p' a' r H. look H Hold; try congruence. eapply inv_write; eauto.
Qed.

Lemma retry_inv (pid : nat) (p : string) (a : nat) (r : bool) (s : ustate) :
  inv s → promises s !! pid = Some (Promise p (Pending a) r) →
  inv (set_promise pid (Promise p (Pending (S a)) r)
         (add_io (IoUpload pid p (S a)) s)).
Proof.
  intros I Hold. pose proof (inv_pending _ I _ _ _ _ Hold) as ->.
  pose proof (inv_unresumed _ I _ _ _ Hold) as Hfl.
  destruct (inv_write _ I _ _ _ _ Hold) as [Hw Ha].
  constructor; cbn.
  - intros p' pid' H. destruct (inv_inflight _ I _ _ H) as [st' Hp].
    destruct (decide (pid' = pid)) as [->|].
    + rewrite Hold in Hp. injection Hp as ? ?; subst. eexists. eapply set_same; eauto.
    + eexists. eapply set_other; eauto.
  - intros pid' p' st' H. look H Hold; eapply inv_unresumed; eauto.
  - intros pid' p' a' r H. look H Hold; [reflexivity | eapply inv_pending; eauto].
  - intros p' id H.
    destruct (inv_cache _ I _ _ H) as (pid0 & asset0 & r0 & Hp & Hid).
    exists pid0, asset0, r0. split; [|assumption].
    eapply set_other; eauto. intros ->. congruence.
  - intros pid' p' asset' r H. look H Hold; try congruence. eapply inv_fulfilled; eauto.
  - intros pid' p' st' id H Hc. look H Hold; [|eapply inv_own; eauto].
    destruct (inv_own _ I _ _ _ _ Hold Hc) as [asset Hx]. discriminate.
  - intros pid1 pid2 p' st1 r1 st2 r2 H1 H2 L1 L2.
    look H1 Hold; look H2 Hold; try reflexivity; eapply (inv_unique _ I); eauto.
  - intros p' src H. pose proof (inv_calls _ I _ _ H) as Hc. destruct src as [id|pid'].
    + destruct Hc as (pid0 & asset0 & r0 & Hp & Hid).
      exists pid0, asset0, r0. split; [|assumption].
      eapply set_other; eauto. intros ->. congruence.
    + destruct Hc as (st' & r & Hp). refind Hold Hp.
  - apply nodup_snoc; [apply (inv_nodup _ I)|]. intros Hin.
    destruct (inv_upload _ I _ _ _ Hin) as (_ & _ & st' & r & Hp & Hle).
    rewrite Hold in Hp. injection Hp as <- <-. specialize (Hle a eq_refl). lia.
  - intros pid' p' a' [H|[[= <- <- <-]|[]]]%in_app_iff.
    + destruct (inv_upload _ I _ _ _ H) as (_ & Ha' & st' & r & Hp & Hle).
      split; [assumption|]. split; [assumption|].
      destruct (decide (pid' = pid)) as [->|].
      * rewrite Hold in Hp. injection Hp as <- <- <-.
        do 2 eexists. split; [eapply set_same; eauto|].
        intros a'' [= <-]. specialize (Hle a eq_refl). lia.
      * do 2 eexists. split; [eapply set_other; eauto | assumption].
    + split; [assumption|]. split; [lia|].
      do 2 eexists. split; [eapply set_same; eauto|]. intros a'' [= <-]. lia.
  - intros pid' p' [H|[[=]|[]]]%in_app_iff.
    destruct (inv_read _ I _ _ H) as (st' & r & Hp). refind Hold Hp.
  - intros pid' p' st' r H L. rewrite !in_app_iff. look H Hold.
    + destruct (inv_alive _ I _ _ _ _ Hold (live_pending a)) as [H1 H2]. auto.
    + destruct (inv_alive _ I _ _ _ _ H L) as [H1 H2]. auto.
  - intros pid' p' a' r H. look H Hold; [split; [assumption | lia]|].
    eapply inv_write; eauto.
Qed.

Lemma answer_inv (pid : nat) (ans : result value) (s : ustate) :
  inv s → inv (answer pid ans s).
Proof.
  intros I. unfold answer.
  destruct (promises s !! pid) as [[p [a|asset|e] r]|] eqn:Hold; try assumption.
  destruct ans as [asset|err].
  - destruct (prop asset "_id") as [id|e] eqn:Hid.
    + assert (id = prop_opt asset "_id") as ->
        by (unfold prop in Hid; destruct asset; congruence).
      eapply fulfill_inv; eauto.
    + eapply reject_inv; eauto.
  - destruct (_ || _); [eapply reject_inv | eapply retry_inv]; eauto.
Qed.

(** What the start of a new upload does to the state. *)
Record started (pid : nat) (p : string) (s : ustate) (st : pstatus) (s1 : ustate)
  : Prop := Started {
  st_promises : promises s1 = promises s;
  st_inflight : inflight s1 = inflight s;
  st_calls : calls s1 = calls s;
  st_cache_other : ∀ p', p' ≠ p → cache s1 !! p' = cache s !! p';
  st_cache_self : ∀ id, cache s1 !! p = Some id →
                        cache s !! p = Some id ∨ st = Fulfilled (VObj [("_id", id)]);
  st_cache_same : (∀ asset, st ≠ Fulfilled asset) → cache s1 = cache s;
  st_fulfilled : ∀ asset, st = Fulfilled asset →
                          cache s1 !! p = Some (prop_opt asset "_id");
  st_io : ∃ new, iolog s1 = iolog s ++ new
                 ∧ List.NoDup new
                 ∧ (∀ e, In e new → e = IoRead pid p ∨ e = IoUpload pid p 1)
                 ∧ (In (IoUpload pid p 1) new → WRITE cfg = true)
                 ∧ (live st → In (IoRead pid p) new
                              ∧ (WRITE cfg = true → In (IoUpload pid p 1) new));
  st_pending : ∀ a, st = Pending a → a = 1 ∧ WRITE cfg = true;
}.

Ltac io_new l :=
  exists l; split; [rewrite ?app_nil_r, <- ?List.app_assoc; reflexivity|];
  split; [repeat constructor; cbn; intuition discriminate|];
  split; [cbn; intuition (subst; auto)|].

Lemma start_started (pid : nat) (p : string) (file : result value) (s : ustate)
  (st : pstatus) (s1 : ustate) :
  start X cfg pid p file s = (st, s1) → started pid p s st s1.
Proof.
  unfold start. intros H.
  destruct (validateImageType X p) as [ct|e].
  2:{ injection H as <- <-. constructor; auto; try discriminate.
      io_new (@nil io). split; [intros []|]. intros L. exfalso. eapply L. reflexivity. }
  destruct file as [buf|err].
  2:{ injection H as <- <-. constructor; cbn; auto; try discriminate.
      io_new [IoRead pid p]. split; [intros [[=]|[]]|].
      intros L. exfalso. eapply L. reflexivity. }
  destruct (WRITE cfg) eqn:Hw; cbn [negb] in H.
  - injection H as <- <-. constructor; cbn; auto; try discriminate.
    + io_new [IoRead pid p; IoUpload pid p 1]. split; [intros _; exact Hw|].
      intros _. cbn. auto.
    + intros a [= <-]. auto.
  - destruct (slugify (VStr (path_basename X p))) as [sl|e].
    + injection H as <- <-. constructor; cbn; auto; try discriminate.
      * intros p' Hne. now rewrite lookup_insert_ne by congruence.
      * intros id. rewrite lookup_insert_eq. intros [= <-]. now right.
      * intros Hx. exfalso. eapply Hx. reflexivity.
      * intros asset [= <-]. now rewrite lookup_insert_eq.
      * io_new [IoRead pid p]. split; [intros [[=]|[]]|].
        intros _. cbn. split; [auto | congruence].
    + injection H as <- <-. constructor; cbn; auto; try discriminate.
      io_new [IoRead pid p]. split; [intros [[=]|[]]|].
      intros L. exfalso. eapply L. reflexivity.
Qed.

Lemma snoc_cases (l : list promise) (pid : nat) (new x : promise) :
  (l ++ [new]) !! pid = Some x →
  (pid = length l ∧ x = new) ∨ (pid ≠ length l ∧ l !! pid = Some x).
Proof.
  rewrite lookup_snoc. destruct (decide (pid = length l)); [left | right]; split; congruence.
Qed.

Lemma snoc_old (l : list promise) (pid : nat) (new x : promise) :
  l !! pid = Some x → (l ++ [new]) !! pid = Some x.
Proof. intros H. rewrite lookup_app_l; [assumption | eapply lookup_lt_Some; eauto]. Qed.

Lemma snoc_new (l : list promise) (new : promise) :
  (l ++ [new]) !! length l = Some new.
Proof. rewrite lookup_snoc. now rewrite decide_True. Qed.

(** When neither the cache nor the in-flight map knows the path, every
    promise made for it so far was rejected, and its caller has resumed. *)
Lemma miss_all_failed (s : ustate) (p : string) :
  inv s → cache s !! p = None → inflight s !! p = None → all_failed p s.
Proof.
  intros I Hc Hf pid [p' st r] Hp <-. cbn in *. split.
  - destruct st as [a|asset|e]; [| |reflexivity].
    + pose proof (inv_pending _ I _ _ _ _ Hp) as ->.
      pose proof (inv_unresumed _ I _ _ _ Hp). congruence.
    + pose proof (inv_fulfilled _ I _ _ _ _ Hp). congruence.
  - destruct r; [reflexivity|]. pose proof (inv_unresumed _ I _ _ _ Hp). congruence.
Qed.

Ltac new_or_old H :=
  let Hne := fresh "Hne" in
  apply snoc_cases in H as [[-> H]|[Hne H]];
  [ try discriminate H; injection H; clear H; intros; subst | ].

Lemma call_inv (p : string) (file : result value) (s : ustate) :
  inv s → inv (call X cfg p file s).
Proof.
  intros I. unfold call.
  destruct (cache s !! p) as [id|] eqn:Hc.
  { destruct I. constructor; cbn; auto.
    intros p' src [H|[[= <- <-]|[]]]%in_app_iff; [now apply inv_calls0 | eauto]. }
  destruct (inflight s !! p) as [pid|] eqn:Hf.
  { pose proof (inv_inflight _ I _ _ Hf) as [st Hst].
    destruct I. constructor; cbn; auto.
    intros p' src [H|[[= <- <-]|[]]]%in_app_iff; [now apply inv_calls0 | eauto]. }
  destruct (start X cfg (length (promises s)) p file s) as [st s1] eqn:Hs.
  apply start_started in Hs. destruct Hs as [Hpr Hfl Hca Hco Hcs Hcm Hcf Hio Hpe].
  pose proof (miss_all_failed _ _ I Hc Hf) as Hall.
  destruct Hio as (new & Hlog & Hnd & Hnew & Hnw & Hlive).
  assert (∀ pid' st' r', promises s !! pid' = Some (Promise p st' r') → live st' → False)
    as Hdead.
  { intros pid' st' r' Hp L. destruct (Hall _ _ Hp eq_refl) as [Hx _].
    destruct st'; try discriminate. eapply L. reflexivity. }
  constructor; cbn; rewrite ?Hpr, ?Hfl, ?Hca.
  - intros p' pid' H. destruct (decide (p' = p)) as [->|Hp'].
    + rewrite lookup_insert_eq in H. injection H as <-. eexists. apply snoc_new.
    + rewrite lookup_insert_ne in H by congruence.
      destruct (inv_inflight _ I _ _ H) as [st' Hx]. eexists. eapply snoc_old; eauto.
  - intros pid' p' st' H. new_or_old H.
    + apply lookup_insert_eq.
    + pose proof (inv_unresumed _ I _ _ _ H) as Hx.
      rewrite lookup_insert_ne; [assumption | congruence].
  - intros pid' p' a r H. new_or_old H; [reflexivity | eapply inv_pending; eauto].
  - intros p' id H. destruct (decide (p' = p)) as [->|Hp'].
    + destruct (Hcs _ H) as [Hx| ->]; [congruence|].
      exists (length (promises s)), (VObj [("_id", id)]), false.
      split; [apply snoc_new | reflexivity].
    + rewrite Hco in H by assumption.
      destruct (inv_cache _ I _ _ H) as (pid0 & asset & r & Hx & Hid).
      exists pid0, asset, r. split; [eapply snoc_old; eauto | assumption].
  - intros pid' p' asset r H. new_or_old H.
    + now apply Hcf.
    + pose proof (inv_fulfilled _ I _ _ _ _ H) as Hx.
      rewrite Hco; [assumption | congruence].
  - intros pid' p' st' id H Hx. new_or_old H.
    + destruct (Hcs _ Hx) as [Hy| ->]; [congruence | eauto].
    + destruct (decide (p' = p)) as [->|Hp'].
      * pose proof (inv_unresumed _ I _ _ _ H). congruence.
      * rewrite Hco in Hx by assumption. eapply inv_own; eauto.
  - intros pid1 pid2 p' st1 r1 st2 r2 H1 H2 L1 L2.
    new_or_old H1; new_or_old H2; try reflexivity.
    + exfalso. eapply Hdead; eauto.
    + exfalso. eapply Hdead; eauto.
    + eapply (inv_unique _ I); eauto.
  - intros p' src [H|[[= <- <-]|[]]]%in_app_iff.
    + pose proof (inv_calls _ I _ _ H) as Hx. destruct src as [id|pid'].
      * destruct Hx as (pid0 & asset & r & Hx & Hid).
        exists pid0, asset, r. split; [eapply snoc_old; eauto | assumption].
      * destruct Hx as (st' & r & Hx). do 2 eexists. eapply snoc_old; eauto.
    + do 2 eexists. apply snoc_new.
  - rewrite Hlog. apply List.NoDup_app; [apply (inv_nodup _ I) | assumption |].
    intros e Hin Hin'. destruct (Hnew _ Hin') as [-> | ->].
    + destruct (inv_read _ I _ _ Hin) as (st' & r & Hx).
      apply lookup_lt_Some in Hx. lia.
    + destruct (inv_upload _ I _ _ _ Hin) as (_ & _ & st' & r & Hx & _).
      apply lookup_lt_Some in Hx. lia.
  - intros pid' p' a. rewrite Hlog. intros [H|H]%in_app_iff.
    + destruct (inv_upload _ I _ _ _ H) as (Hw & Ha & st' & r & Hx & Hle).
      split; [assumption|]. split; [assumption|].
      do 2 eexists. split; [eapply snoc_old; eauto | assumption].
    + destruct (Hnew _ H) as [[=] | [= -> -> ->]].
      split; [now apply Hnw|]. split; [lia|].
      do 2 eexists. split; [apply snoc_new|].
      intros a' ->. destruct (Hpe _ eq_refl) as [-> _]. lia.
  - intros pid' p'. rewrite Hlog. intros [H|H]%in_app_iff.
    + destruct (inv_read _ I _ _ H) as (st' & r & Hx).
      do 2 eexists. eapply snoc_old; eauto.
    + destruct (Hnew _ H) as [[= -> ->] | [=]]. do 2 eexists. apply snoc_new.
  - intros pid' p' st' r H L. rewrite Hlog, !in_app_iff. new_or_old H.
    + destruct (Hlive L) as [H1 H2]. auto.
    + destruct (inv_alive _ I _ _ _ _ H L) as [H1 H2]. auto.
  - intros pid' p' a r H. new_or_old H.
    + destruct (Hpe _ eq_refl) as [-> Hw]. auto.
    + eapply inv_write; eauto.
Qed.

Lemma step_inv (s s' : ustate) : step X cfg s s' → inv s → inv s'.
Proof.
  intros [p file s0 | pid ans s0 | pid s0] I;
    [apply call_inv | apply answer_inv | apply resume_inv]; assumption.
Qed.

Lemma reachable_inv (s : ustate) : reachable X cfg s → inv s.
Proof. induction 1; [apply inv_init | eapply step_inv; eauto]. Qed.

Lemma failed_live (p : promise) : failed p = false → live (p_status p).
Proof. unfold failed. destruct (p_status p); intros H x; congruence. Qed.

(** C4, as the uploader has it. As long as no upload for a path has failed,
    all the calls made for the path share one promise: one file read and
    one upload operation (one run of the retry wrapper; none in simulate
    mode) are done for it, every caller holds that promise or the identifier
    cached from its result, and once the identifier is cached a call answers
    from the cache and does nothing else. *)
Theorem one_upload_per_path (s : ustate) (p : string) (src0 : source) :
  reachable X cfg s → In (p, src0) (calls s) → none_failed p s →
  ∃ pid st r,
    promises s !! pid = Some (Promise p st r)
    ∧ (∀ pid' pr', promises s !! pid' = Some pr' → p_path pr' = p → pid' = pid)
    ∧ (∀ src, In (p, src) (calls s) →
              src = FromPromise pid
              ∨ ∃ asset, st = Fulfilled asset ∧ src = FromCache (prop_opt asset "_id"))
    ∧ List.NoDup (iolog s)
    ∧ (∀ pid' a, In (IoUpload pid' p a) (iolog s) → pid' = pid)
    ∧ (∀ pid', In (IoRead pid' p) (iolog s) → pid' = pid)
    ∧ In (IoRead pid p) (iolog s)
    ∧ (if WRITE cfg then In (IoUpload pid p 1) (iolog s)
       else ∀ pid' p' a, ¬ In (IoUpload pid' p' a) (iolog s))
    ∧ (∀ id file, cache s !! p = Some id →
                  call X cfg p file s = add_call (p, FromCache id) s).
Proof.
  intros Hr Hcall Hnone. pose proof (reachable_inv _ Hr) as I.
  assert (∃ pid st r, promises s !! pid = Some (Promise p st r)) as (pid & st & r & Hp).
  { pose proof (inv_calls _ I _ _ Hcall) as Hx. destruct src0 as [id|pid].
    - destruct Hx as (pid & asset & r & Hx & _). eauto.
    - destruct Hx as (st & r & Hx). eauto. }
  assert (live st) as L by (apply (failed_live _ (Hnone _ _ Hp eq_refl))).
  assert (∀ pid' pr', promises s !! pid' = Some pr' → p_path pr' = p → pid' = pid) as Huniq.
  { intros pid' [p' st' r'] Hp' <-. cbn in *.
    eapply (inv_unique _ I); eauto. apply (failed_live _ (Hnone _ _ Hp' eq_refl)). }
  exists pid, st, r. split; [assumption|]. split; [assumption|].
  split; [|split; [apply (inv_nodup _ I)|split; [|split; [|split; [|split]]]]].
  - intros src Hin. pose proof (inv_calls _ I _ _ Hin) as Hx. destruct src as [id|pid'].
    + destruct Hx as (pid0 & asset & r0 & Hx & Hid). right.
      pose proof (Huniq _ _ Hx eq_refl) as ->. rewrite Hp in Hx.
      injection Hx as -> ->. exists asset. now rewrite Hid.
    + destruct Hx as (st' & r' & Hx). left. f_equal. eapply Huniq; eauto.
  - intros pid' a Hin. destruct (inv_upload _ I _ _ _ Hin) as (_ & _ & st' & r' & Hx & _).
    eapply Huniq; eauto.
  - intros pid' Hin. destruct (inv_read _ I _ _ Hin) as (st' & r' & Hx).
    eapply Huniq; eauto.
  - apply (inv_alive _ I _ _ _ _ Hp L).
  - destruct (WRITE cfg) eqn:Hw.
    + now apply (inv_alive _ I _ _ _ _ Hp L).
    + intros pid' p' a Hin. destruct (inv_upload _ I _ _ _ Hin) as (Hx & _). congruence.
  - intros id file Hc. unfold call. now rewrite Hc.
Qed.

(** C10. A failed upload leaves nothing in the cache, and the [finally] of
    its first caller takes its entry out of the in-flight map; when every
    call made for a path so far has failed and is over, the next call for
    the path is answered neither from the cache nor by a promise there
    already: it makes a new promise and goes through validation, reading and
    upload again. The type of the file is checked again, and a file of
    another type rejects the new promise without any input or output;
    otherwise the file is read again, and a failed read rejects the
    promise; otherwise, in write mode, the upload request is sent again, as
    the first of a new run of the retry wrapper, and the promise is pending;
    in simulate mode the synthetic identifier is cached. *)
Theorem failed_upload_not_cached (s : ustate) (pid : nat) (p : string) (e : exn) (r : bool) :
  reachable X cfg s →
  promises s !! pid = Some (Promise p (Rejected e) r) →
  (r = false →
   cache s !! p = None
   ∧ inflight (resume pid s) !! p = None
   ∧ cache (resume pid s) = cache s)
  ∧ (all_failed p s →
     cache s !! p = None ∧ inflight s !! p = None
     ∧ ∀ file,
         calls (call X cfg p file s)
         = calls s ++ [(p, FromPromise (length (promises s)))]
         ∧ inflight (call X cfg p file s) !! p = Some (length (promises s))
         ∧ ∃ st,
             promises (call X cfg p file s) = promises s ++ [Promise p st false]
             ∧ match validateImageType X p with
               | Throw invalid =>
                   st = Rejected invalid ∧ iolog (call X cfg p file s) = iolog s
               | Ok _ =>
                   match file with
                   | Throw err =>
                       (∃ msg, st = Rejected (Error msg))
                       ∧ iolog (call X cfg p file s)
                         = iolog s ++ [IoRead (length (promises s)) p]
                   | Ok _ =>
                       if WRITE cfg then
                         st = Pending 1
                         ∧ iolog (call X cfg p file s)
                           = iolog s ++ [IoRead (length (promises s)) p;
                                         IoUpload (length (promises s)) p 1]
                       else
                         iolog (call X cfg p file s)
                         = iolog s ++ [IoRead (length (promises s)) p]
                         ∧ match slugify (VStr (path_basename X p)) with
                           | Ok sl =>
                               st = Fulfilled (VObj [("_id", VStr ("dry.asset." +:+ sl))])
                               ∧ cache (call X cfg p file s) !! p
                                 = Some (VStr ("dry.asset." +:+ sl))
                           | Throw e' => st = Rejected e'
                           end
                   end
               end).
Proof.
  intros Hr Hp. pose proof (reachable_inv _ Hr) as I. split.
  - intros ->. split; [|split].
    + destruct (cache s !! p) as [id|] eqn:Hc; [|reflexivity].
      destruct (inv_own _ I _ _ _ _ Hp Hc) as [asset Hx]. discriminate.
    + unfold resume. rewrite Hp. cbn. apply lookup_delete_eq.
    + unfold resume. rewrite Hp. reflexivity.
  - intros Hall.
    assert (cache s !! p = None) as Hc.
    { destruct (cache s !! p) as [id|] eqn:Hc; [|reflexivity].
      destruct (inv_cache _ I _ _ Hc) as (pid0 & asset & r0 & Hx & _).
      destruct (Hall _ _ Hx eq_refl) as [Hy _]. discriminate. }
    assert (inflight s !! p = None) as Hf.
    { destruct (inflight s !! p) as [pid0|] eqn:Hf; [|reflexivity].
      destruct (inv_inflight _ I _ _ Hf) as (st & Hx).
      destruct (Hall _ _ Hx eq_refl) as [_ Hy]. discriminate. }
    split; [assumption|]. split; [assumption|].
    intros file. unfold call. rewrite Hc, Hf. unfold start.
    destruct (validateImageType X p) as [ct|invalid].
    2:{ cbn. split; [reflexivity|]. split; [apply lookup_insert_eq|]. eauto. }
    destruct file as [buf|err].
    2:{ cbn. split; [reflexivity|]. split; [apply lookup_insert_eq|].
        eexists. split; [reflexivity|]. eauto. }
    destruct (WRITE cfg); cbn [negb].
    + cbn. split; [reflexivity|]. split; [apply lookup_insert_eq|].
      eexists. split; [reflexivity|]. rewrite <- List.app_assoc. auto.
    + destruct (slugify (VStr (path_basename X p))) as [sl|e'].
      * cbn. split; [reflexivity|]. split; [apply lookup_insert_eq|].
        eexists. split; [reflexivity|]. split; [reflexivity|].
        split; [reflexivity | apply lookup_insert_eq].
      * cbn. split; [reflexivity|]. split; [apply lookup_insert_eq|].
        eexists. split; [reflexivity|]. auto.
Qed.

End WithExternals.
(** Two calls while the upload is on its way, then the answer. *)
Definition shared : ustate :=
  answer 0 (Ok ImportSamples.catAsset)
    (call ImportSamples.sampleX ImportSamples.realRun ImportSamples.catPath
       ImportSamples.catFile
       (call ImportSamples.sampleX ImportSamples.realRun ImportSamples.catPath
          ImportSamples.catFile init)).

(** A call whose upload is refused. *)
Definition refused : ustate :=
  answer 0 (Throw ImportSamples.badRequest)
    (call ImportSamples.sampleX ImportSamples.realRun ImportSamples.catPath
       ImportSamples.catFile init).

Lemma reachable_shared : reachable ImportSamples.sampleX ImportSamples.realRun shared.
Proof. unfold shared. repeat (eapply reach_step; [|constructor]). constructor. Qed.

Lemma reachable_refused : reachable ImportSamples.sampleX ImportSamples.realRun refused.
Proof. unfold refused. repeat (eapply reach_step; [|constructor]). constructor. Qed.

(** Two callers of one upload that succeeds. *)
Lemma one_upload_per_path_witness :
  ∃ pid st r,
    promises shared !! pid = Some (Promise ImportSamples.catPath st r)
    ∧ (∀ pid' pr', promises shared !! pid' = Some pr' →
                   p_path pr' = ImportSamples.catPath → pid' = pid)
    ∧ (∀ src, In (ImportSamples.catPath, src) (calls shared) →
              src = FromPromise pid
              ∨ ∃ asset, st = Fulfilled asset ∧ src = FromCache (prop_opt asset "_id"))
    ∧ List.NoDup (iolog shared)
    ∧ (∀ pid' a, In (IoUpload pid' ImportSamples.catPath a) (iolog shared) → pid' = pid)
    ∧ (∀ pid', In (IoRead pid' ImportSamples.catPath) (iolog shared) → pid' = pid)
    ∧ In (IoRead pid ImportSamples.catPath) (iolog shared)
    ∧ (if WRITE ImportSamples.realRun
       then In (IoUpload pid ImportSamples.catPath 1) (iolog shared)
       else ∀ pid' p' a, ¬ In (IoUpload pid' p' a) (iolog shared))
    ∧ (∀ id file, cache shared !! ImportSamples.catPath = Some id →
                  call ImportSamples.sampleX ImportSamples.realRun
                    ImportSamples.catPath file shared
                  = add_call (ImportSamples.catPath, FromCache id) shared).
Proof.
  apply (one_upload_per_path ImportSamples.sampleX ImportSamples.realRun shared
           ImportSamples.catPath (FromPromise 0)).
  - exact reachable_shared.
  - vm_compute. now left.
  - intros [|pid] pr H _; vm_compute in H; [|discriminate].
    injection H as <-. reflexivity.
Defined.

(** C4 as stated fails: a refused upload, then a second call for the same
    path: two calls, two uploads. *)
Lemma upload_repeated_after_failure :
  let s := call ImportSamples.sampleX ImportSamples.realRun ImportSamples.catPath
             ImportSamples.catFile (resume 0 refused) in
  reachable ImportSamples.sampleX ImportSamples.realRun s
  ∧ calls s = [(ImportSamples.catPath, FromPromise 0);
               (ImportSamples.catPath, FromPromise 1)]
  ∧ iolog s = [IoRead 0 ImportSamples.catPath; IoUpload 0 ImportSamples.catPath 1;
               IoRead 1 ImportSamples.catPath; IoUpload 1 ImportSamples.catPath 1].
Proof.
  split; [|split; vm_compute; reflexivity].
  eapply reach_step; [|apply step_call].
  eapply reach_step; [|apply step_resume]. exact reachable_refused.
Qed.

Lemma reachable_refused_over :
  reachable ImportSamples.sampleX ImportSamples.realRun (resume 0 refused).
Proof. eapply reach_step; [exact reachable_refused | apply step_resume]. Qed.

(** A refused upload: nothing is cached, and the path is free again once
    the first caller has resumed; the call that comes then reads the file
    and sends the upload request once more. *)
Lemma failed_upload_not_cached_witness :
  (cache refused !! ImportSamples.catPath = None
   ∧ inflight (resume 0 refused) !! ImportSamples.catPath = None
   ∧ cache (resume 0 refused) = cache refused)
  ∧ all_failed ImportSamples.catPath (resume 0 refused)
  ∧ let again := call ImportSamples.sampleX ImportSamples.realRun ImportSamples.catPath
                   ImportSamples.catFile (resume 0 refused) in
    calls again = [(ImportSamples.catPath, FromPromise 0);
                   (ImportSamples.catPath, FromPromise 1)]
    ∧ inflight again !! ImportSamples.catPath = Some 1
    ∧ promises again = [Promise ImportSamples.catPath (Rejected ImportSamples.badRequest) true;
                        Promise ImportSamples.catPath (Pending 1) false]
    ∧ iolog again = [IoRead 0 ImportSamples.catPath; IoUpload 0 ImportSamples.catPath 1;
                     IoRead 1 ImportSamples.catPath; IoUpload 1 ImportSamples.catPath 1].
Proof.
  assert (all_failed ImportSamples.catPath (resume 0 refused)) as Hall.
  { intros [|pid] pr H _; vm_compute in H; [|discriminate].
    injection H as <-. split; reflexivity. }
  split; [|split; [exact Hall|]].
  - apply (failed_upload_not_cached ImportSamples.sampleX ImportSamples.realRun refused 0
             ImportSamples.catPath ImportSamples.badRequest false);
      [exact reachable_refused | reflexivity | reflexivity].
  - destruct (failed_upload_not_cached ImportSamples.sampleX ImportSamples.realRun
                (resume 0 refused) 0 ImportSamples.catPath ImportSamples.badRequest true
                reachable_refused_over eq_refl) as [_ Hnext].
    destruct (Hnext Hall) as (_ & _ & Hcall).
    destruct (Hcall ImportSamples.catFile) as (Hcalls & Hfl & st & Hpr & Hst & Hio).
    cbv zeta. rewrite Hcalls, Hfl, Hpr, Hio, Hst. repeat split.
Defined.

End UploaderFacts.

(* ------------------------------------------------------------------ *)
(** ** The body pipeline: what is left of the tokens *)
(* ------------------------------------------------------------------ *)
Module PipelineFacts.
Import Str StrFacts JsFacts KFacts Splitter SplitterSpec SplitterFacts.
Import Extract ExtractFacts Importer PipelineSpec.

(** *** The keys of an object *)

Lemma insert_index_in (x y : N * string) (l : list (N * string)) :
  In x (insert_index y l) ↔ x = y ∨ In x l.
Proof.
  induction l as [|z l IH]; simpl.
  - intuition.
  - destruct (fst y <? fst z)%N; simpl; intuition.
Qed.

Lemma index_keys_in (ks : list string) (n : N) (k : string) :
  ∀ acc,
    In (n, k) (fold_left (fun acc k => match array_index k with
                                       | Some n => insert_index (n, k) acc
                                       | None => acc
                                       end) ks acc)
    ↔ In (n, k) acc ∨ (In k ks ∧ array_index k = Some n).
Proof.
  induction ks as [|k0 ks IH]; intros acc; simpl.
  - intuition.
  - rewrite IH. destruct (array_index k0) as [m|] eqn:E.
    + rewrite insert_index_in. split.
      * intros [[[= -> ->]|H]|[H1 H2]]; auto.
      * intros [H|[[->|H1] H2]]; auto.
        left; left. congruence.
    + split.
      * intros [H|[H1 H2]]; auto.
      * intros [H|[[->|H1] H2]]; auto. congruence.
Qed.

Lemma object_keys_in (fs : fields) (k : string) :
  In k (object_keys fs) ↔ In k (map fst fs).
Proof.
  unfold object_keys, index_keys. rewrite in_app_iff, in_map_iff, filter_In. split.
  - intros [([n k'] & <- & H)|[H _]]; [|assumption].
    apply index_keys_in in H as [[]|[H _]]. assumption.
  - intros H. destruct (array_index k) as [n|] eqn:E.
    + left. exists (n, k). split; [reflexivity|]. apply index_keys_in. auto.
    + right. auto.
Qed.

Lemma set_field_keys (k k' : string) (v : value) (fs : fields) :
  In k' (map fst (set_field k v fs)) ↔ k' = k ∨ In k' (map fst fs).
Proof.
  induction fs as [|[k0 v0] fs IH]; simpl.
  - intuition.
  - destruct (String.eqb k0 k) eqn:E; simpl.
    + apply String.eqb_eq in E as ->. intuition.
    + rewrite IH. intuition.
Qed.

(** *** The token map *)

(** Every entry of the map is an image block. *)
Definition image_map (m : fields) : Prop :=
  ∀ k, In k (map fst m) → ∃ id a c, lookup_field k m = imageValue id a c.

Lemma buildTokenMap_spec (rs : list (image * value)) :
  ∀ acc m,
    buildTokenMap rs acc = Ok m →
    (∀ k, In k (map fst m) ↔ In k (map fst acc) ∨ In k (map (fun r => token (fst r)) rs))
    ∧ (image_map acc → image_map m).
Proof.
  induction rs as [|r rs IH]; intros acc m H; simpl in H.
  - injection H as <-. simpl. intuition.
  - unfold addImageBlock in H. destruct (prop (snd r) "_id") as [id|e]; [|discriminate].
    apply IH in H as [Hk Hi]. split.
    + intros k. rewrite Hk, set_field_keys. simpl. intuition.
    + intros Hacc. apply Hi. intros k Hin.
      destruct (String.eqb_spec k (token (fst r))) as [->|Hne].
      * rewrite lookup_set_same. eauto.
      * rewrite lookup_set_other by assumption. apply Hacc.
        apply set_field_keys in Hin as [?|?]; [contradiction | assumption].
Qed.

(** *** Keys added to an item *)

Lemma type_with_key (v key : value) :
  prop_opt (with_field v "_key" key) "_type" = prop_opt v "_type".
Proof. now apply (prop_with_key v key "_type" "_" "type"). Qed.

Lemma text_with_key (v key : value) :
  prop_opt (with_field v "_key" key) "text" = prop_opt v "text".
Proof. now apply (prop_with_key v key "text" "t" "ext"). Qed.

Lemma children_with_key (v key : value) :
  prop_opt (with_field v "_key" key) "children" = prop_opt v "children".
Proof. now apply (prop_with_key v key "children" "c" "hildren"). Qed.

Lemma typed_truthy (v : value) (s : string) :
  str_eq (prop_opt v "_type") s = true → truthy v = true.
Proof. destruct v; simpl; try discriminate. reflexivity. Qed.

Lemma text_span_with_key (c key : value) :
  is_text_span (with_field c "_key" key) = is_text_span c.
Proof.
  unfold is_text_span. rewrite type_with_key, text_with_key.
  destruct (str_eq (prop_opt c "_type") "span") eqn:E.
  - now rewrite (typed_truthy _ _ E).
  - now rewrite !andb_false_r.
Qed.

Lemma text_or_empty_with_key (c key : value) :
  text_or_empty (with_field c "_key" key) = text_or_empty c.
Proof. unfold text_or_empty. now rewrite text_with_key. Qed.

(** *** Blocks without tokens *)

(** A text block of the body holds no token in the text of its spans. *)
Definition settled (tokens : list string) (b : value) : Prop :=
  is_block b = true → clean_block tokens b.

(** The text of a span is a piece of the text of all the spans. *)
Lemma concat_cons (x : string) (xs : list string) :
  concat (x :: xs) = x +:+ concat xs.
Proof. reflexivity. Qed.

Lemma span_text_in_full (c : value) (xs : list value) :
  In c xs → is_text_span c = true →
  substring_of (text_or_empty c) (concat (map text_or_empty (List.filter is_text_span xs))).
Proof.
  induction xs as [|x xs IH]; intros Hin Hc; [destruct Hin|].
  cbn [List.filter]. destruct Hin as [->|Hin].
  - rewrite Hc. cbn [map]. rewrite concat_cons.
    exists "", (concat (map text_or_empty (List.filter is_text_span xs))).
    now rewrite sapp_empty_l.
  - destruct (IH Hin Hc) as (a & b & E).
    destruct (is_text_span x); [|eauto].
    cbn [map]. rewrite concat_cons, E. exists (text_or_empty x +:+ a), b.
    now rewrite !sapp_assoc.
Qed.

Lemma unchanged_clean (tokens : list string) (block : value) :
  is_block block = true →
  blockContainsAnyToken block tokens = false → clean_block tokens block.
Proof.
  unfold blockContainsAnyToken, is_block. intros Hb H c Hc Hspan t Ht.
  rewrite Hb in H. cbn [negb orb] in H.
  destruct (prop_opt block "children") as [| | | | |xs| |] eqn:E; try destruct Hc.
  cbn [isArray negb elems] in H, Hc.
  destruct (includes (text_or_empty c) t) eqn:Hi; [exfalso | reflexivity].
  apply not_true_iff_false in H. apply H, existsb_exists. exists t. split; [assumption|].
  destruct (span_text_in_full c xs Hc Hspan) as (a & b & ->).
  apply includes_iff in Hi as (a' & b' & ->). apply includes_iff.
  exists (a +:+ a'), (b' +:+ b). now rewrite !sapp_assoc.
Qed.


Section Replace.
Variable randomHex : nat → string.
Variables (tokens : list string) (tokenToImageBlock : fields).
Hypothesis tokens_nonempty : nonempty_tokens tokens.
Hypothesis images_no_blocks :
  ∀ t, In t tokens → is_block (lookup_field t tokenToImageBlock) = false.

Lemma image_settled (t key : string) :
  In t tokens → settled tokens (imageBlock tokenToImageBlock t key).
Proof.
  intros Ht Hb. unfold is_block, imageBlock in Hb. rewrite type_with_key in Hb.
  specialize (images_no_blocks t Ht). unfold is_block in images_no_blocks. congruence.
Qed.

Lemma fragment_text (c : value) (k txt : string) :
  text_or_empty (fragment c k txt) = txt.
Proof. unfold text_or_empty, fragment. simpl. now rewrite lookup_set_same. Qed.

Lemma copy_clean (c c' : value) :
  copy_of tokens c c' → is_text_span c' = true → token_free tokens (text_or_empty c').
Proof.
  intros [Hs|k Hs|k txt Hs Hsub Hfree] Hc'.
  - congruence.
  - rewrite text_span_with_key in Hc'. congruence.
  - rewrite fragment_text. auto.
Qed.

Lemma split_settled (block : value) (n : nat) (out : list value) (n' : nat) :
  splitBlockByTokensPreserveMarks randomHex block tokens tokenToImageBlock n
  = (Ok out, n') →
  Forall (settled tokens) out.
Proof.
  intros H. pose proof (splitBlock_children _ _ _ _ _ _ _ H) as Hch.
  pose proof (splitBlock_ok _ _ _ _ _ _ _ _ Hch H) as Hok.
  rewrite Forall_forall in Hok. apply Forall_forall. intros b Hb.
  destruct (Hok b Hb) as [(t & key & Ht & ->)|(cur & -> & Hcur)].
  - now apply image_settled.
  - intros _ c Hc Hspan. simpl in Hc. unfold cur_ok in Hcur.
    rewrite Forall_forall in Hcur.
    destruct (Hcur c) as (c0 & _ & Hcopy); [now apply list_elem_of_In|].
    eapply copy_clean; eauto.
Qed.

Lemma replaceBlock_clean (block : value) (n : nat) (r : list value) (n' : nat) :
  replaceBlock randomHex tokens tokenToImageBlock block n = (Ok r, n') →
  Forall (settled tokens) r.
Proof.
  unfold replaceBlock. intros H.
  destruct (str_eq (prop_opt block "_type") "block") eqn:Hb; cbn [negb] in H.
  - assert (∀ n r n',
              (if blockContainsAnyToken block tokens
               then splitBlockByTokensPreserveMarks randomHex block tokens tokenToImageBlock
               else mret [block]) n = (Ok r, n') →
              Forall (settled tokens) r) as Hrest.
    { intros m r0 m' H0. destruct (blockContainsAnyToken block tokens) eqn:Hc.
      - eapply split_settled; eauto.
      - kinv H0. constructor; [|constructor]. intros _. now apply unchanged_clean. }
    destruct (find _ tokens) as [t|] eqn:Hf; [|eauto].
    destruct (nonempty t); [|eauto].
    kinv H. constructor; [|constructor]. apply image_settled.
    now apply find_some in Hf as [Hf _].
  - kinv H. apply ensureKey_ok in Hstep as [->|[k ->]];
      (constructor; [|constructor]); intros Hb'; unfold is_block in Hb';
      [|rewrite type_with_key in Hb']; congruence.
Qed.

Lemma replace_fold_clean (pt acc : list value) (n : nat) (out : list value) (n' : nat) :
  kfoldM (fun out block =>
            r ← replaceBlock randomHex tokens tokenToImageBlock block; mret (out ++ r))
         pt acc n = (Ok out, n') →
  Forall (settled tokens) acc → Forall (settled tokens) out.
Proof.
  intros H Hacc. eapply (kfoldM_inv (Forall (settled tokens))); [ |exact Hacc|exact H].
  intros s x m s' m' _ Hs Hx. cbn beta in Hx. kinv Hx.
  apply Forall_app. split; [assumption|].
  eapply replaceBlock_clean; eauto.
Qed.

End Replace.

Lemma Forall2_in_r {A B} (R : A → B → Prop) (xs : list A) (ys : list B) (y : B) :
  Forall2 R xs ys → In y ys → ∃ x, In x xs ∧ R x y.
Proof.
  induction 1 as [|x y0 xs ys Hxy _ IH]; intros Hin; [destruct Hin|].
  destruct Hin as [<-|Hin].
  - exists x. split; [now left | assumption].
  - destruct (IH Hin) as (x' & Hx' & Hr). exists x'. split; [now right | assumption].
Qed.

Lemma Forall2_map_eq {A B C} (f : A → C) (g : B → C) (xs : list A) (ys : list B) :
  Forall2 (fun x y => f x = g y) xs ys → map f xs = map g ys.
Proof. induction 1; simpl; congruence. Qed.

(** [ensureKeys] changes no text. *)
Lemma ensureKeys_settled (randomHex : nat → string) (tokens : list string)
  (xs : list value) (n : nat) (ys : list value) (n' : nat) :
  ensureKeys randomHex xs n = (Ok ys, n') →
  Forall (settled tokens) xs → Forall (settled tokens) ys.
Proof.
  intros H Hxs. unfold ensureKeys in H.
  apply (kmapM_inv (fun x y => settled tokens x → settled tokens y)) in H.
  - clear -H Hxs. induction H; [constructor|].
    apply Forall_cons in Hxs as [Hx Hxs]. constructor; auto.
  - clear. intros block n y n' _ H Hblock. kinv H.
    assert (prop_opt a "_type" = prop_opt block "_type"
            ∧ prop_opt a "children" = prop_opt block "children") as [Ht Hc].
    { apply ensureKey_ok in Hstep as [->|[k ->]]; [now split|].
      now rewrite type_with_key, children_with_key. }
    destruct (isArray (prop_opt a "children")) eqn:Harr.
    + kinv H.
      apply (kmapM_inv (fun c c' => c' = c ∨ ∃ k, c' = with_field c "_key" (VStr k))) in Hstep0;
        [|intros; eapply ensureKey_ok; eauto].
      destruct a as [| | | | | |fs|]; try discriminate Harr. simpl.
      intros Hb. unfold is_block in Hb. simpl in Hb.
      rewrite lookup_set_other in Hb by discriminate.
      simpl in Ht, Hc. rewrite Ht in Hb. specialize (Hblock Hb).
      intros c' Hc' Hspan. simpl in Hc'. rewrite lookup_set_same in Hc'. simpl in Hc'.
      destruct (Forall2_in_r _ _ _ _ Hstep0 Hc') as (c & Hin & Hcc').
      simpl in Hin. rewrite Hc in Hin.
      destruct Hcc' as [->|[k ->]]; [now apply Hblock|].
      rewrite text_span_with_key in Hspan. rewrite text_or_empty_with_key.
      now apply Hblock.
    + kinv H. intros Hb. unfold is_block in Hb. rewrite Ht in Hb. specialize (Hblock Hb).
      intros c Hin. rewrite Hc in Hin. now apply Hblock.
Qed.


(** *** The whole pipeline *)

Lemma liftK_ok {A} (m : K A) (w : world) (a : A) (w' : world) :
  liftK m w = (Ok a, w') → ∃ n', m (rng w) = (Ok a, n').
Proof. unfold liftK. destruct (m (rng w)) as [r n']. intros [= -> _]. eauto. Qed.

Lemma token_of_nonempty (i : nat) : nonempty (token_of i) = true.
Proof. reflexivity. Qed.

Lemma extracted_tokens (markdown : string) :
  map token (images (extractInlineImages markdown))
  = map token_of (seq 0 (length (images (extractInlineImages markdown)))).
Proof.
  unfold extractInlineImages.
  destruct (replace_go markdown 0 []) as [out imgs] eqn:H. cbn.
  destruct (replace_go_spec _ _ _ _ _ H) as (_ & _ & new & -> & Htok & _).
  exact Htok.
Qed.

Lemma locateImage_fst (X : externals) (file : string) (img : image) (w : world)
  (d : image * string) (w' : world) :
  locateImage X file img w = (Ok d, w') → fst d = img.
Proof.
  unfold locateImage. intros H. kinv H.
  destruct a0; [discriminate|]. now kinv H.
Qed.

(** The keys of the token map are the tokens of the extraction, and its
    values are image blocks. *)
Lemma token_map_spec (X : externals) (cfg : config) (file : string)
  (imgs : list image) (w1 w2 w3 : world) (imageData : list (image * string))
  (uploadResults : list (image * value)) (m : fields) :
  kmapM (locateImage X file) imgs w1 = (Ok imageData, w2) →
  uploadAll X cfg imageData w2 = (Ok uploadResults, w3) →
  buildTokenMap uploadResults [] = Ok m →
  (∀ k, In k (object_keys m) ↔ In k (map token imgs)) ∧ image_map m.
Proof.
  intros H1 H2 H3.
  apply (kmapM_inv (fun img d => token img = token (fst d))) in H1;
    [|intros x n y n' _ H; apply locateImage_fst in H; now subst].
  apply TraceFacts.uploadAll_fst in H2.
  apply Forall2_map_eq in H1.
  apply buildTokenMap_spec in H3 as [Hk Hi]. split.
  - intros k. rewrite object_keys_in, Hk, H1.
    rewrite <- (map_map fst token uploadResults), H2, map_map. simpl. intuition.
  - apply Hi. intros k [].
Qed.

(** C3, as the pipeline has it. In the body made of a Markdown text, no
    token of the extraction occurs in the text of a span of a text block:
    a block that is a token alone has become an image block, a span that held
    a token has been cut around it, and the other blocks held none. Items
    that are no text blocks are passed on as the converter made them. *)
Theorem no_token_in_span_text (X : externals) (cfg : config)
  (mdFilePath markdown : string) (w : world) (body : list value) (b : value) :
  fst (markdownToPortableTextWithInlineImages X cfg mdFilePath markdown w) = Ok body →
  In b body → is_block b = true →
  clean_block (map token (images (extractInlineImages markdown))) b.
Proof.
  intros H Hb Hblock.
  destruct (markdownToPortableTextWithInlineImages X cfg mdFilePath markdown w)
    as [r w'] eqn:Hrun.
  simpl in H. subst r. unfold markdownToPortableTextWithInlineImages in Hrun.
  set (e := extractInlineImages markdown) in *.
  apply kbind_ok in Hrun as (pt & w1 & Hpt & Hrun).
  destruct (Nat.eqb (length (images e)) 0) eqn:Hn.
  - apply Nat.eqb_eq in Hn. destruct (images e); [|discriminate].
    intros c _ _ t [].
  - kinv Hrun.
    apply liftK_ok in Hstep2 as [k2 Hreplace], Hstep3 as [k3 Hkeys].
    apply klift_ok in Hstep1 as [Hmap _].
    destruct (token_map_spec _ _ _ _ _ _ _ _ _ _ Hstep Hstep0 Hmap) as [Htok Himg].
    assert (Forall (settled (object_keys a1)) a3) as Hall.
    { eapply ensureKeys_settled; [exact Hkeys|].
      eapply replace_fold_clean; [ | |exact Hreplace|constructor].
      - intros t Ht. apply Htok in Ht. subst e. rewrite extracted_tokens in Ht.
        apply in_map_iff in Ht as (i & <- & _). apply token_of_nonempty.
      - intros t Ht. apply object_keys_in, Himg in Ht as (id & x & c & ->).
        reflexivity. }
    apply filter_In in Hb as [Hb _].
    rewrite Forall_forall in Hall. apply list_elem_of_In, Hall in Hb.
    specialize (Hb Hblock). intros c Hc Hspan t Ht.
    apply Htok in Ht. exact (Hb c Hc Hspan t Ht).
Qed.

(** In the body of the sample post the paragraph [Intro] holds no token. *)
Lemma no_token_in_span_text_witness :
  clean_block (map token (images (extractInlineImages ImportSamples.helloBody)))
    (nth 0 PipelineSamples.helloOut VUndef).
Proof.
  apply (no_token_in_span_text ImportSamples.sampleX ImportSamples.realRun
           "/posts/hello.md" ImportSamples.helloBody ImportSamples.start
           PipelineSamples.helloOut).
  - vm_compute. reflexivity.
  - vm_compute. left. reflexivity.
  - vm_compute. reflexivity.
Defined.

(** C3 as stated fails: an image reference inside a code fence becomes a
    token inside a [code] item, which the splitter passes on untouched. *)
Lemma token_survives_in_code :
  fst (markdownToPortableTextWithInlineImages PipelineSamples.fencedX
         ImportSamples.realRun "/posts/code.md" PipelineSamples.fencedBody
         ImportSamples.start)
  = Ok PipelineSamples.fencedOut
  ∧ In (token_of 0) (map token (images (extractInlineImages PipelineSamples.fencedBody)))
  ∧ existsb (mentions (token_of 0)) PipelineSamples.fencedOut = true.
Proof. vm_compute. auto. Qed.

End PipelineFacts.

(* ------------------------------------------------------------------ *)
(** ** The splitter keeps the order of what it reads *)
(* ------------------------------------------------------------------ *)
Module ReadingFacts.
Import Str StrFacts JsFacts KFacts Splitter SplitterSpec SplitterFacts.
Import PipelineSpec PipelineFacts Reading.

(** *** Keys do not show in a reading *)

Lemma strip_set_key (v : value) (fs : fields) :
  List.filter (fun kv => negb (String.eqb (fst kv) "_key")) (set_field "_key" v fs)
  = List.filter (fun kv => negb (String.eqb (fst kv) "_key")) fs.
Proof.
  induction fs as [|[k x] fs IH]; [reflexivity|].
  cbn [set_field]. destruct (String.eqb k "_key") eqn:E.
  - cbn [List.filter fst]. now rewrite E.
  - cbn [List.filter fst]. rewrite E. cbn [negb]. now rewrite IH.
Qed.

Lemma props_with_key (v key : value) :
  props_but_key (with_field v "_key" key) = props_but_key v.
Proof. unfold props_but_key, with_field. cbn [spread]. apply strip_set_key. Qed.

Lemma lookup_but_key (f : string) (fs : fields) :
  f ≠ "_key" →
  lookup_field f (List.filter (fun kv => negb (String.eqb (fst kv) "_key")) fs)
  = lookup_field f fs.
Proof.
  intros Hf. induction fs as [|[k x] fs IH]; [reflexivity|].
  cbn [List.filter fst lookup_field]. destruct (String.eqb k "_key") eqn:E; cbn [negb].
  - apply String.eqb_eq in E as ->.
    destruct (String.eqb_spec "_key" f); [congruence | exact IH].
  - cbn [lookup_field]. now rewrite IH.
Qed.

Lemma text_block_with_key (v key : value) :
  is_text_block (with_field v "_key" key) = is_text_block v.
Proof. unfold is_text_block. now rewrite type_with_key, children_with_key. Qed.

Lemma content_app (a b : list atom) : content (a ++ b) = content a ++ content b.
Proof. apply List.filter_app. Qed.

Lemma read_all_app (tokens : list string) (m : fields) (a b : list value) :
  read_all tokens m (a ++ b) = read_all tokens m a ++ read_all tokens m b.
Proof. apply flat_map_app. Qed.

(** *** Reading what the splitter builds *)

Lemma fragment_text_span (c : value) (k txt : string) :
  is_text_span c = true → is_text_span (fragment c k txt) = true.
Proof.
  intros Hc. destruct (text_span_object _ Hc) as [fs ->].
  unfold is_text_span in *. apply andb_true_iff in Hc as [[_ Ht]%andb_true_iff _].
  unfold fragment. cbn [spread truthy prop_opt andb] in *.
  rewrite lookup_set_same, !lookup_set_other by discriminate.
  now rewrite Ht.
Qed.

Lemma read_fragment (c : value) (k txt : string) :
  is_text_span c = true → read_child [] [] (fragment c k txt) = [AText txt].
Proof.
  intros Hc. unfold read_child. now rewrite fragment_text_span, fragment_text.
Qed.

Lemma read_kept (c c' : value) :
  is_text_span c = false →
  c' = c ∨ (∃ k, c' = with_field c "_key" (VStr k)) →
  read_child [] [] c' = [AChild (props_but_key c)].
Proof.
  intros Hc [->|[k ->]]; unfold read_child.
  - now rewrite Hc.
  - now rewrite text_span_with_key, Hc, props_with_key.
Qed.

Lemma read_block_of (block : value) (cur : current) :
  read [] [] (block_of block cur) = flat_map (read_child [] []) (cur_children cur).
Proof. reflexivity. Qed.

Lemma read_item (tokens : list string) (m : fields) (b b' : value) :
  is_text_block b = false →
  b' = b ∨ (∃ k, b' = with_field b "_key" (VStr k)) →
  read tokens m b' = [AItem (props_but_key b)].
Proof.
  intros Hb [->|[k ->]]; unfold read.
  - now rewrite Hb.
  - now rewrite text_block_with_key, Hb, props_with_key.
Qed.

(** A child without meaning for [hasMeaningfulChildren] adds nothing to
    the content. *)
Lemma meaningless_child (c : value) :
  truthy c = true → meaningful_child c = false → content (read_child [] [] c) = [].
Proof.
  intros Ht Hm. unfold meaningful_child in Hm. rewrite Ht in Hm. cbn [negb] in Hm.
  destruct (str_eq (prop_opt c "_type") "span") eqn:Hs; [|discriminate].
  cbn [negb] in Hm. unfold read_child, is_text_span, text_or_empty. rewrite Ht, Hs.
  destruct (prop_opt c "text") as [| | | |s|xs|o|] eqn:Hx; cbn [andb is_string];
    try (destruct c as [| | | | | |fs|]; try discriminate Hs;
         cbn [content List.filter significant props_but_key spread];
         rewrite lookup_but_key by discriminate; cbn [prop_opt] in Hs; now rewrite Hs).
  cbn [scan nearestToken findNearest fold_left content List.filter significant].
  now rewrite Hm.
Qed.

Lemma meaningless_children (children : list value) :
  Forall (fun c => truthy c = true) children →
  existsb meaningful_child children = false →
  content (flat_map (read_child [] []) children) = [].
Proof.
  induction 1 as [|c cs Hc _ IH]; intros H; [reflexivity|].
  cbn [existsb] in H. apply orb_false_iff in H as [H1 H2].
  cbn [flat_map]. rewrite content_app, (meaningless_child c Hc H1), IH; auto.
Qed.


Lemma meaningful_block_of (block : value) (cur : current) :
  hasMeaningfulChildren (block_of block cur)
  = existsb meaningful_child (cur_children cur).
Proof. reflexivity. Qed.

Lemma scan_plain (fuel : nat) (text : string) : scan (S fuel) [] [] text = [AText text].
Proof. reflexivity. Qed.

Lemma nearest_none_in (tokens : list string) (text : string) :
  (∀ t, In t tokens → includes text t = false) → nearestToken tokens text = None.
Proof.
  intros H. unfold nearestToken. pose proof (findNearest_ok tokens text) as Hok.
  destruct (findNearest tokens text) as [[i t]|]; [|reflexivity].
  simpl in Hok. destruct Hok as (Hin & Hi & _).
  specialize (H t Hin). unfold includes in H. rewrite Hi in H. discriminate.
Qed.

Lemma ensureKey_truthy (randomHex : nat → string) (v : value) (n : nat)
  (v' : value) (n' : nat) :
  ensureKey randomHex v n = (Ok v', n') → truthy v' = true.
Proof.
  unfold ensureKey. intros H. kinv H. apply klift_ok in Hstep as [Hp _].
  destruct (truthy a) eqn:E; kinv H; [|reflexivity].
  destruct v; simpl in Hp; try discriminate; try reflexivity;
    injection Hp as <-; discriminate.
Qed.

(** *** One block split *)

Section Split.
Variable randomHex : nat → string.
Variables (block : value) (tokens : list string) (tokenToImageBlock : fields).
Hypothesis images_plain :
  ∀ t, In t tokens → is_text_block (lookup_field t tokenToImageBlock) = false.

(** What has been built so far, read from left to right: the blocks put
    out, then the children of the paragraph under construction. *)
Definition read_state (st : split_state) : list atom :=
  read_plain (fst st) ++ flat_map (read_child [] []) (cur_children (snd st)).

Definition state_reads (st : split_state) (atoms : list atom) : Prop :=
  Forall (fun c => truthy c = true) (cur_children (snd st))
  ∧ content (read_state st) = content atoms.

Lemma flush_reads (st : split_state) (atoms : list atom) (n : nat)
  (st' : split_state) (n' : nat) :
  state_reads st atoms →
  flushCurrent randomHex block st n = (Ok st', n') →
  state_reads st' atoms ∧ cur_children (snd st') = [].
Proof.
  intros [Ht Hr] H. unfold flushCurrent in H. kinv H. apply newCurrent_ok in Hstep.
  split; [|assumption]. split; cbn [snd fst].
  - rewrite Hstep. constructor.
  - rewrite <- Hr. unfold read_state. cbn [fst snd]. rewrite Hstep. cbn [flat_map].
    rewrite app_nil_r, meaningful_block_of.
    destruct (existsb meaningful_child (cur_children (snd st))) eqn:Hm.
    + unfold read_plain. rewrite read_all_app. cbn [read_all flat_map].
      now rewrite app_nil_r, read_block_of.
    + rewrite content_app, (meaningless_children _ Ht Hm). now rewrite app_nil_r.
Qed.

Lemma pushFragment_reads (c : value) (text : string) (st : split_state)
  (atoms : list atom) (n : nat) (st' : split_state) (n' : nat) :
  is_text_span c = true → state_reads st atoms →
  pushFragment randomHex c text st n = (Ok st', n') →
  state_reads st' (atoms ++ [AText text]).
Proof.
  intros Hc [Ht Hr] H. unfold pushFragment in H.
  destruct (Nat.ltb 0 (len text)) eqn:Hl.
  - kinv H. split; cbn [push_child snd fst].
    + apply Forall_app. split; [assumption|]. constructor; [reflexivity | constructor].
    + unfold read_state, push_child. cbn [fst snd cur_children].
      rewrite flat_map_app. cbn [flat_map].
      rewrite read_fragment by assumption.
      rewrite List.app_assoc, (content_app atoms), <- Hr, <- content_app. reflexivity.
  - kinv H. split; [assumption|]. rewrite content_app, Hr.
    apply Nat.ltb_ge in Hl. assert (text = "") as -> by (apply ExtractFacts.len_zero; lia).
    cbn. now rewrite app_nil_r.
Qed.

Lemma push_image_reads (t key : string) (st : split_state) (atoms : list atom) :
  In t tokens → cur_children (snd st) = [] → state_reads st atoms →
  state_reads (push_out (imageBlock tokenToImageBlock t key) st)
    (atoms ++ [AItem (props_but_key (lookup_field t tokenToImageBlock))]).
Proof.
  intros Ht Hcur [Hc Hr]. split; [exact Hc|].
  unfold read_state, push_out in *. cbn [fst snd] in *. rewrite Hcur in *.
  cbn [flat_map] in *. rewrite app_nil_r in *.
  unfold read_plain in *. rewrite read_all_app, !content_app. f_equal; [exact Hr|].
  cbn [read_all flat_map]. rewrite app_nil_r. unfold imageBlock.
  rewrite (read_item [] [] (lookup_field t tokenToImageBlock)); eauto.
Qed.

Lemma splitSpan_reads (c : value) (fuel : nat) :
  is_text_span c = true →
  ∀ (text : string) (st : split_state) (atoms : list atom) (n : nat)
    (st' : split_state) (n' : nat),
    state_reads st atoms →
    splitSpan randomHex fuel block tokens tokenToImageBlock c text st n = (Ok st', n') →
    state_reads st' (atoms ++ scan fuel tokens tokenToImageBlock text).
Proof.
  intros Hc. induction fuel as [|fuel IH]; intros text st atoms n st' n' Hst H;
    simpl in H; [discriminate|].
  cbn [scan]. destruct (nearestToken tokens text) as [[i t]|] eqn:Hnear.
  - apply nearestToken_some in Hnear as (Ht & _).
    kinv H. eapply pushFragment_reads in Hstep; eauto.
    eapply flush_reads in Hstep0 as [Hst2 Hcur]; eauto.
    eapply IH in H; [|eapply push_image_reads; eauto].
    rewrite <- !List.app_assoc in H. exact H.
  - eapply pushFragment_reads; eauto.
Qed.

Lemma splitChild_reads (st : split_state) (atoms : list atom) (child : value)
  (n : nat) (st' : split_state) (n' : nat) :
  state_reads st atoms →
  splitChild randomHex block tokens tokenToImageBlock st child n = (Ok st', n') →
  state_reads st' (atoms ++ read_child tokens tokenToImageBlock child).
Proof.
  intros Hst H. unfold splitChild in H. unfold read_child.
  destruct (is_text_span child) eqn:Hspan.
  - pose proof Hspan as Hs. unfold is_text_span in Hs.
    apply andb_true_iff in Hs as [[Ht Hs]%andb_true_iff Hx].
    rewrite Ht, Hs, Hx in H. cbn [negb orb] in H.
    eapply splitSpan_reads; eauto.
  - assert (negb (truthy child) || negb (str_eq (prop_opt child "_type") "span")
            || negb (is_string (prop_opt child "text")) = true) as E.
    { unfold is_text_span in Hspan.
      destruct (truthy child), (str_eq _ _), (is_string _); simpl in *; congruence. }
    rewrite E in H. kinv H.
    pose proof (ensureKey_truthy _ _ _ _ _ Hstep) as Htr. apply ensureKey_ok in Hstep.
    destruct Hst as [Hc Hr]. split; cbn [push_child fst snd].
    + apply Forall_app; split; [assumption | constructor; [assumption | constructor]].
    + unfold read_state, push_child. cbn [fst snd cur_children].
      rewrite flat_map_app. cbn [flat_map].
      rewrite app_nil_r, (read_kept child a Hspan Hstep).
      rewrite List.app_assoc, (content_app atoms), <- Hr, <- content_app. reflexivity.
Qed.

Lemma children_read (children : list value) :
  ∀ (st : split_state) (atoms : list atom) (n : nat) (st' : split_state) (n' : nat),
    state_reads st atoms →
    kfoldM (splitChild randomHex block tokens tokenToImageBlock) children st n
    = (Ok st', n') →
    state_reads st' (atoms ++ flat_map (read_child tokens tokenToImageBlock) children).
Proof.
  induction children as [|c cs IH]; intros st atoms n st' n' Hst H; simpl in H; kinv H.
  - now rewrite app_nil_r.
  - eapply IH in H; [|eapply splitChild_reads; eauto].
    cbn [flat_map]. now rewrite List.app_assoc.
Qed.

Lemma splitBlock_reads (n : nat) (out : list value) (n' : nat) :
  is_text_block block = true →
  splitBlockByTokensPreserveMarks randomHex block tokens tokenToImageBlock n
  = (Ok out, n') →
  content (read_plain out) = content (read tokens tokenToImageBlock block).
Proof.
  intros Hb H. unfold splitBlockByTokensPreserveMarks in H. kinv H.
  apply klift_ok in Hstep0 as [Hit _]. apply newCurrent_ok in Hstep.
  unfold read. rewrite Hb. unfold is_text_block in Hb.
  apply andb_true_iff in Hb as [_ Harr].
  destruct (prop_opt block "children") as [| | | | |xs| |]; try discriminate.
  injection Hit as <-.
  assert (state_reads ([], a) []) as Hst.
  { split; cbn [fst snd]; [rewrite Hstep; constructor|].
    unfold read_state. cbn [fst snd]. now rewrite Hstep. }
  eapply children_read in Hstep1; eauto.
  eapply flush_reads in Hstep2 as [[_ Hr] Hcur]; eauto.
  unfold read_state in Hr. rewrite Hcur in Hr. cbn [flat_map] in Hr.
  rewrite app_nil_r in Hr. exact Hr.
Qed.

End Split.


(** *** The two ways of reading agree *)

Lemma find_app_l {A} (f : A → bool) (l1 l2 : list A) (x : A) :
  find f l1 = Some x → find f (l1 ++ l2) = Some x.
Proof.
  induction l1 as [|y l1 IH]; [discriminate|]. cbn. destruct (f y); auto.
Qed.

Lemma find_app_r {A} (f : A → bool) (l1 l2 : list A) :
  find f l1 = None → find f (l1 ++ l2) = find f l2.
Proof.
  induction l1 as [|y l1 IH]; [reflexivity|]. cbn. destruct (f y); [discriminate | auto].
Qed.

Lemma find_agree {A} (f g : A → bool) (l : list A) :
  (∀ x, In x l → f x = g x) → find f l = find g l.
Proof.
  induction l as [|y l IH]; [reflexivity|]. intros H. cbn.
  rewrite (H y) by now left. destruct (g y); [reflexivity|]. apply IH.
  intros x Hx. apply H. now right.
Qed.

(** The token whose first occurrence is at [i]. *)
Definition at_index (text : string) (i : nat) (t : string) : bool :=
  match indexOf text t with Some j => Nat.eqb j i | None => false end.

(** Of the tokens that come first in the text, the search takes the first
    of the list. *)
Definition first_ok (text : string) (seen : list string) (acc : option (nat * string))
  : Prop :=
  match acc with
  | None => True
  | Some (i, t) => find (at_index text i) seen = Some t
  end.

Lemma nearestStep_first (text : string) (seen : list string) acc (t : string) :
  nearest_ok text seen acc → first_ok text seen acc →
  first_ok text (seen ++ [t]) (nearestStep text acc t).
Proof.
  unfold nearestStep. intros Hok Hf.
  assert (∀ idx, indexOf text t = Some idx →
                 find (at_index text idx) seen = None →
                 find (at_index text idx) (seen ++ [t]) = Some t) as Hnew.
  { intros idx Ht Hnone. rewrite find_app_r by assumption. cbn. unfold at_index.
    now rewrite Ht, Nat.eqb_refl. }
  destruct (indexOf text t) as [idx|] eqn:Ht.
  - destruct acc as [[i t0]|]; simpl in *.
    + destruct Hok as (Hin & Hi & Hmin).
      destruct (Nat.ltb_spec idx i) as [Hlt|Hge]; simpl.
      * apply Hnew; [reflexivity|].
        destruct (find (at_index text idx) seen) as [x|] eqn:E; [|reflexivity].
        apply find_some in E as [Hx E]. unfold at_index in E.
        destruct (indexOf text x) as [j|] eqn:Hj; [|discriminate].
        apply Nat.eqb_eq in E. subst j. specialize (Hmin _ _ Hx Hj). lia.
      * now apply find_app_l.
    + apply Hnew; [reflexivity|].
      destruct (find (at_index text idx) seen) as [x|] eqn:E; [|reflexivity].
      apply find_some in E as [Hx E]. unfold at_index in E.
      rewrite (Hok _ Hx) in E. discriminate.
  - destruct acc as [[i t0]|]; simpl in *; [now apply find_app_l | exact I].
Qed.

Lemma fold_nearest_first (text : string) (tokens : list string) :
  ∀ seen acc,
    nearest_ok text seen acc → first_ok text seen acc →
    first_ok text (seen ++ tokens) (fold_left (nearestStep text) tokens acc).
Proof.
  induction tokens as [|t tokens IH]; intros seen acc Hok Hf; simpl.
  - now rewrite app_nil_r.
  - replace (seen ++ t :: tokens) with ((seen ++ [t]) ++ tokens)
      by (now rewrite <- List.app_assoc).
    apply IH; [now apply nearestStep_ok | now apply nearestStep_first].
Qed.

Lemma findNearest_first (tokens : list string) (text : string) :
  first_ok text tokens (findNearest tokens text).
Proof. apply (fold_nearest_first text tokens [] None); [intros t [] | exact I]. Qed.

(** A token at the start of what is left of the text after [k] characters
    occurs in the text at [k]. *)
Lemma prefix_at (t text : string) (k : nat) :
  nonempty t = true → String.prefix t (drop k text) = true →
  ∃ a b, text = a +:+ t +:+ b ∧ len a = k.
Proof.
  intros Hne Hp. apply prefix_iff in Hp as [r Hr].
  exists (take k text), r. split; [now rewrite <- Hr, take_drop|].
  apply len_take. apply nonempty_len in Hne.
  pose proof (len_drop k text) as Hl. rewrite Hr, len_app in Hl. lia.
Qed.

Lemma drop_take_rest (i : nat) (text t after : string) :
  text = take i text +:+ t +:+ after → i + len t <= len text →
  drop i text = t +:+ after.
Proof.
  intros Hs Hb. rewrite Hs at 1.
  rewrite <- (len_take i text) at 1 by lia. apply drop_app_len.
Qed.

(** The text before a first character with its rest. *)
Definition prepend (acc : string) (atoms : list atom) : list atom :=
  match atoms with
  | AText s :: r => AText (acc +:+ s) :: r
  | _ => atoms
  end.

Section Cut.
Variables (tokens : list string) (tokenToImageBlock : fields).
Hypothesis tokens_nonempty : nonempty_tokens tokens.

Lemma token_here_in (text t : string) :
  token_here tokens text = Some t →
  In t tokens ∧ nonempty t = true ∧ String.prefix t text = true.
Proof.
  intros H. apply find_some in H as [Hin [H1 H2]%andb_true_iff]. auto.
Qed.

Lemma cut_to_first (pre : string) :
  ∀ rest acc,
    (∀ k, k < len pre → token_here tokens (drop k (pre +:+ rest)) = None) →
    cut tokens tokenToImageBlock (pre +:+ rest) 0 acc
    = cut tokens tokenToImageBlock rest 0 (acc +:+ pre).
Proof.
  induction pre as [|c pre IH]; intros rest acc H.
  - now rewrite sapp_empty_l, sapp_empty_r.
  - rewrite sapp_cons.
    pose proof (H 0 ltac:(cbn; lia)) as H0. cbn [drop] in H0. rewrite sapp_cons in H0.
    cbn [cut]. rewrite H0, IH.
    + now rewrite sapp_assoc, sapp_cons, sapp_empty_l.
    + intros k Hk. specialize (H (S k)). cbn [drop] in H. rewrite sapp_cons in H.
      apply H. cbn. unfold len in *. lia.
Qed.

Lemma cut_skip (a : string) :
  ∀ rest acc,
    cut tokens tokenToImageBlock (a +:+ rest) (len a) acc
    = cut tokens tokenToImageBlock rest 0 acc.
Proof.
  induction a as [|c a IH]; intros rest acc; [now rewrite sapp_empty_l|].
  rewrite sapp_cons. cbn [cut len String.length]. apply IH.
Qed.

Lemma scan_head (fuel : nat) (text : string) :
  ∃ s r, scan (S fuel) tokens tokenToImageBlock text = AText s :: r.
Proof. cbn [scan]. destruct (nearestToken tokens text) as [[i t]|]; eauto. Qed.

(** Going through the text character by character meets what the search
    of the splitter finds. *)
Lemma cut_scan (fuel : nat) :
  ∀ text acc,
    len text < fuel →
    cut tokens tokenToImageBlock text 0 acc
    = prepend acc (scan fuel tokens tokenToImageBlock text).
Proof.
  induction fuel as [|fuel IH]; intros text acc Hlen; [lia|]. cbn [scan].
  destruct (nearestToken tokens text) as [[i t]|] eqn:Hnear.
  - assert (find (at_index text i) tokens = Some t) as Hfirst.
    { pose proof (findNearest_first tokens text) as Hf. unfold nearestToken in Hnear.
      destruct (findNearest tokens text) as [[i0 t0]|]; [|discriminate].
      destruct (nonempty t0); [|discriminate]. now injection Hnear as <- <-. }
    apply nearestToken_some in Hnear as (Hin & Hne & Hi & Hmin).
    destruct (indexOf_split _ _ _ Hi) as [Hsplit Hbound].
    pose proof (drop_take_rest _ _ _ _ Hsplit Hbound) as Hdrop.
    cbn [prepend]. rewrite <- (take_drop i text) at 1. rewrite cut_to_first.
    2:{ intros k Hk. rewrite take_drop.
        destruct (token_here tokens (drop k text)) as [t'|] eqn:E; [|reflexivity].
        apply token_here_in in E as (Hin' & Hne' & Hp).
        destruct (prefix_at _ _ _ Hne' Hp) as (a & b & Hs & Ha).
        destruct (indexOf text t') as [j|] eqn:Hj.
        - pose proof (indexOf_least _ _ _ _ _ Hj Hs) as Hle.
          specialize (Hmin _ _ Hin' Hj). pose proof (len_take_le i text). lia.
        - exfalso. now apply (indexOf_none _ _ a b Hj). }
    rewrite Hdrop.
    assert (token_here tokens (t +:+ drop (i + len t) text) = Some t) as Hhere.
    { unfold token_here. rewrite (find_agree _ (at_index text i)); [exact Hfirst|].
      intros t' Hin'. rewrite (tokens_nonempty _ Hin'). cbn [andb].
      rewrite <- Hdrop. unfold at_index.
      destruct (String.prefix t' (drop i text)) eqn:Hp.
      - destruct (prefix_at _ _ _ (tokens_nonempty _ Hin') Hp) as (a & b & Hs & Ha).
        destruct (indexOf text t') as [j|] eqn:Hj.
        + pose proof (indexOf_least _ _ _ _ _ Hj Hs) as Hle.
          specialize (Hmin _ _ Hin' Hj). symmetry. apply Nat.eqb_eq. lia.
        + exfalso. now apply (indexOf_none _ _ a b Hj).
      - destruct (indexOf text t') as [j|] eqn:Hj; [|reflexivity].
        destruct (Nat.eqb_spec j i) as [->|]; [|reflexivity].
        destruct (indexOf_split _ _ _ Hj) as [Hs Hb].
        rewrite (drop_take_rest _ _ _ _ Hs Hb) in Hp.
        assert (String.prefix t' (t' +:+ drop (i + len t') text) = true) as Hx
          by (apply prefix_iff; eauto).
        congruence. }
    destruct t as [|c t']; [discriminate|].
    rewrite sapp_cons in *. cbn [cut]. rewrite Hhere.
    change (len (String c t') - 1) with (len t' - 0). rewrite Nat.sub_0_r, cut_skip.
    f_equal. f_equal.
    assert (len (drop (i + len (String c t')) text) < fuel) as Hless.
    { rewrite len_drop. unfold len in *. cbn [String.length] in *. lia. }
    rewrite (IH _ "" Hless). destruct fuel as [|fuel']; [lia|].
    destruct (scan_head fuel' (drop (i + len (String c t')) text)) as (x & r & ->).
    reflexivity.
  - cbn [prepend]. rewrite <- (sapp_empty_r text) at 1. rewrite cut_to_first; [reflexivity|].
    intros k Hk. rewrite sapp_empty_r.
    destruct (token_here tokens (drop k text)) as [t'|] eqn:E; [|reflexivity].
    apply token_here_in in E as (Hin' & Hne' & Hp).
    destruct (prefix_at _ _ _ Hne' Hp) as (a & b & Hs & Ha).
    pose proof (nearestToken_none _ _ tokens_nonempty Hnear t' Hin') as Hfree.
    assert (includes text t' = true) by (apply includes_iff; eauto). congruence.
Qed.

Lemma expect_child_read (c : value) :
  expect_child tokens tokenToImageBlock c = read_child tokens tokenToImageBlock c.
Proof.
  unfold expect_child, read_child. destruct (is_text_span c); [|reflexivity].
  rewrite (cut_scan (S (len (text_or_empty c)))) by lia.
  destruct (scan_head (len (text_or_empty c)) (text_or_empty c)) as (x & r & ->).
  reflexivity.
Qed.

Lemma find_token_only (b : value) :
  is_text_block b = true →
  find (fun t => isTokenOnlyBlock b t) tokens
  = if existsb (String.eqb (trim (span_text b))) tokens
    then Some (trim (span_text b)) else None.
Proof.
  intros [Hb Harr]%andb_true_iff.
  assert (∀ t, isTokenOnlyBlock b t = String.eqb (trim (span_text b)) t) as Hiso.
  { intros t. unfold isTokenOnlyBlock. now rewrite Hb, Harr. }
  induction tokens as [|t ts IH]; [reflexivity|].
  cbn [find existsb]. rewrite Hiso.
  destruct (String.eqb_spec (trim (span_text b)) t) as [->|Hne]; [reflexivity|].
  cbn [orb]. apply IH. intros t' Ht'. apply tokens_nonempty. now right.
Qed.

(** The token a block is taken for by the splitter is the token it is. *)
Lemma alone_token_only (b : value) :
  is_text_block b = true → alone tokens b = token_only tokens b.
Proof.
  intros Hb. unfold alone, token_only. rewrite (find_token_only b Hb).
  destruct (existsb (String.eqb (trim (span_text b))) tokens) eqn:E.
  - rewrite andb_true_r. reflexivity.
  - now rewrite andb_false_r.
Qed.

Lemma token_only_block (b : value) (t : string) :
  token_only tokens b = Some t → is_text_block b = true.
Proof.
  unfold token_only. destruct (find _ tokens) as [t0|] eqn:E; [|discriminate].
  intros _. apply find_some in E as [_ E]. unfold isTokenOnlyBlock, is_text_block in *.
  destruct (str_eq (prop_opt b "_type") "block"); [|discriminate].
  now destruct (isArray (prop_opt b "children")).
Qed.

(** Where the splitter takes the block for no token, the expectation is
    what the search reads. *)
Lemma expect_read (b : value) :
  token_only tokens b = None →
  expect tokens tokenToImageBlock b = read tokens tokenToImageBlock b.
Proof.
  intros H. unfold expect, read. destruct (is_text_block b) eqn:Hb; [|reflexivity].
  rewrite (alone_token_only b Hb), H.
  induction (elems (prop_opt b "children")) as [|c cs IH]; [reflexivity|].
  cbn [flat_map]. now rewrite expect_child_read, IH.
Qed.

Lemma expect_alone (b : value) (t : string) :
  token_only tokens b = Some t →
  expect tokens tokenToImageBlock b = [image_of tokenToImageBlock t].
Proof.
  intros H. unfold expect. rewrite (token_only_block b t H).
  now rewrite (alone_token_only b (token_only_block b t H)), H.
Qed.

End Cut.

Lemma read_plain_stands (blocks : list value) : read_plain blocks = as_it_stands blocks.
Proof.
  unfold read_plain, read_all, as_it_stands.
  induction blocks as [|b bs IH]; [reflexivity|]. cbn [flat_map]. rewrite IH.
  apply (f_equal (fun x => x ++ flat_map stand bs)).
  unfold read, stand. destruct (is_text_block b); [|reflexivity].
  induction (elems (prop_opt b "children")) as [|c cs IHc]; [reflexivity|].
  cbn [flat_map]. rewrite IHc. apply (f_equal (fun x => x ++ flat_map stand_child cs)).
  unfold read_child, stand_child. now destruct (is_text_span c).
Qed.

(** *** All the blocks *)

Section Replace.
Variable randomHex : nat → string.
Variables (tokens : list string) (tokenToImageBlock : fields).
Hypothesis images_plain :
  ∀ t, In t tokens → is_text_block (lookup_field t tokenToImageBlock) = false.
Hypothesis tokens_nonempty : nonempty_tokens tokens.

(** A block without token reads the same with and without the tokens. *)
Lemma unchanged_reads (b : value) :
  is_block b = true → blockContainsAnyToken b tokens = false →
  read tokens tokenToImageBlock b = read [] [] b.
Proof.
  intros Hb Hc. unfold read. destruct (is_text_block b); [|reflexivity].
  pose proof (unchanged_clean tokens b Hb Hc) as Hclean. unfold clean_block in Hclean.
  induction (elems (prop_opt b "children")) as [|c cs IH]; [reflexivity|].
  cbn [flat_map]. f_equal.
  - unfold read_child. destruct (is_text_span c) eqn:Hs; [|reflexivity].
    cbn [scan]. rewrite nearest_none_in; [reflexivity|].
    apply Hclean; [now left | assumption].
  - apply IH. intros c' Hc'. apply Hclean. now right.
Qed.

Lemma replaceBlock_reads (b : value) (n : nat) (r : list value) (n' : nat) :
  replaceBlock randomHex tokens tokenToImageBlock b n = (Ok r, n') →
  content (read_plain r) = content (expect tokens tokenToImageBlock b).
Proof.
  unfold replaceBlock. intros H.
  destruct (str_eq (prop_opt b "_type") "block") eqn:Hb; cbn [negb] in H.
  - assert (token_only tokens b = None →
            ∀ n r n',
              (if blockContainsAnyToken b tokens
               then splitBlockByTokensPreserveMarks randomHex b tokens tokenToImageBlock
               else mret [b]) n = (Ok r, n') →
              content (read_plain r) = content (expect tokens tokenToImageBlock b)) as Hrest.
    { intros Hnone m r0 m' H0. rewrite (expect_read _ _ tokens_nonempty b Hnone).
      destruct (blockContainsAnyToken b tokens) eqn:Hc.
      - eapply splitBlock_reads; eauto.
        unfold blockContainsAnyToken in Hc. unfold is_text_block. rewrite Hb in *.
        cbn [negb orb andb] in *. now destruct (isArray (prop_opt b "children")).
      - kinv H0. unfold read_plain, read_all. cbn [flat_map].
        now rewrite app_nil_r, unchanged_reads. }
    unfold token_only in Hrest.
    destruct (find _ tokens) as [t|] eqn:Hf; [|eauto].
    destruct (nonempty t) eqn:Hn; [|eauto].
    kinv H. rewrite (expect_alone tokens tokenToImageBlock tokens_nonempty b t)
      by (unfold token_only; now rewrite Hf, Hn).
    unfold read_plain, read_all. cbn [flat_map].
    rewrite app_nil_r. unfold imageBlock.
    rewrite (read_item [] [] (lookup_field t tokenToImageBlock)); eauto.
    apply images_plain. now apply find_some in Hf as [Hf _].
  - kinv H. apply ensureKey_ok in Hstep.
    assert (is_text_block b = false) as Htb by (unfold is_text_block; now rewrite Hb).
    unfold read_plain, read_all. cbn [flat_map].
    rewrite app_nil_r, (read_item [] [] b a Htb Hstep). unfold expect. now rewrite Htb.
Qed.

Lemma expect_all_app (a b : list value) :
  expect_all tokens tokenToImageBlock (a ++ b)
  = expect_all tokens tokenToImageBlock a ++ expect_all tokens tokenToImageBlock b.
Proof. apply flat_map_app. Qed.

Lemma replace_fold_reads (pt : list value) :
  ∀ (acc : list value) (n : nat) (out : list value) (n' : nat),
    kfoldM (fun out block =>
              r ← replaceBlock randomHex tokens tokenToImageBlock block; mret (out ++ r))
           pt acc n = (Ok out, n') →
    content (read_plain out)
    = content (read_plain acc) ++ content (expect_all tokens tokenToImageBlock pt).
Proof.
  induction pt as [|b pt IH]; intros acc n out n' H; simpl in H; kinv H.
  - cbn. now rewrite app_nil_r.
  - kinv Hstep.
    apply IH in H. rewrite H.
    unfold read_plain at 1. rewrite read_all_app, content_app.
    cbn [expect_all flat_map]. rewrite (content_app (expect _ _ b)), List.app_assoc.
    do 2 f_equal. eapply replaceBlock_reads; eauto.
Qed.

End Replace.


(** *** The splitter returns *)

Lemma kbind_total {S A B} (m : ST S A) (f : A → ST S B) (n : S) :
  (∃ a n1, m n = (Ok a, n1) ∧ ∃ b n2, f a n1 = (Ok b, n2)) →
  ∃ b n2, (m ≫= f) n = (Ok b, n2).
Proof.
  intros (a & n1 & E & b & n2 & F). exists b, n2.
  unfold mbind, ST_bind, kbind. now rewrite E.
Qed.

Lemma prop_defined (v : value) (k : string) :
  defined v = true → prop v k = Ok (prop_opt v k).
Proof. destruct v; simpl; try discriminate; reflexivity. Qed.

Section Total.
Variable randomHex : nat → string.
Variables (block : value) (tokens : list string) (tokenToImageBlock : fields).
Hypothesis block_defined : defined block = true.

Lemma newCurrent_total (n : nat) :
  ∃ cur n', newCurrent randomHex block n = (Ok cur, n').
Proof.
  unfold newCurrent. apply kbind_total. do 2 eexists. split; [reflexivity|].
  apply kbind_total. rewrite (prop_defined _ _ block_defined).
  do 2 eexists. split; [reflexivity|]. do 2 eexists. reflexivity.
Qed.

Lemma flushCurrent_total (st : split_state) (n : nat) :
  ∃ st' n', flushCurrent randomHex block st n = (Ok st', n').
Proof.
  unfold flushCurrent. apply kbind_total.
  destruct (newCurrent_total n) as (cur & n1 & E).
  exists cur, n1. split; [exact E|]. do 2 eexists. reflexivity.
Qed.

Lemma pushFragment_total (c : value) (text : string) (st : split_state) (n : nat) :
  ∃ st' n', pushFragment randomHex c text st n = (Ok st', n').
Proof.
  unfold pushFragment. destruct (Nat.ltb 0 (len text)).
  - apply kbind_total. do 2 eexists. split; [reflexivity|]. do 2 eexists. reflexivity.
  - do 2 eexists. reflexivity.
Qed.

(** The loop over a span ends: every round takes a token off the text. *)
Lemma splitSpan_total (c : value) (fuel : nat) :
  ∀ (text : string) (st : split_state) (n : nat),
    len text < fuel →
    ∃ st' n',
      splitSpan randomHex fuel block tokens tokenToImageBlock c text st n = (Ok st', n').
Proof.
  induction fuel as [|fuel IH]; intros text st n Hlen; [lia|].
  cbn [splitSpan]. destruct (nearestToken tokens text) as [[i t]|] eqn:Hnear.
  - apply nearestToken_some in Hnear as (_ & Hne & Hi & _).
    apply indexOf_split in Hi as [_ Hi]. apply nonempty_len in Hne.
    apply kbind_total. destruct (pushFragment_total c (take i text) st n) as (st1 & n1 & E1).
    exists st1, n1. split; [exact E1|].
    apply kbind_total. destruct (flushCurrent_total st1 n1) as (st2 & n2 & E2).
    exists st2, n2. split; [exact E2|].
    apply kbind_total. do 2 eexists. split; [reflexivity|].
    apply IH. rewrite len_drop. lia.
  - apply pushFragment_total.
Qed.

Lemma ensureKey_total (v : value) (n : nat) :
  defined v = true → ∃ v' n', ensureKey randomHex v n = (Ok v', n').
Proof.
  intros Hv. unfold ensureKey. apply kbind_total. rewrite (prop_defined _ _ Hv).
  do 2 eexists. split; [reflexivity|].
  destruct (truthy (prop_opt v "_key")).
  - do 2 eexists. reflexivity.
  - apply kbind_total. do 2 eexists. split; [reflexivity|]. do 2 eexists. reflexivity.
Qed.

Lemma splitChild_total (st : split_state) (child : value) (n : nat) :
  defined child = true →
  ∃ st' n',
    splitChild randomHex block tokens tokenToImageBlock st child n = (Ok st', n').
Proof.
  intros Hc. unfold splitChild. destruct (_ || _).
  - apply kbind_total. destruct (ensureKey_total child n Hc) as (c' & n1 & E).
    exists c', n1. split; [exact E|]. do 2 eexists. reflexivity.
  - apply splitSpan_total. lia.
Qed.

Lemma children_total (children : list value) :
  forallb defined children = true →
  ∀ (st : split_state) (n : nat),
    ∃ st' n',
      kfoldM (splitChild randomHex block tokens tokenToImageBlock) children st n
      = (Ok st', n').
Proof.
  induction children as [|c cs IH]; intros H st n; cbn [kfoldM].
  - do 2 eexists. reflexivity.
  - cbn [forallb] in H. apply andb_true_iff in H as [Hc Hcs].
    apply kbind_total. destruct (splitChild_total st c n Hc) as (st1 & n1 & E).
    exists st1, n1. split; [exact E | now apply IH].
Qed.

Lemma splitBlock_total (n : nat) :
  isArray (prop_opt block "children") = true →
  forallb defined (elems (prop_opt block "children")) = true →
  ∃ out n',
    splitBlockByTokensPreserveMarks randomHex block tokens tokenToImageBlock n
    = (Ok out, n').
Proof.
  intros Harr Hdef. unfold splitBlockByTokensPreserveMarks.
  destruct (prop_opt block "children") as [| | | | |xs| |]; try discriminate.
  apply kbind_total. destruct (newCurrent_total n) as (cur & n1 & E1).
  exists cur, n1. split; [exact E1|].
  apply kbind_total. do 2 eexists. split; [reflexivity|].
  apply kbind_total. destruct (children_total xs Hdef ([], cur) n1) as (st & n2 & E2).
  exists st, n2. split; [exact E2|].
  apply kbind_total. destruct (flushCurrent_total st n2) as (st' & n3 & E3).
  exists st', n3. split; [exact E3|]. do 2 eexists. reflexivity.
Qed.

End Total.

Lemma replaceBlock_total (randomHex : nat → string) (tokens : list string)
  (tokenToImageBlock : fields) (b : value) (n : nat) :
  sound b = true →
  ∃ r n', replaceBlock randomHex tokens tokenToImageBlock b n = (Ok r, n').
Proof.
  intros [Hb Hc]%andb_true_iff. unfold replaceBlock.
  destruct (str_eq (prop_opt b "_type") "block") eqn:Ht; cbn [negb].
  - assert (∃ r n',
              (if blockContainsAnyToken b tokens
               then splitBlockByTokensPreserveMarks randomHex b tokens tokenToImageBlock
               else mret [b]) n = (Ok r, n')) as Hrest.
    { destruct (blockContainsAnyToken b tokens) eqn:Hany.
      - apply splitBlock_total; try assumption.
        unfold blockContainsAnyToken in Hany. rewrite Ht in Hany. cbn [negb orb] in Hany.
        now destruct (isArray (prop_opt b "children")).
      - do 2 eexists. reflexivity. }
    destruct (find _ tokens) as [t|]; [|exact Hrest].
    destruct (nonempty t); [|exact Hrest].
    apply kbind_total. do 2 eexists. split; [reflexivity|]. do 2 eexists. reflexivity.
  - apply kbind_total. destruct (ensureKey_total randomHex b n Hb) as (b' & n1 & E).
    exists b', n1. split; [exact E|]. do 2 eexists. reflexivity.
Qed.

Lemma replace_fold_total (randomHex : nat → string) (tokens : list string)
  (tokenToImageBlock : fields) (pt : list value) :
  forallb sound pt = true →
  ∀ (acc : list value) (n : nat),
    ∃ out n',
      kfoldM (fun out block =>
                r ← replaceBlock randomHex tokens tokenToImageBlock block;
                mret (out ++ r))
             pt acc n = (Ok out, n').
Proof.
  induction pt as [|b pt IH]; intros H acc n; cbn [kfoldM].
  - do 2 eexists. reflexivity.
  - cbn [forallb] in H. apply andb_true_iff in H as [Hb Hpt].
    apply kbind_total.
    destruct (replaceBlock_total randomHex tokens tokenToImageBlock b n Hb) as (r & n1 & E).
    exists (acc ++ r), n1. split; [|now apply IH].
    unfold mbind, ST_bind, kbind. now rewrite E.
Qed.


(** *** The image blocks of the result *)

Lemma images_read_app (a b : list atom) :
  images_read (a ++ b) = images_read a ++ images_read b.
Proof. apply flat_map_app. Qed.

Lemma images_read_content (atoms : list atom) :
  images_read (content atoms) = images_read atoms.
Proof.
  induction atoms as [|a atoms IH]; [reflexivity|].
  cbn [content List.filter]. destruct a as [s|fs|fs]; cbn [significant].
  - destruct (Nat.ltb 0 _); cbn [images_read flat_map]; exact IH.
  - destruct (negb _); cbn [images_read flat_map]; exact IH.
  - cbn [images_read flat_map]. f_equal. exact IH.
Qed.

Lemma images_read_children (xs : list value) :
  images_read (flat_map (read_child [] []) xs) = [].
Proof.
  induction xs as [|c xs IH]; [reflexivity|].
  cbn [flat_map]. rewrite images_read_app, IH. unfold read_child.
  now destruct (is_text_span c).
Qed.

Lemma type_but_key (b : value) :
  lookup_field "_type" (props_but_key b) = prop_opt b "_type".
Proof.
  unfold props_but_key. rewrite lookup_but_key by discriminate.
  destruct b; try reflexivity; cbn [spread prop_opt];
    now apply (lookup_index_from "_type" _ _ "_" "type").
Qed.

Lemma images_read_plain (blocks : list value) :
  images_read (read_plain blocks) = map props_but_key (image_blocks blocks).
Proof.
  induction blocks as [|b bs IH]; [reflexivity|].
  unfold read_plain, read_all in *. cbn [flat_map image_blocks List.filter].
  rewrite images_read_app, IH. unfold read.
  destruct (is_text_block b) eqn:Hb.
  - rewrite images_read_children. unfold is_text_block in Hb.
    apply andb_true_iff in Hb as [Hb _].
    destruct (prop_opt b "_type") as [| | | |s| | |]; try discriminate.
    cbn [str_eq] in *. apply String.eqb_eq in Hb as ->. reflexivity.
  - cbn [images_read flat_map]. rewrite type_but_key, app_nil_r.
    now destruct (str_eq (prop_opt b "_type") "image").
Qed.

(** *** The images of the tokens met *)

Section Met.
Variables (tokens : list string) (tokenToImageBlock : fields).
Hypothesis typed :
  ∀ t, In t tokens →
       str_eq (prop_opt (lookup_field t tokenToImageBlock) "_type") "image" = true.

Definition shown (t : string) : fields := props_but_key (lookup_field t tokenToImageBlock).

Lemma image_of_read (t : string) (atoms : list atom) :
  In t tokens →
  images_read (image_of tokenToImageBlock t :: atoms) = shown t :: images_read atoms.
Proof.
  intros Hin. unfold images_read, image_of. cbn [flat_map].
  now rewrite type_but_key, (typed t Hin).
Qed.

Lemma cut_images (text : string) :
  ∀ skip before,
    images_read (cut tokens tokenToImageBlock text skip before)
    = map shown (met tokens text skip).
Proof.
  induction text as [|c text IH]; intros skip before; cbn [cut met]; [reflexivity|].
  destruct skip as [|k]; [|apply IH].
  destruct (token_here tokens (String c text)) as [t|] eqn:E; [|apply IH].
  apply find_some in E as [Hin _].
  change (images_read (AText before :: ?l)) with (images_read l).
  rewrite (image_of_read t _ Hin), IH. reflexivity.
Qed.

Lemma alone_in (b : value) (t : string) : alone tokens b = Some t → In t tokens.
Proof.
  unfold alone. destruct (nonempty _ && existsb _ tokens) eqn:E; [|discriminate].
  intros [= <-]. apply andb_true_iff in E as [_ E].
  apply existsb_exists in E as (x & Hx & ->%String.eqb_eq). exact Hx.
Qed.

Lemma expect_images (b : value) :
  str_eq (prop_opt b "_type") "image" = false →
  images_read (expect tokens tokenToImageBlock b) = map shown (met_block tokens b).
Proof.
  intros Hb. unfold expect, met_block. destruct (is_text_block b).
  - destruct (alone tokens b) as [t|] eqn:E.
    + now rewrite (image_of_read t [] (alone_in b t E)).
    + induction (elems (prop_opt b "children")) as [|c cs IH]; [reflexivity|].
      cbn [flat_map]. rewrite images_read_app, map_app, IH. f_equal.
      unfold expect_child, met_child. destruct (is_text_span c); [apply cut_images|].
      reflexivity.
  - unfold images_read. cbn [flat_map]. now rewrite type_but_key, Hb.
Qed.

Lemma expect_all_images (blocks : list value) :
  image_blocks blocks = [] →
  images_read (expect_all tokens tokenToImageBlock blocks)
  = map shown (met_all tokens blocks).
Proof.
  induction blocks as [|b bs IH]; [reflexivity|].
  unfold image_blocks. cbn [List.filter].
  destruct (str_eq (prop_opt b "_type") "image") eqn:Hb; [discriminate|]. intros Hbs.
  unfold expect_all, met_all. cbn [flat_map].
  rewrite images_read_app, map_app, (expect_images b Hb). f_equal. now apply IH.
Qed.

End Met.

(** C1, as the splitter has it. On a block sequence whose items and children
    are defined, with a token map whose tokens are not empty and whose images
    are no text blocks, [replaceTokensWithImageBlocksPreserveMarks] returns,
    and what it returns reads from left to right as the given sequence does
    once (a) every text block whose text is one token, blanks around it
    aside, is replaced by the image of that token, and (b) in the text of
    every span of the other text blocks each token met, going through the
    text character by character, is replaced by its image: the same text
    pieces, children and items in the same order, blank text and spans
    without text aside. Its image blocks are in their order the image items
    of that reading. When the images of the map are image blocks and the
    sequence had none, they are the images of the tokens met, in the order in
    which they are met, one image block for each token met; so where the
    tokens met are the tokens of the map in its order, each once, there is
    one image block for each token of the map, in that order. *)
Theorem replace_keeps_order (randomHex : nat → string) (ptBlocks : list value)
  (tokenToImageBlock : fields) (n : nat) :
  forallb sound ptBlocks = true →
  images_no_text_blocks tokenToImageBlock = true →
  nonempty_tokens (object_keys tokenToImageBlock) →
  ∃ out n',
    replaceTokensWithImageBlocksPreserveMarks randomHex ptBlocks tokenToImageBlock n
    = (Ok out, n')
    ∧ content (as_it_stands out)
      = content (expect_all (object_keys tokenToImageBlock) tokenToImageBlock ptBlocks)
    ∧ map props_but_key (image_blocks out)
      = images_read (expect_all (object_keys tokenToImageBlock) tokenToImageBlock ptBlocks)
    ∧ (images_typed tokenToImageBlock = true →
       image_blocks ptBlocks = [] →
       map props_but_key (image_blocks out)
       = map (fun t => props_but_key (lookup_field t tokenToImageBlock))
             (met_all (object_keys tokenToImageBlock) ptBlocks)
       ∧ length (image_blocks out)
         = length (met_all (object_keys tokenToImageBlock) ptBlocks)
       ∧ (met_all (object_keys tokenToImageBlock) ptBlocks
          = object_keys tokenToImageBlock →
          map props_but_key (image_blocks out)
          = map (fun t => props_but_key (lookup_field t tokenToImageBlock))
                (object_keys tokenToImageBlock)
          ∧ length (image_blocks out) = length (object_keys tokenToImageBlock))).
Proof.
  intros Hsound Himg Hne. unfold replaceTokensWithImageBlocksPreserveMarks.
  destruct (replace_fold_total randomHex (object_keys tokenToImageBlock)
              tokenToImageBlock ptBlocks Hsound [] n) as (out & n' & Hrun).
  exists out, n'. split; [exact Hrun|].
  assert (content (read_plain out)
          = content (expect_all (object_keys tokenToImageBlock) tokenToImageBlock ptBlocks))
    as Hread.
  { eapply replace_fold_reads in Hrun; [exact Hrun | | exact Hne].
    intros t Ht. unfold images_no_text_blocks in Himg.
    rewrite forallb_forall in Himg. apply Himg in Ht. now destruct (is_text_block _). }
  assert (map props_but_key (image_blocks out)
          = images_read
              (expect_all (object_keys tokenToImageBlock) tokenToImageBlock ptBlocks))
    as Himages
    by now rewrite <- images_read_plain, <- images_read_content, Hread, images_read_content.
  split; [now rewrite <- read_plain_stands|]. split; [exact Himages|].
  intros Htyped Hnone. unfold images_typed in Htyped. rewrite forallb_forall in Htyped.
  assert (map props_but_key (image_blocks out)
          = map (fun t => props_but_key (lookup_field t tokenToImageBlock))
                (met_all (object_keys tokenToImageBlock) ptBlocks)) as Hmet.
  { rewrite Himages. now apply expect_all_images. }
  assert (length (image_blocks out)
          = length (met_all (object_keys tokenToImageBlock) ptBlocks)) as Hcount.
  { apply (f_equal (@length _)) in Hmet. now rewrite !length_map in Hmet. }
  split; [exact Hmet|]. split; [exact Hcount|].
  intros Hall. rewrite Hall in Hmet, Hcount. now split.
Qed.

(** The sample sequence: the token inside the bold link and the token alone
    in its paragraph each give one image block, in that order. *)
Lemma replace_keeps_order_witness :
  ∃ out n',
    replaceTokensWithImageBlocksPreserveMarks Samples.sampleHex
      PipelineSamples.mixedBlocks Samples.oneImage 0 = (Ok out, n')
    ∧ content (as_it_stands out)
      = content (expect_all (object_keys Samples.oneImage) Samples.oneImage
                   PipelineSamples.mixedBlocks)
    ∧ map props_but_key (image_blocks out)
      = images_read (expect_all (object_keys Samples.oneImage) Samples.oneImage
                       PipelineSamples.mixedBlocks)
    ∧ length (image_blocks out) = 2.
Proof.
  destruct (replace_keeps_order Samples.sampleHex PipelineSamples.mixedBlocks
              Samples.oneImage 0) as (out & n' & Hrun & Hread & Himages & Hmet).
  - reflexivity.
  - reflexivity.
  - intros t Ht. vm_compute in Ht. destruct Ht as [<-|[]]. reflexivity.
  - exists out, n'. repeat split; try assumption.
    destruct Hmet as (_ & Hcount & _); [reflexivity | reflexivity |].
    rewrite Hcount. reflexivity.
Defined.

(** With an empty token in the map the search of the splitter finds the empty
    token first and stops: the token in the bold link is met by the reader
    and not replaced. So the tokens have to be non-empty. *)
Example empty_token_stops_search :
  met_all (object_keys PipelineSamples.emptyTokenMap) [Samples.mixedBlock]
  = [Samples.token0]
  ∧ ∃ out n',
      replaceTokensWithImageBlocksPreserveMarks Samples.sampleHex
        [Samples.mixedBlock] PipelineSamples.emptyTokenMap 0 = (Ok out, n')
      ∧ image_blocks out = [].
Proof. split; [reflexivity|]. do 2 eexists. split; vm_compute; reflexivity. Qed.

(** C1 as stated fails: a text with one image reference that also holds
    the text of the first token gives two image blocks. *)
Lemma two_image_blocks_for_one_reference :
  length (Extract.images (Extract.extractInlineImages Samples.collidingMarkdown)) = 1
  ∧ ∃ out n',
      replaceTokensWithImageBlocksPreserveMarks Samples.sampleHex
        PipelineSamples.collidingBlocks PipelineSamples.collidingMap 0 = (Ok out, n')
      ∧ length (image_blocks out) = 2.
Proof. split; [reflexivity|]. do 2 eexists. split; vm_compute; reflexivity. Qed.

End ReadingFacts.

(* ------------------------------------------------------------------ *)
(** ** Two runs: the same document up to keys *)
(* ------------------------------------------------------------------ *)
Module TwoRunsFacts.
Import Str StrFacts JsFacts KFacts Splitter SplitterFacts.
Import Extract Importer PipelineFacts TwoRuns.

(** *** Values without their keys *)

Definition nokey (kv : string * value) : bool := negb (String.eqb (fst kv) "_key").
Definition deep (kv : string * value) : string * value := (fst kv, unkeyed (snd kv)).

(** The properties of a value, keys taken out. *)
Definition body_of (v : value) : fields := List.filter nokey (map deep (spread v)).

Lemma unkeyed_obj (fs : fields) : unkeyed (VObj fs) = VObj (body_of (VObj fs)).
Proof. reflexivity. Qed.

Lemma deep_set_field (f : string) (x : value) (fs : fields) :
  map deep (set_field f x fs) = set_field f (unkeyed x) (map deep fs).
Proof.
  induction fs as [|[k y] fs IH]; [reflexivity|].
  cbn [set_field map deep fst snd]. destruct (String.eqb k f); [reflexivity|].
  cbn [map deep fst snd]. now rewrite IH.
Qed.

Lemma nokey_cons (k : string) (v : value) (fs : fields) :
  List.filter nokey ((k, v) :: fs)
  = if String.eqb k "_key" then List.filter nokey fs else (k, v) :: List.filter nokey fs.
Proof. cbn [List.filter]. unfold nokey at 1. cbn [fst]. now destruct (String.eqb k "_key"). Qed.

Lemma nokey_set_key (x : value) (fs : fields) :
  List.filter nokey (set_field "_key" x fs) = List.filter nokey fs.
Proof.
  induction fs as [|[k y] fs IH]; [reflexivity|].
  cbn [set_field]. destruct (String.eqb k "_key") eqn:E.
  - now rewrite !nokey_cons, E.
  - now rewrite !nokey_cons, E, IH.
Qed.

Lemma nokey_set_other (f : string) (x : value) (fs : fields) :
  f ≠ "_key" →
  List.filter nokey (set_field f x fs) = set_field f x (List.filter nokey fs).
Proof.
  intros Hf. assert (String.eqb f "_key" = false) as Hf' by now apply String.eqb_neq.
  induction fs as [|[k y] fs IH].
  - cbn [set_field]. now rewrite nokey_cons, Hf'.
  - cbn [set_field]. destruct (String.eqb k f) eqn:E.
    + apply String.eqb_eq in E as ->. rewrite !nokey_cons, Hf'.
      cbn [set_field]. now rewrite String.eqb_refl.
    + rewrite !nokey_cons. destruct (String.eqb k "_key"); [exact IH|].
      cbn [set_field]. now rewrite E, IH.
Qed.

Lemma lookup_nokey (f : string) (fs : fields) :
  f ≠ "_key" → lookup_field f (List.filter nokey fs) = lookup_field f fs.
Proof.
  intros Hf. induction fs as [|[k x] fs IH]; [reflexivity|].
  rewrite nokey_cons. cbn [lookup_field].
  destruct (String.eqb k "_key") eqn:E.
  - apply String.eqb_eq in E as ->.
    destruct (String.eqb_spec "_key" f); [congruence | exact IH].
  - cbn [lookup_field]. now rewrite IH.
Qed.

Lemma lookup_deep (f : string) (fs : fields) :
  lookup_field f (map deep fs) = unkeyed (lookup_field f fs).
Proof.
  induction fs as [|[k x] fs IH]; [reflexivity|].
  cbn [map deep fst snd lookup_field]. now destruct (String.eqb k f).
Qed.

Lemma deep_index_from (i : nat) (xs : list value) :
  map deep (index_from i xs) = index_from i (map unkeyed xs).
Proof.
  revert i; induction xs as [|x xs IH]; intros i; [reflexivity|].
  cbn [index_from map deep fst snd]. now rewrite IH.
Qed.

(** Values alike have the same shape. *)
Lemma alike_shape (v1 v2 : value) :
  alike v1 v2 →
  match v1 with
  | VArr xs => ∃ ys, v2 = VArr ys ∧ map unkeyed xs = map unkeyed ys
  | VObj fs => ∃ gs, v2 = VObj gs ∧ body_of (VObj fs) = body_of (VObj gs)
  | _ => v2 = v1
  end.
Proof.
  unfold alike. intros H.
  destruct v1, v2; cbn in H; try discriminate; try (now symmetry);
    injection H as H; eauto.
Qed.

Lemma alike_refl (v : value) : alike v v.
Proof. reflexivity. Qed.

Lemma alike_body (v1 v2 : value) : alike v1 v2 → body_of v1 = body_of v2.
Proof.
  intros H. apply alike_shape in H.
  destruct v1; try (now subst).
  - destruct H as (ys & -> & H). unfold body_of. cbn [spread].
    now rewrite !deep_index_from, H.
  - now destruct H as (gs & -> & H).
Qed.

Lemma alike_prop (v1 v2 : value) (f : string) :
  f ≠ "_key" → alike v1 v2 → alike (prop_opt v1 f) (prop_opt v2 f).
Proof.
  intros Hf H. apply alike_shape in H.
  destruct v1; try (now subst).
  - now destruct H as (ys & -> & _).
  - destruct H as (gs & -> & H). unfold alike. cbn [prop_opt].
    rewrite <- (lookup_deep f fs), <- (lookup_deep f gs).
    rewrite <- (lookup_nokey f (map deep fs)), <- (lookup_nokey f (map deep gs))
      by assumption.
    unfold body_of in H. cbn [spread] in H. now rewrite H.
Qed.

Lemma alike_truthy (v1 v2 : value) : alike v1 v2 → truthy v1 = truthy v2.
Proof.
  intros H. apply alike_shape in H. destruct v1; try (now subst).
  - now destruct H as (ys & -> & _).
  - now destruct H as (gs & -> & _).
Qed.

Lemma alike_str_eq (v1 v2 : value) (s : string) : alike v1 v2 → str_eq v1 s = str_eq v2 s.
Proof.
  intros H. apply alike_shape in H. destruct v1; try (now subst).
  - now destruct H as (ys & -> & _).
  - now destruct H as (gs & -> & _).
Qed.

Lemma alike_is_string (v1 v2 : value) : alike v1 v2 → is_string v1 = is_string v2.
Proof.
  intros H. apply alike_shape in H. destruct v1; try (now subst).
  - now destruct H as (ys & -> & _).
  - now destruct H as (gs & -> & _).
Qed.

Lemma alike_isArray (v1 v2 : value) : alike v1 v2 → isArray v1 = isArray v2.
Proof.
  intros H. apply alike_shape in H. destruct v1; try (now subst).
  - now destruct H as (ys & -> & _).
  - now destruct H as (gs & -> & _).
Qed.

Lemma alike_defined (v1 v2 : value) (k : string) :
  alike v1 v2 → ∀ a1 a2, prop v1 k = Ok a1 → prop v2 k = Ok a2 → k ≠ "_key" → alike a1 a2.
Proof.
  intros H a1 a2 H1 H2 Hk. pose proof (alike_prop _ _ k Hk H) as Hp.
  destruct v1, v2; cbn in H1, H2; try discriminate;
    injection H1 as <-; injection H2 as <-; exact Hp.
Qed.

Lemma map_unkeyed_alike (xs ys : list value) :
  map unkeyed xs = map unkeyed ys ↔ Forall2 alike xs ys.
Proof.
  split.
  - revert ys; induction xs as [|x xs IH]; intros [|y ys] H; try discriminate.
    + constructor.
    + injection H as Hx H. constructor; [exact Hx | now apply IH].
  - induction 1 as [|x y xs ys Hxy _ IH]; [reflexivity|]. cbn. now rewrite Hxy, IH.
Qed.

Lemma alike_elems (v1 v2 : value) : alike v1 v2 → Forall2 alike (elems v1) (elems v2).
Proof.
  intros H. apply alike_shape in H. destruct v1; try (subst; cbn; apply map_unkeyed_alike; reflexivity).
  - destruct H as (ys & -> & H). now apply map_unkeyed_alike.
  - destruct H as (gs & -> & _). constructor.
Qed.

Lemma alike_arr (xs ys : list value) : Forall2 alike xs ys → alike (VArr xs) (VArr ys).
Proof. intros H. unfold alike. cbn. f_equal. now apply map_unkeyed_alike. Qed.


(** *** Building values alike *)

Lemma unkeyed_with_key (v key : value) :
  unkeyed (with_field v "_key" key) = VObj (body_of v).
Proof.
  unfold with_field, body_of. cbn [unkeyed]. fold deep. fold nokey.
  now rewrite deep_set_field, nokey_set_key.
Qed.

Lemma unkeyed_fragment (c : value) (k txt : string) :
  unkeyed (fragment c k txt) = VObj (set_field "text" (VStr txt) (body_of c)).
Proof.
  unfold fragment, body_of. cbn [unkeyed]. fold deep. fold nokey.
  rewrite !deep_set_field, nokey_set_other by discriminate.
  now rewrite nokey_set_key.
Qed.

Lemma alike_with_key (v1 v2 k1 k2 : value) :
  alike v1 v2 → alike (with_field v1 "_key" k1) (with_field v2 "_key" k2).
Proof. intros H. unfold alike. rewrite !unkeyed_with_key. f_equal. now apply alike_body. Qed.

Lemma alike_fragment (c1 c2 : value) (k1 k2 txt : string) :
  alike c1 c2 → alike (fragment c1 k1 txt) (fragment c2 k2 txt).
Proof. intros H. unfold alike. rewrite !unkeyed_fragment. do 2 f_equal. now apply alike_body. Qed.

Lemma alike_block_of (block1 block2 : value) (cur1 cur2 : current) :
  alike block1 block2 →
  Forall2 alike (cur_children cur1) (cur_children cur2) →
  alike (block_of block1 cur1) (block_of block2 cur2).
Proof.
  intros Hb Hc. unfold alike, block_of. cbn.
  pose proof (alike_prop _ _ "style" ltac:(discriminate) Hb) as Hs.
  pose proof (alike_prop _ _ "markDefs" ltac:(discriminate) Hb) as Hm.
  rewrite (alike_truthy _ _ Hs), (alike_isArray _ _ Hm).
  apply map_unkeyed_alike in Hc. rewrite Hc. unfold alike in Hs, Hm.
  destruct (truthy (prop_opt block2 "style")), (isArray (prop_opt block2 "markDefs"));
    now rewrite ?Hs, ?Hm.
Qed.

Lemma alike_assign_children (b1 b2 : value) (ch1 ch2 : list value) :
  isArray (prop_opt b1 "children") = true →
  alike b1 b2 → Forall2 alike ch1 ch2 →
  alike (assign b1 "children" (VArr ch1)) (assign b2 "children" (VArr ch2)).
Proof.
  intros Harr Hb Hc. pose proof (alike_shape _ _ Hb) as Hs.
  destruct b1 as [| | | | | |fs|]; try discriminate Harr.
  destruct Hs as (gs & -> & Hbody). unfold alike, assign. cbn [unkeyed].
  fold deep. fold nokey. rewrite !deep_set_field, !nokey_set_other by discriminate.
  unfold body_of in Hbody. cbn [spread] in Hbody. rewrite Hbody. cbn [unkeyed].
  apply map_unkeyed_alike in Hc. now rewrite Hc.
Qed.

(** A value to which [ensureKey] gave a key if it had none. *)
Lemma ensureKey_unkeyed (randomHex : nat → string) (v : value) (n : nat)
  (v' : value) (n' : nat) :
  ensureKey randomHex v n = (Ok v', n') → unkeyed v' = VObj (body_of v).
Proof.
  unfold ensureKey. intros H. kinv H. apply klift_ok in Hstep as [Hp _].
  destruct (truthy a) eqn:E; kinv H; [|apply unkeyed_with_key].
  destruct v; simpl in Hp; try discriminate; try (injection Hp as <-; discriminate).
  reflexivity.
Qed.

(** *** Two computations side by side *)

(** From states related by [I], whenever both computations return, their
    results are related by [R] and their states by [I] again. *)
Definition strel {S A B} (I : S → S → Prop) (R : A → B → Prop)
  (m1 : ST S A) (m2 : ST S B) : Prop :=
  ∀ s1 s2 a1 a2 s1' s2',
    I s1 s2 → m1 s1 = (Ok a1, s1') → m2 s2 = (Ok a2, s2') → R a1 a2 ∧ I s1' s2'.

Lemma strel_ret {S A B} (I : S → S → Prop) (R : A → B → Prop) (a1 : A) (a2 : B) :
  R a1 a2 → strel I R (mret a1) (mret a2).
Proof. intros H s1 s2 b1 b2 s1' s2' Hi H1 H2. kinv H1. kinv H2. auto. Qed.

Lemma strel_bind {S A1 A2 B1 B2} (I : S → S → Prop) (Q : A1 → A2 → Prop)
  (R : B1 → B2 → Prop) (m1 : ST S A1) (m2 : ST S A2)
  (f1 : A1 → ST S B1) (f2 : A2 → ST S B2) :
  strel I Q m1 m2 → (∀ a1 a2, Q a1 a2 → strel I R (f1 a1) (f2 a2)) →
  strel I R (m1 ≫= f1) (m2 ≫= f2).
Proof.
  intros Hm Hf s1 s2 b1 b2 s1' s2' Hi H1 H2.
  apply kbind_ok in H1 as (a1 & t1 & E1 & H1), H2 as (a2 & t2 & E2 & H2).
  destruct (Hm _ _ _ _ _ _ Hi E1 E2) as [Hq Hi'].
  exact (Hf _ _ Hq _ _ _ _ _ _ Hi' H1 H2).
Qed.

Lemma strel_throw_l {S A B} (I : S → S → Prop) (R : A → B → Prop) (e : exn)
  (m2 : ST S B) :
  strel I R (kthrow e) m2.
Proof. intros s1 s2 b1 b2 s1' s2' _ H1. discriminate. Qed.

Lemma strel_throw_r {S A B} (I : S → S → Prop) (R : A → B → Prop) (e : exn)
  (m1 : ST S A) :
  strel I R m1 (kthrow e).
Proof. intros s1 s2 b1 b2 s1' s2' _ _ H2. discriminate. Qed.

Lemma strel_klift {S A B} (I : S → S → Prop) (R : A → B → Prop)
  (r1 : result A) (r2 : result B) :
  (∀ a1 a2, r1 = Ok a1 → r2 = Ok a2 → R a1 a2) →
  strel I R (klift r1) (klift r2).
Proof.
  intros H s1 s2 b1 b2 s1' s2' Hi H1 H2.
  apply klift_ok in H1 as [-> ->], H2 as [-> ->]. auto.
Qed.

Lemma strel_weaken {S A B} (I : S → S → Prop) (Q R : A → B → Prop)
  (m1 : ST S A) (m2 : ST S B) :
  (∀ a1 a2, Q a1 a2 → R a1 a2) → strel I Q m1 m2 → strel I R m1 m2.
Proof.
  intros HQR Hm s1 s2 b1 b2 s1' s2' Hi H1 H2.
  destruct (Hm _ _ _ _ _ _ Hi H1 H2). auto.
Qed.

Lemma strel_kmapM {S A1 A2 B1 B2} (I : S → S → Prop) (Q : A1 → A2 → Prop)
  (R : B1 → B2 → Prop) (f1 : A1 → ST S B1) (f2 : A2 → ST S B2)
  (xs : list A1) (ys : list A2) :
  Forall2 Q xs ys → (∀ x y, Q x y → strel I R (f1 x) (f2 y)) →
  strel I (Forall2 R) (kmapM f1 xs) (kmapM f2 ys).
Proof.
  intros Hxy Hf. induction Hxy as [|x y xs ys Hq _ IH]; cbn [kmapM].
  - apply strel_ret. constructor.
  - eapply strel_bind; [apply Hf, Hq|]. intros b1 b2 Hb.
    eapply strel_bind; [apply IH|]. intros l1 l2 Hl.
    apply strel_ret. now constructor.
Qed.

Lemma strel_kfoldM {S A1 A2 T1 T2} (I : S → S → Prop) (Q : A1 → A2 → Prop)
  (R : T1 → T2 → Prop) (f1 : T1 → A1 → ST S T1) (f2 : T2 → A2 → ST S T2)
  (xs : list A1) (ys : list A2) :
  Forall2 Q xs ys →
  (∀ s1 s2 x y, R s1 s2 → Q x y → strel I R (f1 s1 x) (f2 s2 y)) →
  ∀ s1 s2, R s1 s2 → strel I R (kfoldM f1 xs s1) (kfoldM f2 ys s2).
Proof.
  intros Hxy Hf. induction Hxy as [|x y xs ys Hq _ IH]; intros s1 s2 Hs; cbn [kfoldM].
  - now apply strel_ret.
  - eapply strel_bind; [now apply Hf|]. intros t1 t2 Ht. now apply IH.
Qed.


(** *** What the splitter looks at does not depend on keys *)

Lemma alike_is_span (c1 c2 : value) : alike c1 c2 → is_span c1 = is_span c2.
Proof.
  intros H. unfold is_span.
  now rewrite (alike_truthy _ _ H),
    (alike_str_eq _ _ "span" (alike_prop _ _ "_type" ltac:(discriminate) H)).
Qed.

Lemma alike_is_text_span (c1 c2 : value) : alike c1 c2 → is_text_span c1 = is_text_span c2.
Proof.
  intros H. unfold is_text_span.
  now rewrite (alike_truthy _ _ H),
    (alike_str_eq _ _ "span" (alike_prop _ _ "_type" ltac:(discriminate) H)),
    (alike_is_string _ _ (alike_prop _ _ "text" ltac:(discriminate) H)).
Qed.

Lemma alike_text (c1 c2 : value) : alike c1 c2 → text_or_empty c1 = text_or_empty c2.
Proof.
  intros H. unfold text_or_empty.
  pose proof (alike_shape _ _ (alike_prop _ _ "text" ltac:(discriminate) H)) as Hs.
  destruct (prop_opt c1 "text"); try (now rewrite Hs).
  - now destruct Hs as (ys & -> & _).
  - now destruct Hs as (gs & -> & _).
Qed.

Lemma alike_meaningful (c1 c2 : value) :
  alike c1 c2 → meaningful_child c1 = meaningful_child c2.
Proof.
  intros H. unfold meaningful_child.
  rewrite (alike_truthy _ _ H),
    (alike_str_eq _ _ "span" (alike_prop _ _ "_type" ltac:(discriminate) H)).
  pose proof (alike_shape _ _ (alike_prop _ _ "text" ltac:(discriminate) H)) as Hs.
  destruct (prop_opt c1 "text"); try (now rewrite Hs).
  - now destruct Hs as (ys & -> & _).
  - now destruct Hs as (gs & -> & _).
Qed.

Lemma alike_texts (p : value → bool) (xs ys : list value) :
  (∀ c1 c2, alike c1 c2 → p c1 = p c2) →
  Forall2 alike xs ys →
  map text_or_empty (List.filter p xs) = map text_or_empty (List.filter p ys).
Proof.
  intros Hp. induction 1 as [|x y xs ys Hxy _ IH]; [reflexivity|].
  cbn [List.filter]. rewrite (Hp _ _ Hxy). destruct (p y); [|exact IH].
  cbn [map]. now rewrite (alike_text _ _ Hxy), IH.
Qed.

Lemma alike_existsb (p : value → bool) (xs ys : list value) :
  (∀ c1 c2, alike c1 c2 → p c1 = p c2) →
  Forall2 alike xs ys → existsb p xs = existsb p ys.
Proof.
  intros Hp. induction 1 as [|x y xs ys Hxy _ IH]; [reflexivity|].
  cbn [existsb]. now rewrite (Hp _ _ Hxy), IH.
Qed.

Lemma alike_children (b1 b2 : value) :
  alike b1 b2 →
  Forall2 alike (elems (prop_opt b1 "children")) (elems (prop_opt b2 "children")).
Proof. intros H. apply alike_elems, alike_prop; [discriminate | exact H]. Qed.

Lemma alike_token_only (b1 b2 : value) (t : string) :
  alike b1 b2 → isTokenOnlyBlock b1 t = isTokenOnlyBlock b2 t.
Proof.
  intros H. unfold isTokenOnlyBlock.
  rewrite (alike_str_eq _ _ "block" (alike_prop _ _ "_type" ltac:(discriminate) H)),
    (alike_isArray _ _ (alike_prop _ _ "children" ltac:(discriminate) H)).
  now rewrite (alike_texts is_span _ _ alike_is_span (alike_children _ _ H)).
Qed.

Lemma alike_contains (b1 b2 : value) (tokens : list string) :
  alike b1 b2 → blockContainsAnyToken b1 tokens = blockContainsAnyToken b2 tokens.
Proof.
  intros H. unfold blockContainsAnyToken.
  rewrite (alike_str_eq _ _ "block" (alike_prop _ _ "_type" ltac:(discriminate) H)),
    (alike_isArray _ _ (alike_prop _ _ "children" ltac:(discriminate) H)).
  now rewrite (alike_texts is_text_span _ _ alike_is_text_span (alike_children _ _ H)).
Qed.

Lemma find_same {A} (f g : A → bool) (l : list A) :
  (∀ x, f x = g x) → find f l = find g l.
Proof. intros H. induction l as [|x l IH]; [reflexivity|]. cbn. now rewrite H, IH. Qed.

Lemma alike_filter (p : value → bool) (xs ys : list value) :
  (∀ c1 c2, alike c1 c2 → p c1 = p c2) →
  Forall2 alike xs ys → Forall2 alike (List.filter p xs) (List.filter p ys).
Proof.
  intros Hp. induction 1 as [|x y xs ys Hxy _ IH]; [constructor|].
  cbn [List.filter]. rewrite (Hp _ _ Hxy). destruct (p y); [now constructor | exact IH].
Qed.

Lemma alike_supported (xs ys : list value) :
  Forall2 alike xs ys →
  Forall2 alike (filterUnsupportedBlocks xs) (filterUnsupportedBlocks ys).
Proof.
  intros H. unfold filterUnsupportedBlocks. apply alike_filter; [|exact H].
  intros c1 c2 Hc. f_equal. unfold UNSUPPORTED_BLOCK_TYPES. cbn [existsb].
  now rewrite (alike_str_eq _ _ _ (alike_prop _ _ "_type" ltac:(discriminate) Hc)).
Qed.

Lemma Forall2_refl_alike (xs : list value) : Forall2 alike xs xs.
Proof. induction xs; constructor; [reflexivity | assumption]. Qed.


(** *** The splitter on two random sources *)

Definition plain {S} (_ _ : S) : Prop := True.

Definition states_alike (st1 st2 : split_state) : Prop :=
  Forall2 alike (fst st1) (fst st2)
  ∧ Forall2 alike (cur_children (snd st1)) (cur_children (snd st2)).

Section Keys.
Variables randomHex1 randomHex2 : nat → string.
Variables (tokens : list string) (tokenToImageBlock : fields).

Lemma generateKey_rel :
  strel plain (fun _ _ => True) (generateKey randomHex1) (generateKey randomHex2).
Proof. intros s1 s2 a1 a2 s1' s2' _ _ _. now split. Qed.

Lemma ensureKey_rel (v1 v2 : value) :
  alike v1 v2 → strel plain alike (ensureKey randomHex1 v1) (ensureKey randomHex2 v2).
Proof.
  intros Hv s1 s2 a1 a2 s1' s2' _ H1 H2. split; [|exact I]. unfold alike.
  rewrite (ensureKey_unkeyed _ _ _ _ _ H1), (ensureKey_unkeyed _ _ _ _ _ H2).
  f_equal. now apply alike_body.
Qed.

Lemma flushCurrent_rel (block1 block2 : value) (st1 st2 : split_state) :
  alike block1 block2 → states_alike st1 st2 →
  strel plain states_alike (flushCurrent randomHex1 block1 st1)
    (flushCurrent randomHex2 block2 st2).
Proof.
  intros Hb [Hout Hcur] s1 s2 a1 a2 s1' s2' _ H1 H2. split; [|exact I].
  unfold flushCurrent in H1, H2. kinv H1. kinv H2.
  apply newCurrent_ok in Hstep, Hstep0. split; cbn [fst snd].
  - rewrite !ReadingFacts.meaningful_block_of.
    rewrite (alike_existsb meaningful_child _ _ alike_meaningful Hcur).
    destruct (existsb meaningful_child (cur_children (snd st2))); [|exact Hout].
    apply Forall2_app; [exact Hout|]. constructor; [|constructor].
    now apply alike_block_of.
  - rewrite Hstep, Hstep0. constructor.
Qed.

Lemma pushFragment_rel (c1 c2 : value) (text : string) (st1 st2 : split_state) :
  alike c1 c2 → states_alike st1 st2 →
  strel plain states_alike (pushFragment randomHex1 c1 text st1)
    (pushFragment randomHex2 c2 text st2).
Proof.
  intros Hc [Hout Hcur] s1 s2 a1 a2 s1' s2' _ H1 H2. split; [|exact I].
  unfold pushFragment in H1, H2. destruct (Nat.ltb 0 (len text)); kinv H1; kinv H2.
  - split; cbn [push_child fst snd cur_children]; [exact Hout|].
    apply Forall2_app; [exact Hcur|]. constructor; [|constructor].
    now apply alike_fragment.
  - now split.
Qed.

Lemma splitSpan_rel (block1 block2 c1 c2 : value) (fuel : nat) :
  alike block1 block2 → alike c1 c2 →
  ∀ (text : string) (st1 st2 : split_state),
    states_alike st1 st2 →
    strel plain states_alike
      (splitSpan randomHex1 fuel block1 tokens tokenToImageBlock c1 text st1)
      (splitSpan randomHex2 fuel block2 tokens tokenToImageBlock c2 text st2).
Proof.
  intros Hb Hc. induction fuel as [|fuel IH]; intros text st1 st2 Hst; cbn [splitSpan].
  - apply strel_throw_l.
  - destruct (nearestToken tokens text) as [[i t]|]; [|now apply pushFragment_rel].
    eapply strel_bind; [now apply pushFragment_rel|]. intros a1 a2 Ha.
    eapply strel_bind; [now apply flushCurrent_rel|]. intros b1 b2 [Hout Hcur].
    eapply strel_bind; [apply generateKey_rel|]. intros k1 k2 _.
    apply IH. split; cbn [push_out fst snd]; [|exact Hcur].
    apply Forall2_app; [exact Hout|]. constructor; [|constructor].
    apply alike_with_key, alike_refl.
Qed.

Lemma splitChild_rel (block1 block2 c1 c2 : value) (st1 st2 : split_state) :
  alike block1 block2 → alike c1 c2 → states_alike st1 st2 →
  strel plain states_alike
    (splitChild randomHex1 block1 tokens tokenToImageBlock st1 c1)
    (splitChild randomHex2 block2 tokens tokenToImageBlock st2 c2).
Proof.
  intros Hb Hc Hst. unfold splitChild.
  rewrite (alike_truthy _ _ Hc),
    (alike_str_eq _ _ "span" (alike_prop _ _ "_type" ltac:(discriminate) Hc)),
    (alike_is_string _ _ (alike_prop _ _ "text" ltac:(discriminate) Hc)),
    (alike_text _ _ Hc).
  destruct (_ || _).
  - eapply strel_bind; [now apply ensureKey_rel|]. intros a1 a2 Ha.
    apply strel_ret. destruct Hst as [Hout Hcur].
    split; cbn [push_child fst snd cur_children]; [exact Hout|].
    apply Forall2_app; [exact Hcur | now repeat constructor].
  - now apply splitSpan_rel.
Qed.

Lemma alike_iterate (v1 v2 : value) (xs ys : list value) :
  alike v1 v2 → iterate v1 = Ok xs → iterate v2 = Ok ys → Forall2 alike xs ys.
Proof.
  intros H H1 H2. apply alike_shape in H.
  destruct v1; try discriminate H1.
  - subst v2. cbn in H1, H2. injection H1 as <-. injection H2 as <-.
    apply Forall2_refl_alike.
  - destruct H as (zs & -> & H). cbn in H1, H2. injection H1 as <-. injection H2 as <-.
    now apply map_unkeyed_alike.
Qed.

Lemma splitBlock_rel (block1 block2 : value) :
  alike block1 block2 →
  strel plain (Forall2 alike)
    (splitBlockByTokensPreserveMarks randomHex1 block1 tokens tokenToImageBlock)
    (splitBlockByTokensPreserveMarks randomHex2 block2 tokens tokenToImageBlock).
Proof.
  intros Hb. unfold splitBlockByTokensPreserveMarks.
  eapply (strel_bind plain (fun c1 c2 => cur_children c1 = [] ∧ cur_children c2 = [])).
  { intros s1 s2 a1 a2 s1' s2' _ H1 H2. apply newCurrent_ok in H1, H2. now repeat split. }
  intros cur1 cur2 [Hc1 Hc2].
  eapply (strel_bind plain (Forall2 alike)).
  { apply strel_klift. intros xs ys. apply alike_iterate, alike_prop; [discriminate | exact Hb]. }
  intros xs ys Hxy.
  eapply (strel_bind plain states_alike).
  { eapply (strel_kfoldM plain alike states_alike); [exact Hxy | |].
    - intros st1 st2 x y Hst Hc. now apply splitChild_rel.
    - split; cbn [fst snd]; [constructor|]. rewrite Hc1, Hc2. constructor. }
  intros st1 st2 Hst.
  eapply strel_bind; [now apply flushCurrent_rel|]. intros t1 t2 [Hout _].
  now apply strel_ret.
Qed.

Lemma replaceBlock_rel (b1 b2 : value) :
  alike b1 b2 →
  strel plain (Forall2 alike)
    (replaceBlock randomHex1 tokens tokenToImageBlock b1)
    (replaceBlock randomHex2 tokens tokenToImageBlock b2).
Proof.
  intros Hb. unfold replaceBlock.
  rewrite (alike_str_eq _ _ "block" (alike_prop _ _ "_type" ltac:(discriminate) Hb)).
  destruct (negb _).
  - eapply strel_bind; [now apply ensureKey_rel|]. intros a1 a2 Ha.
    apply strel_ret. now repeat constructor.
  - rewrite (find_same _ (fun t => isTokenOnlyBlock b2 t) tokens)
      by (intros t; now apply alike_token_only).
    rewrite (alike_contains _ _ tokens Hb).
    assert (strel plain (Forall2 alike)
              (if blockContainsAnyToken b2 tokens
               then splitBlockByTokensPreserveMarks randomHex1 b1 tokens tokenToImageBlock
               else mret [b1])
              (if blockContainsAnyToken b2 tokens
               then splitBlockByTokensPreserveMarks randomHex2 b2 tokens tokenToImageBlock
               else mret [b2])) as Hrest.
    { destruct (blockContainsAnyToken b2 tokens); [now apply splitBlock_rel|].
      apply strel_ret. now repeat constructor. }
    destruct (find _ tokens) as [t|]; [|exact Hrest].
    destruct (nonempty t); [|exact Hrest].
    eapply strel_bind; [apply generateKey_rel|]. intros k1 k2 _.
    apply strel_ret. constructor; [|constructor]. apply alike_with_key, alike_refl.
Qed.

Lemma ensureKeys_rel (xs ys : list value) :
  Forall2 alike xs ys →
  strel plain (Forall2 alike) (ensureKeys randomHex1 xs) (ensureKeys randomHex2 ys).
Proof.
  intros Hxy. unfold ensureKeys.
  eapply (strel_kmapM plain alike alike); [exact Hxy|].
  intros b1 b2 Hb. eapply strel_bind; [now apply ensureKey_rel|]. intros a1 a2 Ha.
  rewrite <- (alike_isArray _ _ (alike_prop _ _ "children" ltac:(discriminate) Ha)).
  destruct (isArray (prop_opt a1 "children")) eqn:Harr; [|now apply strel_ret].
  eapply (strel_bind plain (Forall2 alike)).
  { eapply (strel_kmapM plain alike alike); [now apply alike_children|].
    intros c1 c2 Hc. now apply ensureKey_rel. }
  intros ch1 ch2 Hch. apply strel_ret. now apply alike_assign_children.
Qed.

End Keys.

Lemma replaceTokens_rel (randomHex1 randomHex2 : nat → string)
  (tokenToImageBlock : fields) (pt1 pt2 : list value) :
  Forall2 alike pt1 pt2 →
  strel plain (Forall2 alike)
    (replaceTokensWithImageBlocksPreserveMarks randomHex1 pt1 tokenToImageBlock)
    (replaceTokensWithImageBlocksPreserveMarks randomHex2 pt2 tokenToImageBlock).
Proof.
  intros Hpt. unfold replaceTokensWithImageBlocksPreserveMarks.
  eapply (strel_kfoldM plain alike (Forall2 alike)); [exact Hpt | |constructor].
  intros out1 out2 x y Hout Hxy.
  eapply strel_bind; [now apply replaceBlock_rel|]. intros r1 r2 Hr.
  apply strel_ret. now apply Forall2_app.
Qed.


(** *** What leaves the asset cache as it is *)

Definition keeps {A} (m : M A) : Prop := ∀ w, assetCache (snd (m w)) = assetCache w.

Lemma keeps_ret {A} (a : A) : keeps (mret a).
Proof. now intros w. Qed.

Lemma keeps_throw {A} (e : exn) : keeps (kthrow e : M A).
Proof. now intros w. Qed.

Lemma keeps_klift {A} (r : result A) : keeps (klift r : M A).
Proof. now intros w. Qed.

Lemma keeps_log (line : string) : keeps (log line).
Proof. now intros w. Qed.

Lemma keeps_perform (X : externals) (r : request) : keeps (perform X r).
Proof. now intros w. Qed.

Lemma keeps_liftK {A} (m : K A) : keeps (liftK m).
Proof. intros w. unfold liftK. now destruct (m (rng w)). Qed.

Lemma keeps_bind {A B} (m : M A) (f : A → M B) :
  keeps m → (∀ a, keeps (f a)) → keeps (m ≫= f).
Proof.
  intros Hm Hf w. unfold mbind, ST_bind, kbind. specialize (Hm w).
  destruct (m w) as [[a|e] w1]; cbn in *; [|exact Hm].
  now rewrite Hf.
Qed.

(** What an operation under the retry wrapper returns is what one of its
    attempts returned. *)
Lemma attempts_inv (P : value → Prop) (fn : M value) (maxRetries : nat)
  (baseDelay : Z) (context : string) :
  keeps fn → (∀ w a w', fn w = (Ok a, w') → P a) →
  ∀ (remaining attempt : nat) (w : world) (a : value) (w' : world),
    remaining + attempt = S maxRetries → attempt <= maxRetries →
    Retry.attempts (fun line => add_event (Log line)) (fun ms => add_event (Sleep ms))
      fn maxRetries baseDelay context remaining attempt w = (Ok a, w') →
    P a ∧ assetCache w' = assetCache w.
Proof.
  intros Hk HP. induction remaining as [|remaining IH]; intros attempt w a w' Hsum Hle H.
  - (* the loop is never left by its end: the last attempt returns or throws *)
    exfalso. lia.
  - cbn [Retry.attempts] in H. pose proof (Hk w) as Hw.
    destruct (fn w) as [[x|e] w1] eqn:Hfn; cbn in Hw.
    + injection H as <- <-. split; [eapply HP; eauto | exact Hw].
    + destruct (Nat.eqb attempt maxRetries) eqn:Hlast; cbn [orb] in H; [discriminate|].
      destruct (negb (Retry.isRetryable e)); [discriminate|].
      apply Nat.eqb_neq in Hlast.
      apply IH in H as [Ha Hc]; [|lia|lia]. split; [exact Ha|]. now rewrite Hc.
Qed.

Lemma withRetry_inv (P : value → Prop) (fn : M value) (context : string)
  (w : world) (a : value) (w' : world) :
  keeps fn → (∀ w a w', fn w = (Ok a, w') → P a) →
  withRetry fn context w = (Ok a, w') → P a ∧ assetCache w' = assetCache w.
Proof.
  intros Hk HP H. unfold withRetry, Retry.withRetry in H.
  eapply attempts_inv in H; eauto; lia.
Qed.

Lemma keeps_attempts (fn : M value) (maxRetries : nat) (baseDelay : Z) (context : string) :
  keeps fn →
  ∀ remaining attempt,
    keeps (Retry.attempts (fun line => add_event (Log line)) (fun ms => add_event (Sleep ms))
             fn maxRetries baseDelay context remaining attempt).
Proof.
  intros Hk. induction remaining as [|remaining IH]; intros attempt w; [reflexivity|].
  cbn [Retry.attempts]. pose proof (Hk w) as Hw.
  destruct (fn w) as [[x|e] w1]; cbn in Hw; [exact Hw|].
  destruct (_ || _); [exact Hw|]. now rewrite IH.
Qed.

Lemma keeps_withRetry (fn : M value) (context : string) :
  keeps fn → keeps (withRetry fn context).
Proof. intros Hk. unfold withRetry, Retry.withRetry. now apply keeps_attempts. Qed.

Lemma keeps_run {A} (m : M A) (w : world) (r : result A) (w' : world) :
  keeps m → m w = (r, w') → assetCache w' = assetCache w.
Proof. intros Hk H. specialize (Hk w). now rewrite H in Hk. Qed.

(** An answer the backend gave to a request. *)
Definition answered (X : externals) (r : request) (a : value) : Prop :=
  ∃ t, backend X t r = Ok a.

Lemma perform_answered (X : externals) (r : request) (w : world) (a : value) (w' : world) :
  perform X r w = (Ok a, w') → answered X r a.
Proof. unfold perform. intros [= H _]. now exists (trace w). Qed.

Lemma retried_answered (X : externals) (r : request) (context : string)
  (w : world) (a : value) (w' : world) :
  withRetry (perform X r) context w = (Ok a, w') →
  answered X r a ∧ assetCache w' = assetCache w.
Proof.
  apply (withRetry_inv (answered X r)); [apply keeps_perform|].
  intros; eapply perform_answered; eauto.
Qed.


(** *** The importer on two runs *)

Definition same_cache (w1 w2 : world) : Prop := assetCache w1 = assetCache w2.

(** Two computations that keep the cache are related whatever they return. *)
Lemma strel_keeps {A B} (m1 : M A) (m2 : M B) :
  keeps m1 → keeps m2 → strel same_cache (fun _ _ => True) m1 m2.
Proof.
  intros H1 H2 s1 s2 a1 a2 s1' s2' Hi E1 E2. split; [exact I|].
  unfold same_cache in *. specialize (H1 s1). specialize (H2 s2).
  rewrite E1 in H1. rewrite E2 in H2. cbn in *. congruence.
Qed.

Lemma liftK_rel {A B} (R : A → B → Prop) (m1 : K A) (m2 : K B) :
  strel plain R m1 m2 → strel same_cache R (liftK m1) (liftK m2).
Proof.
  intros H s1 s2 a1 a2 s1' s2' Hi E1 E2. unfold liftK in E1, E2.
  destruct (m1 (rng s1)) as [r1 n1] eqn:F1. destruct (m2 (rng s2)) as [r2 n2] eqn:F2.
  injection E1 as -> <-. injection E2 as -> <-.
  destruct (H _ _ _ _ _ _ I F1 F2) as [Hr _]. split; [exact Hr | exact Hi].
Qed.

Lemma Forall2_eq_same {A} (xs ys : list A) : Forall2 eq xs ys → xs = ys.
Proof. induction 1; congruence. Qed.

Lemma Forall2_eq_refl {A} (xs : list A) : Forall2 eq xs xs.
Proof. induction xs; constructor; auto. Qed.

Section Runs.
Variables X1 X2 : externals.
Variable cfg : config.
Hypothesis libraries : same_libraries X1 X2.
Hypothesis answers : same_answers X1 X2.
Hypothesis authors : same_authors cfg X1 X2.

Lemma answered_same (r : request) (a1 a2 : value) :
  stable r = true → answered X1 r a1 → answered X2 r a2 → a1 = a2.
Proof.
  intros Hr [t1 H1] [t2 H2]. rewrite (answers t1 t2 r Hr) in H1. congruence.
Qed.

Lemma perform_rel (r : request) :
  stable r = true → strel same_cache eq (perform X1 r) (perform X2 r).
Proof.
  intros Hr s1 s2 a1 a2 s1' s2' Hi E1 E2. split.
  - eapply answered_same; eauto using perform_answered.
  - unfold perform in E1, E2. injection E1 as _ <-. injection E2 as _ <-. exact Hi.
Qed.

Lemma retried_rel (r : request) (context1 context2 : string) :
  stable r = true →
  strel same_cache eq (withRetry (perform X1 r) context1) (withRetry (perform X2 r) context2).
Proof.
  intros Hr s1 s2 a1 a2 s1' s2' Hi E1 E2.
  apply retried_answered in E1 as [A1 C1], E2 as [A2 C2]. split.
  - eapply answered_same; eauto.
  - unfold same_cache in *. congruence.
Qed.

Lemma readFile_rel (path context : string) (encoding : option string) :
  strel same_cache eq (readFileWithContext X1 path context encoding)
    (readFileWithContext X2 path context encoding).
Proof.
  intros s1 s2 a1 a2 s1' s2' Hi E1 E2. unfold readFileWithContext in E1, E2.
  destruct (perform X1 _ s1) as [[v1|e1] t1] eqn:F1; [|discriminate].
  destruct (perform X2 _ s2) as [[v2|e2] t2] eqn:F2; [|discriminate].
  injection E1 as <- <-. injection E2 as <- <-.
  exact (perform_rel (ReadFile path encoding) eq_refl _ _ _ _ _ _ Hi F1 F2).
Qed.

Lemma cache_set_rel (path : string) (id : value) :
  strel same_cache (fun _ _ => True) (cache_set path id) (cache_set path id).
Proof.
  intros s1 s2 a1 a2 s1' s2' Hi E1 E2. unfold cache_set in E1, E2.
  injection E1 as _ <-. injection E2 as _ <-. split; [exact I|].
  unfold same_cache in *. cbn. now rewrite Hi.
Qed.

Lemma log_rel (line1 line2 : string) :
  strel same_cache (fun _ _ => True) (log line1) (log line2).
Proof. apply strel_keeps; apply keeps_log. Qed.

Lemma validateImageType_same (path : string) :
  validateImageType X1 path = validateImageType X2 path.
Proof.
  destruct libraries as (_ & _ & Hmime & _). unfold validateImageType. now rewrite Hmime.
Qed.

Lemma resolvePath_same (file : string) (p : value) :
  resolvePath X1 file p = resolvePath X2 file p.
Proof.
  destruct libraries as (_ & _ & _ & Habs & Hres & Hdir & _). unfold resolvePath.
  now rewrite Habs, Hres, Hdir.
Qed.

(** *** The uploads on two runs

    A batch holds the failures of its calls as values, so here the two
    runs are compared whatever they give, failures included. *)
Definition same_run {A} (m1 m2 : M A) : Prop :=
  ∀ s1 s2, same_cache s1 s2 →
           fst (m1 s1) = fst (m2 s2) ∧ same_cache (snd (m1 s1)) (snd (m2 s2)).

Lemma same_run_strel {A} (m1 m2 : M A) : same_run m1 m2 → strel same_cache eq m1 m2.
Proof.
  intros H s1 s2 a1 a2 s1' s2' Hi E1 E2. destruct (H s1 s2 Hi) as [Hr Hc].
  rewrite E1, E2 in Hr, Hc. cbn in *. split; [congruence | exact Hc].
Qed.

Lemma same_run_ret {A} (a : A) : same_run (mret a) (mret a).
Proof. intros s1 s2 Hi. now split. Qed.

Lemma same_run_throw {A} (e : exn) : same_run (kthrow e : M A) (kthrow e).
Proof. intros s1 s2 Hi. now split. Qed.

Lemma same_run_klift {A} (r : result A) : same_run (klift r) (klift r).
Proof. intros s1 s2 Hi. now split. Qed.

Lemma same_run_bind {A B} (m1 m2 : M A) (f1 f2 : A → M B) :
  same_run m1 m2 → (∀ a, same_run (f1 a) (f2 a)) → same_run (m1 ≫= f1) (m2 ≫= f2).
Proof.
  intros Hm Hf s1 s2 Hi. unfold mbind, ST_bind, kbind.
  destruct (Hm s1 s2 Hi) as [Hr Hc].
  destruct (m1 s1) as [r1 t1], (m2 s2) as [r2 t2]. cbn in Hr, Hc. subst r2.
  destruct r1 as [a|e]; [now apply Hf | now split].
Qed.

Lemma same_run_settle {A} (m1 m2 : M A) : same_run m1 m2 → same_run (settle m1) (settle m2).
Proof.
  intros Hm s1 s2 Hi. unfold settle. destruct (Hm s1 s2 Hi) as [Hr Hc].
  destruct (m1 s1) as [r1 t1], (m2 s2) as [r2 t2]. cbn in *. split; [congruence | exact Hc].
Qed.

Lemma same_run_perform (r : request) :
  stable r = true → same_run (perform X1 r) (perform X2 r).
Proof.
  intros Hr s1 s2 Hi. unfold perform. cbn. split; [apply answers, Hr | exact Hi].
Qed.

Lemma same_run_retried (r : request) (context : string) :
  stable r = true →
  same_run (withRetry (perform X1 r) context) (withRetry (perform X2 r) context).
Proof.
  intros Hr. unfold withRetry, Retry.withRetry.
  assert (∀ remaining attempt,
            same_run
              (Retry.attempts (fun line => add_event (Log line))
                 (fun ms => add_event (Sleep ms)) (perform X1 r) 3 1000 context
                 remaining attempt)
              (Retry.attempts (fun line => add_event (Log line))
                 (fun ms => add_event (Sleep ms)) (perform X2 r) 3 1000 context
                 remaining attempt)) as H; [|apply H].
  induction remaining as [|remaining IH]; intros attempt s1 s2 Hi; cbn [Retry.attempts].
  - now split.
  - destruct (same_run_perform r Hr s1 s2 Hi) as [Hres Hc].
    destruct (perform X1 r s1) as [r1 t1], (perform X2 r s2) as [r2 t2].
    cbn in Hres, Hc. subst r2. destruct r1 as [a|e]; [now split|].
    destruct (_ || _); [now split|]. now apply IH.
Qed.

Lemma same_run_readFile (path context : string) (encoding : option string) :
  same_run (readFileWithContext X1 path context encoding)
    (readFileWithContext X2 path context encoding).
Proof.
  intros s1 s2 Hi. unfold readFileWithContext.
  destruct (same_run_perform (ReadFile path encoding) eq_refl s1 s2 Hi) as [Hr Hc].
  destruct (perform X1 _ s1) as [r1 t1], (perform X2 _ s2) as [r2 t2]. cbn in Hr, Hc.
  subst r2. now destruct r1.
Qed.

Lemma same_run_cache_set (path : string) (id : value) :
  same_run (cache_set path id) (cache_set path id).
Proof. intros s1 s2 Hi. split; [reflexivity|]. unfold same_cache in *. cbn. now rewrite Hi. Qed.

Lemma same_run_log (line : string) : same_run (log line) (log line).
Proof. intros s1 s2 Hi. now split. Qed.

Lemma path_basename_same : path_basename X1 = path_basename X2.
Proof. now destruct libraries as (_ & _ & _ & _ & _ & _ & Hbase & _). Qed.

Ltac same_step :=
  first
    [ apply same_run_ret | apply same_run_throw | apply same_run_klift
    | apply same_run_cache_set | apply same_run_log | apply same_run_readFile
    | apply same_run_retried; reflexivity
    | apply same_run_settle
    | apply same_run_bind; [|intros] ].

Lemma startUpload_same (path : string) :
  same_run (startUpload X1 cfg path) (startUpload X2 cfg path).
Proof.
  unfold startUpload, dryUpload. rewrite validateImageType_same, path_basename_same.
  apply same_run_bind; [repeat same_step | intros [[contentType buf]|e]];
    [|apply same_run_ret].
  destruct (negb (WRITE cfg)); repeat same_step.
Qed.

Lemma awaitUpload_same (path filename contentType : string) (buf : value) :
  same_run (awaitUpload X1 path filename contentType buf)
    (awaitUpload X2 path filename contentType buf).
Proof. unfold awaitUpload. rewrite path_basename_same. repeat same_step. Qed.

Lemma uploadBody_same (path : string) :
  same_run (uploadBody X1 cfg path) (uploadBody X2 cfg path).
Proof.
  unfold uploadBody. apply same_run_bind; [apply startUpload_same | intros [r|f c b]].
  - apply same_run_klift.
  - apply awaitUpload_same.
Qed.

Lemma startCall_same (uploadPromises : list (string * nat)) (k : nat) (path : string) :
  same_run (startCall X1 cfg uploadPromises k path) (startCall X2 cfg uploadPromises k path).
Proof.
  intros s1 s2 Hi. unfold startCall. pose proof Hi as Hc. unfold same_cache in Hc.
  rewrite Hc. destruct (assetCache s2 !! path); [now split|].
  destruct (inflight_get path uploadPromises); [now split|].
  apply same_run_bind; [apply startUpload_same | intros; apply same_run_ret | exact Hi].
Qed.

Lemma startAll_same (paths : list string) :
  ∀ k uploadPromises,
    same_run (startAll X1 cfg paths k uploadPromises) (startAll X2 cfg paths k uploadPromises).
Proof.
  induction paths as [|p paths IH]; intros k uploadPromises; cbn [startAll].
  - apply same_run_ret.
  - apply same_run_bind; [apply startCall_same | intros r].
    apply same_run_bind; [apply IH | intros; apply same_run_ret].
Qed.

Lemma settleAll_same (paths : list string) :
  ∀ ps done, same_run (settleAll X1 paths ps done) (settleAll X2 paths ps done).
Proof.
  induction paths as [|p paths IH]; intros ps done; cbn [settleAll]; [apply same_run_ret|].
  destruct ps as [|pd ps]; [apply same_run_ret|].
  apply same_run_bind; [|intros; apply IH].
  destruct pd as [[r|f c b]|j]; cbn [settleCall]; try apply same_run_ret.
  apply same_run_settle, awaitUpload_same.
Qed.

Lemma uploadAll_same {A} (imageData : list (A * string)) :
  same_run (uploadAll X1 cfg imageData) (uploadAll X2 cfg imageData).
Proof.
  unfold uploadAll. apply same_run_bind; [apply startAll_same | intros ps].
  apply same_run_bind; [apply settleAll_same | intros rs].
  destruct (first_rejection ps rs); [apply same_run_throw | apply same_run_ret].
Qed.

Lemma uploadImageAsset_rel (path : string) :
  strel same_cache eq (uploadImageAsset X1 cfg path) (uploadImageAsset X2 cfg path).
Proof.
  intros s1 s2 a1 a2 s1' s2' Hi E1 E2. unfold uploadImageAsset in E1, E2.
  pose proof Hi as Hc. unfold same_cache in Hc. rewrite Hc in E1.
  destruct (assetCache s2 !! path) as [id|].
  - injection E1 as <- <-. injection E2 as <- <-. now split.
  - exact (same_run_strel _ _ (uploadBody_same path) _ _ _ _ _ _ Hi E1 E2).
Qed.

Lemma missing_file_rel (p : value) :
  strel same_cache eq (missing_file X1 p) (missing_file X2 p).
Proof.
  unfold missing_file. destruct (negb (truthy p)); [now apply strel_ret|].
  eapply strel_bind; [now apply perform_rel|]. intros e ? <-. now apply strel_ret.
Qed.

Lemma locateImage_rel (file : string) (img : image) :
  strel same_cache eq (locateImage X1 file img) (locateImage X2 file img).
Proof.
  unfold locateImage. rewrite resolvePath_same.
  eapply (strel_bind same_cache eq); [apply strel_klift; intros ? ? ? ?; congruence|]. intros p ? <-.
  eapply strel_bind; [apply missing_file_rel|]. intros gone ? <-.
  destruct gone; [apply strel_throw_l | now apply strel_ret].
Qed.

Lemma body_rel (file markdown : string) :
  strel same_cache (Forall2 alike)
    (markdownToPortableTextWithInlineImages X1 cfg file markdown)
    (markdownToPortableTextWithInlineImages X2 cfg file markdown).
Proof.
  unfold markdownToPortableTextWithInlineImages.
  destruct libraries as (_ & _ & _ & _ & _ & _ & _ & Hconv). rewrite Hconv.
  eapply strel_bind; [apply liftK_rel, ensureKeys_rel, Forall2_refl_alike|].
  intros pt1 pt2 Hpt.
  destruct (Nat.eqb _ 0); [apply strel_ret; now apply alike_supported|].
  eapply (strel_bind same_cache (Forall2 eq)).
  { eapply strel_kmapM; [apply Forall2_eq_refl|]. intros x ? <-. apply locateImage_rel. }
  intros imageData ? <-%Forall2_eq_same.
  eapply (strel_bind same_cache eq); [apply same_run_strel, uploadAll_same|].
  intros uploadResults ? <-.
  eapply (strel_bind same_cache eq); [apply strel_klift; intros ? ? ? ?; congruence|]. intros m ? <-.
  eapply strel_bind; [apply liftK_rel, replaceTokens_rel; now apply alike_supported|].
  intros r1 r2 Hr.
  eapply strel_bind; [apply liftK_rel, ensureKeys_rel; exact Hr|].
  intros k1 k2 Hk. apply strel_ret. now apply alike_supported.
Qed.

Lemma keeps_ensureAuthor (X : externals) (authorId author : value) :
  keeps (ensureAuthor X cfg authorId author).
Proof.
  unfold ensureAuthor.
  repeat first
    [ apply keeps_ret | apply keeps_throw | apply keeps_klift | apply keeps_log
    | apply keeps_withRetry, keeps_perform
    | apply keeps_bind; [|intros]
    | match goal with |- keeps (if ?b then _ else _) => destruct b end ].
Qed.

(** The author reference of a run: the given [authorId], or what the lookup
    by name resolves to. *)
Lemma ensureAuthor_resolved (X : externals) (authorId author : value) (w : world)
  (a : value) (w' : world) :
  ensureAuthor X cfg authorId author w = (Ok a, w') →
  (truthy authorId = true ∧ a = authorId)
  ∨ (truthy authorId = false
     ∧ ∃ v, answered X (Fetch author_by_name [("name", author)]) v
            ∧ resolved_author cfg author v = Ok a).
Proof.
  unfold ensureAuthor. intros H. destruct (truthy authorId) eqn:Ha.
  - kinv H. destruct (negb _); [discriminate|]. kinv H. now left.
  - destruct (negb (truthy author)); [discriminate|]. kinv H.
    apply retried_answered in Hstep as [Hans _]. right. split; [reflexivity|].
    exists a0. split; [exact Hans|]. unfold resolved_author.
    destruct (truthy (prop_opt a0 "_id")); [now kinv H|].
    kinv H. apply klift_ok in Hstep as [-> _].
    destruct (negb (WRITE cfg)); kinv H; reflexivity.
Qed.

Lemma ensureAuthor_rel (authorId author : value) :
  strel same_cache eq (ensureAuthor X1 cfg authorId author)
    (ensureAuthor X2 cfg authorId author).
Proof.
  intros s1 s2 a1 a2 s1' s2' Hi E1 E2. split.
  - apply ensureAuthor_resolved in E1, E2.
    destruct E1 as [[T1 ->]|[T1 (v1 & [t1 A1] & R1)]],
             E2 as [[T2 ->]|[T2 (v2 & [t2 A2] & R2)]]; try congruence.
    pose proof (authors t1 t2 author v1 v2 A1 A2). congruence.
  - unfold same_cache in *.
    rewrite (keeps_run _ _ _ _ (keeps_ensureAuthor X1 authorId author) E1).
    rewrite (keeps_run _ _ _ _ (keeps_ensureAuthor X2 authorId author) E2).
    exact Hi.
Qed.

Lemma keeps_checkSlugCollision (slug : value) (file : string) :
  keeps (checkSlugCollision slug file).
Proof.
  intros w. unfold checkSlugCollision.
  destruct (map_get slug (slugToFile w)) as [f|]; [destruct (negb _)|]; reflexivity.
Qed.

(** What two runs prepare for one file. *)
Definition same_prepared (d1 d2 : option prepared) : Prop :=
  match d1, d2 with
  | Some p1, Some p2 =>
      p_slug p1 = p_slug p2 ∧ p_docId p1 = p_docId p2
      ∧ same_document X1 X2 (p_doc p1) (p_doc p2)
  | None, None => True
  | _, _ => False
  end.

Lemma prepareDocument_rel (file : string) (index total : nat) :
  strel same_cache same_prepared (prepareDocument X1 cfg file index total)
    (prepareDocument X2 cfg file index total).
Proof.
  unfold prepareDocument.
  pose proof libraries as (Hmatter & Hdate & _ & _ & _ & _ & Hbase & _).
  rewrite Hmatter, Hdate.
  eapply strel_bind; [apply log_rel|]. intros _ _ _.
  eapply (strel_bind same_cache eq); [apply readFile_rel|]. intros raw ? <-.
  eapply (strel_bind same_cache eq); [apply strel_klift; intros ? ? ? ?; congruence|].
  intros parsed ? <-.
  eapply (strel_bind same_cache eq); [apply strel_klift; intros ? ? ? ?; congruence|].
  intros ? ? _.
  eapply (strel_bind same_cache eq).
  { destruct (truthy _); [now apply strel_ret|].
    eapply (strel_bind same_cache eq); [apply strel_klift; intros ? ? ? ?; congruence|].
    intros s ? <-. now apply strel_ret. }
  intros slug ? <-.
  eapply strel_bind; [apply strel_keeps; apply keeps_checkSlugCollision|]. intros _ _ _.
  eapply (strel_bind same_cache
            (fun p1 p2 => p1 = p2 ∨ (told_by_clock X1 p1 ∧ told_by_clock X2 p2))).
  { destruct (truthy _); [apply strel_ret; now left|].
    intros w1 w2 x1 x2 w1' w2' Hi E1 E2. split.
    - right. split; eapply perform_answered; eauto.
    - unfold perform in E1, E2. injection E1 as _ <-. injection E2 as _ <-. exact Hi. }
  intros publishedAt1 publishedAt2 Hpub.
  eapply (strel_bind same_cache eq).
  { destruct (ONLY cfg) as [only|]; [|now apply strel_ret].
    destruct (_ && _); [|now apply strel_ret].
    eapply strel_bind; [apply log_rel|]. intros _ _ _. now apply strel_ret. }
  intros proceed ? <-.
  destruct (negb proceed); [now apply strel_ret|].
  eapply (strel_bind same_cache eq); [apply ensureAuthor_rel|]. intros authorRef ? <-.
  rewrite resolvePath_same.
  eapply (strel_bind same_cache eq); [apply strel_klift; intros ? ? ? ?; congruence|].
  intros absCover ? <-.
  eapply (strel_bind same_cache eq); [apply missing_file_rel|]. intros gone ? <-.
  destruct gone; [apply strel_throw_l|].
  eapply (strel_bind same_cache eq); [apply uploadImageAsset_rel|]. intros coverAsset ? <-.
  eapply (strel_bind same_cache eq); [apply strel_klift; intros ? ? ? ?; congruence|].
  intros coverId ? <-.
  eapply strel_bind; [apply body_rel|]. intros body1 body2 Hbody.
  apply strel_ret. cbn [same_prepared p_slug p_docId p_doc].
  split; [reflexivity|]. split; [reflexivity|].
  unfold same_document. cbn [prop_opt].
  split; [reflexivity|]. split; [|split].
  - intros f Hp Hb. cbn [lookup_field].
    repeat match goal with
           | |- context [String.eqb ?k f] =>
               destruct (String.eqb_spec k f); [try reflexivity; congruence|]
           end.
    reflexivity.
  - cbn. now apply alike_arr.
  - exact Hpub.
Qed.

End Runs.




End TwoRunsFacts.

(* ------------------------------------------------------------------ *)
(** ** What the importer may ask of the outside world *)
(* ------------------------------------------------------------------ *)
Module ImportFacts.
Import KFacts Importer TraceFacts.

Lemma adds_run {A} (P : event → Prop) (m : M A) (w : world) (r : result A) (w' : world) :
  adds P m → m w = (r, w') → ∃ new, trace w' = trace w ++ new ∧ Forall P new.
Proof. intros Hm H. specialize (Hm w). now rewrite H in Hm. Qed.

(** The continuation of a bind need only be looked at for the values the
    first computation can return. *)
Lemma adds_bind_ok {A B} (P : event → Prop) (m : M A) (f : A → M B) :
  adds P m → (∀ a, (∃ w w', m w = (Ok a, w')) → adds P (f a)) → adds P (m ≫= f).
Proof.
  intros Hm Hf w. unfold mbind, ST_bind, kbind.
  destruct (Hm w) as (new1 & E1 & H1). destruct (m w) as [[a|e] w1] eqn:Hrun; cbn in *.
  - destruct (Hf a (ex_intro _ w (ex_intro _ w1 Hrun)) w1) as (new2 & E2 & H2).
    exists (new1 ++ new2).
    rewrite E2, E1, <- List.app_assoc. split; [reflexivity | now apply Forall_app].
  - eauto.
Qed.

Lemma adds_warn (P : event → Prop) (line : string) :
  P (Warn line) → adds P (warn line).
Proof. intros H w. now apply adds_event. Qed.

Section WithExternals.
Variable X : externals.
Variable cfg : config.

(** The events of an import: console lines, waits, reads of the file
    system and of the clock, the two author queries and, in write mode only,
    the creation of an author, the upload of an image and the upsert of a
    post. *)
Definition importer_event (e : event) : Prop :=
  match e with
  | Log _ | Warn _ | Sleep _ => True
  | Call r _ =>
      match r with
      | ReadFile _ _ | ExistsSync _ | Now => True
      | Fetch query _ => query = author_by_id ∨ query = author_by_name
      | CreateIfNotExists doc =>
          WRITE cfg = true ∧ prop_opt doc "_type" = VStr "author"
      | Upload _ contentType _ =>
          WRITE cfg = true ∧ In contentType VALID_IMAGE_TYPES
      | CreateOrReplace doc =>
          WRITE cfg = true ∧ prop_opt doc "_type" = VStr "post"
      end
  end.

(** The same, short of the upsert: the events of [prepareDocument]. *)
Definition prepare_event (e : event) : Prop :=
  match e with
  | Log _ | Warn _ | Sleep _ => True
  | Call r _ =>
      match r with
      | ReadFile _ _ | ExistsSync _ | Now => True
      | Fetch query _ => query = author_by_id ∨ query = author_by_name
      | CreateIfNotExists doc =>
          WRITE cfg = true ∧ prop_opt doc "_type" = VStr "author"
      | Upload _ contentType _ =>
          WRITE cfg = true ∧ In contentType VALID_IMAGE_TYPES
      | CreateOrReplace _ => False
      end
  end.

Lemma prepare_importer (e : event) : prepare_event e → importer_event e.
Proof. destruct e as [| | |r a]; try exact id. destruct r; cbn; tauto. Qed.

Lemma adds_impl {A} (P Q : event → Prop) (m : M A) :
  (∀ e, P e → Q e) → adds P m → adds Q m.
Proof.
  intros HPQ Hm w. destruct (Hm w) as (new & E & H). exists new. split; [assumption|].
  eapply Forall_impl; eauto.
Qed.

Lemma validateImageType_valid (path contentType : string) :
  validateImageType X path = Ok contentType → In contentType VALID_IMAGE_TYPES.
Proof.
  unfold validateImageType. intros H.
  destruct (existsb _ VALID_IMAGE_TYPES) eqn:E; [|discriminate].
  injection H as <-. apply existsb_exists in E as (t & Ht & Eq).
  apply String.eqb_eq in Eq. now subst.
Qed.

Ltac event_ok := intros; cbn; auto.

Ltac import_step :=
  first
    [ apply adds_ret | apply adds_throw | apply adds_klift | apply adds_liftK
    | apply adds_cache_set
    | apply adds_log; exact I
    | apply adds_perform; event_ok
    | apply adds_withRetry; [apply adds_perform; event_ok | event_ok | event_ok]
    | apply adds_bind; [|intros]
    | match goal with
      | |- adds _ (if ?b then _ else _) => destruct b eqn:?
      | |- adds _ (match ?x with _ => _ end) => destruct x eqn:?
      end ].

Lemma readFile_event (path context : string) (enc : option string) :
  adds prepare_event (readFileWithContext X path context enc).
Proof.
  intros w. unfold readFileWithContext.
  destruct (adds_perform X prepare_event (ReadFile path enc) (fun _ => I) w)
    as (new & E & H).
  destruct (perform X (ReadFile path enc) w) as [[v|e] w']; cbn in *; eauto.
Qed.

Lemma startUpload_event (path : string) : adds prepare_event (startUpload X cfg path).
Proof.
  unfold startUpload. apply adds_bind.
  { apply adds_settle. apply adds_bind; [import_step | intros].
    apply adds_bind; [apply readFile_event | intros]. import_step. }
  intros [[contentType buf]|e]; [|import_step].
  destruct (negb (WRITE cfg)); [|import_step].
  apply adds_bind; [|intros; import_step].
  apply adds_settle. unfold dryUpload. repeat import_step.
Qed.

(** What a call waits for: an upload in write mode, of a valid type. *)
Definition valid_upload (filename contentType : string) (buf : value) : Prop :=
  WRITE cfg = true ∧ In contentType VALID_IMAGE_TYPES.

Lemma startUpload_valid (p : string) (w : world) (f c : string) (b : value) (w' : world) :
  startUpload X cfg p w = (Ok (Waiting f c b), w') → valid_upload f c b.
Proof.
  intros H. apply startUpload_waiting in H as (Hw & Hc & _).
  split; [exact Hw | eapply validateImageType_valid; eauto].
Qed.

Lemma awaitUpload_event (p f c : string) (b : value) :
  valid_upload f c b → adds prepare_event (awaitUpload X p f c b).
Proof. intros [Hw Hc]. unfold awaitUpload. repeat import_step. Qed.

Lemma uploadImageAsset_event (path : string) :
  adds prepare_event (uploadImageAsset X cfg path).
Proof.
  apply (adds_uploadImageAsset X cfg prepare_event valid_upload);
    [apply startUpload_event | apply startUpload_valid | apply awaitUpload_event].
Qed.

Lemma uploadAll_event {A} (imageData : list (A * string)) :
  adds prepare_event (uploadAll X cfg imageData).
Proof.
  apply (adds_uploadAll X cfg prepare_event valid_upload);
    [apply startUpload_event | apply startUpload_valid | apply awaitUpload_event].
Qed.

Lemma missing_file_event (p : value) : adds prepare_event (missing_file X p).
Proof. unfold missing_file. repeat import_step. Qed.

Lemma ensureAuthor_event (authorId author : value) :
  adds prepare_event (ensureAuthor X cfg authorId author).
Proof.
  unfold ensureAuthor. destruct (WRITE cfg) eqn:Hw; cbn [negb]; repeat import_step.
Qed.

Lemma checkSlugCollision_event (slug : value) (file : string) :
  adds prepare_event (checkSlugCollision slug file).
Proof.
  intros w. unfold checkSlugCollision.
  destruct (map_get slug (slugToFile w)) as [f|]; [destruct (negb _)|]; cbn.
  - now apply adds_event.
  - exists []. now rewrite app_nil_r.
  - exists []. now rewrite app_nil_r.
Qed.

Lemma body_event (file markdown : string) :
  adds prepare_event (markdownToPortableTextWithInlineImages X cfg file markdown).
Proof.
  unfold markdownToPortableTextWithInlineImages.
  apply adds_bind; [import_step | intros pt].
  destruct (Nat.eqb _ 0); [import_step|].
  apply adds_bind.
  { apply adds_kmapM. intros img. unfold locateImage.
    apply adds_bind; [import_step | intros].
    apply adds_bind; [apply missing_file_event | intros].
    repeat import_step. }
  intros imageData. apply adds_bind; [apply uploadAll_event|].
  intros. repeat import_step.
Qed.

Lemma prepareDocument_event (file : string) (index total : nat) :
  adds prepare_event (prepareDocument X cfg file index total).
Proof.
  unfold prepareDocument.
  apply adds_bind; [import_step | intros].
  apply adds_bind; [apply readFile_event | intros raw].
  apply adds_bind; [import_step | intros parsed].
  apply adds_bind; [import_step | intros].
  apply adds_bind; [repeat import_step | intros slug].
  apply adds_bind; [apply checkSlugCollision_event | intros].
  apply adds_bind; [repeat import_step | intros publishedAt].
  apply adds_bind; [repeat import_step | intros proceed].
  destruct (negb proceed); [import_step|].
  apply adds_bind; [apply ensureAuthor_event | intros authorRef].
  apply adds_bind; [import_step | intros absCover].
  apply adds_bind; [apply missing_file_event | intros gone].
  destruct gone; [import_step|].
  apply adds_bind; [apply uploadImageAsset_event | intros].
  apply adds_bind; [import_step | intros].
  apply adds_bind; [apply body_event | intros]. import_step.
Qed.

(** [prepareDocument] starts with the line that names the file. *)
Lemma prepareDocument_header (file : string) (index total : nat) :
  ∃ rest : M (option prepared),
    prepareDocument X cfg file index total
    = (log (newline +:+ "[" +:+ pretty (index + 1) +:+ "/" +:+ pretty total +:+ "] "
            +:+ path_basename X file) ≫= fun _ => rest)
    ∧ adds prepare_event rest.
Proof.
  eexists. split; [unfold prepareDocument; reflexivity|].
  apply adds_bind; [apply readFile_event | intros raw].
  apply adds_bind; [import_step | intros parsed].
  apply adds_bind; [import_step | intros].
  apply adds_bind; [repeat import_step | intros slug].
  apply adds_bind; [apply checkSlugCollision_event | intros].
  apply adds_bind; [repeat import_step | intros publishedAt].
  apply adds_bind; [repeat import_step | intros proceed].
  destruct (negb proceed); [import_step|].
  apply adds_bind; [apply ensureAuthor_event | intros authorRef].
  apply adds_bind; [import_step | intros absCover].
  apply adds_bind; [apply missing_file_event | intros gone].
  destruct gone; [import_step|].
  apply adds_bind; [apply uploadImageAsset_event | intros].
  apply adds_bind; [import_step | intros].
  apply adds_bind; [apply body_event | intros]. import_step.
Qed.

(** Whatever the file and the state of the run, everything [importFile]
    asks of the outside world is a file read, an existence test, the time,
    one of the two author queries or, in write mode only, the creation of an
    author document, the upload of a file under one of the six image content
    types, or the upsert of a post document. *)
Theorem import_requests_whitelist (file : string) (index total : nat) (w : world) :
  ∃ new,
    trace (snd (importFile X cfg file index total w)) = trace w ++ new
    ∧ Forall importer_event new.
Proof.
  apply (adds_run importer_event (importFile X cfg file index total) w
           (fst (importFile X cfg file index total w))
           (snd (importFile X cfg file index total w))); [|now destruct (importFile _ _ _ _ _ _)].
  unfold importFile.
  apply adds_bind_ok;
    [eapply adds_impl; [apply prepare_importer | apply prepareDocument_event]
    | intros [d|] (w0 & w1 & Hd)];
    [|import_step].
  assert (prop_opt (p_doc d) "_type" = VStr "post") as Htype.
  { unfold prepareDocument in Hd. kinv Hd.
    destruct (negb a6); [now kinv Hd|]. kinv Hd.
    destruct a9; [discriminate|]. kinv Hd. injection H as ->. reflexivity. }
  destruct (WRITE cfg) eqn:Hw; cbn [negb]; repeat import_step.
Qed.

End WithExternals.

End ImportFacts.

(* ------------------------------------------------------------------ *)
(** ** What happens before the first request *)
(* ------------------------------------------------------------------ *)
Module OfflineFacts.
Import KFacts Importer TraceFacts DryRunFacts TwoRunsFacts ImportFacts.

(** From [w] to [w'] nothing went over the network and the asset cache
    stayed as it was. *)
Definition offline (w w' : world) : Prop :=
  ∃ new, trace w' = trace w ++ new ∧ Forall quiet_event new
         ∧ assetCache w' = assetCache w.

Lemma offline_refl (w : world) : offline w w.
Proof. exists []. now rewrite app_nil_r. Qed.

Lemma offline_trans (w1 w2 w3 : world) : offline w1 w2 → offline w2 w3 → offline w1 w3.
Proof.
  intros (n1 & E1 & Q1 & C1) (n2 & E2 & Q2 & C2). exists (n1 ++ n2).
  rewrite E2, E1, <- List.app_assoc, C2, C1.
  split; [reflexivity|]. split; [now apply Forall_app | reflexivity].
Qed.

Lemma offline_run {A} (m : M A) (w : world) (r : result A) (w' : world) :
  adds quiet_event m → keeps m → m w = (r, w') → offline w w'.
Proof.
  intros Ha Hk H. destruct (adds_run _ _ _ _ _ Ha H) as (new & E & Q).
  exists new. split; [exact E|]. split; [exact Q|]. eapply keeps_run; eauto.
Qed.

Lemma offline_no_calls (w w' : world) (new : list event) :
  offline w w' → trace w' = trace w ++ new → network_calls new = [].
Proof.
  intros (n & E & Q & _) H. rewrite E in H. apply app_inv_head in H as <-.
  now apply quiet_no_calls.
Qed.

Section WithExternals.
Variable X : externals.
Variable cfg : config.

Lemma keeps_readFile (path context : string) (enc : option string) :
  keeps (readFileWithContext X path context enc).
Proof.
  intros w. unfold readFileWithContext. pose proof (keeps_perform X (ReadFile path enc) w) as H.
  now destruct (perform X (ReadFile path enc) w) as [[v|e] w'].
Qed.

Lemma readFile_offline (path context : string) (enc : option string) (w : world)
  (r : result value) (w' : world) :
  readFileWithContext X path context enc w = (r, w') → offline w w'.
Proof. apply offline_run; [apply readFile_quiet | apply keeps_readFile]. Qed.

Lemma readFile_answered (path context : string) (enc : option string) (w : world)
  (raw : value) (w' : world) :
  readFileWithContext X path context enc w = (Ok raw, w') →
  answered X (ReadFile path enc) raw.
Proof.
  unfold readFileWithContext.
  destruct (perform X (ReadFile path enc) w) as [[v|e] w1] eqn:H; [|discriminate].
  intros [= <- _]. eapply perform_answered; eauto.
Qed.

Lemma checkSlugCollision_offline (slug : value) (file : string) (w : world)
  (r : result bool) (w' : world) :
  checkSlugCollision slug file w = (r, w') → offline w w'.
Proof.
  apply offline_run; [|apply keeps_checkSlugCollision].
  intros w0. unfold checkSlugCollision.
  destruct (map_get slug (slugToFile w0)) as [f|]; [destruct (negb _)|]; cbn.
  - now apply adds_event.
  - exists []. now rewrite app_nil_r.
  - exists []. now rewrite app_nil_r.
Qed.

Lemma log_offline (line : string) (w : world) (r : result unit) (w' : world) :
  log line w = (r, w') → offline w w'.
Proof. apply offline_run; [now apply adds_log | apply keeps_log]. Qed.

Lemma now_offline (w : world) (r : result value) (w' : world) :
  perform X Now w = (r, w') → offline w w'.
Proof. apply offline_run; [now apply adds_perform | apply keeps_perform]. Qed.

(** What [importFile] does up to the [--only] test, for a file whose
    frontmatter is valid. *)
Record preamble (file : string) (w w' : world) (slug : value) (proceed : bool) : Prop := {
  pre_offline : offline w w';
  pre_read : ∃ raw fm content,
      answered X (ReadFile file (Some "utf8")) raw
      ∧ matter X (to_string raw) = Ok (fm, content)
      ∧ Validate.validateFrontmatter (Date_parse X) fm file = Ok tt
      ∧ (slug = prop_opt fm "slug" ∨ ∃ s, slugify (prop_opt fm "title") = Ok s ∧ slug = VStr s);
  pre_only : proceed = false →
      ∃ only, ONLY cfg = Some only ∧ Str.nonempty only = true ∧ str_eq slug only = false;
}.

Lemma kbind_step {S A B} (m : ST S A) (f : A → ST S B) (n : S) :
  (m ≫= f) n
  = match m n with (Ok a, n') => f a n' | (Throw e, n') => (Throw e, n') end.
Proof. reflexivity. Qed.

Lemma klift_step {S A B} (r : result A) (f : A → ST S B) (n : S) :
  (klift r ≫= f) n = match r with Ok a => f a n | Throw e => (Throw e, n) end.
Proof. now destruct r. Qed.

Lemma slug_step (explicit title : value) (w : world) (r : result value) (w' : world) :
  (if truthy explicit then mret explicit
   else s ← klift (slugify title); mret (VStr s)) w = (r, w') →
  w' = w
  ∧ ∀ slug, r = Ok slug →
            slug = explicit ∨ ∃ s, slugify title = Ok s ∧ slug = VStr s.
Proof.
  destruct (truthy explicit).
  - intros [= <- <-]. split; [reflexivity|]. intros slug [= <-]. now left.
  - rewrite klift_step. destruct (slugify title) as [s|e].
    + intros [= <- <-]. split; [reflexivity|]. intros slug [= <-]. eauto.
    + intros [= <- <-]. split; [reflexivity|]. discriminate.
Qed.

Lemma publishedAt_step (given : value) (w : world) (r : result value) (w' : world) :
  (if truthy given then mret given else perform X Now) w = (r, w') → offline w w'.
Proof.
  destruct (truthy given).
  - intros [= _ <-]. apply offline_refl.
  - apply now_offline.
Qed.

Lemma only_step (slug : value) (w : world) (r : result bool) (w' : world) :
  match ONLY cfg with
  | Some only =>
      if Str.nonempty only && negb (str_eq slug only) then
        _ ← log ("  [skip] slug " +:+ q +:+ to_string slug +:+ q
                 +:+ " does not match --only " +:+ q +:+ only +:+ q);
        (mret false : M bool)
      else mret true
  | None => mret true
  end w = (r, w') →
  offline w w'
  ∧ ∃ proceed, r = Ok proceed
      ∧ (proceed = false →
         ∃ only, ONLY cfg = Some only ∧ Str.nonempty only = true
                 ∧ str_eq slug only = false).
Proof.
  destruct (ONLY cfg) as [only|].
  - destruct (Str.nonempty only && negb (str_eq slug only)) eqn:E.
    + rewrite kbind_step.
      destruct (log _ w) as [[[]|e] w1] eqn:Hlog; [|discriminate Hlog].
      intros [= <- <-]. split; [eapply log_offline; eauto|].
      exists false. split; [reflexivity|]. intros _. exists only.
      apply andb_true_iff in E as [E1 E2]. apply negb_true_iff in E2. auto.
    + intros [= <- <-]. split; [apply offline_refl|]. exists true. now split.
  - intros [= <- <-]. split; [apply offline_refl|]. exists true. now split.
Qed.

(** [prepareDocument] either stops offline with an error, or gets through
    the preamble; it returns no document exactly when [--only] names
    another slug. *)
Lemma prepareDocument_cases (file : string) (index total : nat) (w : world) :
  (∃ e w', prepareDocument X cfg file index total w = (Throw e, w') ∧ offline w w')
  ∨ (∃ w1 slug proceed,
       preamble file w w1 slug proceed
       ∧ ((proceed = false
           ∧ prepareDocument X cfg file index total w = (Ok None, w1))
          ∨ (proceed = true
             ∧ fst (prepareDocument X cfg file index total w) ≠ Ok None))).
Proof.
  unfold prepareDocument. rewrite kbind_step.
  destruct (log _ w) as [[[]|e] w0] eqn:Hlog; [|discriminate Hlog].
  apply log_offline in Hlog.
  rewrite kbind_step.
  destruct (readFileWithContext X file "markdown post" (Some "utf8") w0)
    as [[raw|e] w1] eqn:Hread;
    [|left; exists e, w1; split; [reflexivity|];
      eapply offline_trans; [exact Hlog | eapply readFile_offline; eauto]].
  pose proof (readFile_answered _ _ _ _ _ _ Hread) as Hraw.
  apply readFile_offline in Hread.
  pose proof (offline_trans _ _ _ Hlog Hread) as Hoff. clear Hlog Hread.
  rewrite klift_step.
  destruct (matter X (to_string raw)) as [[fm content]|e] eqn:Hm;
    [|left; exists e, w1; now split].
  rewrite klift_step. cbn [fst snd].
  destruct (Validate.validateFrontmatter (Date_parse X) fm file) as [[]|e] eqn:Hv;
    [|left; exists e, w1; now split].
  rewrite kbind_step.
  match goal with |- context [match ?m w1 with _ => _ end] =>
    destruct (m w1) as [[slug|e] w2] eqn:Hslug end.
  2:{ apply slug_step in Hslug as [-> _]. left. exists e, w1. now split. }
  apply slug_step in Hslug as [-> Hslug]. specialize (Hslug slug eq_refl).
  rewrite kbind_step.
  destruct (checkSlugCollision slug file w1) as [[b|e] w3] eqn:Hcheck;
    apply checkSlugCollision_offline in Hcheck;
    pose proof (offline_trans _ _ _ Hoff Hcheck) as Hoff3;
    [|left; exists e, w3; now split].
  rewrite kbind_step.
  match goal with |- context [match ?m w3 with _ => _ end] =>
    destruct (m w3) as [[publishedAt|e] w4] eqn:Hpub end;
    apply publishedAt_step in Hpub;
    pose proof (offline_trans _ _ _ Hoff3 Hpub) as Hoff4;
    [|left; exists e, w4; now split].
  rewrite kbind_step.
  match goal with |- context [match ?m w4 with _ => _ end] =>
    destruct (m w4) as [r w5] eqn:Honly end.
  apply only_step in Honly as (Hoff5 & proceed & -> & Hskip).
  pose proof (offline_trans _ _ _ Hoff4 Hoff5) as Hoff6.
  right. exists w5, slug, proceed. split.
  { split; [exact Hoff6 | | exact Hskip]. exists raw, fm, content. auto. }
  destruct proceed; cbn [negb].
  - right. split; [reflexivity|]. intros H.
    match goal with H : fst (?m w5) = Ok None |- _ =>
      destruct (m w5) as [r w6] eqn:E end.
    cbn [fst] in H. subst r. kinv E.
    destruct a1; [discriminate|]. kinv E. discriminate.
  - left. now split.
Qed.

Lemma upsert_not_skipped (d : prepared) (w : world) :
  fst ((if negb (WRITE cfg) then
          _ ← log ("  [dry] would upsert: " +:+ p_docId d);
          mret (DryRun (p_slug d))
        else
          _ ← withRetry (perform X (CreateOrReplace (p_doc d)))
                ("upsert post " +:+ q +:+ to_string (p_slug d) +:+ q);
          _ ← log ("  [ok] upserted: " +:+ p_docId d);
          mret (Upserted (p_slug d))) w) ≠ Ok Skipped.
Proof.
  intros H.
  match goal with H : fst (?m w) = _ |- _ => destruct (m w) as [r w'] eqn:E end.
  cbn [fst] in H. subst r. destruct (negb (WRITE cfg)); kinv E; discriminate.
Qed.

(** A file is skipped only under [--only] with another slug, and then
    nothing went over the network and no asset was cached: the test comes
    before the author lookup and the uploads. *)
Theorem skipped_file_stays_offline (file : string) (index total : nat) (w : world) :
  fst (importFile X cfg file index total w) = Ok Skipped →
  (∃ only, ONLY cfg = Some only ∧ Str.nonempty only = true)
  ∧ ∃ new,
      trace (snd (importFile X cfg file index total w)) = trace w ++ new
      ∧ network_calls new = []
      ∧ assetCache (snd (importFile X cfg file index total w)) = assetCache w.
Proof.
  unfold importFile. rewrite kbind_step.
  destruct (prepareDocument_cases file index total w)
    as [(e & w' & -> & _)|(w1 & slug & proceed & Hpre & [[-> ->]|[-> Hsome]])].
  - discriminate.
  - intros _. destruct Hpre as [(new & E & Q & C) _ Honly]. cbn [fst snd].
    destruct (Honly eq_refl) as (only & Ho & Hn & _). split; [eauto|].
    exists new. split; [exact E|]. split; [now apply quiet_no_calls | exact C].
  - destruct (prepareDocument X cfg file index total w) as [[[d|]|e] w2].
    + intros H. now apply upsert_not_skipped in H.
    + now contradiction Hsome.
    + discriminate.
Qed.

(** A request goes over the network only for a file that was read and
    whose frontmatter passed validation: a file that cannot be read or
    parsed, or with invalid frontmatter, costs no request. *)
Theorem requests_only_after_validation (file : string) (index total : nat)
  (w : world) (new : list event) :
  trace (snd (importFile X cfg file index total w)) = trace w ++ new →
  network_calls new ≠ [] →
  ∃ raw fm content,
    answered X (ReadFile file (Some "utf8")) raw
    ∧ matter X (to_string raw) = Ok (fm, content)
    ∧ Validate.validateFrontmatter (Date_parse X) fm file = Ok tt.
Proof.
  intros Htrace Hcalls.
  destruct (prepareDocument_cases file index total w)
    as [(e & w' & Hrun & Hoff)|(w1 & slug & proceed & Hpre & _)].
  - exfalso. apply Hcalls. unfold importFile in Htrace.
    rewrite kbind_step, Hrun in Htrace. cbn [snd] in Htrace.
    eapply offline_no_calls; eauto.
  - destruct Hpre as [_ (raw & fm & content & H1 & H2 & H3 & _) _].
    exists raw, fm, content. auto.
Qed.

(** With an [authorId] in the frontmatter the author is only looked up,
    by that identifier: no other request is made, and what comes back is the
    identifier itself, given that the lookup found a document. *)
Theorem given_author_is_only_looked_up (authorId author : value) (w : world) :
  truthy authorId = true →
  ∃ new,
    trace (snd (ensureAuthor X cfg authorId author w)) = trace w ++ new
    ∧ (∀ r a, In (Call r a) new → r = Fetch author_by_id [("id", authorId)])
    ∧ (∀ a, fst (ensureAuthor X cfg authorId author w) = Ok a →
            a = authorId
            ∧ ∃ found, answered X (Fetch author_by_id [("id", authorId)]) found
                       ∧ truthy (prop_opt found "_id") = true).
Proof.
  intros Hid. unfold ensureAuthor. rewrite Hid.
  set (lookup := Fetch author_by_id [("id", authorId)]).
  assert (adds (fun e => match e with Call r _ => r = lookup | _ => True end)
            (exists_ ← withRetry (perform X lookup)
                         ("fetch author " +:+ to_string authorId);
             if negb (truthy (prop_opt exists_ "_id"))
             then kthrow (Error ("authorId not found: " +:+ to_string authorId))
             else mret authorId)) as Hadds.
  { apply adds_bind.
    - apply adds_withRetry; [now apply adds_perform | intros; exact I | intros; exact I].
    - intros found. destruct (negb _); [apply adds_throw | apply adds_ret]. }
  destruct (Hadds w) as (new & E & Hnew). exists new. split; [exact E|]. split.
  - intros r a Hin. rewrite Forall_forall in Hnew.
    apply (Hnew (Call r a)). now apply list_elem_of_In.
  - intros a Ha.
    match goal with H : fst (?m w) = Ok a |- _ => destruct (m w) as [res w'] eqn:Hrun end.
    cbn [fst] in Ha. subst res. kinv Hrun.
    apply retried_answered in Hstep as [Hans _].
    destruct (truthy (prop_opt a0 "_id")) eqn:Hfound; cbn [negb] in Hrun;
      [|discriminate].
    kinv Hrun. eauto.
Qed.

End WithExternals.

(** The sample post under [--only another-post]. *)
Lemma skipped_file_stays_offline_witness :
  (∃ only, ONLY (Config true false (Some "another-post")) = Some only
           ∧ Str.nonempty only = true)
  ∧ ∃ new,
      trace (snd (importFile ImportSamples.sampleX (Config true false (Some "another-post"))
                    "/posts/hello.md" 0 1 ImportSamples.start))
      = trace ImportSamples.start ++ new
      ∧ network_calls new = []
      ∧ assetCache (snd (importFile ImportSamples.sampleX
                           (Config true false (Some "another-post"))
                           "/posts/hello.md" 0 1 ImportSamples.start))
        = assetCache ImportSamples.start.
Proof.
  apply (skipped_file_stays_offline ImportSamples.sampleX
           (Config true false (Some "another-post")) "/posts/hello.md" 0 1
           ImportSamples.start).
  vm_compute. reflexivity.
Defined.

(** The sample post in write mode: requests are made, so it was valid. *)
Lemma requests_only_after_validation_witness :
  ∃ raw fm content,
    answered ImportSamples.sampleX (ReadFile "/posts/hello.md" (Some "utf8")) raw
    ∧ matter ImportSamples.sampleX (to_string raw) = Ok (fm, content)
    ∧ Validate.validateFrontmatter (Date_parse ImportSamples.sampleX) fm "/posts/hello.md"
      = Ok tt.
Proof.
  apply (requests_only_after_validation ImportSamples.sampleX ImportSamples.realRun
           "/posts/hello.md" 0 1 ImportSamples.start
           (trace (snd (importFile ImportSamples.sampleX ImportSamples.realRun
                          "/posts/hello.md" 0 1 ImportSamples.start)))).
  - reflexivity.
  - vm_compute. discriminate.
Defined.

(** An author given by identifier, whom the backend finds by it: the
    identifier comes back, after the one lookup. *)
Lemma given_author_is_only_looked_up_witness :
  fst (ensureAuthor TwoRunsSamples.knowingX ImportSamples.realRun
         (VStr "author-doc-spinard") VUndef ImportSamples.start)
  = Ok (VStr "author-doc-spinard")
  ∧ ∃ new,
      trace (snd (ensureAuthor TwoRunsSamples.knowingX ImportSamples.realRun
                    (VStr "author-doc-spinard") VUndef ImportSamples.start))
      = trace ImportSamples.start ++ new
      ∧ new = [Call (Fetch author_by_id [("id", VStr "author-doc-spinard")])
                 (Ok (VObj [("_id", VStr "author-doc-spinard")]))]
      ∧ (∀ r a, In (Call r a) new →
                r = Fetch author_by_id [("id", VStr "author-doc-spinard")])
      ∧ ∃ found,
          answered TwoRunsSamples.knowingX
            (Fetch author_by_id [("id", VStr "author-doc-spinard")]) found
          ∧ truthy (prop_opt found "_id") = true.
Proof.
  assert (fst (ensureAuthor TwoRunsSamples.knowingX ImportSamples.realRun
                 (VStr "author-doc-spinard") VUndef ImportSamples.start)
          = Ok (VStr "author-doc-spinard")) as Hrun by (vm_compute; reflexivity).
  split; [exact Hrun|].
  destruct (given_author_is_only_looked_up TwoRunsSamples.knowingX ImportSamples.realRun
              (VStr "author-doc-spinard") VUndef ImportSamples.start eq_refl)
    as (new & E & Hcalls & Hback).
  exists new. split; [exact E|]. split; [|split; [exact Hcalls|]].
  - cbn [ImportSamples.start trace app] in E. rewrite <- E. vm_compute. reflexivity.
  - destruct (Hback _ Hrun) as [_ Hfound]. exact Hfound.
Defined.

End OfflineFacts.

(* ------------------------------------------------------------------ *)
(** ** Attempts, waits and the upsert *)
(* ------------------------------------------------------------------ *)
Module RetryTraceFacts.
Import KFacts Importer TraceFacts TwoRuns TwoRunsFacts ImportFacts OfflineFacts RetrySpec.

Lemma sleeps_retry_events (r : request) (context : string) (answers : list (result value)) :
  1 <= length answers <= 3 →
  sleeps (retry_events r context 3 1000 1 answers)
  = firstn (length answers - 1) [1000; 2000]%Z.
Proof.
  intros Hlen. destruct answers as [|a [|b [|c [|d rest]]]]; cbn [length] in Hlen;
    try lia; reflexivity.
Qed.

(** A request under the retry wrapper of the importer is sent at most three
    times; after every attempt but the last the wrapper logs a retry line and
    waits, one second and then two; every attempt but the last failed on a
    transient condition, and the outcome is that of the last attempt. *)
Theorem withRetry_three_tries (X : externals) (r : request) (context : string)
  (w : world) :
  ∃ answers,
    1 <= length answers <= 3
    ∧ trace (snd (withRetry (perform X r) context w))
      = trace w ++ retry_events r context 3 1000 1 answers
    ∧ fst (withRetry (perform X r) context w) = List.last answers (Ok VUndef)
    ∧ Forall transient_failure (removelast answers)
    ∧ sleeps (retry_events r context 3 1000 1 answers)
      = firstn (length answers - 1) [1000; 2000]%Z.
Proof.
  unfold withRetry, Retry.withRetry.
  destruct (attempts_shape X r 3 1000 context 3 1 w) as (answers & Hlen & Htr & Hres & Hf);
    [lia | lia |].
  exists answers. repeat split; try tauto. now apply sleeps_retry_events.
Qed.

(** Among the attempts of a successful upsert one is answered, the last. *)
Lemma upserted_retry (doc : value) (context : string) (maxRetries : nat) (baseDelay : Z)
  (answers : list (result value)) (a : value) :
  Forall transient_failure (removelast answers) →
  List.last answers (Ok VUndef) = Ok a →
  ∀ attempt,
    upserted (retry_events (CreateOrReplace doc) context maxRetries baseDelay attempt answers)
    = match answers with [] => [] | _ => [doc] end.
Proof.
  induction answers as [|x answers IH]; intros Hf Hlast attempt; [reflexivity|].
  destruct answers as [|y answers].
  - cbn in Hlast. subst x. reflexivity.
  - cbn [removelast] in Hf. apply Forall_cons in Hf as [(e & -> & _) Hf].
    cbn [retry_events]. unfold upserted in *. cbn [omap].
    change (List.last (Throw e :: y :: answers) (Ok VUndef)) with (List.last (y :: answers) (Ok VUndef))
      in Hlast.
    exact (IH Hf Hlast (S attempt)).
Qed.

Lemma prepare_no_upsert (cfg : config) (new : list event) :
  Forall (prepare_event cfg) new → upserted new = [].
Proof.
  induction 1 as [|e new He _ IH]; [reflexivity|].
  unfold upserted in *.
  destruct e as [| | |r a]; try exact IH. destruct r; try exact IH. destruct He.
Qed.

Lemma upserted_app (a b : list event) : upserted (a ++ b) = upserted a ++ upserted b.
Proof. unfold upserted. apply omap_app. Qed.

(** When [importFile] reports an upsert, one [createOrReplace] was
    answered during it: that of the document it prepared, whose identifier is
    made of the type and the slug; the line that reports it comes last. *)
Theorem upsert_sends_one_document (X : externals) (cfg : config) (file : string)
  (index total : nat) (w : world) (slug : value) :
  fst (importFile X cfg file index total w) = Ok (Upserted slug) →
  ∃ d new,
    fst (prepareDocument X cfg file index total w) = Ok (Some d)
    ∧ p_slug d = slug
    ∧ prop_opt (p_doc d) "_id" = VStr (makeDocumentId cfg "post" slug)
    ∧ trace (snd (importFile X cfg file index total w)) = trace w ++ new
    ∧ upserted new = [p_doc d]
    ∧ List.last new (Log "") = Log ("  [ok] upserted: " +:+ makeDocumentId cfg "post" slug).
Proof.
  unfold importFile. rewrite kbind_step.
  destruct (prepareDocument X cfg file index total w) as [[[d|]|e] w0] eqn:Hprep;
    [|discriminate|discriminate].
  destruct (adds_run _ _ _ _ _ (prepareDocument_event X cfg file index total) Hprep)
    as (new0 & E0 & P0).
  assert (p_docId d = makeDocumentId cfg "post" (p_slug d)
          ∧ prop_opt (p_doc d) "_id" = VStr (makeDocumentId cfg "post" (p_slug d)))
    as [Hid Hdoc].
  { unfold prepareDocument in Hprep. kinv Hprep.
    destruct (negb a6); [now kinv Hprep|]. kinv Hprep.
    destruct a9; [discriminate|]. kinv Hprep. injection H as ->. now split. }
  destruct (negb (WRITE cfg)).
  { rewrite kbind_step. destruct (log _ w0) as [[[]|e] w1]; discriminate. }
  rewrite kbind_step. unfold withRetry, Retry.withRetry.
  destruct (attempts_shape X (CreateOrReplace (p_doc d)) 3 1000
              ("upsert post " +:+ q +:+ to_string (p_slug d) +:+ q) 3 1 w0)
    as (answers & Hlen & Htr & Hres & Hf); [lia | lia |].
  destruct (Retry.attempts _ _ _ _ _ _ _ _ w0) as [[a|e] w1]; [|discriminate].
  cbn [fst snd] in Htr, Hres. rewrite kbind_step. unfold log. cbv beta iota.
  intros [= <-].
  exists d, (new0 ++ retry_events (CreateOrReplace (p_doc d))
                       ("upsert post " +:+ q +:+ to_string (p_slug d) +:+ q) 3 1000 1 answers
             ++ [Log ("  [ok] upserted: " +:+ p_docId d)]).
  split; [reflexivity|]. split; [reflexivity|]. split; [exact Hdoc|]. split; [|split].
  - unfold mret, ST_ret, kret. cbn [snd add_event trace].
    rewrite Htr, E0. now rewrite <- !List.app_assoc.
  - rewrite !upserted_app, (prepare_no_upsert cfg new0 P0).
    symmetry in Hres. rewrite (upserted_retry _ _ _ _ _ _ Hf Hres).
    destruct answers; [cbn in Hlen; lia | reflexivity].
  - rewrite List.app_assoc, List.last_last. now rewrite Hid.
Qed.

(** The sample post imported in write mode. *)
Lemma upsert_sends_one_document_witness :
  ∃ d new,
    fst (prepareDocument ImportSamples.sampleX ImportSamples.realRun
           "/posts/hello.md" 0 1 ImportSamples.start) = Ok (Some d)
    ∧ p_slug d = VStr "hello-world"
    ∧ prop_opt (p_doc d) "_id"
      = VStr (makeDocumentId ImportSamples.realRun "post" (VStr "hello-world"))
    ∧ trace (snd (importFile ImportSamples.sampleX ImportSamples.realRun
                    "/posts/hello.md" 0 1 ImportSamples.start))
      = trace ImportSamples.start ++ new
    ∧ upserted new = [p_doc d]
    ∧ List.last new (Log "")
      = Log ("  [ok] upserted: "
             +:+ makeDocumentId ImportSamples.realRun "post" (VStr "hello-world")).
Proof.
  apply (upsert_sends_one_document ImportSamples.sampleX ImportSamples.realRun
           "/posts/hello.md" 0 1 ImportSamples.start (VStr "hello-world")).
  vm_compute. reflexivity.
Defined.

End RetryTraceFacts.

(* ------------------------------------------------------------------ *)
(** ** Keys, empty paragraphs and failures of the splitter *)
(* ------------------------------------------------------------------ *)
Module SplitterMoreFacts.
Import Str StrFacts JsFacts KFacts Splitter SplitterSpec SplitterFacts.
Import PipelineSpec PipelineFacts KeysSpec Importer.

(** *** Keys *)

Lemma Forall2_right {A B} (P : B → Prop) (xs : list A) (ys : list B) :
  Forall2 (fun _ y => P y) xs ys → Forall P ys.
Proof. induction 1; constructor; auto. Qed.

Section Keys.
Variable randomHex : nat → string.
Hypothesis drawn_nonempty : keys_nonempty randomHex.

Lemma ensureKey_keyed (v : value) (n : nat) (v' : value) (n' : nat) :
  ensureKey randomHex v n = (Ok v', n') → keyed v' = true.
Proof.
  unfold ensureKey, keyed. intros H. kinv H. apply klift_ok in Hstep as [Hp _].
  destruct (truthy a) eqn:E; kinv H.
  - destruct v; cbn in Hp; try discriminate; injection Hp as <-; exact E.
  - apply generateKey_ok in Hstep as [-> _].
    unfold with_field. cbn [prop_opt]. rewrite lookup_set_same. apply drawn_nonempty.
Qed.

Lemma ensureKeys_keyed (xs : list value) (n : nat) (ys : list value) (n' : nat) :
  ensureKeys randomHex xs n = (Ok ys, n') → Forall well_keyed ys.
Proof.
  intros H. unfold ensureKeys in H.
  apply (kmapM_inv (fun _ y => well_keyed y)) in H; [now apply Forall2_right in H|].
  clear - drawn_nonempty. intros block n y n' _ H. kinv H.
  pose proof (ensureKey_keyed _ _ _ _ Hstep) as Hk.
  destruct (isArray (prop_opt a "children")) eqn:Harr.
  - kinv H.
    apply (kmapM_inv (fun _ c' => keyed c' = true)) in Hstep0;
      [|intros; eapply ensureKey_keyed; eauto].
    apply Forall2_right in Hstep0.
    destruct a as [| | | | | |fs|]; try discriminate Harr.
    unfold well_keyed, keyed in *. cbn [assign prop_opt] in *.
    rewrite lookup_set_other by discriminate. split; [exact Hk|].
    rewrite lookup_set_same. cbn [elems]. intros c Hc.
    rewrite Forall_forall in Hstep0. now apply Hstep0, list_elem_of_In.
  - kinv H. split; [exact Hk|].
    destruct (prop_opt a "children"); try discriminate; intros c [].
Qed.

End Keys.

(** Every item of the body of a post has its key, and so has every child
    of an item with children; no item is a horizontal rule. *)
Theorem body_is_keyed (X : externals) (cfg : config) (file markdown : string)
  (w : world) (body : list value) (b : value) :
  keys_nonempty (randomHex X) →
  fst (markdownToPortableTextWithInlineImages X cfg file markdown w) = Ok body →
  In b body →
  well_keyed b ∧ str_eq (prop_opt b "_type") "horizontal-rule" = false.
Proof.
  intros Hkeys H Hb.
  destruct (markdownToPortableTextWithInlineImages X cfg file markdown w)
    as [r w'] eqn:Hrun.
  cbn [fst] in H. subst r. unfold markdownToPortableTextWithInlineImages in Hrun.
  assert (∀ keyed_blocks n n',
            (∃ xs, ensureKeys (randomHex X) xs n = (Ok keyed_blocks, n')) →
            In b (filterUnsupportedBlocks keyed_blocks) →
            well_keyed b ∧ str_eq (prop_opt b "_type") "horizontal-rule" = false)
    as Hlast.
  { intros ks n n' [xs Hks] Hin. apply filter_In in Hin as [Hin Hf].
    apply ensureKeys_keyed in Hks; [|exact Hkeys].
    rewrite Forall_forall in Hks. split; [now apply Hks, list_elem_of_In|].
    cbn [UNSUPPORTED_BLOCK_TYPES existsb] in Hf. rewrite orb_false_r in Hf.
    now apply negb_true_iff in Hf. }
  apply kbind_ok in Hrun as (pt & w1 & Hpt & Hrun).
  apply liftK_ok in Hpt as [k1 Hpt].
  destruct (Nat.eqb _ 0).
  - kinv Hrun. eapply Hlast; eauto.
  - kinv Hrun. apply liftK_ok in Hstep3 as [k3 Hkeyed]. eapply Hlast; eauto.
Qed.

(** The body of the sample post. *)
Lemma body_is_keyed_witness :
  well_keyed (nth 1 PipelineSamples.helloOut VUndef)
  ∧ str_eq (prop_opt (nth 1 PipelineSamples.helloOut VUndef) "_type") "horizontal-rule"
    = false.
Proof.
  apply (body_is_keyed ImportSamples.sampleX ImportSamples.realRun "/posts/hello.md"
           ImportSamples.helloBody ImportSamples.start PipelineSamples.helloOut).
  - intros n. reflexivity.
  - vm_compute. reflexivity.
  - vm_compute. right. left. reflexivity.
Defined.


(** *** No empty paragraph *)

Section Meaningful.
Variable randomHex : nat → string.
Variables (block : value) (tokens : list string) (tokenToImageBlock : fields).

(** What the splitter puts out: the image of a token, or a paragraph with
    something in it. *)
Definition put_out (b : value) : Prop :=
  (∃ t key, In t tokens ∧ b = imageBlock tokenToImageBlock t key)
  ∨ (∃ cur, b = block_of block cur ∧ hasMeaningfulChildren b = true).

Lemma flush_put_out (st : split_state) (n : nat) (st' : split_state) (n' : nat) :
  Forall put_out (fst st) →
  flushCurrent randomHex block st n = (Ok st', n') → Forall put_out (fst st').
Proof.
  intros Hst H. unfold flushCurrent in H. kinv H. cbn [fst].
  destruct (hasMeaningfulChildren (block_of block (snd st))) eqn:Hm; [|exact Hst].
  apply Forall_app. split; [exact Hst|]. constructor; [|constructor]. right. eauto.
Qed.

Lemma pushFragment_out (c : value) (text : string) (st : split_state) (n : nat)
  (st' : split_state) (n' : nat) :
  pushFragment randomHex c text st n = (Ok st', n') → fst st' = fst st.
Proof.
  unfold pushFragment. intros H. destruct (Nat.ltb 0 (len text)); kinv H; reflexivity.
Qed.

Lemma splitSpan_put_out (c : value) (fuel : nat) :
  ∀ (text : string) (st : split_state) (n : nat) (st' : split_state) (n' : nat),
    Forall put_out (fst st) →
    splitSpan randomHex fuel block tokens tokenToImageBlock c text st n = (Ok st', n') →
    Forall put_out (fst st').
Proof.
  induction fuel as [|fuel IH]; intros text st n st' n' Hst H; simpl in H; [discriminate|].
  destruct (nearestToken tokens text) as [[i t]|] eqn:Hnear.
  - apply nearestToken_some in Hnear as (Ht & _).
    kinv H. apply pushFragment_out in Hstep. rewrite <- Hstep in Hst.
    eapply flush_put_out in Hstep0; eauto.
    eapply IH; [|exact H]. cbn [push_out fst].
    apply Forall_app. split; [exact Hstep0|]. constructor; [|constructor]. left. eauto.
  - apply pushFragment_out in H. now rewrite H.
Qed.

Lemma splitChild_put_out (st : split_state) (child : value) (n : nat)
  (st' : split_state) (n' : nat) :
  Forall put_out (fst st) →
  splitChild randomHex block tokens tokenToImageBlock st child n = (Ok st', n') →
  Forall put_out (fst st').
Proof.
  intros Hst H. unfold splitChild in H. destruct (_ || _).
  - kinv H. exact Hst.
  - eapply splitSpan_put_out; eauto.
Qed.

End Meaningful.

(** Splitting a block never gives an empty paragraph: every block it puts
    out is the image of a token, or a text block with a child that is no span
    or a span whose text is not blank. *)
Theorem split_gives_no_empty_paragraph (randomHex : nat → string) (block : value)
  (tokens : list string) (tokenToImageBlock : fields) (n : nat)
  (out : list value) (n' : nat) (b : value) :
  splitBlockByTokensPreserveMarks randomHex block tokens tokenToImageBlock n
  = (Ok out, n') →
  In b out →
  (∃ t key, In t tokens ∧ b = imageBlock tokenToImageBlock t key)
  ∨ (is_block b = true
     ∧ existsb meaningful_child (elems (prop_opt b "children")) = true).
Proof.
  intros H Hb. unfold splitBlockByTokensPreserveMarks in H. kinv H.
  assert (Forall (put_out block tokens tokenToImageBlock) (fst a1)) as Hst.
  { eapply (kfoldM_inv (fun st => Forall (put_out block tokens tokenToImageBlock) (fst st)));
      [ | |exact Hstep1].
    - intros; eapply splitChild_put_out; eauto.
    - constructor. }
  eapply flush_put_out in Hstep2; eauto.
  rewrite Forall_forall in Hstep2. apply list_elem_of_In, Hstep2 in Hb.
  destruct Hb as [Himg|(cur & -> & Hm)]; [now left|].
  right. split; [reflexivity|]. exact Hm.
Qed.

(** The sample block: its first paragraph. *)
Lemma split_gives_no_empty_paragraph_witness :
  (∃ t key, In t [Samples.token0]
            ∧ nth 0 Samples.mixedOut VUndef = imageBlock Samples.oneImage t key)
  ∨ (is_block (nth 0 Samples.mixedOut VUndef) = true
     ∧ existsb meaningful_child
         (elems (prop_opt (nth 0 Samples.mixedOut VUndef) "children")) = true).
Proof.
  apply (split_gives_no_empty_paragraph Samples.sampleHex Samples.mixedBlock
           [Samples.token0] Samples.oneImage 0 Samples.mixedOut 7).
  - vm_compute. reflexivity.
  - vm_compute. left. reflexivity.
Defined.

(** *** The only failure *)

(** A computation that fails, fails with the [TypeError] of the runtime. *)
Definition only_type_errors {A} (m : K A) : Prop :=
  ∀ n e, fst (m n) = Throw e → e = TypeError.

Lemma ote_ret {A} (a : A) : only_type_errors (mret a : K A).
Proof. intros n e H. discriminate. Qed.

Lemma ote_bind {A B} (m : K A) (f : A → K B) :
  only_type_errors m → (∀ a, only_type_errors (f a)) → only_type_errors (m ≫= f).
Proof.
  intros Hm Hf n e. unfold mbind, ST_bind, kbind. specialize (Hm n).
  destruct (m n) as [[a|e'] n1]; cbn [fst] in *.
  - apply Hf.
  - intros [= <-]. now apply Hm.
Qed.

Lemma ote_prop (v : value) (k : string) :
  only_type_errors (klift (prop v k)).
Proof. intros n e. destruct v; cbn; intros H; try discriminate; now injection H as <-. Qed.

Lemma ote_iterate (v : value) : only_type_errors (klift (iterate v)).
Proof. intros n e. destruct v; cbn; intros H; try discriminate; now injection H as <-. Qed.

Lemma ote_generateKey (randomHex : nat → string) : only_type_errors (generateKey randomHex).
Proof. intros n e H. discriminate. Qed.

Lemma ote_kfoldM {A T} (f : T → A → K T) (xs : list A) :
  (∀ s x, only_type_errors (f s x)) → ∀ s, only_type_errors (kfoldM f xs s).
Proof.
  intros Hf. induction xs as [|x xs IH]; intros s; cbn [kfoldM].
  - apply ote_ret.
  - apply ote_bind; [apply Hf | exact IH].
Qed.

Lemma ote_kmapM {A B} (f : A → K B) (xs : list A) :
  (∀ x, only_type_errors (f x)) → only_type_errors (kmapM f xs).
Proof.
  intros Hf. induction xs as [|x xs IH]; cbn [kmapM].
  - apply ote_ret.
  - apply ote_bind; [apply Hf | intros y].
    apply ote_bind; [exact IH | intros ys; apply ote_ret].
Qed.

Section Failures.
Variable randomHex : nat → string.
Variables (tokens : list string) (tokenToImageBlock : fields).

Ltac ote :=
  repeat first
    [ apply ote_ret | apply ote_generateKey | apply ote_prop
    | apply ote_iterate
    | apply ote_bind; [|intros]
    | match goal with |- only_type_errors (if ?b then _ else _) => destruct b end ].

Lemma ote_ensureKey (v : value) : only_type_errors (ensureKey randomHex v).
Proof. unfold ensureKey. ote. Qed.

Lemma ote_flushCurrent (block : value) (st : split_state) :
  only_type_errors (flushCurrent randomHex block st).
Proof. unfold flushCurrent, newCurrent. ote. Qed.

Lemma ote_pushFragment (c : value) (text : string) (st : split_state) :
  only_type_errors (pushFragment randomHex c text st).
Proof. unfold pushFragment. ote. Qed.

(** The loop over a span does not run out of rounds: every round takes a
    token, which is not empty, off the text. *)
Lemma ote_splitSpan (block c : value) (fuel : nat) :
  ∀ (text : string) (st : split_state),
    len text < fuel →
    only_type_errors (splitSpan randomHex fuel block tokens tokenToImageBlock c text st).
Proof.
  induction fuel as [|fuel IH]; intros text st Hlen; [lia|].
  cbn [splitSpan]. destruct (nearestToken tokens text) as [[i t]|] eqn:Hnear;
    [|apply ote_pushFragment].
  apply nearestToken_some in Hnear as (_ & Hne & Hi & _).
  apply indexOf_split in Hi as [_ Hi]. apply nonempty_len in Hne.
  apply ote_bind; [apply ote_pushFragment | intros st1].
  apply ote_bind; [apply ote_flushCurrent | intros st2].
  apply ote_bind; [apply ote_generateKey | intros key].
  apply IH. rewrite len_drop. lia.
Qed.

Lemma ote_splitBlock (block : value) :
  only_type_errors
    (splitBlockByTokensPreserveMarks randomHex block tokens tokenToImageBlock).
Proof.
  unfold splitBlockByTokensPreserveMarks, newCurrent. ote.
  apply ote_kfoldM. intros st child. unfold splitChild.
  destruct (_ || _); [apply ote_bind; [apply ote_ensureKey | intros; apply ote_ret]|].
  apply ote_splitSpan. lia.
Qed.

Lemma ote_replaceBlock (b : value) :
  only_type_errors (replaceBlock randomHex tokens tokenToImageBlock b).
Proof.
  unfold replaceBlock. destruct (negb _).
  - apply ote_bind; [apply ote_ensureKey | intros; apply ote_ret].
  - destruct (find _ tokens) as [t|]; [destruct (nonempty t)|];
      try (destruct (blockContainsAnyToken b tokens); [apply ote_splitBlock | apply ote_ret]).
    ote.
Qed.

End Failures.

(** Whatever the blocks and the token map,
    [replaceTokensWithImageBlocksPreserveMarks] returns, or fails with the
    runtime's [TypeError] (an item or a child that is [null] or
    [undefined], children that are no array); the loop that splits a span
    always ends. *)
Theorem replace_fails_with_type_errors_only (randomHex : nat → string)
  (ptBlocks : list value) (tokenToImageBlock : fields) (n : nat) (e : exn) :
  fst (replaceTokensWithImageBlocksPreserveMarks randomHex ptBlocks tokenToImageBlock n)
  = Throw e →
  e = TypeError.
Proof.
  revert n e. change (only_type_errors
    (replaceTokensWithImageBlocksPreserveMarks randomHex ptBlocks tokenToImageBlock)).
  unfold replaceTokensWithImageBlocksPreserveMarks. apply ote_kfoldM.
  intros out block. apply ote_bind; [apply ote_replaceBlock | intros; apply ote_ret].
Qed.

(** A block sequence with [null] in it. *)
Lemma replace_fails_with_type_errors_only_witness :
  ∃ e,
    fst (replaceTokensWithImageBlocksPreserveMarks Samples.sampleHex
           [Samples.mixedBlock; VNull] Samples.oneImage 0) = Throw e
    ∧ e = TypeError.
Proof.
  exists TypeError. split; [vm_compute; reflexivity|].
  apply (replace_fails_with_type_errors_only Samples.sampleHex
           [Samples.mixedBlock; VNull] Samples.oneImage 0 TypeError).
  vm_compute. reflexivity.
Defined.

End SplitterMoreFacts.

(* ------------------------------------------------------------------ *)
(** ** Texts without images, slugs and identifiers *)
(* ------------------------------------------------------------------ *)
Module TextFacts.
Import Str StrFacts Extract ExtractFacts Importer.

(** *** A text without image syntax *)

(** The image pattern matches only what starts with an exclamation mark
    and an opening bracket. *)
Lemma match_img_start (s : string) (x : string * captures) :
  match_img s = Some x → String.prefix "![" s = true.
Proof.
  unfold match_img, IMG_RE. cbn [seq_of match_re].
  destruct s as [|c [|c' s]]; try discriminate.
  - destruct (Ascii.eqb "!" c); discriminate.
  - destruct (Ascii.eqb_spec "!" c) as [<-|]; [|discriminate].
    destruct (Ascii.eqb_spec "[" c') as [<-|]; [|discriminate].
    intros _. apply prefix_iff. now exists s.
Qed.

Lemma replace_go_plain (s : string) (imgs : list image) :
  indexOf s "![" = None → replace_go s 0 imgs = (s, imgs).
Proof.
  induction s as [|c s IH]; intros H.
  - reflexivity.
  - rewrite indexOf_eq in H.
    destruct (String.prefix "![" (String c s)) eqn:Hp; [discriminate|].
    cbn [replace_go].
    destruct (match_img (String c s)) as [x|] eqn:Hm;
      [apply match_img_start in Hm; congruence|].
    destruct (indexOf s "![") eqn:Hi; [discriminate|].
    now rewrite IH.
Qed.

(** A text in which no exclamation mark is followed by an opening bracket
    comes back from the extractor as it is, with no image. *)
Theorem extract_plain_text_unchanged (markdown : string) :
  includes markdown "![" = false →
  extractInlineImages markdown = mkExtraction markdown [].
Proof.
  unfold includes, extractInlineImages. intros H.
  destruct (indexOf markdown "![") eqn:Hi; [discriminate|].
  now rewrite replace_go_plain.
Qed.

Lemma extract_plain_text_unchanged_witness :
  extractInlineImages "Hello! [a link](https://example.org)"
  = mkExtraction "Hello! [a link](https://example.org)" [].
Proof. apply extract_plain_text_unchanged. vm_compute. reflexivity. Defined.


(** *** Slugs *)

Import SlugSpec.

Lemma dash_is (c : ascii) : is_dash c = true → c = "-"%char.
Proof. apply Ascii.eqb_eq. Qed.

Lemma slug_char_no_dash (c : ascii) : is_slug_char c = true → is_dash c = false.
Proof.
  intros H. destruct (is_dash c) eqn:E; [|reflexivity].
  apply dash_is in E. subst c. discriminate H.
Qed.

Ltac by_code :=
  repeat match goal with
         | H : context [Nat.leb ?a ?b] |- _ => destruct (Nat.leb_spec a b)
         | |- context [Nat.leb ?a ?b] => destruct (Nat.leb_spec a b)
         | H : context [Nat.eqb ?a ?b] |- _ => destruct (Nat.eqb_spec a b)
         | |- context [Nat.eqb ?a ?b] => destruct (Nat.eqb_spec a b)
         end;
  cbn in *; try discriminate; try reflexivity; try lia.

Lemma slug_char_no_ws (c : ascii) : is_slug_char c = true → is_ws c = false.
Proof. unfold is_slug_char, is_ws. generalize (nat_of_ascii c). intros n H. by_code. Qed.

Lemma slug_char_lower (c : ascii) : is_slug_char c = true → lower_char c = c.
Proof.
  unfold is_slug_char, lower_char. generalize (nat_of_ascii c) at 1 2 3 4 5 6 7 8 9.
  intros n H. by_code.
Qed.

(** A character of a tidy string. *)
Definition slug_or_dash (c : ascii) : bool := is_slug_char c || is_dash c.

Lemma tidy_cons (c : ascii) (r : string) :
  tidy (String c r)
  = if is_slug_char c then tidy r
    else is_dash c
         && match r with
            | EmptyString => true
            | String c' _ => is_slug_char c'
            end
         && tidy r.
Proof. reflexivity. Qed.

Lemma tidy_head (c : ascii) (r : string) :
  tidy (String c r) = true → slug_or_dash c = true ∧ tidy r = true.
Proof.
  unfold slug_or_dash. cbn [tidy]. destruct (is_slug_char c); [auto|].
  intros [[H1 _]%andb_true_iff H2]%andb_true_iff. auto.
Qed.

Lemma plain_no_ws (c : ascii) : slug_or_dash c = true → is_ws c = false.
Proof.
  intros [H|H]%orb_true_iff; [now apply slug_char_no_ws|].
  apply dash_is in H. now subst.
Qed.

Lemma plain_lower (c : ascii) : slug_or_dash c = true → lower_char c = c.
Proof.
  intros [H|H]%orb_true_iff; [now apply slug_char_lower|].
  apply dash_is in H. now subst.
Qed.

(** [collapse] gives tidy strings. *)
Lemma collapse_tidy (s : string) :
  ∀ in_run, tidy (collapse s in_run) = true
            ∧ (in_run = true → starts_with_dash (collapse s in_run) = false).
Proof.
  induction s as [|c s IH]; intros in_run; [now split|].
  cbn [collapse]. destruct (is_slug_char c) eqn:Hc.
  - cbn [tidy starts_with_dash]. rewrite Hc. split; [apply IH|].
    intros _. now apply slug_char_no_dash.
  - destruct in_run; [apply IH|].
    destruct (IH true) as [Ht Hs]. specialize (Hs eq_refl).
    split; [|discriminate]. cbn [tidy]. change (is_slug_char "-") with false.
    cbn [is_dash Ascii.eqb andb]. rewrite Ht, andb_true_r.
    destruct (collapse s true) as [|c' r]; [reflexivity|].
    apply tidy_head in Ht as [Hp _]. cbn [starts_with_dash] in Hs.
    unfold slug_or_dash in Hp. rewrite Hs, orb_false_r in Hp. exact Hp.
Qed.

Lemma strip_head (c : ascii) (r : string) :
  is_dash c = false → ∃ r', strip_trailing_dash (String c r) = String c r'.
Proof.
  intros Hc. destruct r as [|c' r]; cbn [strip_trailing_dash].
  - unfold is_dash in Hc. rewrite Hc. eauto.
  - eauto.
Qed.

Lemma strip_tidy (s : string) :
  tidy s = true →
  tidy (strip_trailing_dash s) = true
  ∧ ends_with_dash (strip_trailing_dash s) = false.
Proof.
  induction s as [|c r IH]; intros Ht; [now split|].
  destruct r as [|c' r'].
  - cbn [strip_trailing_dash]. fold (is_dash c).
    destruct (is_dash c) eqn:Hd; [now split|]. split; [exact Ht|]. exact Hd.
  - change (strip_trailing_dash (String c (String c' r')))
      with (String c (strip_trailing_dash (String c' r'))).
    pose proof Ht as Ht0. cbn [tidy] in Ht.
    destruct (is_slug_char c) eqn:Hc.
    + destruct (IH Ht) as [Ht' He]. split.
      * cbn [tidy]. now rewrite Hc.
      * destruct (strip_trailing_dash (String c' r')) as [|x y] eqn:E;
          [cbn; now apply slug_char_no_dash | exact He].
    + apply andb_true_iff in Ht as [[Hd Hc']%andb_true_iff Ht].
      destruct (IH Ht) as [Ht' He].
      destruct (strip_head c' r' (slug_char_no_dash _ Hc')) as [r'' E].
      rewrite E in *. split; [|exact He].
      rewrite tidy_cons, Hc, Hd, Hc'. exact Ht'.
Qed.

Lemma strip_start (s : string) :
  starts_with_dash s = false → starts_with_dash (strip_trailing_dash s) = false.
Proof.
  destruct s as [|c r]; [auto|]. cbn [starts_with_dash]. intros Hc.
  destruct (strip_head c r Hc) as [r' ->]. exact Hc.
Qed.

Lemma strip_dashes_slug (s : string) :
  tidy s = true → nonempty (strip_dashes s) = true → is_slug (strip_dashes s) = true.
Proof.
  intros Ht Hne. unfold is_slug. rewrite Hne. cbn [andb].
  destruct s as [|c r]; [discriminate Hne|]. cbn [strip_dashes] in *. fold (is_dash c) in *.
  destruct (is_dash c) eqn:Hd.
  - pose proof Ht as Ht0. cbn [tidy] in Ht.
    destruct (is_slug_char c) eqn:Hc;
      [apply slug_char_no_dash in Hc; congruence|].
    apply andb_true_iff in Ht as [[_ Hh]%andb_true_iff Ht].
    destruct (strip_tidy r Ht) as [Ht' He]. rewrite Ht', He. cbn [andb negb].
    rewrite andb_true_r. apply negb_true_iff, strip_start.
    destruct r as [|c' r']; [reflexivity|]. now apply slug_char_no_dash.
  - destruct (strip_tidy _ Ht) as [Ht' He]. rewrite Ht', He. cbn [andb negb].
    rewrite andb_true_r. now apply negb_true_iff, strip_start.
Qed.

(** Whatever it is given, [slugify] returns a slug: words of lower-case
    letters and digits joined by single dashes, with no dash at either end;
    or it throws. *)
Theorem slugify_gives_slug (input : value) (s : string) :
  slugify input = Ok s → is_slug s = true.
Proof.
  unfold slugify.
  set (raw := collapse (toLowerCase (trim (to_string (or_else input (VStr ""))))) false).
  destruct (nonempty (strip_dashes raw)) eqn:Hne; [|discriminate].
  intros [= <-]. apply strip_dashes_slug; [|exact Hne]. apply collapse_tidy.
Qed.

Lemma slugify_gives_slug_witness : is_slug "hello-world" = true.
Proof.
  apply (slugify_gives_slug (VStr "  Hello, World!  ") "hello-world").
  vm_compute. reflexivity.
Defined.

(** *** A slug is left as it is *)

Lemma trimStart_plain (s : string) :
  tidy s = true → trimStart s = s.
Proof.
  destruct s as [|c r]; [reflexivity|]. intros [Hp _]%tidy_head.
  cbn [trimStart]. now rewrite (plain_no_ws _ Hp).
Qed.

Lemma trimEnd_plain (s : string) : tidy s = true → trimEnd s = s.
Proof.
  induction s as [|c r IH]; [reflexivity|]. intros [Hp Ht]%tidy_head.
  cbn [trimEnd]. rewrite (IH Ht). destruct r; [|reflexivity].
  now rewrite (plain_no_ws _ Hp).
Qed.

Lemma toLowerCase_plain (s : string) : tidy s = true → toLowerCase s = s.
Proof.
  induction s as [|c r IH]; [reflexivity|]. intros [Hp Ht]%tidy_head.
  cbn [toLowerCase]. now rewrite (plain_lower _ Hp), (IH Ht).
Qed.

Lemma collapse_plain (s : string) :
  ∀ in_run, tidy s = true → (in_run = true → starts_with_dash s = false) →
            collapse s in_run = s.
Proof.
  induction s as [|c r IH]; intros in_run Ht Hs; [reflexivity|].
  cbn [collapse]. pose proof Ht as Ht0. cbn [tidy] in Ht.
  destruct (is_slug_char c) eqn:Hc.
  - f_equal. apply IH; [exact Ht | discriminate].
  - apply andb_true_iff in Ht as [[Hd Hh]%andb_true_iff Ht].
    destruct in_run; [specialize (Hs eq_refl); cbn in Hs; congruence|].
    apply dash_is in Hd. subst c. f_equal. apply IH; [exact Ht|].
    intros _. destruct r as [|c' r']; [reflexivity|]. now apply slug_char_no_dash.
Qed.

Lemma strip_plain (s : string) :
  ends_with_dash s = false → strip_trailing_dash s = s.
Proof.
  induction s as [|c r IH]; [reflexivity|]. intros He.
  destruct r as [|c' r'].
  - cbn in *. fold (is_dash c). now rewrite He.
  - change (strip_trailing_dash (String c (String c' r')))
      with (String c (strip_trailing_dash (String c' r'))).
    f_equal. apply IH. exact He.
Qed.

(** [slugify] leaves a slug as it is: applied to what it returned it
    returns the same. *)
Theorem slugify_keeps_slug (s : string) :
  is_slug s = true → slugify (VStr s) = Ok s.
Proof.
  unfold is_slug.
  intros [[[Hne Ht]%andb_true_iff Hs%negb_true_iff]%andb_true_iff He%negb_true_iff]%andb_true_iff.
  unfold slugify, or_else. cbn [truthy to_string]. rewrite Hne. cbn [to_string].
  unfold trim. rewrite (trimStart_plain _ Ht), (trimEnd_plain _ Ht),
    (toLowerCase_plain _ Ht).
  rewrite (collapse_plain s false Ht) by discriminate.
  assert (strip_dashes s = s) as ->.
  { destruct s as [|c r]; [reflexivity|]. cbn [strip_dashes starts_with_dash] in *.
    fold (is_dash c). rewrite Hs. now apply strip_plain. }
  now rewrite Hne.
Qed.

Lemma slugify_keeps_slug_witness : slugify (VStr "hello-world") = Ok "hello-world".
Proof. apply slugify_keeps_slug. vm_compute. reflexivity. Defined.

End TextFacts.

(* ------------------------------------------------------------------ *)
(** ** Slugs and document ids across a run *)
(* ------------------------------------------------------------------ *)
Module SlugFacts.
Import Importer SlugSpec.

Lemma same_key_eq (a b : value) : same_key a b = true → a = b.
Proof.
  destruct a, b; cbn; try discriminate; try reflexivity.
  - intros H. apply Bool.eqb_prop in H. now subst.
  - intros H. apply String.eqb_eq in H. now subst.
  - intros H. apply String.eqb_eq in H. now subst.
Qed.

Lemma map_get_set_same (k : value) (v : string) (m : list (value * string)) :
  same_key k k = true → map_get k (map_set k v m) = Some v.
Proof.
  intros Hk. induction m as [|[k' v'] m IH]; cbn.
  - now rewrite Hk.
  - destruct (same_key k' k) eqn:E; cbn; now rewrite E.
Qed.

Lemma map_get_set_other (k k' : value) (v : string) (m : list (value * string)) :
  same_key k' k = false → same_key k k = true →
  map_get k (map_set k' v m) = map_get k m.
Proof.
  intros Hd Hk. induction m as [|[k0 v0] m IH]; cbn.
  - now rewrite Hd.
  - destruct (same_key k0 k') eqn:E; cbn.
    + destruct (same_key k0 k) eqn:E'; [|reflexivity].
      apply same_key_eq in E, E'. subst. congruence.
    + now rewrite IH.
Qed.

(** One check leaves the owner of a slug as it is. *)
Lemma check_keeps_owner (slug : value) (owner : string) (slug' : value) (file : string)
  (w : world) :
  map_get slug (slugToFile w) = Some owner →
  map_get slug (slugToFile (snd (checkSlugCollision slug' file w))) = Some owner.
Proof.
  intros Hown.
  assert (same_key slug slug = true) as Hk.
  { clear - Hown. induction (slugToFile w) as [|[k v] m IH]; [discriminate|].
    cbn in Hown. destruct (same_key k slug) eqn:E; [|auto].
    pose proof (same_key_eq _ _ E) as ->. exact E. }
  unfold checkSlugCollision.
  destruct (same_key slug' slug) eqn:E.
  - apply same_key_eq in E. subst slug'. rewrite Hown.
    destruct (String.eqb owner file) eqn:Ef; cbn; [|exact Hown].
    apply String.eqb_eq in Ef. subst. now apply map_get_set_same.
  - destruct (map_get slug' (slugToFile w)) as [existing|];
      [destruct (negb _)|]; cbn; try exact Hown;
      now rewrite map_get_set_other.
Qed.

Lemma checks_keep_owner (slug : value) (owner : string) (cs : list (value * string)) :
  ∀ w, map_get slug (slugToFile w) = Some owner →
       map_get slug (slugToFile (checks cs w)) = Some owner.
Proof.
  induction cs as [|[slug' file] cs IH]; intros w Hown; [exact Hown|].
  unfold checks. cbn [fold_left fst snd]. apply IH. now apply check_keeps_owner.
Qed.

(** The first file that comes with a slug is recorded as its owner and no
    collision is reported. From then on, whatever is checked in between,
    every other file that comes with this slug is reported as a collision,
    and the first file stays the recorded owner. *)
Theorem first_file_owns_slug (slug : value) (first other : string)
  (cs : list (value * string)) (w : world) :
  same_key slug slug = true →
  map_get slug (slugToFile w) = None →
  other ≠ first →
  let w1 := snd (checkSlugCollision slug first w) in
  let later := checkSlugCollision slug other (checks cs w1) in
  fst (checkSlugCollision slug first w) = Ok false
  ∧ fst later = Ok true
  ∧ map_get slug (slugToFile (snd later)) = Some first.
Proof.
  intros Hk Hnone Hne w1 later.
  assert (map_get slug (slugToFile w1) = Some first) as H1.
  { subst w1. unfold checkSlugCollision. rewrite Hnone. cbn.
    now apply map_get_set_same. }
  split; [unfold checkSlugCollision; now rewrite Hnone|].
  pose proof (checks_keep_owner slug first cs w1 H1) as H2.
  split; [|subst later; now apply check_keeps_owner].
  subst later. unfold checkSlugCollision. rewrite H2.
  destruct (String.eqb first other) eqn:E; [|reflexivity].
  apply String.eqb_eq in E. congruence.
Qed.

Lemma first_file_owns_slug_witness :
  let w1 := snd (checkSlugCollision (VStr "hello") "/posts/a.md" ImportSamples.start) in
  let later := checkSlugCollision (VStr "hello") "/posts/b.md"
                 (checks [(VStr "other", "/posts/c.md"); (VStr "hello", "/posts/a.md")] w1) in
  fst (checkSlugCollision (VStr "hello") "/posts/a.md" ImportSamples.start) = Ok false
  ∧ fst later = Ok true
  ∧ map_get (VStr "hello") (slugToFile (snd later)) = Some "/posts/a.md".
Proof.
  apply (first_file_owns_slug (VStr "hello") "/posts/a.md" "/posts/b.md").
  - reflexivity.
  - reflexivity.
  - discriminate.
Defined.

(** *** Document ids *)

Lemma sapp_inv_head (p a b : string) : p +:+ a = p +:+ b → a = b.
Proof. induction p as [|c p IH]; cbn; [auto|]. intros [= H]. auto. Qed.

(** Two documents of the importer, posts or authors, get the same id only
    when they are of the same type and their slugs read the same: posts
    with different slugs never share a document, and a post never shares
    one with an author. *)
Theorem document_ids_distinct (cfg : config) (type1 type2 : string) (slug1 slug2 : value) :
  In type1 ["post"; "author"] → In type2 ["post"; "author"] →
  makeDocumentId cfg type1 slug1 = makeDocumentId cfg type2 slug2 →
  type1 = type2 ∧ to_string slug1 = to_string slug2.
Proof.
  intros H1 H2. unfold makeDocumentId.
  assert (type1 +:+ "-" +:+ to_string slug1 = type2 +:+ "-" +:+ to_string slug2
          → type1 = type2 ∧ to_string slug1 = to_string slug2) as Hbase.
  { cbn in H1, H2.
    destruct H1 as [<-|[<-|[]]], H2 as [<-|[<-|[]]]; cbn;
      try discriminate; intros [= H]; auto. }
  destruct (DRAFT cfg); [|exact Hbase].
  intros H. apply sapp_inv_head in H. auto.
Qed.

Lemma document_ids_distinct_witness :
  "post" = "post" ∧ to_string (VStr "hello") = to_string (VStr "hello").
Proof.
  apply (document_ids_distinct ImportSamples.dryRun "post" "post" (VStr "hello") (VStr "hello")).
  - cbn. auto.
  - cbn. auto.
  - reflexivity.
Defined.

End SlugFacts.

(* ------------------------------------------------------------------ *)
(** ** The body: paths are checked before anything is uploaded *)
(* ------------------------------------------------------------------ *)
Module BodyFacts.
Import KFacts Extract Importer TraceFacts DryRunFacts TwoRunsFacts ImportFacts OfflineFacts BodySpec.

Section WithExternals.
Variable X : externals.
Variable cfg : config.

Lemma missing_file_offline (p : value) (w : world) (r : result bool) (w' : world) :
  missing_file X p w = (r, w') → offline w w'.
Proof.
  apply offline_run; unfold missing_file; destruct (negb (truthy p)).
  - apply adds_ret.
  - apply adds_bind; [now apply adds_perform | intros; apply adds_ret].
  - apply keeps_ret.
  - apply keeps_bind; [apply keeps_perform | intros; apply keeps_ret].
Qed.

Lemma resolvePath_string (file p : string) :
  ∃ v, resolvePath X file (VStr p) = Ok v.
Proof. unfold resolvePath. destruct (negb _); [eauto|]. destruct (path_isAbsolute X p); eauto. Qed.

Lemma locateImage_offline (file : string) (img : image) (w : world)
  (r : result (image * string)) (w' : world) :
  locateImage X file img w = (r, w') → offline w w'.
Proof.
  unfold locateImage. rewrite klift_step.
  destruct (resolvePath X file (VStr (src img))) as [abs|e];
    [|intros [= _ <-]; apply offline_refl].
  rewrite kbind_step. destruct (missing_file X abs w) as [[gone|e] w1] eqn:Hm;
    apply missing_file_offline in Hm.
  - destruct gone; intros [= _ <-]; exact Hm.
  - intros [= _ <-]; exact Hm.
Qed.

Lemma locateImage_absent (file : string) (img : image) (w : world) :
  absent X (resolved X file img) →
  ∃ e, fst (locateImage X file img w) = Throw e.
Proof.
  unfold absent, resolved, locateImage. rewrite klift_step.
  destruct (resolvePath_string file (src img)) as [abs ->]. intros Habs.
  rewrite kbind_step. unfold missing_file.
  destruct (negb (truthy abs)); [cbn; eauto|].
  rewrite kbind_step. unfold perform. rewrite Habs. cbn. eauto.
Qed.

Lemma locate_all_absent (file : string) (img : image) (imgs : list image) :
  In img imgs → absent X (resolved X file img) →
  ∀ w, ∃ e w', kmapM (locateImage X file) imgs w = (Throw e, w') ∧ offline w w'.
Proof.
  intros Hin Habs. induction imgs as [|x imgs IH]; [destruct Hin|]. intros w.
  cbn [kmapM]. rewrite kbind_step.
  destruct (locateImage X file x w) as [[d|e] w1] eqn:Hx.
  2:{ exists e, w1. split; [reflexivity|]. eapply locateImage_offline; eauto. }
  pose proof (locateImage_offline _ _ _ _ _ Hx) as Hoff.
  destruct Hin as [->|Hin].
  { destruct (locateImage_absent file img w Habs) as [e He].
    rewrite Hx in He. discriminate He. }
  destruct (IH Hin w1) as (e & w2 & Hrest & Hoff2).
  rewrite kbind_step, Hrest. exists e, w2. split; [reflexivity|].
  eapply offline_trans; eauto.
Qed.

(** The paths of all inline images are checked before anything is
    uploaded: when the file of one of them is not there, the body fails and
    by then nothing was sent over the network and no asset was recorded,
    whatever the other images are. *)
Theorem missing_inline_image_uploads_nothing (file markdown : string) (img : image)
  (w : world) :
  In img (images (extractInlineImages markdown)) →
  absent X (resolved X file img) →
  ∃ e new,
    fst (markdownToPortableTextWithInlineImages X cfg file markdown w) = Throw e
    ∧ trace (snd (markdownToPortableTextWithInlineImages X cfg file markdown w))
      = trace w ++ new
    ∧ network_calls new = []
    ∧ assetCache (snd (markdownToPortableTextWithInlineImages X cfg file markdown w))
      = assetCache w.
Proof.
  intros Hin Habs.
  assert (∃ e w', markdownToPortableTextWithInlineImages X cfg file markdown w = (Throw e, w')
                  ∧ offline w w') as (e & w' & -> & new & E & Q & C).
  { unfold markdownToPortableTextWithInlineImages. rewrite kbind_step.
    match goal with |- context [liftK ?m w] =>
      destruct (liftK m w) as [[pt|e] w1] eqn:Hk;
        (assert (offline w w1) as Hoff
          by (eapply offline_run; [apply adds_liftK | apply keeps_liftK | exact Hk]))
    end;
      [|eauto].
    destruct (images (extractInlineImages markdown)) as [|i0 imgs] eqn:Himgs;
      [destruct Hin|].
    cbn [length Nat.eqb]. rewrite kbind_step.
    destruct (locate_all_absent file img (i0 :: imgs) Hin Habs w1) as (e & w2 & -> & Hoff2).
    exists e, w2. split; [reflexivity|]. eapply offline_trans; eauto. }
  exists e, new. cbn [fst snd]. split; [reflexivity|]. split; [exact E|].
  split; [now apply quiet_no_calls | exact C].
Qed.

End WithExternals.

(** The sample post when the picture of the cat is not there. *)
Lemma missing_inline_image_uploads_nothing_witness :
  let run := markdownToPortableTextWithInlineImages lostCatX ImportSamples.realRun
               "/posts/hello.md" ImportSamples.helloBody ImportSamples.start in
  ∃ e new,
    fst run = Throw e
    ∧ trace (snd run) = trace ImportSamples.start ++ new
    ∧ network_calls new = []
    ∧ assetCache (snd run) = assetCache ImportSamples.start.
Proof.
  apply (missing_inline_image_uploads_nothing lostCatX ImportSamples.realRun
           "/posts/hello.md" ImportSamples.helloBody catImage ImportSamples.start).
  - vm_compute. left. reflexivity.
  - intros t. vm_compute. reflexivity.
Defined.

End BodyFacts.

(* ------------------------------------------------------------------ *)
(** ** The run over all files *)
(* ------------------------------------------------------------------ *)
Module MainFacts.
Import KFacts Importer TraceFacts DryRunFacts ImportFacts OfflineFacts Main.

Definition any_event (_ : event) : Prop := True.

Lemma adds_in {A} (P : event → Prop) (m : M A) (w : world) (e : event) :
  adds P m → In e (trace w) → In e (trace (snd (m w))).
Proof.
  intros Hm Hin. destruct (Hm w) as (new & -> & _). apply in_or_app. now left.
Qed.

Section WithExternals.
Variable X : externals.
Variable cfg : config.
Variable CHECK : bool.
Variable POSTS_DIR SANITY_DATASET : string.

Lemma turn_adds (P : event → Prop) (total : nat) (f : string) (i : nat) (t : tally) :
  adds P (importFile X cfg f i total) → adds P (turn X cfg total f i t).
Proof.
  intros H w. unfold turn. specialize (H w).
  destruct (importFile X cfg f i total w) as [[[]|e] w']; exact H.
Qed.

Lemma loop_adds (P : event → Prop) (total : nat) (files : list string) :
  (∀ f i, adds P (importFile X cfg f i total)) →
  ∀ i t, adds P (loop X cfg total files i t).
Proof.
  intros H. induction files as [|f files IH]; intros i t; cbn [loop].
  - apply adds_ret.
  - apply adds_bind; [now apply turn_adds | intros; apply IH].
Qed.

Lemma main_adds (P : event → Prop) (files : list string) :
  (∀ line, P (Log line)) →
  (∀ f i, adds P (importFile X cfg f i (length files))) →
  adds P (main X cfg CHECK POSTS_DIR SANITY_DATASET files).
Proof.
  intros Hlog H. unfold main.
  repeat (apply adds_bind; [now apply adds_log | intros _]).
  apply adds_bind.
  { destruct (ONLY cfg) as [only|]; [destruct (Str.nonempty only)|];
      first [now apply adds_log | apply adds_ret]. }
  intros _. destruct (Nat.eqb _ 0).
  - apply adds_bind; [now apply adds_log | intros _; apply adds_ret].
  - apply adds_bind; [now apply adds_log | intros _].
    apply adds_bind; [now apply loop_adds | intros t].
    repeat (apply adds_bind; [now apply adds_log | intros _]). apply adds_ret.
Qed.

Lemma importFile_grows (f : string) (i total : nat) :
  adds any_event (importFile X cfg f i total).
Proof.
  unfold importFile. apply adds_bind.
  { eapply adds_impl; [|apply prepareDocument_event]. now intros. }
  intros [d|]; [|apply adds_ret]. destruct (negb (WRITE cfg)).
  - apply adds_bind; [now apply adds_log | intros; apply adds_ret].
  - apply adds_bind.
    { apply adds_withRetry; [now apply adds_perform | now intros | now intros]. }
    intros. apply adds_bind; [now apply adds_log | intros; apply adds_ret].
Qed.

(** *** The counters *)

Lemma turn_counts (total : nat) (f : string) (i : nat) (t : tally) (w : world) :
  ∃ t', fst (turn X cfg total f i t w) = Ok t'
        ∧ ok t' + skipped t' + fail t' = ok t + skipped t + fail t + 1
        ∧ (length (reported t) = fail t → length (reported t') = fail t').
Proof.
  unfold turn. destruct (importFile X cfg f i total w) as [[[]|e] w']; cbn;
    eexists; (split; [reflexivity|]); cbn; (split; [lia|]); auto.
  rewrite length_app. cbn. lia.
Qed.

Lemma loop_counts (total : nat) (files : list string) :
  ∀ i t w,
    ∃ t', fst (loop X cfg total files i t w) = Ok t'
          ∧ ok t' + skipped t' + fail t' = ok t + skipped t + fail t + length files
          ∧ (length (reported t) = fail t → length (reported t') = fail t').
Proof.
  induction files as [|f files IH]; intros i t w; cbn [loop].
  - exists t. cbn. split; [reflexivity|]. split; [lia | auto].
  - rewrite kbind_step. destruct (turn_counts total f i t w) as (t1 & E1 & S1 & R1).
    destruct (turn X cfg total f i t w) as [r1 w1]. cbn [fst] in E1. subst r1.
    destruct (IH (i + 1) t1 w1) as (t2 & E2 & S2 & R2). exists t2.
    split; [exact E2|]. cbn [length]. split; [lia | auto].
Qed.

(** A file that fails does not stop the run and does not make [main] fail:
    every file is counted once, as imported, skipped or failed, one error
    is reported for each file that failed, and [main] leaves with status 2
    exactly when [--check] was given and some file failed. *)
Theorem main_counts_every_file (files : list string) (w : world) :
  ∃ code t,
    fst (main X cfg CHECK POSTS_DIR SANITY_DATASET files w) = Ok (code, t)
    ∧ ok t + skipped t + fail t = length files
    ∧ length (reported t) = fail t
    ∧ (code = Some 2 ↔ CHECK = true ∧ 0 < fail t)
    ∧ (code ≠ Some 2 → code = None).
Proof.
  unfold main. repeat (rewrite kbind_step; cbn [log]).
  match goal with |- context [match ?m ?w0 with _ => _ end] =>
    assert (∃ w1, m w0 = (Ok tt, w1)) as [w1 ->]
      by (destruct (ONLY cfg) as [only|]; [destruct (Str.nonempty only)|]; cbn; eauto)
  end.
  destruct (Nat.eqb (length files) 0) eqn:Hlen.
  - apply Nat.eqb_eq in Hlen. rewrite kbind_step. cbn.
    exists None, (Tally 0 0 0 []). cbn. rewrite Hlen.
    repeat (split; [reflexivity|]). split; [|auto].
    split; [discriminate | intros [_ H]; cbn in H; lia].
  - rewrite kbind_step. cbn [log]. rewrite kbind_step.
    match goal with |- context [loop X cfg ?n files 0 ?t0 ?w2] =>
      destruct (loop_counts n files 0 t0 w2) as (t & E & S & R);
      destruct (loop X cfg n files 0 t0 w2) as [r w3]
    end.
    cbn [fst] in E. subst r. cbn in S. specialize (R eq_refl).
    repeat (rewrite kbind_step; cbn [log]). cbn [fst mret ST_ret kret].
    eexists _, t. split; [reflexivity|]. split; [exact S|]. split; [exact R|].
    destruct CHECK; cbn [andb].
    + destruct (Nat.ltb_spec 0 (fail t)).
      * split; [split; auto | intros H0; now contradiction H0].
      * split; [split; [discriminate | intros [_ H0]; lia] | reflexivity].
    + split; [split; [discriminate | intros [H0 _]; discriminate] | reflexivity].
Qed.

(** *** Every file is tried *)

Lemma importFile_header (f : string) (i total : nat) (w : world) :
  ∃ new, trace (snd (importFile X cfg f i total w))
         = trace w ++ Log (file_line X f i total) :: new.
Proof.
  destruct (prepareDocument_header X cfg f i total) as (rest & E & Hrest).
  unfold importFile. rewrite E. rewrite !kbind_step. cbn [log].
  destruct (Hrest (add_event (Log (file_line X f i total)) w)) as (new1 & E1 & _).
  unfold file_line in *.
  match goal with |- context [rest ?w0] => destruct (rest w0) as [[p|e] w1] end;
    cbn [snd] in E1.
  2:{ exists new1. cbn [snd]. rewrite E1. cbn. now rewrite <- List.app_assoc. }
  match goal with |- context [snd (?k w1)] =>
    assert (adds any_event k) as Hk
  end.
  { destruct p as [d|]; [|apply adds_ret]. destruct (negb (WRITE cfg)).
    - apply adds_bind; [now apply adds_log | intros; apply adds_ret].
    - apply adds_bind.
      { apply adds_withRetry; [now apply adds_perform | now intros | now intros]. }
      intros. apply adds_bind; [now apply adds_log | intros; apply adds_ret]. }
  destruct (Hk w1) as (new2 & E2 & _). exists (new1 ++ new2).
  rewrite E2, E1. cbn. now rewrite <- !List.app_assoc.
Qed.

Lemma loop_tries (total : nat) (files : list string) :
  ∀ i t w k f,
    nth_error files k = Some f →
    In (Log (file_line X f (i + k) total)) (trace (snd (loop X cfg total files i t w))).
Proof.
  induction files as [|f0 files IH]; intros i t w k f Hk; [now destruct k|].
  cbn [loop]. rewrite kbind_step.
  destruct (turn X cfg total f0 i t w) as [r w1] eqn:Hturn.
  assert (∃ t1, r = Ok t1 ∧ w1 = snd (importFile X cfg f0 i total w)) as (t1 & -> & Hw1).
  { unfold turn in Hturn. destruct (importFile X cfg f0 i total w) as [[[]|e] w'];
      injection Hturn as <- <-; eauto. }
  destruct k as [|k]; cbn [nth_error] in Hk.
  - injection Hk as ->. rewrite Nat.add_0_r.
    apply (adds_in any_event); [apply loop_adds; intros; apply importFile_grows|].
    destruct (importFile_header f i total w) as (new & E).
    rewrite Hw1, E. apply in_or_app. right. now left.
  - replace (i + S k) with (i + 1 + k) by lia. now apply IH.
Qed.

(** Every file that was found is tried, whatever happened to the files
    before it: the line that names it, with its place in the run, is among
    the lines printed. *)
Theorem main_tries_every_file (files : list string) (w : world) (k : nat) (f : string) :
  nth_error files k = Some f →
  In (Log (file_line X f k (length files)))
     (trace (snd (main X cfg CHECK POSTS_DIR SANITY_DATASET files w))).
Proof.
  intros Hk. unfold main. repeat (rewrite kbind_step; cbn [log]).
  match goal with |- context [match ?m ?w0 with _ => _ end] =>
    assert (∃ w1, m w0 = (Ok tt, w1)) as [w1 ->]
      by (destruct (ONLY cfg) as [only|]; [destruct (Str.nonempty only)|]; cbn; eauto)
  end.
  destruct (Nat.eqb (length files) 0) eqn:Hlen.
  { apply Nat.eqb_eq in Hlen. destruct files; [now destruct k | discriminate Hlen]. }
  rewrite kbind_step. cbn [log]. rewrite kbind_step.
  match goal with |- context [loop X cfg ?n files 0 ?t0 ?w2] =>
    pose proof (loop_tries n files 0 t0 w2 k f Hk) as Hin;
    destruct (loop_counts n files 0 t0 w2) as (t & E & _);
    destruct (loop X cfg n files 0 t0 w2) as [r w3]
  end.
  cbn [fst] in E. subst r. cbn [snd Nat.add] in Hin.
  match goal with |- In _ (trace (snd (?m w3))) =>
    apply (adds_in any_event m)
  end; [|exact Hin].
  repeat (apply adds_bind; [now apply adds_log | intros _]). apply adds_ret.
Qed.

(** *** A simulated run *)

(** Without [--write] the whole run, failed files and all, sends no write
    to the backend: no author is created, no file uploaded and no post
    upserted. *)
Theorem dry_main_writes_nothing (files : list string) (w : world) :
  WRITE cfg = false →
  ∃ new,
    trace (snd (main X cfg CHECK POSTS_DIR SANITY_DATASET files w)) = trace w ++ new
    ∧ network_writes new = [].
Proof.
  intros dry.
  destruct (main_adds dry_event files) with (w := w) as (new & E & H).
  - now intros.
  - intros f i. now apply importFile_dry.
  - exists new. split; [exact E | now apply dry_no_writes].
Qed.

End WithExternals.

(** A run over the sample post and a second file with the same content. *)
Lemma main_tries_every_file_witness :
  In (Log (file_line ImportSamples.sampleX "/posts/again.md" 1 2))
     (trace (snd (main ImportSamples.sampleX ImportSamples.realRun false "/posts" "production"
                    ["/posts/hello.md"; "/posts/again.md"] ImportSamples.start))).
Proof.
  apply (main_tries_every_file ImportSamples.sampleX ImportSamples.realRun false
           "/posts" "production" ["/posts/hello.md"; "/posts/again.md"]
           ImportSamples.start 1 "/posts/again.md").
  reflexivity.
Defined.

Lemma dry_main_writes_nothing_witness :
  ∃ new,
    trace (snd (main ImportSamples.sampleX ImportSamples.dryRun true "/posts" "production"
                  ["/posts/hello.md"] ImportSamples.start))
    = trace ImportSamples.start ++ new
    ∧ network_writes new = [].
Proof.
  apply (dry_main_writes_nothing ImportSamples.sampleX ImportSamples.dryRun true
           "/posts" "production" ["/posts/hello.md"] ImportSamples.start).
  reflexivity.
Defined.

End MainFacts.

(* ------------------------------------------------------------------ *)
(** ** The asset cache over a run *)
(* ------------------------------------------------------------------ *)
Module CacheFacts.
Import Importer Uploader UploaderFacts.

(** The reads and uploads done for a path. *)
Definition io_path (e : io) : string :=
  match e with
  | IoRead _ p | IoUpload _ p _ => p
  end.

Definition io_for (p : string) (l : list io) : list io :=
  List.filter (fun e => String.eqb (io_path e) p) l.

Lemma io_for_app (p : string) (l1 l2 : list io) :
  io_for p (l1 ++ l2) = io_for p l1 ++ io_for p l2.
Proof. apply List.filter_app. Qed.

Lemma io_for_other (p : string) (new : list io) :
  (∀ e, In e new → io_path e ≠ p) → io_for p new = [].
Proof.
  induction new as [|e new IH]; intros H; [reflexivity|]. cbn.
  destruct (String.eqb_spec (io_path e) p) as [E|_].
  - exfalso. apply (H e); [now left | exact E].
  - apply IH. intros e' He'. apply H. now right.
Qed.

Section WithExternals.
Variable X : externals.
Variable cfg : config.

(** A cached path has no upload under way. *)
Lemma cached_not_pending (s : ustate) (pid : nat) (p : string) (a : nat) (r : bool)
  (id : value) :
  inv cfg s → promises s !! pid = Some (Promise p (Pending a) r) →
  cache s !! p = Some id → False.
Proof.
  intros I Hp Hc. pose proof (inv_pending _ _ I _ _ _ _ Hp) as ->.
  destruct (inv_own _ _ I _ _ _ _ Hp Hc) as [asset H]. discriminate.
Qed.

Lemma step_cached (s s' : ustate) (p : string) (id : value) :
  inv cfg s → step X cfg s s' → cache s !! p = Some id →
  cache s' !! p = Some id ∧ io_for p (iolog s') = io_for p (iolog s).
Proof.
  intros I Hstep. revert I. destruct Hstep as [q file s0 | pid ans s0 | pid s0]; intros I Hc.
  - unfold call. destruct (cache s0 !! q) as [id'|] eqn:Hq; [now split|].
    destruct (inflight s0 !! q) as [pid|]; [now split|].
    destruct (start X cfg (length (promises s0)) q file s0) as [st s1] eqn:Hs.
    apply start_started in Hs. assert (p ≠ q) as Hne by congruence.
    cbn [cache iolog]. split.
    + now rewrite (st_cache_other _ _ _ _ _ _ Hs p Hne).
    + destruct (st_io _ _ _ _ _ _ Hs) as (new & -> & _ & Hnew & _).
      rewrite io_for_app, (io_for_other p new), app_nil_r; [reflexivity|].
      intros e He. destruct (Hnew e He) as [-> | ->]; cbn; congruence.
  - unfold answer.
    destruct (promises s0 !! pid) as [[q [a|asset|e] r]|] eqn:Hold; try now split.
    assert (q ≠ p) as Hne.
    { intros ->. eapply cached_not_pending; eauto. }
    destruct ans as [asset|err].
    + destruct (prop asset "_id") as [id'|e]; cbn [set_promise set_cache cache iolog];
        [|now split].
      split; [now rewrite lookup_insert_ne | reflexivity].
    + destruct (_ || _); cbn [set_promise add_io cache iolog]; [now split|].
      split; [exact Hc|].
      rewrite io_for_app. cbn. destruct (String.eqb_spec q p); [contradiction|].
      now rewrite app_nil_r.
  - unfold resume. destruct (promises s0 !! pid) as [[q st [|]]|]; try now split.
    destruct (settled st); now split.
Qed.

(** A file is uploaded once in a run: once [assetCache] holds an
    identifier for a path, then whatever calls are made, answers arrive
    and callers resume after that, in whatever order, the cache holds that
    identifier for the path, nothing more is read or uploaded for the path,
    and a call for it answers with that identifier from the cache and does
    nothing else. *)
Theorem asset_uploaded_once_per_run (s s' : ustate) (p : string) (id : value) :
  reachable X cfg s → cache s !! p = Some id → rtc (step X cfg) s s' →
  cache s' !! p = Some id
  ∧ io_for p (iolog s') = io_for p (iolog s)
  ∧ ∀ file, call X cfg p file s' = add_call (p, FromCache id) s'.
Proof.
  intros Hr Hc Hsteps. apply reachable_inv in Hr.
  assert (inv cfg s' ∧ cache s' !! p = Some id
          ∧ io_for p (iolog s') = io_for p (iolog s)) as (_ & Hc' & Hio).
  { revert Hr Hc. induction Hsteps as [s|s s1 s2 Hstep _ IH]; intros Hr Hc;
      [split; [exact Hr | split; [exact Hc | reflexivity]]|].
    destruct (step_cached _ _ _ _ Hr Hstep Hc) as [Hc1 Hio1].
    destruct (IH (step_inv _ _ _ _ Hstep Hr) Hc1) as (I2 & Hc2 & Hio2).
    split; [exact I2 | split; [exact Hc2 | congruence]]. }
  split; [assumption | split; [assumption|]].
  intros file. unfold call. now rewrite Hc'.
Qed.

End WithExternals.

(** The picture of the cat after its upload: a refused upload of another
    file and a third call for the picture later, it is still cached, and
    was read and uploaded once. *)
Lemma asset_uploaded_once_per_run_witness :
  let X := ImportSamples.sampleX in
  let cfg := ImportSamples.realRun in
  let later :=
    call X cfg ImportSamples.catPath ImportSamples.catFile
      (resume 1 (answer 1 (Throw ImportSamples.badRequest)
                   (call X cfg "/posts/img/dog.png" ImportSamples.catFile shared))) in
  cache later !! ImportSamples.catPath = Some (prop_opt ImportSamples.catAsset "_id")
  ∧ io_for ImportSamples.catPath (iolog later)
    = [IoRead 0 ImportSamples.catPath; IoUpload 0 ImportSamples.catPath 1]
  ∧ ∀ file, call X cfg ImportSamples.catPath file later
            = add_call (ImportSamples.catPath,
                        FromCache (prop_opt ImportSamples.catAsset "_id")) later.
Proof.
  intros X cfg later.
  apply (asset_uploaded_once_per_run X cfg shared later ImportSamples.catPath
           (prop_opt ImportSamples.catAsset "_id")).
  - exact reachable_shared.
  - vm_compute. reflexivity.
  - unfold later.
    eapply rtc_l; [apply step_call|]. eapply rtc_l; [apply step_answer|].
    eapply rtc_l; [apply step_resume|]. eapply rtc_l; [apply step_call|]. apply rtc_refl.
Defined.

End CacheFacts.
